(** * Edmonds' blossom algorithm (src/src/blossom.ts): embedding and properties

    The TypeScript class [Edmonds] is embedded as a program over an explicit
    mutable [State] (the arrays that the class mutates) and an immutable
    [Graph] (the fields the constructor computes once).  Programs are terms
    of a small free state monad [prog], so that both the result of a run and
    the sequence of stores it goes through can be observed.

    Numbers.  Indices, labels and endpoint ids are [Z].  A validated edge
    weight is the rational that the finite JavaScript number denotes.  Dual
    variables, slacks and delta are JavaScript numbers [number], that is
    IEEE-754 binary64 values: NaN, one of the infinities, or a finite value.
    Every arithmetic result is rounded to the nearest binary64 value, ties
    to even ([round64]), and overflows to an infinity; comparisons with NaN
    are false.  The sign of a zero is not represented: the class adds,
    subtracts, doubles, halves and compares its numbers, and in these
    operations the sign of a zero operand shows in nothing but the sign of
    a zero result.  [JNum q] stands for the number whose value is [q], so
    [q] is meant to be a binary64 value ([isDouble]); [jsNumber q] is the
    value of the literal [q].

    Out-of-range accesses.  Reading an array outside its bounds gives
    [undefined] in JavaScript.  Except where the source visibly handles
    that value ([blossomChilds[b] || []], [indexOf], [find ... ?? -1] and
    the [label[-1]] property read in [expandBlossom]) such a read makes the
    embedded program [Stuck]; writes outside the bounds do the same. *)

From Stdlib Require Import ZArith QArith Qreduction Qround Qpower Qabs Floats
  String Lia Lqa.
From stdpp Require Import base list.

Open Scope Z_scope.
#[local] Unset Default Proof Using.

(** ** Numbers *)

Definition Qltb (a b : Q) : bool :=
  match Qcompare a b with Lt => true | _ => false end.
Definition Qleb (a b : Q) : bool :=
  match Qcompare a b with Gt => false | _ => true end.
Definition Qeqb (a b : Q) : bool :=
  match Qcompare a b with Eq => true | _ => false end.

(** [Math.max] on two finite numbers. *)
Definition jsMax (a b : Q) : Q := if Qltb a b then b else a.

Definition zeroQ : Q := 0%Q.

(** ** JavaScript numbers *)

(** A number is NaN, [Infinity] or [-Infinity], or a finite value, given by
    the rational it denotes. *)
Inductive number : Type :=
| NaN
| Inf (negative : bool)
| Fin (q : Q).

Definition pow2 (e : Z) : Q := (2 ^ e)%Q.

(** [floor (log2 q)] for [0 < q]: the quotient of numerator and denominator
    lies between [2^(l-1)] and [2^(l+1)]. *)
Definition binade (q : Q) : Z :=
  let l := Z.log2 (Qnum q) - Z.log2 (Z.pos (Qden q)) in
  if Qleb (pow2 l) q then l else l - 1.

(** The exponent of the last place of the binary64 values around [q]:
    53 significant bits, and no exponent below that of the subnormal
    numbers, [-1074]. *)
Definition ulpExp (q : Q) : Z := Z.max (binade q - 52) (-1074).

(** The nearest integer, the even one of two nearest. *)
Definition roundEven (q : Q) : Z :=
  let f := Qfloor q in
  match Qcompare (q - inject_Z f) (1 # 2) with
  | Lt => f
  | Gt => f + 1
  | Eq => if Z.even f then f else f + 1
  end.

(** The nearest multiple of [2^e]. *)
Definition toGrid (e : Z) (q : Q) : Q :=
  (inject_Z (roundEven (q / pow2 e)) * pow2 e)%Q.

Definition roundMagnitude (q : Q) : Q := toGrid (ulpExp q) q.

(** Rounding to nearest, ties to even; a magnitude that rounds to [2^1024]
    or more overflows. *)
Definition round64 (q : Q) : number :=
  match Qcompare q 0 with
  | Eq => Fin 0
  | Gt => let r := roundMagnitude q in
          if Qleb (pow2 1024) r then Inf false else Fin (Qred r)
  | Lt => let r := roundMagnitude (- q) in
          if Qleb (pow2 1024) r then Inf true else Fin (Qred (- r))
  end.

(** [q] is a multiple of [2^e] with at most 53 significant bits. *)
Definition onGrid (e : Z) (q : Q) : Prop :=
  exists k, (q == inject_Z k * pow2 e)%Q /\ Z.abs k < 2 ^ 53.

(** The rationals that are binary64 values. *)
Definition isDouble (q : Q) : bool :=
  match round64 q with
  | Fin r => Qeqb r q
  | _ => false
  end.

(** [x + y], [x - y], [x * y] and [x / y].  A zero divisor is taken to be
    [+0]; the class divides by the constant 2 only. *)
Definition jsAdd (x y : number) : number :=
  match x, y with
  | NaN, _ | _, NaN => NaN
  | Inf a, Inf b => if Bool.eqb a b then Inf a else NaN
  | Inf a, Fin _ => Inf a
  | Fin _, Inf b => Inf b
  | Fin a, Fin b => round64 (a + b)
  end.

Definition jsSub (x y : number) : number :=
  match x, y with
  | NaN, _ | _, NaN => NaN
  | Inf a, Inf b => if Bool.eqb a b then NaN else Inf a
  | Inf a, Fin _ => Inf a
  | Fin _, Inf b => Inf (negb b)
  | Fin a, Fin b => round64 (a - b)
  end.

Definition jsMul (x y : number) : number :=
  match x, y with
  | NaN, _ | _, NaN => NaN
  | Inf a, Inf b => Inf (xorb a b)
  | Inf a, Fin q | Fin q, Inf a =>
      match Qcompare q 0 with
      | Eq => NaN
      | Lt => Inf (negb a)
      | Gt => Inf a
      end
  | Fin a, Fin b => round64 (a * b)
  end.

Definition jsDiv (x y : number) : number :=
  match x, y with
  | NaN, _ | _, NaN => NaN
  | Inf _, Inf _ => NaN
  | Inf a, Fin q => Inf (xorb a (Qltb q 0))
  | Fin _, Inf _ => Fin 0
  | Fin a, Fin b =>
      if Qeqb b 0
      then (if Qeqb a 0 then NaN else Inf (Qltb a 0))
      else round64 (a / b)
  end.

(** [x < y], [x <= y] and [x === y]: false when an operand is NaN. *)
Definition jsLt (x y : number) : bool :=
  match x, y with
  | NaN, _ | _, NaN => false
  | Inf a, Inf b => a && negb b
  | Inf a, Fin _ => a
  | Fin _, Inf b => negb b
  | Fin a, Fin b => Qltb a b
  end.

Definition jsLe (x y : number) : bool :=
  match x, y with
  | NaN, _ | _, NaN => false
  | Inf a, Inf b => a || negb b
  | Inf a, Fin _ => a
  | Fin _, Inf b => negb b
  | Fin a, Fin b => Qleb a b
  end.

Definition jsEq (x y : number) : bool :=
  match x, y with
  | Inf a, Inf b => Bool.eqb a b
  | Fin a, Fin b => Qeqb a b
  | _, _ => false
  end.

(** [Math.max] and [Math.min] on two numbers: NaN when an argument is. *)
Definition mathMax (x y : number) : number :=
  match x, y with
  | NaN, _ | _, NaN => NaN
  | _, _ => if jsLt x y then y else x
  end.

Definition mathMin (x y : number) : number :=
  match x, y with
  | NaN, _ | _, NaN => NaN
  | _, _ => if jsLt y x then y else x
  end.

(** ** The kernel's binary64 numbers, for comparison *)

(** The number that a primitive floating-point value denotes. *)
Definition ofFloat (x : float) : number :=
  match Prim2SF x with
  | S754_zero _ => Fin 0
  | S754_infinity negative => Inf negative
  | S754_nan => NaN
  | S754_finite negative m e =>
      Fin (Qred ((if negative then -1 else 1) * inject_Z (Z.pos m) * pow2 e))
  end.

Definition sameNumber (x y : number) : bool :=
  match x, y with
  | NaN, NaN => true
  | Inf a, Inf b => Bool.eqb a b
  | Fin a, Fin b => Qeqb a b
  | _, _ => false
  end.

(** Zeros, small integers, decimal fractions, values next to the largest
    and the smallest finite magnitudes, subnormal values, integers at the
    limit of exact representation, the infinities and NaN. *)
#[warnings="-inexact-float"]
Definition sampleFloats : list float :=
  [0; -0; 1; -1; 3; 0.1; 0.2; 0.5; 1e16; 1e308; 1.7976931348623157e308;
   5e-324; 2.2250738585072014e-308; 9007199254740993; 47.2612; 1e-320;
   infinity; neg_infinity; nan]%float.

Definition agreeOn (f : float -> float -> float)
    (h : number -> number -> number) : bool :=
  forallb (fun a => forallb (fun b =>
    sameNumber (ofFloat (f a b)) (h (ofFloat a) (ofFloat b)))
    sampleFloats) sampleFloats.

Definition agreeOnTest (f : float -> float -> bool)
    (h : number -> number -> bool) : bool :=
  forallb (fun a => forallb (fun b =>
    Bool.eqb (f a b) (h (ofFloat a) (ofFloat b)))
    sampleFloats) sampleFloats.

(** ** Arrays indexed by JavaScript numbers *)

Definition nthZ {A} (l : list A) (i : Z) : option A :=
  if i <? 0 then None else l !! Z.to_nat i.

Definition setZ {A} (l : list A) (i : Z) (x : A) : option (list A) :=
  if (0 <=? i) && (i <? Z.of_nat (length l))
  then Some (<[Z.to_nat i := x]> l) else None.

(** [Array.prototype.at]: negative indices count from the end. *)
Definition atZ {A} (l : list A) (j : Z) : option A :=
  nthZ l (if j <? 0 then j + Z.of_nat (length l) else j).

(** [Array.prototype.indexOf] on numbers: -1 when absent. *)
Fixpoint indexOfFrom (l : list Z) (x : Z) (i : Z) : Z :=
  match l with
  | [] => -1
  | y :: l' => if y =? x then i else indexOfFrom l' x (i + 1)
  end.
Definition indexOf (l : list Z) (x : Z) : Z := indexOfFrom l x 0.

(** [filledArray(len, fill)] and [initArrArr(len)]. *)
Definition filledArray {A} (len : Z) (fill : A) : list A :=
  replicate (Z.to_nat len) fill.
Definition initArrArr (len : Z) : list (list Z) :=
  replicate (Z.to_nat len) [].

(** [Array.from({length: len}, (_, i) => i + from)]. *)
Definition zrange (from len : Z) : list Z :=
  map (fun i => from + Z.of_nat i) (seq 0 (Z.to_nat len)).

(** ** Algorithm constants *)

Definition UNMATCHED : Z := -1.
Definition UNLABELED : Z := 0.
Definition VERTEX_LABEL_S : Z := 1.
Definition VERTEX_LABEL_T : Z := 2.
Definition BLOSSOM_MULTIPLIER : Z := 2.
Definition EDGE_ENDPOINT_COUNT : Z := 2.

Definition DELTA_TYPE_NONE : Z := -1.
Definition DELTA_TYPE_DUAL_DECREASE : Z := 1.
Definition DELTA_TYPE_EDGE_SLACK : Z := 2.
Definition DELTA_TYPE_BLOSSOM_SLACK : Z := 3.
Definition DELTA_TYPE_BLOSSOM_EXPAND : Z := 4.

(** [endpointIndex ^ 1] and [Math.floor(endpointIndex / 2)]. *)
Definition getOppositeEndpoint (p : Z) : Z := Z.lxor p 1.
Definition getEdgeFromEndpoint (p : Z) : Z := p / EDGE_ENDPOINT_COUNT.

(** ** JavaScript values handed to [blossom] *)

#[warnings="-register-all"]
Inductive JsVal : Type :=
| JUndefined
| JNull
| JBool (b : bool)
| JNum (q : Q)
| JNaN
| JInfinity (negative : bool)
| JString (s : string)
| JObject
| JArray (items : list JsVal).

Inductive JsError : Type :=
| Error (msg : string)
| RangeError (msg : string).

Definition isArray (v : JsVal) : bool :=
  match v with JArray _ => true | _ => false end.

(** [Number.isInteger]. *)
Definition isInteger (v : JsVal) : bool :=
  match v with
  | JNum q => Pos.eqb (Qden (Qred q)) 1
  | _ => false
  end.

(** [v < 0], used on values for which [Number.isInteger] holds. *)
Definition isNegative (v : JsVal) : bool :=
  match v with
  | JNum q => Qltb q 0
  | _ => false
  end.

(** [typeof weight === 'number' && isFinite(weight)]. *)
Definition isFiniteNumber (v : JsVal) : bool :=
  match v with JNum _ => true | _ => false end.

Definition Edge : Type := (Z * Z * Q)%type.

Definition msgNotArray : string := "Edges must be an array".
Definition msgEdgeShape : string :=
  "Each edge must be an array of [vertex1, vertex2, weight]".
Definition msgVertex : string := "Vertex indices must be non-negative integers".
Definition msgWeight : string := "Edge weights must be finite numbers".

(** One iteration of the validation loop of [blossom]. *)
Definition validateEdge (edge : JsVal) : option JsError :=
  match edge with
  | JArray [v1; v2; weight] =>
      if negb (isInteger v1) || negb (isInteger v2)
         || isNegative v1 || isNegative v2
      then Some (Error msgVertex)
      else if negb (isFiniteNumber weight)
      then Some (Error msgWeight)
      else None
  | _ => Some (Error msgEdgeShape)
  end.

(** The loop [for (const edge of edges)]: the first failure is thrown. *)
Fixpoint validateEdges (es : list JsVal) : option JsError :=
  match es with
  | [] => None
  | e :: es' =>
      match validateEdge e with
      | Some err => Some err
      | None => validateEdges es'
      end
  end.

(** The number an integer-valued [JsVal] denotes. *)
Definition toInt (v : JsVal) : Z :=
  match v with JNum q => Qnum (Qred q) | _ => 0 end.
Definition toNum (v : JsVal) : Q :=
  match v with JNum q => Qred q | _ => zeroQ end.

Definition toEdge (edge : JsVal) : Edge :=
  match edge with
  | JArray [v1; v2; weight] => (toInt v1, toInt v2, toNum weight)
  | _ => (0, 0, zeroQ)
  end.

(** ** The immutable part of an [Edmonds] instance *)

Record Graph : Type := mkGraph {
  edges : list Edge;
  maxCardinality : bool;
  nEdge : Z;
  nVertex : Z;
  maxWeight : Q;
  endpoint : list Z;
  neighbend : list (list Z)
}.

Definition calculateVertexCount (es : list Edge) : Z :=
  fold_left (fun nV '(i, j, _) => Z.max (Z.max nV (i + 1)) (j + 1)) es 0.

Definition calculateMaxWeight (es : list Edge) : Q :=
  fold_left (fun m '(_, _, w) => jsMax m w) es zeroQ.

(** [endpoint[p] = edges[floor(p / 2)][p % 2]] for [p < 2 * nEdge]. *)
Definition buildEndpoint (es : list Edge) : list Z :=
  flat_map (fun '(i, j, _) => [i; j]) es.

Definition pushAt (nb : list (list Z)) (i : Z) (x : Z) : list (list Z) :=
  match nthZ nb i with
  | Some l => <[Z.to_nat i := l ++ [x]]> nb
  | None => nb
  end.

Fixpoint buildNeighbendFrom (es : list Edge) (k : Z) (nb : list (list Z))
  : list (list Z) :=
  match es with
  | [] => nb
  | (i, j, _) :: es' =>
      let nb1 := pushAt nb i (EDGE_ENDPOINT_COUNT * k + 1) in
      let nb2 := pushAt nb1 j (EDGE_ENDPOINT_COUNT * k) in
      buildNeighbendFrom es' (k + 1) nb2
  end.

Definition buildNeighbend (es : list Edge) (n : Z) : list (list Z) :=
  buildNeighbendFrom es 0 (initArrArr n).

Definition initializeGraphProperties (es : list Edge) (mc : bool) : Graph :=
  let n := calculateVertexCount es in
  {| edges := es;
     maxCardinality := mc;
     nEdge := Z.of_nat (length es);
     nVertex := n;
     maxWeight := calculateMaxWeight es;
     endpoint := buildEndpoint es;
     neighbend := buildNeighbend es n |}.

(** ** The mutable part of an [Edmonds] instance *)

Record State : Type := mkState {
  mate : list Z;
  label : list Z;
  labelNeg1 : option Z;   (* the property [label[-1]]; [None] is undefined *)
  labelEnd : list Z;
  inBlossom : list Z;
  blossomParent : list Z;
  blossomChilds : list (list Z);
  blossomBase : list Z;
  blossomEndPs : list (list Z);
  bestEdge : list Z;
  blossomBestEdges : list (list Z);
  unusedBlossoms : list Z;
  dualVar : list number;
  allowEdge : list bool;
  queue : list Z
}.

Definition set_mate (s : State) (x : list Z) : State :=
  mkState x (label s) (labelNeg1 s) (labelEnd s) (inBlossom s) (blossomParent s) (blossomChilds s) (blossomBase s) (blossomEndPs s) (bestEdge s) (blossomBestEdges s) (unusedBlossoms s) (dualVar s) (allowEdge s) (queue s).
Definition set_label (s : State) (x : list Z) : State :=
  mkState (mate s) x (labelNeg1 s) (labelEnd s) (inBlossom s) (blossomParent s) (blossomChilds s) (blossomBase s) (blossomEndPs s) (bestEdge s) (blossomBestEdges s) (unusedBlossoms s) (dualVar s) (allowEdge s) (queue s).
Definition set_labelNeg1 (s : State) (x : option Z) : State :=
  mkState (mate s) (label s) x (labelEnd s) (inBlossom s) (blossomParent s) (blossomChilds s) (blossomBase s) (blossomEndPs s) (bestEdge s) (blossomBestEdges s) (unusedBlossoms s) (dualVar s) (allowEdge s) (queue s).
Definition set_labelEnd (s : State) (x : list Z) : State :=
  mkState (mate s) (label s) (labelNeg1 s) x (inBlossom s) (blossomParent s) (blossomChilds s) (blossomBase s) (blossomEndPs s) (bestEdge s) (blossomBestEdges s) (unusedBlossoms s) (dualVar s) (allowEdge s) (queue s).
Definition set_inBlossom (s : State) (x : list Z) : State :=
  mkState (mate s) (label s) (labelNeg1 s) (labelEnd s) x (blossomParent s) (blossomChilds s) (blossomBase s) (blossomEndPs s) (bestEdge s) (blossomBestEdges s) (unusedBlossoms s) (dualVar s) (allowEdge s) (queue s).
Definition set_blossomParent (s : State) (x : list Z) : State :=
  mkState (mate s) (label s) (labelNeg1 s) (labelEnd s) (inBlossom s) x (blossomChilds s) (blossomBase s) (blossomEndPs s) (bestEdge s) (blossomBestEdges s) (unusedBlossoms s) (dualVar s) (allowEdge s) (queue s).
Definition set_blossomChilds (s : State) (x : list (list Z)) : State :=
  mkState (mate s) (label s) (labelNeg1 s) (labelEnd s) (inBlossom s) (blossomParent s) x (blossomBase s) (blossomEndPs s) (bestEdge s) (blossomBestEdges s) (unusedBlossoms s) (dualVar s) (allowEdge s) (queue s).
Definition set_blossomBase (s : State) (x : list Z) : State :=
  mkState (mate s) (label s) (labelNeg1 s) (labelEnd s) (inBlossom s) (blossomParent s) (blossomChilds s) x (blossomEndPs s) (bestEdge s) (blossomBestEdges s) (unusedBlossoms s) (dualVar s) (allowEdge s) (queue s).
Definition set_blossomEndPs (s : State) (x : list (list Z)) : State :=
  mkState (mate s) (label s) (labelNeg1 s) (labelEnd s) (inBlossom s) (blossomParent s) (blossomChilds s) (blossomBase s) x (bestEdge s) (blossomBestEdges s) (unusedBlossoms s) (dualVar s) (allowEdge s) (queue s).
Definition set_bestEdge (s : State) (x : list Z) : State :=
  mkState (mate s) (label s) (labelNeg1 s) (labelEnd s) (inBlossom s) (blossomParent s) (blossomChilds s) (blossomBase s) (blossomEndPs s) x (blossomBestEdges s) (unusedBlossoms s) (dualVar s) (allowEdge s) (queue s).
Definition set_blossomBestEdges (s : State) (x : list (list Z)) : State :=
  mkState (mate s) (label s) (labelNeg1 s) (labelEnd s) (inBlossom s) (blossomParent s) (blossomChilds s) (blossomBase s) (blossomEndPs s) (bestEdge s) x (unusedBlossoms s) (dualVar s) (allowEdge s) (queue s).
Definition set_unusedBlossoms (s : State) (x : list Z) : State :=
  mkState (mate s) (label s) (labelNeg1 s) (labelEnd s) (inBlossom s) (blossomParent s) (blossomChilds s) (blossomBase s) (blossomEndPs s) (bestEdge s) (blossomBestEdges s) x (dualVar s) (allowEdge s) (queue s).
Definition set_dualVar (s : State) (x : list number) : State :=
  mkState (mate s) (label s) (labelNeg1 s) (labelEnd s) (inBlossom s) (blossomParent s) (blossomChilds s) (blossomBase s) (blossomEndPs s) (bestEdge s) (blossomBestEdges s) (unusedBlossoms s) x (allowEdge s) (queue s).
Definition set_allowEdge (s : State) (x : list bool) : State :=
  mkState (mate s) (label s) (labelNeg1 s) (labelEnd s) (inBlossom s) (blossomParent s) (blossomChilds s) (blossomBase s) (blossomEndPs s) (bestEdge s) (blossomBestEdges s) (unusedBlossoms s) (dualVar s) x (queue s).
Definition set_queue (s : State) (x : list Z) : State :=
  mkState (mate s) (label s) (labelNeg1 s) (labelEnd s) (inBlossom s) (blossomParent s) (blossomChilds s) (blossomBase s) (blossomEndPs s) (bestEdge s) (blossomBestEdges s) (unusedBlossoms s) (dualVar s) (allowEdge s) x.

(** [initializeBlossomStructures] and [initializeMatchingStructures]. *)
Definition initialState (g : Graph) : State :=
  let n := nVertex g in
  {| mate := filledArray n UNMATCHED;
     label := filledArray (BLOSSOM_MULTIPLIER * n) UNLABELED;
     labelNeg1 := None;
     labelEnd := filledArray (BLOSSOM_MULTIPLIER * n) UNMATCHED;
     inBlossom := zrange 0 n;
     blossomParent := filledArray (BLOSSOM_MULTIPLIER * n) UNMATCHED;
     blossomChilds := initArrArr (BLOSSOM_MULTIPLIER * n);
     blossomBase := zrange 0 n ++ filledArray n UNMATCHED;
     blossomEndPs := initArrArr (BLOSSOM_MULTIPLIER * n);
     bestEdge := filledArray (BLOSSOM_MULTIPLIER * n) UNMATCHED;
     blossomBestEdges := initArrArr (BLOSSOM_MULTIPLIER * n);
     unusedBlossoms := zrange n n;
     dualVar := filledArray n (Fin (maxWeight g)) ++ filledArray n (Fin zeroQ);
     allowEdge := filledArray (nEdge g) false;
     queue := [] |}.

(** ** Programs over the state *)

(** A program stops early when it reads or writes outside an array
    ([Stuck]; in JavaScript the read gives [undefined] and a later property
    access on it raises a [TypeError]) or when the bound on loop iterations
    and recursion depth is used up ([OutOfFuel]).  The methods of [Edmonds]
    contain no [throw] statement. *)
Inductive haltReason : Type :=
| Stuck
| OutOfFuel.

Inductive prog (A : Type) : Type :=
| Pure (a : A)
| Halt (h : haltReason)
| Get (k : State -> prog A)
| Put (s : State) (k : prog A).

Arguments Pure {A} a.
Arguments Halt {A} h.
Arguments Get {A} k.
Arguments Put {A} s k.

Fixpoint bind {A B} (p : prog A) (f : A -> prog B) : prog B :=
  match p with
  | Pure a => f a
  | Halt e => Halt e
  | Get k => Get (fun s => bind (k s) f)
  | Put s k => Put s (bind k f)
  end.

Notation "'let*' x ':=' m 'in' k" := (bind m (fun x => k))
  (at level 10, x pattern, m at level 100, k at level 200).

Inductive outcome (A : Type) : Type :=
| Ret (a : A) (s : State)
| Err (h : haltReason).

Arguments Ret {A} a s.
Arguments Err {A} h.

Fixpoint run {A} (p : prog A) (s : State) : outcome A :=
  match p with
  | Pure a => Ret a s
  | Halt e => Err e
  | Get k => run (k s) s
  | Put s' k => run k s'
  end.

(** The stores a run goes through, one per write, in order. *)
Fixpoint trace {A} (p : prog A) (s : State) : list State :=
  match p with
  | Pure _ => []
  | Halt _ => []
  | Get k => trace (k s) s
  | Put s' k => s' :: trace k s'
  end.

Definition rd {A} (f : State -> option A) : prog A :=
  Get (fun s => match f s with Some a => Pure a | None => Halt Stuck end).

Definition upd (f : State -> option State) : prog unit :=
  Get (fun s => match f s with
                | Some s' => Put s' (Pure tt)
                | None => Halt Stuck
                end).

Definition lift {A} (o : option A) : prog A :=
  match o with Some a => Pure a | None => Halt Stuck end.

Definition skip : prog unit := Pure tt.

(** [for (const x of l) body(x)] *)
Fixpoint forEach {A} (l : list A) (body : A -> prog unit) : prog unit :=
  match l with
  | [] => Pure tt
  | x :: l' => let* _ := body x in forEach l' body
  end.

(** A [for ... of] loop whose body may [break]: the body answers [true]
    to leave the loop, and the loop answers whether it was left. *)
Fixpoint forEachBreak {A} (l : list A) (body : A -> prog bool) : prog bool :=
  match l with
  | [] => Pure false
  | x :: l' =>
      let* stop := body x in
      if stop then Pure true else forEachBreak l' body
  end.

(** A loop threading local variables through its iterations. *)
Fixpoint foldM {A B} (l : list A) (acc : B) (body : B -> A -> prog B)
  : prog B :=
  match l with
  | [] => Pure acc
  | x :: l' => let* acc' := body acc x in foldM l' acc' body
  end.

(** [while] loops: the body maps the local variables either to their next
    value ([inl]) or to the value the loop leaves with ([inr]). *)
Fixpoint loop {A B} (fuel : nat) (body : A -> prog (A + B)) (a : A)
  : prog B :=
  match fuel with
  | O => Halt OutOfFuel
  | S fuel' =>
      let* r := body a in
      match r with
      | inl a' => loop fuel' body a'
      | inr b => Pure b
      end
  end.

(** ** Reads and writes of the instance fields *)

Definition getMate (v : Z) : prog Z := rd (fun s => nthZ (mate s) v).
Definition getLabel (b : Z) : prog Z := rd (fun s => nthZ (label s) b).
Definition getLabelEnd (b : Z) : prog Z := rd (fun s => nthZ (labelEnd s) b).
Definition getInBlossom (v : Z) : prog Z := rd (fun s => nthZ (inBlossom s) v).
Definition getBlossomParent (b : Z) : prog Z :=
  rd (fun s => nthZ (blossomParent s) b).
Definition getBlossomChilds (b : Z) : prog (list Z) :=
  rd (fun s => nthZ (blossomChilds s) b).
Definition getBlossomBase (b : Z) : prog Z :=
  rd (fun s => nthZ (blossomBase s) b).
Definition getBlossomEndPs (b : Z) : prog (list Z) :=
  rd (fun s => nthZ (blossomEndPs s) b).
Definition getBestEdge (b : Z) : prog Z := rd (fun s => nthZ (bestEdge s) b).
Definition getBlossomBestEdges (b : Z) : prog (list Z) :=
  rd (fun s => nthZ (blossomBestEdges s) b).
Definition getDualVar (b : Z) : prog number :=
  rd (fun s => nthZ (dualVar s) b).
Definition getAllowEdge (k : Z) : prog bool :=
  rd (fun s => nthZ (allowEdge s) k).

Definition setMate (v x : Z) : prog unit :=
  upd (fun s => set_mate s <$> setZ (mate s) v x).
Definition setLabel (b x : Z) : prog unit :=
  upd (fun s => set_label s <$> setZ (label s) b x).
Definition setLabelEnd (b x : Z) : prog unit :=
  upd (fun s => set_labelEnd s <$> setZ (labelEnd s) b x).
Definition setInBlossom (v x : Z) : prog unit :=
  upd (fun s => set_inBlossom s <$> setZ (inBlossom s) v x).
Definition setBlossomParent (b x : Z) : prog unit :=
  upd (fun s => set_blossomParent s <$> setZ (blossomParent s) b x).
Definition setBlossomChilds (b : Z) (x : list Z) : prog unit :=
  upd (fun s => set_blossomChilds s <$> setZ (blossomChilds s) b x).
Definition setBlossomBase (b x : Z) : prog unit :=
  upd (fun s => set_blossomBase s <$> setZ (blossomBase s) b x).
Definition setBlossomEndPs (b : Z) (x : list Z) : prog unit :=
  upd (fun s => set_blossomEndPs s <$> setZ (blossomEndPs s) b x).
Definition setBestEdge (b x : Z) : prog unit :=
  upd (fun s => set_bestEdge s <$> setZ (bestEdge s) b x).
Definition setBlossomBestEdges (b : Z) (x : list Z) : prog unit :=
  upd (fun s => set_blossomBestEdges s <$> setZ (blossomBestEdges s) b x).
Definition setDualVar (b : Z) (x : number) : prog unit :=
  upd (fun s => set_dualVar s <$> setZ (dualVar s) b x).

(** [this.allowEdge[k] = true], the only element write to [allowEdge]. *)
Definition allowEdgeTrue (k : Z) : prog unit :=
  upd (fun s => set_allowEdge s <$> setZ (allowEdge s) k true).

(** [this.queue.push(...vs)] and [this.queue.pop()]. *)
Definition queuePush (vs : list Z) : prog unit :=
  upd (fun s => Some (set_queue s (queue s ++ vs))).
Definition queuePop : prog Z :=
  let* v := rd (fun s => last (queue s)) in
  let* _ := upd (fun s => Some (set_queue s (removelast (queue s)))) in
  Pure v.

(** [this.unusedBlossoms.pop()] and [this.unusedBlossoms.push(b)]. *)
Definition unusedPop : prog Z :=
  let* b := rd (fun s => last (unusedBlossoms s)) in
  let* _ := upd (fun s =>
              Some (set_unusedBlossoms s (removelast (unusedBlossoms s)))) in
  Pure b.
Definition unusedPush (b : Z) : prog unit :=
  upd (fun s => Some (set_unusedBlossoms s (unusedBlossoms s ++ [b]))).

(** ** The methods of [Edmonds] *)

Section Edmonds.

Variable g : Graph.
Variable fuel : nat.

Definition getEdge (k : Z) : prog Edge := lift (nthZ (edges g) k).
Definition getEndpoint (p : Z) : prog Z := lift (nthZ (endpoint g) p).
Definition getNeighbend (v : Z) : prog (list Z) := lift (nthZ (neighbend g) v).

(** [dualVar[vertex1] + dualVar[vertex2] - 2 * weight] *)
Definition slackValue (d1 d2 : number) (weight : Q) : number :=
  jsSub (jsAdd d1 d2) (jsMul (Fin 2) (Fin weight)).

(** [slack(edgeIndex)] as a function of the store. *)
Definition slackOf (s : State) (k : Z) : option number :=
  '(vertex1, vertex2, weight) ← nthZ (edges g) k;
  d1 ← nthZ (dualVar s) vertex1;
  d2 ← nthZ (dualVar s) vertex2;
  Some (slackValue d1 d2 weight).

Definition slack (k : Z) : prog number := rd (fun s => slackOf s k).

(** [blossomLeaves(b)]; it only reads [blossomChilds]. *)
Fixpoint blossomLeavesOf (n : nat) (childs : list (list Z)) (b : Z)
  : option (list Z) :=
  match n with
  | O => None
  | S n' =>
      if b <? nVertex g then Some [b]
      else
        let childList := default [] (nthZ childs b) in
        foldr (fun child rest =>
                 if child <=? nVertex g
                 then cons child <$> rest
                 else sub ← blossomLeavesOf n' childs child;
                      app sub <$> rest)
              (Some []) childList
  end.

Definition blossomLeaves (b : Z) : prog (list Z) :=
  Get (fun s => match blossomLeavesOf fuel (blossomChilds s) b with
                | Some leaves => Pure leaves
                | None => Halt OutOfFuel
                end).

(** [assignLabel(vertex, labelType, labelingEdge)] *)
Fixpoint assignLabelRec (n : nat) (vertex labelType labelingEdge : Z)
  : prog unit :=
  match n with
  | O => Halt OutOfFuel
  | S n' =>
      let* blossom := getInBlossom vertex in
      let* _ := setLabel blossom labelType in
      let* _ := setLabel vertex labelType in
      let* _ := setLabelEnd blossom labelingEdge in
      let* _ := setLabelEnd vertex labelingEdge in
      let* _ := setBestEdge blossom UNMATCHED in
      let* _ := setBestEdge vertex UNMATCHED in
      if labelType =? VERTEX_LABEL_S then
        let* leaves := blossomLeaves blossom in
        queuePush leaves
      else if labelType =? VERTEX_LABEL_T then
        let* baseVertex := getBlossomBase blossom in
        let* m := getMate baseVertex in
        let* w := getEndpoint m in
        assignLabelRec n' w VERTEX_LABEL_S (getOppositeEndpoint m)
      else skip
  end.

Definition assignLabel := assignLabelRec fuel.

(** [scanBlossom(vertex1, vertex2)].  The loop variables are [path],
    [current1] and [current2] ([None] is [null]); the loop leaves with
    [path] and [base]. *)
Definition scanBlossomStep (st : list Z * option Z * option Z)
  : prog (list Z * option Z * option Z + list Z * Z) :=
  let '(path, current1, current2) := st in
  match current1, current2 with
  | None, None => Pure (inr (path, UNMATCHED))
  | _, _ =>
      let* (blossom, current2) :=
        match current1 with
        | Some c1 => let* b := getInBlossom c1 in Pure (b, current2)
        | None =>
            let* c2 := lift current2 in
            let* b := getInBlossom c2 in Pure (b, None)
        end in
      let* lb := getLabel blossom in
      if negb (Z.land lb 4 =? 0) then
        let* base := getBlossomBase blossom in
        Pure (inr (path, base))
      else
        let path := path ++ [blossom] in
        let* _ := setLabel blossom 5 in
        let* le := getLabelEnd blossom in
        let* current1 :=
          if le =? UNMATCHED then Pure None
          else
            let* c1 := getEndpoint le in
            let* blossom := getInBlossom c1 in
            let* le' := getLabelEnd blossom in
            let* c1' := getEndpoint le' in
            Pure (Some c1') in
        match current2 with
        | Some _ => Pure (inl (path, current2, current1))
        | None => Pure (inl (path, current1, current2))
        end
  end.

Definition scanBlossom (vertex1 vertex2 : Z) : prog Z :=
  let* (path, base) :=
    loop fuel scanBlossomStep ([], Some vertex1, Some vertex2) in
  let* _ := forEach path (fun blossomIndex =>
                            setLabel blossomIndex VERTEX_LABEL_S) in
  Pure base.

(** [addBlossom(base, k)].  [path] and [endPs] are the arrays stored at
    [blossomChilds[b]] and [blossomEndPs[b]]; pushes and reversals act on
    the stored arrays. *)
Definition pushChild (b x : Z) : prog unit :=
  let* l := getBlossomChilds b in setBlossomChilds b (l ++ [x]).
Definition pushEndP (b x : Z) : prog unit :=
  let* l := getBlossomEndPs b in setBlossomEndPs b (l ++ [x]).

Fixpoint mapM {A B} (f : A -> prog B) (l : list A) : prog (list B) :=
  match l with
  | [] => Pure []
  | x :: l' =>
      let* y := f x in
      let* ys := mapM f l' in
      Pure (y :: ys)
  end.

(** One edge of a neighbour list in the best-edge recomputation. *)
Definition addBlossomBestEdge (b : Z) (bestEdgeTo : list Z) (edgeK : Z)
  : prog (list Z) :=
  let* (i, j, _) := getEdge edgeK in
  let* ibj := getInBlossom j in
  let j := if ibj =? b then i else j in
  let* bj := getInBlossom j in
  if bj =? b then Pure bestEdgeTo
  else
    let* lbj := getLabel bj in
    if negb (lbj =? VERTEX_LABEL_S) then Pure bestEdgeTo
    else
      let* cur := lift (nthZ bestEdgeTo bj) in
      let* better :=
        if cur =? UNMATCHED then Pure true
        else
          let* s1 := slack edgeK in
          let* s2 := slack cur in
          Pure (jsLt s1 s2) in
      if better then lift (setZ bestEdgeTo bj edgeK) else Pure bestEdgeTo.

Definition addBlossom (base k : Z) : prog unit :=
  let* (v, w, _) := getEdge k in
  let* baseBlossom := getInBlossom base in
  let* vBlossom := getInBlossom v in
  let* wBlossom := getInBlossom w in
  let* b := unusedPop in
  let* _ := setBlossomBase b base in
  let* _ := setBlossomParent b UNMATCHED in
  let* _ := setBlossomParent baseBlossom b in
  let* _ := setBlossomChilds b [] in
  let* _ := setBlossomEndPs b [] in
  let* _ :=
    loop fuel (fun vBlossom =>
      if vBlossom =? baseBlossom then Pure (inr tt)
      else
        let* _ := setBlossomParent vBlossom b in
        let* _ := pushChild b vBlossom in
        let* le := getLabelEnd vBlossom in
        let* _ := pushEndP b le in
        let* le := getLabelEnd vBlossom in
        let* vNext := getEndpoint le in
        let* vBlossom := getInBlossom vNext in
        Pure (inl vBlossom)) vBlossom in
  let* _ := pushChild b baseBlossom in
  let* path := getBlossomChilds b in
  let* _ := setBlossomChilds b (rev path) in
  let* endPs := getBlossomEndPs b in
  let* _ := setBlossomEndPs b (rev endPs) in
  let* _ := pushEndP b (EDGE_ENDPOINT_COUNT * k) in
  let* _ :=
    loop fuel (fun wBlossom =>
      if wBlossom =? baseBlossom then Pure (inr tt)
      else
        let* _ := setBlossomParent wBlossom b in
        let* _ := pushChild b wBlossom in
        let* le := getLabelEnd wBlossom in
        let* _ := pushEndP b (getOppositeEndpoint le) in
        let* le := getLabelEnd wBlossom in
        let* wNext := getEndpoint le in
        let* wBlossom := getInBlossom wNext in
        Pure (inl wBlossom)) wBlossom in
  let* _ := setLabel b VERTEX_LABEL_S in
  let* le := getLabelEnd baseBlossom in
  let* _ := setLabelEnd b le in
  let* _ := setDualVar b (Fin zeroQ) in
  let* leaves := blossomLeaves b in
  let* _ :=
    forEach leaves (fun vertex =>
      let* ib := getInBlossom vertex in
      let* l := getLabel ib in
      let* _ := if l =? VERTEX_LABEL_T then queuePush [vertex] else skip in
      setInBlossom vertex b) in
  let bestEdgeTo := filledArray (2 * nVertex g) (-1) in
  let* path := getBlossomChilds b in
  let* bestEdgeTo :=
    foldM path bestEdgeTo (fun bestEdgeTo bv =>
      let* own := getBlossomBestEdges bv in
      let* nbLists :=
        if (Z.of_nat (length own) =? 0) then
          let* pathLeaves := blossomLeaves bv in
          mapM (fun vertex =>
                  let* nb := getNeighbend vertex in
                  Pure (map getEdgeFromEndpoint nb)) pathLeaves
        else Pure [own] in
      let* bestEdgeTo :=
        foldM nbLists bestEdgeTo (fun bestEdgeTo nbList =>
          foldM nbList bestEdgeTo (addBlossomBestEdge b)) in
      let* _ := setBlossomBestEdges bv [] in
      let* _ := setBestEdge bv UNMATCHED in
      Pure bestEdgeTo) in
  let be := filter (fun edgeK => edgeK ≠ UNMATCHED) bestEdgeTo in
  let* _ := setBlossomBestEdges b be in
  let* own := getBlossomBestEdges b in
  let* best :=
    foldM own UNMATCHED (fun best edgeK =>
      if best =? UNMATCHED then Pure edgeK
      else
        let* s1 := slack edgeK in
        let* s2 := slack best in
        Pure (if jsLt s1 s2 then edgeK else best)) in
  setBestEdge b best.

(** [leaves.find(vertex => this.label[vertex] !== UNLABELED) ?? UNMATCHED] *)
Fixpoint findLabelled (leaves : list Z) : prog Z :=
  match leaves with
  | [] => Pure UNMATCHED
  | vertex :: rest =>
      let* l := getLabel vertex in
      if negb (l =? UNLABELED) then Pure vertex else findLabelled rest
  end.

(** [assignLabel(-1, VERTEX_LABEL_T, this.labelEnd[-1])], the call that
    [expandBlossom] makes when [find] gave nothing.  Every index it
    computes is [-1] or [undefined]: [inBlossom[-1]], [blossomBase[undefined]],
    [mate[undefined]] and [endpoint[undefined]] are [undefined], the nested
    call is [assignLabel(undefined, VERTEX_LABEL_S, 1)], and
    [blossomLeaves(undefined)] is empty, so nothing is queued.  The writes
    create the properties [-1] and [undefined] on [label], [labelEnd] and
    [bestEdge].  Of these only [label[-1]] is read again (by the same test
    in [expandBlossom]); it is left at [VERTEX_LABEL_T]. *)
Definition assignLabelMinusOne : prog unit :=
  upd (fun s => Some (set_labelNeg1 s (Some VERTEX_LABEL_T))).

(** The relabelling part of [expandBlossom], run when
    [!endStage && label[b] === VERTEX_LABEL_T]. *)
Definition expandBlossomRelabel (b : Z) : prog unit :=
  let* le := getLabelEnd b in
  let* x := getEndpoint (getOppositeEndpoint le) in
  let* entryChild := getInBlossom x in
  let* childs := getBlossomChilds b in
  let j := indexOf childs entryChild in
  let '(j, jStep, endpTrick) :=
    if negb (Z.land j 1 =? 0)
    then (j - Z.of_nat (length childs), 1, 0)
    else (j, -1, 1) in
  let* le := getLabelEnd b in
  let* (j, p) :=
    loop fuel (fun '(j, p) =>
      if j =? 0 then Pure (inr (j, p))
      else
        let* x := getEndpoint (getOppositeEndpoint p) in
        let* _ := setLabel x UNLABELED in
        let* endPs := getBlossomEndPs b in
        let* e := lift (atZ endPs (j - endpTrick)) in
        let* y := getEndpoint (Z.lxor (Z.lxor e endpTrick) 1) in
        let* _ := setLabel y UNLABELED in
        let* x := getEndpoint (getOppositeEndpoint p) in
        let* _ := assignLabel x VERTEX_LABEL_T p in
        let* endPs := getBlossomEndPs b in
        let* e := lift (atZ endPs (j - endpTrick)) in
        let* _ := allowEdgeTrue (getEdgeFromEndpoint e) in
        let j := j + jStep in
        let* endPs := getBlossomEndPs b in
        let* e := lift (atZ endPs (j - endpTrick)) in
        let p := Z.lxor e endpTrick in
        let* _ := allowEdgeTrue (getEdgeFromEndpoint p) in
        let j := j + jStep in
        Pure (inl (j, p))) (j, le) in
  let* childs := getBlossomChilds b in
  let* bv := lift (atZ childs j) in
  let* x := getEndpoint (getOppositeEndpoint p) in
  let* _ := setLabel bv VERTEX_LABEL_T in
  let* _ := setLabel x VERTEX_LABEL_T in
  let* x := getEndpoint (getOppositeEndpoint p) in
  let* _ := setLabelEnd bv p in
  let* _ := setLabelEnd x p in
  let* _ := setBestEdge bv UNMATCHED in
  let j := j + jStep in
  loop fuel (fun j =>
    let* childs := getBlossomChilds b in
    let* currentBv := lift (atZ childs j) in
    if currentBv =? entryChild then Pure (inr tt)
    else
      let* lc := getLabel currentBv in
      if lc =? VERTEX_LABEL_S then Pure (inl (j + jStep))
      else
        let* leaves := blossomLeaves currentBv in
        let* v := findLabelled leaves in
        let* _ :=
          if v =? UNMATCHED then
            (* [this.label[-1] !== UNLABELED] *)
            let* l := rd (fun s => Some (labelNeg1 s)) in
            match l with
            | Some 0 => skip
            | _ =>
                let* _ := upd (fun s => Some (set_labelNeg1 s (Some UNLABELED))) in
                let* base := getBlossomBase currentBv in
                let* m := getMate base in
                let* y := getEndpoint m in
                let* _ := setLabel y UNLABELED in
                assignLabelMinusOne
            end
          else
            let* l := getLabel v in
            if negb (l =? UNLABELED) then
              let* _ := setLabel v UNLABELED in
              let* base := getBlossomBase currentBv in
              let* m := getMate base in
              let* y := getEndpoint m in
              let* _ := setLabel y UNLABELED in
              let* lev := getLabelEnd v in
              assignLabel v VERTEX_LABEL_T lev
            else skip in
        Pure (inl (j + jStep))) j.

(** [expandBlossom(b, endStage)] *)
Fixpoint expandBlossomRec (n : nat) (b : Z) (endStage : bool) : prog unit :=
  match n with
  | O => Halt OutOfFuel
  | S n' =>
      let* childs := getBlossomChilds b in
      let* _ :=
        forEach childs (fun s =>
          let* _ := setBlossomParent s (-1) in
          if s <? nVertex g then setInBlossom s s
          else
            let* zeroDual :=
              if endStage
              then let* d := getDualVar s in Pure (jsEq d (Fin 0))
              else Pure false in
            if zeroDual then expandBlossomRec n' s endStage
            else
              let* leaves := blossomLeaves s in
              forEach leaves (fun v => setInBlossom v s)) in
      let* relabel :=
        if endStage then Pure false
        else let* lb := getLabel b in Pure (lb =? VERTEX_LABEL_T) in
      let* _ := if relabel then expandBlossomRelabel b else skip in
      let* _ := setLabelEnd b UNMATCHED in
      let* _ := setLabel b UNMATCHED in
      let* _ := setBlossomEndPs b [] in
      let* _ := setBlossomChilds b [] in
      let* _ := setBlossomBase b UNMATCHED in
      let* _ := setBlossomBestEdges b [] in
      let* _ := setBestEdge b UNMATCHED in
      unusedPush b
  end.

Definition expandBlossom := expandBlossomRec fuel.

(** [Array.prototype.slice(start)] and [slice(0, end)]. *)
Definition relIndex {A} (l : list A) (i : Z) : nat :=
  let len := Z.of_nat (length l) in
  Z.to_nat (if i <? 0 then Z.max (len + i) 0 else Z.min i len).
Definition sliceFrom {A} (l : list A) (i : Z) : list A := drop (relIndex l i) l.
Definition sliceTo {A} (l : list A) (i : Z) : list A := take (relIndex l i) l.

(** [augmentBlossom(b, v)] *)
Fixpoint augmentBlossomRec (n : nat) (b v : Z) : prog unit :=
  match n with
  | O => Halt OutOfFuel
  | S n' =>
      let* currentBlossom :=
        loop fuel (fun currentBlossom =>
          let* parent := getBlossomParent currentBlossom in
          if parent =? b then Pure (inr currentBlossom)
          else Pure (inl parent)) v in
      let* _ :=
        if currentBlossom >? nVertex g
        then augmentBlossomRec n' currentBlossom v
        else skip in
      let* childs := getBlossomChilds b in
      let baseIndex := indexOf childs currentBlossom in
      let '(childIndex, jStep, endpTrick) :=
        if negb (Z.land baseIndex 1 =? 0)
        then (baseIndex - Z.of_nat (length childs), 1, 0)
        else (baseIndex, -1, 1) in
      let* _ :=
        loop fuel (fun childIndex =>
          if childIndex =? 0 then Pure (inr tt)
          else
            let childIndex := childIndex + jStep in
            let* childs := getBlossomChilds b in
            let* childBlossom := lift (atZ childs childIndex) in
            let* endPs := getBlossomEndPs b in
            let* e := lift (atZ endPs (childIndex - endpTrick)) in
            let p := Z.lxor e endpTrick in
            let* _ :=
              if childBlossom >=? nVertex g
              then let* x := getEndpoint p in
                   augmentBlossomRec n' childBlossom x
              else skip in
            let childIndex := childIndex + jStep in
            let* childs := getBlossomChilds b in
            let* childBlossom := lift (atZ childs childIndex) in
            let* _ :=
              if childBlossom >=? nVertex g
              then let* x := getEndpoint (getOppositeEndpoint p) in
                   augmentBlossomRec n' childBlossom x
              else skip in
            let* x := getEndpoint p in
            let* _ := setMate x (getOppositeEndpoint p) in
            let* y := getEndpoint (getOppositeEndpoint p) in
            let* _ := setMate y p in
            Pure (inl childIndex)) childIndex in
      let* childs := getBlossomChilds b in
      let* _ := setBlossomChilds b
                  (sliceFrom childs baseIndex ++ sliceTo childs baseIndex) in
      let* endPs := getBlossomEndPs b in
      let* _ := setBlossomEndPs b
                  (sliceFrom endPs baseIndex ++ sliceTo endPs baseIndex) in
      let* childs := getBlossomChilds b in
      let* first := lift (nthZ childs 0) in
      let* base := getBlossomBase first in
      setBlossomBase b base
  end.

Definition augmentBlossom := augmentBlossomRec fuel.

(** [augmentMatching(k)].  [augmentBlossom] writes neither [labelEnd] nor
    [inBlossom], so the repeated reads of [labelEnd[bt]] in one iteration
    are one read, named [lebt]. *)
Definition augmentMatchingStep (st : Z * Z) : prog (Z * Z + unit) :=
  let '(s, p) := st in
  let* bs := getInBlossom s in
  let* _ := if bs >=? nVertex g then augmentBlossom bs s else skip in
  let* _ := setMate s p in
  let* le := getLabelEnd bs in
  if le =? UNMATCHED then Pure (inr tt)
  else
    let* t := getEndpoint le in
    let* bt := getInBlossom t in
    let* lebt := getLabelEnd bt in
    let* s' := getEndpoint lebt in
    let* j := getEndpoint (getOppositeEndpoint lebt) in
    let* _ := if bt >=? nVertex g then augmentBlossom bt j else skip in
    let* _ := setMate j lebt in
    Pure (inl (s', getOppositeEndpoint lebt)).

Definition augmentMatching (k : Z) : prog unit :=
  let* (v, w, _) := getEdge k in
  forEach [(v, EDGE_ENDPOINT_COUNT * k + 1); (w, EDGE_ENDPOINT_COUNT * k)]
          (loop fuel augmentMatchingStep).

End Edmonds.

(** ** Dual adjustment: the choice of delta (phase 3 of the stage loop) *)

Record DeltaChoice : Type := mkDelta {
  deltaType : Z;
  delta : number;
  deltaEdge : Z;
  deltaBlossom : Z
}.

(** [getMin(arr, start, end)], i.e. [Math.min(...arr.slice(start, end + 1))];
    [Math.min()] of no argument is [Infinity]. *)
Definition getMin (arr : list number) (start end_ : Z) : number :=
  fold_left mathMin
    (take (Z.to_nat (end_ + 1 - start)) (drop (Z.to_nat start) arr))
    (Inf false).

Fixpoint foldOpt {A B} (l : list A) (acc : B) (body : B -> A -> option B)
  : option B :=
  match l with
  | [] => Some acc
  | x :: l' =>
      match body acc x with
      | Some acc' => foldOpt l' acc' body
      | None => None
      end
  end.

Section Delta.

Variable g : Graph.
Variable s : State.

(** [this.label[this.inBlossom[v]]] *)
Definition topLabel (v : Z) : option Z :=
  ib ← nthZ (inBlossom s) v; nthZ (label s) ib.

(** Body of [for (let v = 0; v < nVertex; v++)], type 2. *)
Definition deltaEdgeSlackStep (d : DeltaChoice) (v : Z) : option DeltaChoice :=
  l ← topLabel v;
  if negb (l =? UNLABELED) then Some d
  else
    be ← nthZ (bestEdge s) v;
    if be =? UNMATCHED then Some d
    else
      edgeSlack ← slackOf g s be;
      if (deltaType d =? DELTA_TYPE_NONE) || jsLt edgeSlack (delta d)
      then Some (mkDelta DELTA_TYPE_EDGE_SLACK edgeSlack be (deltaBlossom d))
      else Some d.

(** Body of [for (let b = 0; b < blossomCount; b++)], type 3. *)
Definition deltaBlossomSlackStep (d : DeltaChoice) (b : Z)
  : option DeltaChoice :=
  par ← nthZ (blossomParent s) b;
  if negb (par =? UNMATCHED) then Some d
  else
    l ← nthZ (label s) b;
    if negb (l =? VERTEX_LABEL_S) then Some d
    else
      be ← nthZ (bestEdge s) b;
      if be =? UNMATCHED then Some d
      else
        edgeSlack ← slackOf g s be;
        let blossomSlackDelta := jsDiv edgeSlack (Fin 2) in
        if (deltaType d =? DELTA_TYPE_NONE) || jsLt blossomSlackDelta (delta d)
        then Some (mkDelta DELTA_TYPE_BLOSSOM_SLACK blossomSlackDelta be
                           (deltaBlossom d))
        else Some d.

(** Body of [for (let b = startVertex; b < endVertex; b++)], type 4. *)
Definition deltaBlossomExpandStep (d : DeltaChoice) (b : Z)
  : option DeltaChoice :=
  base ← nthZ (blossomBase s) b;
  if negb (base >=? 0) then Some d
  else
    par ← nthZ (blossomParent s) b;
    if negb (par =? UNMATCHED) then Some d
    else
      l ← nthZ (label s) b;
      if negb (l =? VERTEX_LABEL_T) then Some d
      else
        if deltaType d =? DELTA_TYPE_NONE
        then dv ← nthZ (dualVar s) b;
             Some (mkDelta DELTA_TYPE_BLOSSOM_EXPAND dv (deltaEdge d) b)
        else
          dv ← nthZ (dualVar s) b;
          if jsLt dv (delta d)
          then Some (mkDelta DELTA_TYPE_BLOSSOM_EXPAND dv (deltaEdge d) b)
          else Some d.

Definition computeDelta : option DeltaChoice :=
  let n := nVertex g in
  let d0 := mkDelta DELTA_TYPE_NONE (Fin zeroQ) UNMATCHED UNMATCHED in
  let d1 := if negb (maxCardinality g)
            then mkDelta DELTA_TYPE_DUAL_DECREASE
                         (getMin (dualVar s) 0 (n - 1)) UNMATCHED UNMATCHED
            else d0 in
  d2 ← foldOpt (zrange 0 n) d1 deltaEdgeSlackStep;
  d3 ← foldOpt (zrange 0 (BLOSSOM_MULTIPLIER * n)) d2 deltaBlossomSlackStep;
  d4 ← foldOpt (zrange n n) d3 deltaBlossomExpandStep;
  if deltaType d4 =? DELTA_TYPE_NONE
  then Some (mkDelta DELTA_TYPE_DUAL_DECREASE
               (mathMax (Fin zeroQ) (getMin (dualVar s) 0 (n - 1)))
               (deltaEdge d4) (deltaBlossom d4))
  else Some d4.

End Delta.

(** ** The stage loop: [maxWeightMatching] *)

Section Stages.

Variable g : Graph.
Variable fuel : nat.

Definition hasVertexLabel (vertex labelType : Z) : prog bool :=
  let* ib := getInBlossom vertex in
  let* l := getLabel ib in
  Pure (l =? labelType).
Definition isUnlabeledVertex (vertex : Z) : prog bool :=
  hasVertexLabel vertex UNLABELED.
Definition isSVertex (vertex : Z) : prog bool :=
  hasVertexLabel vertex VERTEX_LABEL_S.

(** The five assignments that open a stage.  Assigning a fresh array to
    [this.label] also drops its [-1] property. *)
Definition stageReset : prog unit :=
  let n := nVertex g in
  let* _ := upd (fun s => Some (set_labelNeg1
                   (set_label s (filledArray (BLOSSOM_MULTIPLIER * n) UNLABELED))
                   None)) in
  let* _ := upd (fun s => Some (set_bestEdge s
                   (filledArray (BLOSSOM_MULTIPLIER * n) UNMATCHED))) in
  let* _ := upd (fun s => Some (set_blossomBestEdges s
                   (initArrArr (BLOSSOM_MULTIPLIER * n)))) in
  let* _ := upd (fun s => Some (set_allowEdge s (filledArray (nEdge g) false))) in
  upd (fun s => Some (set_queue s [])).

(** Phase 1. *)
Definition initRoots : prog unit :=
  forEach (zrange 0 (nVertex g)) (fun v =>
    let* m := getMate v in
    if m =? UNMATCHED then
      let* ib := getInBlossom v in
      let* l := getLabel ib in
      if l =? UNLABELED
      then assignLabel g fuel v VERTEX_LABEL_S UNMATCHED
      else skip
    else skip).

(** [bestEdge[x] === UNMATCHED || currentEdgeSlack < slack(bestEdge[x])] *)
Definition trackBestEdge (x edgeIndex : Z) : prog unit :=
  let* currentEdgeSlack := slack g edgeIndex in
  let* be := getBestEdge x in
  let* better :=
    if be =? UNMATCHED then Pure true
    else let* sb := slack g be in Pure (jsLt currentEdgeSlack sb) in
  if better then setBestEdge x edgeIndex else skip.

(** Body of [for (const edgeEndpoint of this.neighbend[currentVertex])];
    the answer [true] is the [break] taken after an augmentation. *)
Definition scanNeighbour (currentVertex edgeEndpoint : Z) : prog bool :=
  let edgeIndex := getEdgeFromEndpoint edgeEndpoint in
  let* adjacentVertex := getEndpoint g edgeEndpoint in
  let* bc := getInBlossom currentVertex in
  let* ba := getInBlossom adjacentVertex in
  if bc =? ba then Pure false
  else
    let* allowed := getAllowEdge edgeIndex in
    let* _ :=
      if negb allowed then
        let* edgeSlack := slack g edgeIndex in
        if jsLe edgeSlack (Fin 0) then allowEdgeTrue edgeIndex else skip
      else skip in
    let* allowed := getAllowEdge edgeIndex in
    if allowed then
      let* unlabeled := isUnlabeledVertex adjacentVertex in
      if unlabeled then
        let* _ := assignLabel g fuel adjacentVertex VERTEX_LABEL_T
                    (getOppositeEndpoint edgeEndpoint) in
        Pure false
      else
        let* isS := isSVertex adjacentVertex in
        if isS then
          let* base := scanBlossom g fuel currentVertex adjacentVertex in
          if base >=? 0 then
            let* _ := addBlossom g fuel base edgeIndex in Pure false
          else
            let* _ := augmentMatching g fuel edgeIndex in Pure true
        else
          let* l := getLabel adjacentVertex in
          if l =? UNLABELED then
            let* _ := setLabel adjacentVertex VERTEX_LABEL_T in
            let* _ := setLabelEnd adjacentVertex
                        (getOppositeEndpoint edgeEndpoint) in
            Pure false
          else Pure false
    else
      let* isS := isSVertex adjacentVertex in
      if isS then
        let* currentBlossom := getInBlossom currentVertex in
        let* _ := trackBestEdge currentBlossom edgeIndex in
        Pure false
      else
        let* l := getLabel adjacentVertex in
        if l =? UNLABELED then
          let* _ := trackBestEdge adjacentVertex edgeIndex in
          Pure false
        else Pure false.

(** Phase 2: [while (this.queue.length > 0 && !augmented)]; answers
    [augmented]. *)
Definition searchLoop : prog bool :=
  loop fuel (fun _ : unit =>
    let* q := rd (fun s => Some (queue s)) in
    if Z.of_nat (length q) >? 0 then
      let* currentVertex := queuePop in
      let* nb := getNeighbend g currentVertex in
      let* augmented := forEachBreak nb (scanNeighbour currentVertex) in
      if augmented then Pure (inr true) else Pure (inl tt)
    else Pure (inr false)) tt.

(** Phase 4. *)
Definition applyDelta (d : number) : prog unit :=
  let n := nVertex g in
  let* _ :=
    forEach (zrange 0 n) (fun v =>
      let* ib := getInBlossom v in
      let* vertexLabel := getLabel ib in
      if vertexLabel =? VERTEX_LABEL_S then
        let* x := getDualVar v in setDualVar v (jsSub x d)
      else if vertexLabel =? VERTEX_LABEL_T then
        let* x := getDualVar v in setDualVar v (jsAdd x d)
      else skip) in
  forEach (zrange n n) (fun b =>
    let* base := getBlossomBase b in
    if base >=? 0 then
      let* par := getBlossomParent b in
      if par =? UNMATCHED then
        let* l := getLabel b in
        if l =? VERTEX_LABEL_S then
          let* x := getDualVar b in setDualVar b (jsAdd x d)
        else if l =? VERTEX_LABEL_T then
          let* x := getDualVar b in setDualVar b (jsSub x d)
        else skip
      else skip
    else skip).

(** Phase 5; the answer [true] is the [break] of type 1. *)
Definition actOnDelta (d : DeltaChoice) : prog bool :=
  if deltaType d =? DELTA_TYPE_DUAL_DECREASE then Pure true
  else if deltaType d =? DELTA_TYPE_EDGE_SLACK then
    let* _ := allowEdgeTrue (deltaEdge d) in
    let* (vertex1, vertex2, _) := getEdge g (deltaEdge d) in
    let* unlabeled := isUnlabeledVertex vertex1 in
    let* _ := queuePush [if unlabeled then vertex2 else vertex1] in
    Pure false
  else if deltaType d =? DELTA_TYPE_BLOSSOM_SLACK then
    let* _ := allowEdgeTrue (deltaEdge d) in
    let* (vertex, _, _) := getEdge g (deltaEdge d) in
    let* _ := queuePush [vertex] in
    Pure false
  else if deltaType d =? DELTA_TYPE_BLOSSOM_EXPAND then
    let* _ := expandBlossom g fuel (deltaBlossom d) false in
    Pure false
  else Pure false.

(** Phases 3 to 5. *)
Definition dualAdjust : prog bool :=
  let* d := rd (computeDelta g) in
  let* _ := applyDelta (delta d) in
  actOnDelta d.

(** The [while (true)] loop of a stage; answers [augmented]. *)
Definition stageSearch : prog bool :=
  loop fuel (fun _ : unit =>
    let* augmented := searchLoop in
    if augmented then Pure (inr true)
    else
      let* stop := dualAdjust in
      if stop then Pure (inr false) else Pure (inl tt)) tt.

(** The expansions that close a stage that augmented. *)
Definition endStageExpand : prog unit :=
  let n := nVertex g in
  forEach (zrange n n) (fun b =>
    let* par := getBlossomParent b in
    if par =? UNMATCHED then
      let* base := getBlossomBase b in
      if base >=? 0 then
        let* l := getLabel b in
        if l =? VERTEX_LABEL_S then
          let* d := getDualVar b in
          if jsEq d (Fin 0) then expandBlossom g fuel b true else skip
        else skip
      else skip
    else skip).

(** What a stage does after its reset. *)
Definition stageBody : prog bool :=
  let* _ := initRoots in
  let* augmented := stageSearch in
  if augmented then
    let* _ := endStageExpand in Pure false
  else Pure true.

(** One iteration of [for (let t = 0; t < nVertex; t++)]; the answer
    [true] is [if (!augmented) break]. *)
Definition stage (t : Z) : prog bool :=
  let* _ := stageReset in stageBody.

Definition stages : prog bool :=
  forEachBreak (zrange 0 (nVertex g)) stage.

(** The closing loop that turns endpoint ids into vertex ids. *)
Definition mateToVertex (v : Z) : prog unit :=
  let* m := getMate v in
  if m >=? 0 then
    let* w := getEndpoint g m in setMate v w
  else skip.

Definition matesToVertices : prog unit :=
  forEach (zrange 0 (nVertex g)) mateToVertex.

Definition maxWeightMatching : prog (list Z) :=
  let* _ := stages in
  let* _ := matesToVertices in
  rd (fun s => Some (mate s)).

End Stages.

(** ** The entry point [blossom] *)

Inductive failure : Type :=
| Thrown (e : JsError)
| Halted (h : haltReason).

Inductive result (A : Type) : Type :=
| Returned (a : A)
| Failed (f : failure).

Arguments Returned {A} a.
Arguments Failed {A} f.

(** [new Array(len)] and [Array.from({length: len})] throw a [RangeError]
    when [len] exceeds [2^32 - 1]. *)
Definition maxArrayLength : Z := 4294967295.
Definition msgArrayLength : string := "Invalid array length".

(** The lengths of the arrays the constructor allocates, in source order:
    [endpoint], [neighbend], then the arrays of
    [initializeBlossomStructures] and [initializeMatchingStructures]. *)
Definition constructorArrayLengths (n m : Z) : list Z :=
  let n2 := BLOSSOM_MULTIPLIER * n in
  [EDGE_ENDPOINT_COUNT * m; n;
   n; n2; n2; n; n; n2; n2; n2; n;
   n; n2; n2; n; n; m].

Definition constructorAllocates (n m : Z) : bool :=
  forallb (fun len => len <=? maxArrayLength) (constructorArrayLengths n m).

(** [maxCardinality || false] *)
Definition orFalse (maxCardinality : option bool) : bool :=
  match maxCardinality with
  | Some true => true
  | _ => false
  end.

(** [new Edmonds(edges, mc).maxWeightMatching()], with the final store. *)
Definition runEdmonds (fuel : nat) (es : list Edge) (mc : bool)
  : result (list Z * State) :=
  if constructorAllocates (calculateVertexCount es) (Z.of_nat (length es))
  then
    let g := initializeGraphProperties es mc in
    match run (maxWeightMatching g fuel) (initialState g) with
    | Ret m s => Returned (m, s)
    | Err h => Failed (Halted h)
    end
  else Failed (Thrown (RangeError msgArrayLength)).

Definition blossom (fuel : nat) (edges : JsVal) (maxCardinality : option bool)
  : result (list Z) :=
  match edges with
  | JArray es =>
      if Z.of_nat (length es) =? 0 then Returned []
      else
        match validateEdges es with
        | Some err => Failed (Thrown err)
        | None =>
            match runEdmonds fuel (map toEdge es) (orFalse maxCardinality) with
            | Returned (m, _) => Returned m
            | Failed f => Failed f
            end
        end
  | _ => Failed (Thrown (Error msgNotArray))
  end.

(** Edge lists of integer-weighted edges as JavaScript values. *)
Definition jsEdge (e : Z * Z * Z) : JsVal :=
  let '(i, j, w) := e in JArray [JNum (inject_Z i); JNum (inject_Z j); JNum (inject_Z w)].
Definition jsEdges (es : list (Z * Z * Z)) : JsVal := JArray (map jsEdge es).

(** The value of the numeric literal [q]: the nearest binary64 value. *)
Definition jsNumber (q : Q) : JsVal :=
  match round64 q with
  | Fin r => JNum r
  | Inf negative => JInfinity negative
  | NaN => JNaN
  end.

(** An edge given by the literals of its weight. *)
Definition jsEdgeQ (e : Z * Z * Q) : JsVal :=
  let '(i, j, w) := e in
  JArray [JNum (inject_Z i); JNum (inject_Z j); jsNumber w].

(** * Specification-side definitions *)

(** ** Input validation, as the specification words it *)

Definition nonNegativeInteger (v : JsVal) : Prop :=
  exists q z, v = JNum q /\ (q == inject_Z z)%Q /\ 0 <= z.
Definition finiteNumber (v : JsVal) : Prop := exists q, v = JNum q.
Definition validEdge (e : JsVal) : Prop :=
  exists v1 v2 w, e = JArray [v1; v2; w] /\
    nonNegativeInteger v1 /\ nonNegativeInteger v2 /\ finiteNumber w.
Definition invalidInput (edges : JsVal) : Prop :=
  match edges with
  | JArray es => Exists (fun e => ~ validEdge e) es
  | _ => True
  end.

(** ** Brute-force oracle on integer-weighted edge lists *)

Definition WEdge : Type := (Z * Z * Z)%type.

Definition memZ (x : Z) (l : list Z) : bool := existsb (Z.eqb x) l.

(** Cardinality and weight of every matching contained in [es] that avoids
    the vertices in [used]. *)
Fixpoint matchingsFrom (es : list WEdge) (used : list Z) : list (Z * Z) :=
  match es with
  | [] => [(0, 0)]
  | (i, j, w) :: rest =>
      matchingsFrom rest used ++
      (if (i =? j) || memZ i used || memZ j used then []
       else map (fun '(c, t) => (c + 1, t + w))
                (matchingsFrom rest (i :: j :: used)))
  end.

Definition bruteForceWeight (es : list WEdge) : Z :=
  fold_left Z.max (map snd (matchingsFrom es [])) 0.

(** Largest cardinality, then largest weight at that cardinality. *)
Definition betterCardWeight (a b : Z * Z) : Z * Z :=
  if (a.1 <? b.1) || ((a.1 =? b.1) && (a.2 <? b.2)) then b else a.
Definition bruteForceCardWeight (es : list WEdge) : Z * Z :=
  fold_left betterCardWeight (matchingsFrom es []) (0, 0).

(** Weight of the first edge of [es] joining [u] and [v]. *)
Fixpoint weightBetween (es : list WEdge) (u v : Z) : option Z :=
  match es with
  | [] => None
  | (i, j, w) :: rest =>
      if ((i =? u) && (j =? v)) || ((i =? v) && (j =? u)) then Some w
      else weightBetween rest u v
  end.

(** Cardinality and weight of the matching a result array denotes; [None]
    when the array is not symmetric or pairs vertices no edge joins. *)
Fixpoint resultPairs (es : list WEdge) (m : list Z) (vs : list Z)
  : option (Z * Z) :=
  match vs with
  | [] => Some (0, 0)
  | v :: rest =>
      '(c, t) ← resultPairs es m rest;
      x ← nthZ m v;
      if x =? UNMATCHED then Some (c, t)
      else
        back ← nthZ m x;
        if negb (back =? v) then None
        else if v <? x then w ← weightBetween es v x; Some (c + 1, t + w)
        else Some (c, t)
  end.
Definition resultCardWeight (es : list WEdge) (m : list Z) : option (Z * Z) :=
  resultPairs es m (zrange 0 (Z.of_nat (length m))).

(** No self-loops and no parallel edges. *)
Fixpoint simpleGraph (es : list WEdge) : bool :=
  match es with
  | [] => true
  | (i, j, _) :: rest =>
      negb (i =? j) && negb (bool_decide (is_Some (weightBetween rest i j)))
      && simpleGraph rest
  end.

Definition bugWeightEdges : list WEdge :=
  [(3, 0, 7); (0, 4, 7); (3, 1, 6); (2, 0, 3); (3, 4, 7); (3, 5, 5); (1, 4, 6)].
Definition bugCardEdges : list WEdge :=
  [(2, 0, 1); (1, 4, 4); (2, 1, 0); (3, 0, 2); (0, 4, 4); (0, 1, 3);
   (5, 4, 0); (3, 1, 2)].

(** The vertex count [blossom] infers from an integer-weighted list. *)
Definition inferredVertexCount (es : list WEdge) : Z :=
  calculateVertexCount (map (fun '(i, j, w) => (i, j, inject_Z w)) es).

(** ** A program logic for [prog] *)

(** [wp R Q p s]: in the run of [p] from [s], every write takes a store to
    an [R]-related one and, if the run returns, [Q] holds of the value and
    the final store. *)
Fixpoint wp {A} (R : State -> State -> Prop) (Q : A -> State -> Prop)
    (p : prog A) (s : State) : Prop :=
  match p with
  | Pure a => Q a s
  | Halt _ => True
  | Get k => wp R Q (k s) s
  | Put s' k => R s s' /\ wp R Q k s'
  end.

(** Every write of [p], from any store, respects [R]; returned values
    satisfy [Q]. *)
Definition respects {A} (R : State -> State -> Prop) (Q : A -> Prop)
    (p : prog A) : Prop :=
  forall s, wp R (fun a _ => Q a) p s.

Definition anyValue {A} : A -> Prop := fun _ => True.

(** ** Relations between successive stores *)

(** Allowed edges stay allowed. *)
Definition allowMono (s s' : State) : Prop :=
  length (allowEdge s') = length (allowEdge s) /\
  forall k, nthZ (allowEdge s) k = Some true -> nthZ (allowEdge s') k = Some true.

(** Every entry of [mate] is -1 or the far endpoint of an edge whose near
    end is the entry's index. *)
Definition mateShape (g : Graph) (s : State) : Prop :=
  forall v x, nthZ (mate s) v = Some x ->
    x = UNMATCHED \/ nthZ (endpoint g) (getOppositeEndpoint x) = Some v.

Definition keepsMateShape (g : Graph) (s s' : State) : Prop :=
  length (mate s') = length (mate s) /\ (mateShape g s -> mateShape g s').

(** The two ends of every edge are recorded in [endpoint]. *)
Definition endpointsOfEdges (g : Graph) : Prop :=
  forall k v w q, nthZ (edges g) k = Some (v, w, q) ->
    nthZ (endpoint g) (EDGE_ENDPOINT_COUNT * k) = Some v /\
    nthZ (endpoint g) (EDGE_ENDPOINT_COUNT * k + 1) = Some w.


(** The largest vertex id occurring in an edge list. *)
Definition vertexIds (es : list Edge) : list Z :=
  flat_map (fun '(i, j, _) => [i; j]) es.
Definition maxVertexId (es : list Edge) : Z :=
  fold_right Z.max (-1) (vertexIds es).

(** ** The bounds that compete for delta, as the specification lists them *)

Record Candidate : Type := mkCandidate {
  cType : Z;
  cValue : number;
  cEdge : Z;
  cBlossom : Z
}.

Section Candidates.

Variable g : Graph.
Variable s : State.

(** Type 1, only when not in maximum-cardinality mode: the minimum dual
    variable over the original vertices. *)
Definition dualDecreaseCandidates : option (list Candidate) :=
  if maxCardinality g then Some []
  else Some [mkCandidate DELTA_TYPE_DUAL_DECREASE
               (getMin (dualVar s) 0 (nVertex g - 1)) UNMATCHED UNMATCHED].

(** Type 2: the slack of the cached best edge of a vertex whose top-level
    blossom is unlabeled. *)
Definition edgeSlackCandidates (v : Z) : option (list Candidate) :=
  l ← topLabel s v;
  if l =? UNLABELED then
    be ← nthZ (bestEdge s) v;
    if be =? UNMATCHED then Some []
    else sl ← slackOf g s be;
         Some [mkCandidate DELTA_TYPE_EDGE_SLACK sl be UNMATCHED]
  else Some [].

(** Type 3: half the slack of the cached best edge of a top-level
    S-labeled blossom. *)
Definition blossomSlackCandidates (b : Z) : option (list Candidate) :=
  par ← nthZ (blossomParent s) b;
  if par =? UNMATCHED then
    l ← nthZ (label s) b;
    if l =? VERTEX_LABEL_S then
      be ← nthZ (bestEdge s) b;
      if be =? UNMATCHED then Some []
      else sl ← slackOf g s be;
           Some [mkCandidate DELTA_TYPE_BLOSSOM_SLACK (jsDiv sl (Fin 2)) be
                             UNMATCHED]
    else Some []
  else Some [].

(** Type 4: the dual variable of a top-level T-labeled blossom. *)
Definition blossomExpandCandidates (b : Z) : option (list Candidate) :=
  base ← nthZ (blossomBase s) b;
  if base >=? 0 then
    par ← nthZ (blossomParent s) b;
    if par =? UNMATCHED then
      l ← nthZ (label s) b;
      if l =? VERTEX_LABEL_T then
        dv ← nthZ (dualVar s) b;
        Some [mkCandidate DELTA_TYPE_BLOSSOM_EXPAND dv UNMATCHED b]
      else Some []
    else Some []
  else Some [].

(** The candidates of the positions [l], in order. *)
Fixpoint collect (l : list Z) (f : Z -> option (list Candidate))
  : option (list Candidate) :=
  match l with
  | [] => Some []
  | x :: l' => c ← f x; cs ← collect l' f; Some (c ++ cs)
  end.

(** All candidates in the scan order: type 1, type 2 by vertex, type 3 by
    blossom, type 4 by blossom. *)
Definition deltaCandidates : option (list Candidate) :=
  let n := nVertex g in
  c1 ← dualDecreaseCandidates;
  c2 ← collect (zrange 0 n) edgeSlackCandidates;
  c3 ← collect (zrange 0 (BLOSSOM_MULTIPLIER * n)) blossomSlackCandidates;
  c4 ← collect (zrange n n) blossomExpandCandidates;
  Some (c1 ++ c2 ++ c3 ++ c4).

End Candidates.

(** What the loops do with one candidate. *)
Definition consider (d : DeltaChoice) (c : Candidate) : DeltaChoice :=
  if (deltaType d =? DELTA_TYPE_NONE) || jsLt (cValue c) (delta d)
  then mkDelta (cType c) (cValue c)
               (if (cType c =? DELTA_TYPE_EDGE_SLACK)
                   || (cType c =? DELTA_TYPE_BLOSSOM_SLACK)
                then cEdge c else deltaEdge d)
               (if cType c =? DELTA_TYPE_BLOSSOM_EXPAND
                then cBlossom c else deltaBlossom d)
  else d.

Definition properType (c : Candidate) : Prop :=
  cType c = DELTA_TYPE_DUAL_DECREASE \/ cType c = DELTA_TYPE_EDGE_SLACK \/
  cType c = DELTA_TYPE_BLOSSOM_SLACK \/ cType c = DELTA_TYPE_BLOSSOM_EXPAND.

(** [d] is the earliest candidate of least value in [cs]. *)
Definition earliestMinimum (cs : list Candidate) (d : DeltaChoice) : Prop :=
  exists i c, cs !! i = Some c /\
    deltaType d = cType c /\ delta d = cValue c /\
    (cType c = DELTA_TYPE_EDGE_SLACK \/ cType c = DELTA_TYPE_BLOSSOM_SLACK ->
       deltaEdge d = cEdge c) /\
    (cType c = DELTA_TYPE_BLOSSOM_EXPAND -> deltaBlossom d = cBlossom c) /\
    (forall j c', cs !! j = Some c' -> jsLe (cValue c) (cValue c') = true) /\
    (forall j c', (j < i)%nat -> cs !! j = Some c' ->
                  jsLt (cValue c) (cValue c') = true).

(** No bound is NaN. *)
Definition comparable (cs : list Candidate) : Prop :=
  Forall (fun c => cValue c <> NaN) cs.

(** * Definitions for the further properties *)

(** The helper [isTVertex] of the class (the source never calls it). *)
Definition isTVertex (vertex : Z) : prog bool :=
  hasVertexLabel vertex VERTEX_LABEL_T.

(** ** What [initializeGraphConnectivity] puts in [neighbend] *)

(** [p] is pushed on [neighbend[v]] by one of the edges [pre]: it is the
    far endpoint of an edge that has [v] as its near end. *)
Definition incidentEndpoint (pre : list Edge) (v p : Z) : Prop :=
  exists (q : nat) i j w, pre !! q = Some (i, j, w) /\
    ((i = v /\ p = 2 * Z.of_nat q + 1) \/ (j = v /\ p = 2 * Z.of_nat q)).

(** [nb] is [neighbend] once the edges [pre] have been pushed. *)
Definition neighbendUpTo (pre : list Edge) (nb : list (list Z)) : Prop :=
  forall (v : nat) l, nb !! v = Some l ->
    NoDup l /\ forall p, p ∈ l <-> incidentEndpoint pre (Z.of_nat v) p.

(** ** Footprints *)

(** The mutable fields of an [Edmonds] instance. *)
Inductive field : Type :=
| fMate | fLabel | fLabelNeg1 | fLabelEnd | fInBlossom | fBlossomParent
| fBlossomChilds | fBlossomBase | fBlossomEndPs | fBestEdge
| fBlossomBestEdges | fUnusedBlossoms | fDualVar | fAllowEdge | fQueue.

Definition sameField (f : field) (s s' : State) : Prop :=
  match f with
  | fMate => mate s' = mate s
  | fLabel => label s' = label s
  | fLabelNeg1 => labelNeg1 s' = labelNeg1 s
  | fLabelEnd => labelEnd s' = labelEnd s
  | fInBlossom => inBlossom s' = inBlossom s
  | fBlossomParent => blossomParent s' = blossomParent s
  | fBlossomChilds => blossomChilds s' = blossomChilds s
  | fBlossomBase => blossomBase s' = blossomBase s
  | fBlossomEndPs => blossomEndPs s' = blossomEndPs s
  | fBestEdge => bestEdge s' = bestEdge s
  | fBlossomBestEdges => blossomBestEdges s' = blossomBestEdges s
  | fUnusedBlossoms => unusedBlossoms s' = unusedBlossoms s
  | fDualVar => dualVar s' = dualVar s
  | fAllowEdge => allowEdge s' = allowEdge s
  | fQueue => queue s' = queue s
  end.

(** [s'] differs from [s] at most in the fields [fs]. *)
Definition writesOnly (fs : list field) (s s' : State) : Prop :=
  forall f, f ∉ fs -> sameField f s s'.

(** No constraint on the writes of a run. *)
Definition anyStore : State -> State -> Prop := fun _ _ => True.

(** The matching, respectively the [allowEdge] flags, are untouched. *)
Definition sameMate (s s' : State) : Prop := mate s' = mate s.
Definition sameAllowEdge (s s' : State) : Prop := allowEdge s' = allowEdge s.

(** [wpe Q E p s]: if the run of [p] from [s] returns, [Q] holds of the
    value and the final store; if it halts, [E] holds of the reason. *)
Fixpoint wpe {A} (Q : A -> State -> Prop) (E : haltReason -> Prop)
    (p : prog A) (s : State) : Prop :=
  match p with
  | Pure a => Q a s
  | Halt h => E h
  | Get k => wpe Q E (k s) s
  | Put s' k => wpe Q E k s'
  end.

(** ** Augmentation *)

(** [l'] is [l] rotated: [l.slice(i).concat(l.slice(0, i))]. *)
Definition rotationOf {A} (l l' : list A) : Prop :=
  exists l1 l2, l = l1 ++ l2 /\ l' = l2 ++ l1.

(** Every entry of the array of lists [f] is rotated. *)
Definition rotatesEntries (f : State -> list (list Z)) (s s' : State) : Prop :=
  length (f s') = length (f s) /\
  forall b l, nthZ (f s) b = Some l ->
    exists l', nthZ (f s') b = Some l' /\ rotationOf l l'.

(** What an augmentation may do to the store. *)
Definition augmentEffect (s s' : State) : Prop :=
  writesOnly [fMate; fBlossomChilds; fBlossomBase; fBlossomEndPs] s s' /\
  length (mate s') = length (mate s) /\
  length (blossomBase s') = length (blossomBase s) /\
  rotatesEntries blossomChilds s s' /\
  rotatesEntries blossomEndPs s s'.

(** ** [scanBlossom] *)

(** The number of entries of [label] that do not carry the visit mark of
    [scanBlossom] (bit 4). *)
Definition unmarked (s : State) : nat :=
  length (filter (fun l => Z.land l 4 = 0) (label s)).

(** What [scanBlossom] has done to [label] when the blossoms of [path] are
    marked. *)
Definition marksPath (path : list Z) (s s1 : State) : Prop :=
  writesOnly [fLabel] s s1 /\
  length (label s1) = length (label s) /\
  forall b,
    (b ∈ path ->
       (exists lb, nthZ (label s) b = Some lb /\ Z.land lb 4 = 0) /\
       nthZ (label s1) b = Some 5) /\
    (b ∉ path -> nthZ (label s1) b = nthZ (label s) b).

(** ** Phase 4: the dual variables *)

(** What phase 4 does to the dual variable [x] of a vertex whose top-level
    blossom has label [l], and to that of a live top-level blossom. *)
Definition vertexShift (l : Z) (d x : number) : number :=
  if l =? VERTEX_LABEL_S then jsSub x d
  else if l =? VERTEX_LABEL_T then jsAdd x d
  else x.
Definition blossomShift (l : Z) (d x : number) : number :=
  if l =? VERTEX_LABEL_S then jsAdd x d
  else if l =? VERTEX_LABEL_T then jsSub x d
  else x.

(** The label under which phase 4 treats blossom slot [b]: its own label
    when it is in use and top-level, no label otherwise. *)
Definition liveBlossomLabel (s : State) (b : Z) : option Z :=
  base ← nthZ (blossomBase s) b;
  if base >=? 0 then
    par ← nthZ (blossomParent s) b;
    if par =? UNMATCHED then nthZ (label s) b else Some UNLABELED
  else Some UNLABELED.

(** A finite number that is an integer multiple of 1/2, of magnitude at
    most [2^49]: sums and differences of a few such numbers are exact. *)
Definition smallHalf (x : number) : Prop :=
  exists q k, x = Fin q /\ (q == k # 2)%Q /\ Z.abs k <= 2 ^ 50.

(** The change of slack per unit of delta that an end with label [l]
    contributes. *)
Definition labelSign (l : Z) : Q :=
  if l =? VERTEX_LABEL_S then (-1)%Q
  else if l =? VERTEX_LABEL_T then 1%Q
  else 0%Q.

(** The store after a loop that has shifted the dual variables at [done]. *)
Definition dualsShifted (spec : Z -> (number -> number) -> Prop) (done : list Z)
    (s s' : State) : Prop :=
  writesOnly [fDualVar] s s' /\
  length (dualVar s') = length (dualVar s) /\
  forall u,
    (u ∈ done -> exists F, spec u F /\
                   nthZ (dualVar s') u = F <$> nthZ (dualVar s) u) /\
    (u ∉ done -> nthZ (dualVar s') u = nthZ (dualVar s) u).

(** The shift that the first, respectively the second loop of phase 4
    applies at an index, read off the store [s] the phase starts from. *)
Definition vertexSpec (d : number) (s : State) (v : Z) (F : number -> number) : Prop :=
  exists l, topLabel s v = Some l /\ F = vertexShift l d.
Definition blossomSpec (d : number) (s : State) (b : Z) (F : number -> number) : Prop :=
  exists l, liveBlossomLabel s b = Some l /\ F = blossomShift l d.

(** ** Blossoms *)

(** What expanding a blossom may do to the matching, the dual variables
    and the parent links: the first two stay, and a blossom without
    parent stays without parent. *)
Definition expandEffect (s s' : State) : Prop :=
  mate s' = mate s /\ dualVar s' = dualVar s /\
  length (blossomParent s') = length (blossomParent s) /\
  forall x, nthZ (blossomParent s) x = Some UNMATCHED ->
            nthZ (blossomParent s') x = Some UNMATCHED.

(** Slot [b] is free: what the closing assignments of [expandBlossom]
    leave. *)
Definition slotReleased (b : Z) (s : State) : Prop :=
  nthZ (blossomBase s) b = Some UNMATCHED /\
  nthZ (blossomChilds s) b = Some [] /\
  nthZ (blossomEndPs s) b = Some [] /\
  nthZ (blossomBestEdges s) b = Some [] /\
  nthZ (bestEdge s) b = Some UNMATCHED /\
  nthZ (label s) b = Some UNMATCHED /\
  nthZ (labelEnd s) b = Some UNMATCHED /\
  last (unusedBlossoms s) = Some b.

(** The child list of blossom [b] is as long as its endpoint list. *)
Definition balancedBlossom (b : Z) (s : State) : Prop :=
  exists c e, nthZ (blossomChilds s) b = Some c /\
              nthZ (blossomEndPs s) b = Some e /\ length c = length e.

(** The child list of blossom [b] starts with [first] and is as long as
    its endpoint list. *)
Definition closedBlossom (b first : Z) (s : State) : Prop :=
  exists tl e, nthZ (blossomChilds s) b = Some (first :: tl) /\
               nthZ (blossomEndPs s) b = Some e /\ length e = S (length tl).

(** [x] is a child of some blossom and not above [nVertex]. *)
Definition leafOf (g : Graph) (childs : list (list Z)) (x : Z) : Prop :=
  x <= nVertex g /\ exists c l, nthZ childs c = Some l /\ x ∈ l.

(** ** The search *)

(** What [scanNeighbour] may do to [allowEdge]: nothing, or mark edge [k],
    whose slack is not positive. *)
Definition allowsTight (g : Graph) (k : Z) (s s' : State) : Prop :=
  allowEdge s' = allowEdge s \/
  (exists sl, slackOf g s k = Some sl /\ jsLe sl (Fin 0) = true) /\
  setZ (allowEdge s) k true = Some (allowEdge s').

(** ** The closing loop *)

(** What the closing loop of [maxWeightMatching] makes of an entry of
    [mate]. *)
Definition mateVertex (g : Graph) (p : Z) : option Z :=
  if p >=? 0 then nthZ (endpoint g) p else Some p.

(** The entries at [done] hold vertices, the others are as in [s]. *)
Definition matesConverted (g : Graph) (done : list Z) (s s' : State) : Prop :=
  length (mate s') = length (mate s) /\
  forall v,
    (v ∈ done -> forall p, nthZ (mate s) v = Some p ->
                 nthZ (mate s') v = mateVertex g p) /\
    (v ∉ done -> nthZ (mate s') v = nthZ (mate s) v).

(** ** Stores of two runs of the repository's tests *)

(** "should create S-blossom and use it for augmentation (1)" and
    "should create S-blossom, relabel as T, expand". *)
Definition sBlossomEdges : list Edge :=
  [(1, 2, 8%Q); (1, 3, 9%Q); (2, 3, 10%Q); (3, 4, 7%Q)].
Definition tBlossomEdges : list Edge :=
  [(1, 2, 23%Q); (1, 5, 22%Q); (1, 6, 15%Q); (2, 3, 25%Q); (3, 4, 22%Q);
   (4, 5, 25%Q); (4, 8, 14%Q); (5, 7, 13%Q)].

(** The store of the stage loop on [es] after [i] writes. *)
Definition storeAt (es : list Edge) (i : nat) : State :=
  let g := initializeGraphProperties es false in
  default (initialState g)
          ((initialState g :: trace (stages g 50) (initialState g)) !! i).

(** ** [assignLabel] *)

(** What the six assignments that open [assignLabel] leave: the blossom
    [b] and the vertex [v] carry the label, the labelling endpoint and no
    best edge; nothing else has changed. *)
Definition labelsAssigned (v b labelType labelingEdge : Z) (s s1 : State)
  : Prop :=
  writesOnly [fLabel; fLabelEnd; fBestEdge] s s1 /\
  (forall x, x = b \/ x = v ->
     nthZ (label s1) x = Some labelType /\
     nthZ (labelEnd s1) x = Some labelingEdge /\
     nthZ (bestEdge s1) x = Some UNMATCHED) /\
  (forall x, x <> b -> x <> v ->
     nthZ (label s1) x = nthZ (label s) x /\
     nthZ (labelEnd s1) x = nthZ (labelEnd s) x /\
     nthZ (bestEdge s1) x = nthZ (bestEdge s) x).

(** ** Runs that return, and the stores of a run on negative weights *)

(** Every vertex is an unmatched S-root in a blossom of its own, no edge
    is allowed and all dual variables are zero. *)
Record allRoots (g : Graph) (s : State) : Prop := mkAllRoots {
  ar_mate : mate s = filledArray (nVertex g) UNMATCHED;
  ar_inBlossom : inBlossom s = zrange 0 (nVertex g);
  ar_labelLength :
    Z.of_nat (length (label s)) = BLOSSOM_MULTIPLIER * nVertex g;
  ar_label :
    forall v, 0 <= v < nVertex g -> nthZ (label s) v = Some VERTEX_LABEL_S;
  ar_blossomParent :
    blossomParent s = filledArray (BLOSSOM_MULTIPLIER * nVertex g) UNMATCHED;
  ar_blossomBase :
    blossomBase s = zrange 0 (nVertex g) ++ filledArray (nVertex g) UNMATCHED;
  ar_dualVar :
    dualVar s = filledArray (nVertex g) (Fin zeroQ)
                ++ filledArray (nVertex g) (Fin zeroQ);
  ar_allowEdge : allowEdge s = filledArray (nEdge g) false;
  ar_bestEdgeLength :
    Z.of_nat (length (bestEdge s)) = BLOSSOM_MULTIPLIER * nVertex g;
  ar_bestEdge :
    Forall (fun be => be = UNMATCHED \/ 0 <= be < nEdge g) (bestEdge s)
}.

(** The store while phase 1 labels the vertices: those of [done] are
    S-roots and queued, no other array has changed since the reset. *)
Record rootsUpTo (g : Graph) (done : list Z) (s : State) : Prop := mkRootsUpTo {
  ru_mate : mate s = filledArray (nVertex g) UNMATCHED;
  ru_inBlossom : inBlossom s = zrange 0 (nVertex g);
  ru_labelLength :
    Z.of_nat (length (label s)) = BLOSSOM_MULTIPLIER * nVertex g;
  ru_label :
    forall b, 0 <= b < BLOSSOM_MULTIPLIER * nVertex g ->
      nthZ (label s) b
      = Some (if b <? Z.of_nat (length done) then VERTEX_LABEL_S else UNLABELED);
  ru_labelEndLength :
    Z.of_nat (length (labelEnd s)) = BLOSSOM_MULTIPLIER * nVertex g;
  ru_blossomParent :
    blossomParent s = filledArray (BLOSSOM_MULTIPLIER * nVertex g) UNMATCHED;
  ru_blossomBase :
    blossomBase s = zrange 0 (nVertex g) ++ filledArray (nVertex g) UNMATCHED;
  ru_dualVar :
    dualVar s = filledArray (nVertex g) (Fin zeroQ)
                ++ filledArray (nVertex g) (Fin zeroQ);
  ru_allowEdge : allowEdge s = filledArray (nEdge g) false;
  ru_bestEdge :
    bestEdge s = filledArray (BLOSSOM_MULTIPLIER * nVertex g) UNMATCHED;
  ru_queue : queue s = done
}.

(** The run of [p] from [s] returns, with [Q]. *)
Definition returns {A} (Q : A -> State -> Prop) (p : prog A) (s : State) : Prop :=
  wpe Q (fun _ => False) p s.

(** ** Endpoints of edges between different vertices *)

(** The endpoint [p] belongs to an edge between two different vertices. *)
Definition properEndpoint (g : Graph) (p : Z) : Prop :=
  exists v w, nthZ (endpoint g) p = Some v /\
              nthZ (endpoint g) (getOppositeEndpoint p) = Some w /\ v <> w.

(** What an entry of [mate], [labelEnd] or [blossomEndPs] may be. *)
Definition okEndpoint (g : Graph) (p : Z) : Prop :=
  p = UNMATCHED \/ properEndpoint g p.

(** What [e ^ endpTrick] may be for such an entry [e]. *)
Definition okTricked (g : Graph) (p : Z) : Prop :=
  p = -1 \/ p = -2 \/ properEndpoint g p.

(** No endpoint stored in [mate], [labelEnd] or [blossomEndPs] belongs to a
    self-loop. *)
Definition linksProper (g : Graph) (s : State) : Prop :=
  Forall (okEndpoint g) (mate s) /\
  Forall (okEndpoint g) (labelEnd s) /\
  Forall (Forall (okEndpoint g)) (blossomEndPs s).

(** The three arrays are untouched. *)
Definition sameLinks (s s' : State) : Prop :=
  mate s' = mate s /\ labelEnd s' = labelEnd s /\
  blossomEndPs s' = blossomEndPs s.

(** The neighbour list of [v] holds far ends of edges at [v]. *)
Definition neighboursFar (g : Graph) : Prop :=
  forall v l p, nthZ (neighbend g) v = Some l -> p ∈ l ->
    nthZ (endpoint g) (getOppositeEndpoint p) = Some v.

(** [p] keeps the invariant, and the values it returns satisfy [Q]. *)
Definition keepsLinks {A} (g : Graph) (Q : A -> Prop) (p : prog A) : Prop :=
  forall s, linksProper g s ->
    wp anyStore (fun a s' => linksProper g s' /\ Q a) p s.

(** From [s] to [s'] no matched vertex has become unmatched. *)
Definition staysMatched (s s' : State) : Prop :=
  length (mate s') = length (mate s) /\
  forall v p, nthZ (mate s) v = Some p -> 0 <= p ->
    exists q, nthZ (mate s') v = Some q /\ 0 <= q.

(** * Properties *)

(** ** Comparisons and input validation *)

Lemma Qltb_lt a b : Qltb a b = true <-> (a < b)%Q.
Proof.
  unfold Qltb. rewrite Qlt_alt. destruct (a ?= b)%Q; split; congruence.
Qed.

Lemma Qleb_le a b : Qleb a b = true <-> (a <= b)%Q.
Proof.
  unfold Qleb. rewrite Qle_alt. destruct (a ?= b)%Q; split; congruence.
Qed.

Lemma Qeqb_eq a b : Qeqb a b = true <-> (a == b)%Q.
Proof.
  unfold Qeqb. rewrite Qeq_alt. destruct (a ?= b)%Q; split; congruence.
Qed.

(** ** The numbers agree with the kernel's binary64 arithmetic *)

(** On every pair of the sample values, the operations on [number] give
    what the primitive binary64 operations give. *)
Example arithmetic_agrees_with_binary64 :
  agreeOn PrimFloat.add jsAdd = true /\
  agreeOn PrimFloat.sub jsSub = true /\
  agreeOn PrimFloat.mul jsMul = true /\
  forallb (fun a => sameNumber (ofFloat (a / 2)%float)
                               (jsDiv (ofFloat a) (Fin 2))) sampleFloats = true.
Proof. vm_compute. repeat split; reflexivity. Qed.

Example comparisons_agree_with_binary64 :
  agreeOnTest PrimFloat.ltb jsLt = true /\
  agreeOnTest PrimFloat.leb jsLe = true /\
  agreeOnTest PrimFloat.eqb jsEq = true.
Proof. vm_compute. repeat split; reflexivity. Qed.

(** A literal denotes the nearest binary64 value. *)
#[warnings="-inexact-float"]
Example literals_agree_with_binary64 :
  map round64 [0.1%Q; 47.2612%Q; 1e16%Q; 1e308%Q; 5e-324%Q; 1e-400%Q; 1e400%Q]
  = map ofFloat [0.1; 47.2612; 1e16; 1e308; 5e-324; 1e-400; 1e400]%float.
Proof. vm_compute. reflexivity. Qed.

(** The sample values are fixed by rounding. *)
Example samples_are_binary64 :
  forallb (fun a => match ofFloat a with Fin q => isDouble q | _ => true end)
          sampleFloats = true.
Proof. vm_compute. reflexivity. Qed.

(** ** Rounding to binary64 *)

Lemma pow2_pos e : (0 < pow2 e)%Q.
Proof. apply Qpower_0_lt. reflexivity. Qed.

Lemma pow2_plus a b : (pow2 (a + b) == pow2 a * pow2 b)%Q.
Proof. apply Qpower_plus. discriminate. Qed.

Lemma pow2_le a b : a <= b -> (pow2 a <= pow2 b)%Q.
Proof. intros H. apply Qpower_le_compat_l; [exact H|discriminate]. Qed.

Lemma pow2_lt a b : a < b -> (pow2 a < pow2 b)%Q.
Proof. intros H. apply Qpower_lt_compat_l; [exact H|reflexivity]. Qed.

Lemma pow2_lt_inv a b : (pow2 a < pow2 b)%Q -> a < b.
Proof. intros H. eapply Qpower_lt_compat_l_inv; [exact H|reflexivity]. Qed.

Lemma pow2_Z n : 0 <= n -> (inject_Z (2 ^ n) == pow2 n)%Q.
Proof. intros H. apply Zpower_Qpower. exact H. Qed.

Lemma binade_spec q :
  (0 < q)%Q -> (pow2 (binade q) <= q)%Q /\ (q < pow2 (binade q + 1))%Q.
Proof.
  intros Hq. destruct q as [n d]. unfold binade. cbn [Qnum Qden].
  assert (Hn : 0 < n).
  { unfold Qlt in Hq. simpl in Hq. lia. }
  set (a := Z.log2 n). set (b := Z.log2 (Z.pos d)).
  assert (Ha : 2 ^ a <= n < 2 ^ (a + 1)).
  { pose proof (Z.log2_spec n Hn). unfold a. rewrite <- Z.add_1_r in H. lia. }
  assert (Hb : 2 ^ b <= Z.pos d < 2 ^ (b + 1)).
  { pose proof (Z.log2_spec (Z.pos d) ltac:(lia)).
    unfold b. rewrite <- Z.add_1_r in H. lia. }
  assert (Ha0 : 0 <= a) by apply Z.log2_nonneg.
  assert (Hb0 : 0 <= b) by apply Z.log2_nonneg.
  assert (Hq' : (n # d == inject_Z n / inject_Z (Z.pos d))%Q) by apply Qmake_Qdiv.
  assert (Hd : (0 < inject_Z (Z.pos d))%Q) by (unfold Qlt; simpl; lia).
  assert (Hlow : (pow2 (a - b - 1) < n # d)%Q).
  { rewrite Hq'. apply Qlt_shift_div_l; [exact Hd|].
    apply Qlt_le_trans with (pow2 (a - b - 1) * pow2 (b + 1))%Q.
    - apply Qmult_lt_l; [apply pow2_pos|].
      rewrite <- pow2_Z by lia. rewrite <- Zlt_Qlt. lia.
    - rewrite <- pow2_plus. replace (a - b - 1 + (b + 1)) with a by lia.
      rewrite <- pow2_Z by lia. rewrite <- Zle_Qle. lia. }
  assert (Hhigh : (n # d < pow2 (a - b + 1))%Q).
  { rewrite Hq'. apply Qlt_shift_div_r; [exact Hd|].
    apply Qlt_le_trans with (pow2 (a + 1)).
    - rewrite <- pow2_Z by lia. rewrite <- Zlt_Qlt. lia.
    - replace (a + 1) with (a - b + 1 + b) by lia. rewrite pow2_plus.
      apply Qmult_le_l; [apply pow2_pos|].
      rewrite <- pow2_Z by lia. rewrite <- Zle_Qle. lia. }
  destruct (Qleb (pow2 (a - b)) (n # d)) eqn:E.
  - apply Qleb_le in E. split; [exact E|exact Hhigh].
  - split.
    + apply Qlt_le_weak. exact Hlow.
    + replace (a - b - 1 + 1) with (a - b) by lia.
      apply Qnot_le_lt. intros H. apply Qleb_le in H. congruence.
Qed.

Lemma binade_mono x y : (0 < x)%Q -> (x <= y)%Q -> binade x <= binade y.
Proof.
  intros Hx Hxy.
  destruct (binade_spec x Hx) as [H1 _].
  destruct (binade_spec y) as [_ H2]; [lra|].
  assert (H : (pow2 (binade x) < pow2 (binade y + 1))%Q) by lra.
  apply pow2_lt_inv in H. lia.
Qed.

Lemma roundEven_near q :
  (inject_Z (roundEven q) - (1 # 2) <= q)%Q /\
  (q <= inject_Z (roundEven q) + (1 # 2))%Q.
Proof.
  unfold roundEven.
  pose proof (Qfloor_le q) as H1. pose proof (Qlt_floor q) as H2.
  rewrite inject_Z_plus in H2. change (inject_Z 1) with 1%Q in H2.
  destruct (Qcompare_spec (q - inject_Z (Qfloor q)) (1 # 2)) as [E|E|E].
  - destruct (Z.even (Qfloor q));
      [|rewrite inject_Z_plus; change (inject_Z 1) with 1%Q]; split; lra.
  - split; lra.
  - rewrite inject_Z_plus. change (inject_Z 1) with 1%Q. split; lra.
Qed.

Lemma roundEven_proper x y : (x == y)%Q -> roundEven x = roundEven y.
Proof.
  intros E. unfold roundEven.
  assert (F : Qfloor x = Qfloor y) by (apply Qfloor_comp; exact E).
  rewrite F.
  assert (C : ((x - inject_Z (Qfloor y)) ?= (1 # 2))%Q =
              ((y - inject_Z (Qfloor y)) ?= (1 # 2))%Q).
  { apply Qcompare_comp; [rewrite E; reflexivity|reflexivity]. }
  rewrite C. reflexivity.
Qed.

Lemma roundEven_mono x y : (x <= y)%Q -> roundEven x <= roundEven y.
Proof.
  intros H. destruct (Qeq_dec x y) as [E|N].
  - rewrite (roundEven_proper _ _ E). lia.
  - assert (L : (x < y)%Q) by (apply Qle_lteq in H; destruct H; [assumption|contradiction]).
    destruct (roundEven_near x) as [Hx _]. destruct (roundEven_near y) as [_ Hy].
    assert (K : (inject_Z (roundEven x) < inject_Z (roundEven y) + 1)%Q) by lra.
    change 1%Q with (inject_Z 1) in K. rewrite <- inject_Z_plus in K.
    rewrite <- Zlt_Qlt in K. lia.
Qed.

Lemma roundEven_Z k : roundEven (inject_Z k) = k.
Proof.
  unfold roundEven. rewrite Qfloor_Z.
  destruct (Qcompare_spec (inject_Z k - inject_Z k) (1 # 2)) as [E|E|E].
  - exfalso. lra.
  - reflexivity.
  - exfalso. lra.
Qed.


Lemma toGrid_mono e x y : (x <= y)%Q -> (toGrid e x <= toGrid e y)%Q.
Proof.
  intros H. unfold toGrid. apply Qmult_le_compat_r; [|apply Qlt_le_weak, pow2_pos].
  rewrite <- Zle_Qle. apply roundEven_mono.
  apply Qmult_le_compat_r; [exact H|].
  apply Qlt_le_weak, Qinv_lt_0_compat, pow2_pos.
Qed.

Lemma toGrid_fix e k : (toGrid e (inject_Z k * pow2 e) == inject_Z k * pow2 e)%Q.
Proof.
  unfold toGrid.
  assert (E : (inject_Z k * pow2 e / pow2 e == inject_Z k)%Q).
  { apply Qdiv_mult_l. pose proof (pow2_pos e). lra. }
  rewrite (roundEven_proper _ _ E), roundEven_Z. reflexivity.
Qed.

Lemma toGrid_proper e x y : (x == y)%Q -> (toGrid e x == toGrid e y)%Q.
Proof.
  intros E. unfold toGrid.
  rewrite (roundEven_proper (x / pow2 e) (y / pow2 e)); [reflexivity|].
  rewrite E. reflexivity.
Qed.

Lemma roundMagnitude_grid q : roundMagnitude q = toGrid (ulpExp q) q.
Proof. reflexivity. Qed.

(** A power of two at or above the grid's step is on the grid. *)
Lemma pow2_on_grid e b : e <= b -> (toGrid e (pow2 b) == pow2 b)%Q.
Proof.
  intros H.
  assert (E : (pow2 b == inject_Z (2 ^ (b - e)) * pow2 e)%Q).
  { rewrite pow2_Z by lia. rewrite <- pow2_plus.
    replace (b - e + e) with b by lia. reflexivity. }
  rewrite (toGrid_proper e _ _ E), toGrid_fix. symmetry. exact E.
Qed.

Lemma roundMagnitude_mono x y :
  (0 < x)%Q -> (x <= y)%Q -> (roundMagnitude x <= roundMagnitude y)%Q.
Proof.
  intros Hx Hxy. rewrite !roundMagnitude_grid.
  assert (Hy : (0 < y)%Q) by lra.
  pose proof (binade_mono x y Hx Hxy) as Hb.
  destruct (binade_spec x Hx) as [_ Bx]. destruct (binade_spec y Hy) as [By _].
  unfold ulpExp.
  destruct (Z.eq_dec (Z.max (binade x - 52) (-1074))
                     (Z.max (binade y - 52) (-1074))) as [E|N].
  - rewrite E. apply toGrid_mono. exact Hxy.
  - set (ex := Z.max (binade x - 52) (-1074)) in *.
    set (ey := Z.max (binade y - 52) (-1074)) in *.
    assert (Hlt : binade x < binade y) by lia.
    assert (H1 : (x <= pow2 (binade y))%Q).
    { apply Qlt_le_weak. eapply Qlt_le_trans; [exact Bx|]. apply pow2_le. lia. }
    apply Qle_trans with (pow2 (binade y)).
    + rewrite <- (pow2_on_grid ex (binade y)) by lia.
      apply toGrid_mono. exact H1.
    + rewrite <- (pow2_on_grid ey (binade y)) at 1 by lia.
      apply toGrid_mono. exact By.
Qed.

Lemma roundMagnitude_proper x y :
  (0 < x)%Q -> (x == y)%Q -> (roundMagnitude x == roundMagnitude y)%Q.
Proof.
  intros Hx E. apply Qle_antisym; apply roundMagnitude_mono; lra.
Qed.

Lemma roundMagnitude_nonneg q : (0 < q)%Q -> (0 <= roundMagnitude q)%Q.
Proof.
  intros Hq. rewrite roundMagnitude_grid.
  assert (Z0 : (0 == inject_Z 0 * pow2 (ulpExp q))%Q) by (change (inject_Z 0) with 0%Q; lra).
  rewrite Z0 at 1. rewrite <- (toGrid_fix (ulpExp q) 0).
  apply toGrid_mono. change (inject_Z 0) with 0%Q. lra.
Qed.

(** ** [round64] *)

Lemma round64_not_NaN q : round64 q <> NaN.
Proof.
  unfold round64. destruct (q ?= 0)%Q; [discriminate| |];
    match goal with |- context [if ?c then _ else _] => destruct c end;
    discriminate.
Qed.

Lemma round64_zero q : (q == 0)%Q -> round64 q = Fin 0.
Proof.
  intros E. unfold round64.
  destruct (Qcompare_spec q 0) as [H|H|H]; [reflexivity|exfalso; lra|exfalso; lra].
Qed.

Lemma round64_pos q :
  (0 < q)%Q ->
  round64 q = (if Qleb (pow2 1024) (roundMagnitude q) then Inf false
               else Fin (Qred (roundMagnitude q))).
Proof.
  intros H. unfold round64.
  destruct (Qcompare_spec q 0) as [E|E|E]; [exfalso; lra|exfalso; lra|reflexivity].
Qed.

Lemma round64_neg q :
  (q < 0)%Q ->
  round64 q = (if Qleb (pow2 1024) (roundMagnitude (- q)) then Inf true
               else Fin (Qred (- roundMagnitude (- q)))).
Proof.
  intros H. unfold round64.
  destruct (Qcompare_spec q 0) as [E|E|E]; [exfalso; lra|reflexivity|exfalso; lra].
Qed.

Lemma round64_proper x y : (x == y)%Q -> round64 x = round64 y.
Proof.
  intros E. destruct (Qlt_le_dec 0 x) as [P|N].
  - rewrite (round64_pos x P), (round64_pos y) by lra.
    pose proof (roundMagnitude_proper x y P E) as R.
    assert (C : Qleb (pow2 1024) (roundMagnitude x)
                = Qleb (pow2 1024) (roundMagnitude y)).
    { destruct (Qleb _ (roundMagnitude x)) eqn:A;
        destruct (Qleb _ (roundMagnitude y)) eqn:B; try reflexivity.
      - apply Qleb_le in A. rewrite R in A. apply Qleb_le in A. congruence.
      - apply Qleb_le in B. rewrite <- R in B. apply Qleb_le in B. congruence. }
    rewrite C. destruct (Qleb (pow2 1024) (roundMagnitude y)); [reflexivity|].
    f_equal. apply Qred_complete. exact R.
  - destruct (Qeq_dec x 0) as [Z|NZ].
    + rewrite (round64_zero x Z), (round64_zero y) by lra. reflexivity.
    + assert (L : (x < 0)%Q) by (apply Qle_lteq in N; destruct N; [assumption|contradiction]).
      rewrite (round64_neg x L), (round64_neg y) by lra.
      assert (R : (roundMagnitude (- x) == roundMagnitude (- y))%Q).
      { apply roundMagnitude_proper; lra. }
      assert (C : Qleb (pow2 1024) (roundMagnitude (- x))
                  = Qleb (pow2 1024) (roundMagnitude (- y))).
      { destruct (Qleb _ (roundMagnitude (- x))) eqn:A;
          destruct (Qleb _ (roundMagnitude (- y))) eqn:B; try reflexivity.
        - apply Qleb_le in A. rewrite R in A. apply Qleb_le in A. congruence.
        - apply Qleb_le in B. rewrite <- R in B. apply Qleb_le in B. congruence. }
      rewrite C. destruct (Qleb (pow2 1024) (roundMagnitude (- y))); [reflexivity|].
      f_equal. apply Qred_complete. rewrite R. reflexivity.
Qed.

Lemma jsLe_refl x : x <> NaN -> jsLe x x = true.
Proof.
  destruct x as [|[]|q]; intros H; try reflexivity; [congruence|].
  cbn [jsLe]. apply Qleb_le. apply Qle_refl.
Qed.

Lemma round64_nonneg q : (0 <= q)%Q -> jsLe (Fin 0) (round64 q) = true.
Proof.
  intros H. destruct (Qeq_dec q 0) as [Z|NZ].
  - rewrite (round64_zero q Z). reflexivity.
  - assert (P : (0 < q)%Q) by (apply Qle_lteq in H; destruct H as [H|H]; [assumption|symmetry in H; contradiction]).
    rewrite (round64_pos q P).
    destruct (Qleb (pow2 1024) (roundMagnitude q)); [reflexivity|].
    cbn [jsLe]. apply Qleb_le. rewrite Qred_correct. apply roundMagnitude_nonneg. exact P.
Qed.

Lemma round64_nonpos q : (q <= 0)%Q -> jsLe (round64 q) (Fin 0) = true.
Proof.
  intros H. destruct (Qeq_dec q 0) as [Z|NZ].
  - rewrite (round64_zero q Z). reflexivity.
  - assert (P : (q < 0)%Q) by (apply Qle_lteq in H; destruct H as [H|H]; [assumption|contradiction]).
    rewrite (round64_neg q P).
    destruct (Qleb (pow2 1024) (roundMagnitude (- q))); [reflexivity|].
    cbn [jsLe]. apply Qleb_le. rewrite Qred_correct.
    pose proof (roundMagnitude_nonneg (- q)). lra.
Qed.

Lemma jsLe_trans x y z : jsLe x y = true -> jsLe y z = true -> jsLe x z = true.
Proof.
  destruct x as [|a|a], y as [|b|b], z as [|c|c]; simpl;
    try discriminate; try (destruct a, b, c; simpl; congruence);
    try (destruct a, b; simpl; congruence);
    try (destruct a, c; simpl; congruence);
    try (destruct b, c; simpl; congruence);
    try (destruct a; simpl; congruence);
    try (destruct b; simpl; congruence);
    try (destruct c; simpl; congruence).
  rewrite !Qleb_le. apply Qle_trans.
Qed.

Lemma round64_mono x y : (x <= y)%Q -> jsLe (round64 x) (round64 y) = true.
Proof.
  intros H.
  destruct (Qlt_le_dec 0 x) as [Px|Nx].
  - assert (Py : (0 < y)%Q) by lra.
    rewrite (round64_pos x Px), (round64_pos y Py).
    pose proof (roundMagnitude_mono x y Px H) as M.
    destruct (Qleb _ (roundMagnitude x)) eqn:A;
      destruct (Qleb _ (roundMagnitude y)) eqn:B; try reflexivity.
    + apply Qleb_le in A. exfalso.
      assert (C : Qleb (pow2 1024) (roundMagnitude y) = true) by (apply Qleb_le; lra).
      congruence.
    + cbn [jsLe]. apply Qleb_le. rewrite !Qred_correct. exact M.
  - destruct (Qlt_le_dec y 0) as [Ny|Py].
    + assert (Lx : (x < 0)%Q) by lra.
      rewrite (round64_neg x Lx), (round64_neg y Ny).
      assert (M : (roundMagnitude (- y) <= roundMagnitude (- x))%Q).
      { apply roundMagnitude_mono; lra. }
      destruct (Qleb _ (roundMagnitude (- x))) eqn:A;
        destruct (Qleb _ (roundMagnitude (- y))) eqn:B; try reflexivity.
      * apply Qleb_le in B. exfalso.
        assert (C : Qleb (pow2 1024) (roundMagnitude (- x)) = true) by (apply Qleb_le; lra).
        congruence.
      * cbn [jsLe]. apply Qleb_le. rewrite !Qred_correct. lra.
    + eapply jsLe_trans; [apply round64_nonpos; exact Nx|apply round64_nonneg; exact Py].
Qed.

(** ** The order of numbers *)

Lemma jsLt_jsLe x y : jsLt x y = true -> jsLe x y = true.
Proof.
  destruct x as [|a|a], y as [|b|b]; simpl; try congruence.
  - destruct a, b; simpl; congruence.
  - rewrite Qltb_lt, Qleb_le. apply Qlt_le_weak.
Qed.

Lemma jsLt_jsLe_trans x y z :
  jsLt x y = true -> jsLe y z = true -> jsLt x z = true.
Proof.
  destruct x as [|a|a], y as [|b|b], z as [|c|c]; simpl;
    try discriminate; try (destruct a, b, c; simpl; congruence);
    try (destruct a, b; simpl; congruence);
    try (destruct a, c; simpl; congruence);
    try (destruct b, c; simpl; congruence);
    try (destruct a; simpl; congruence);
    try (destruct b; simpl; congruence);
    try (destruct c; simpl; congruence).
  rewrite !Qltb_lt, Qleb_le. apply Qlt_le_trans.
Qed.

Lemma jsLt_false_jsLe x y :
  x <> NaN -> y <> NaN -> jsLt x y = false -> jsLe y x = true.
Proof.
  destruct x as [|a|a], y as [|b|b]; simpl; try congruence.
  - destruct a, b; simpl; congruence.
  - destruct a; simpl; congruence.
  - destruct b; simpl; congruence.
  - intros _ _ H. apply Qleb_le. apply Qnot_lt_le. intros L.
    apply Qltb_lt in L. congruence.
Qed.

Lemma jsLe_jsLt_false x y : jsLe x y = true -> jsLt y x = false.
Proof.
  destruct x as [|a|a], y as [|b|b]; simpl; try congruence.
  - destruct a, b; simpl; congruence.
  - destruct a; simpl; congruence.
  - destruct b; simpl; congruence.
  - intros H. apply Qleb_le in H. destruct (Qltb b a) eqn:E; [|reflexivity].
    apply Qltb_lt in E. exfalso. apply (Qlt_not_le _ _ E H).
Qed.

Lemma jsLt_not_jsLe x y : jsLt x y = true -> jsLe y x = false.
Proof.
  destruct x as [|a|a], y as [|b|b]; simpl; try congruence.
  - destruct a, b; simpl; congruence.
  - destruct a; simpl; congruence.
  - destruct b; simpl; congruence.
  - intros H. apply Qltb_lt in H. destruct (Qleb b a) eqn:E; [|reflexivity].
    apply Qleb_le in E. exfalso. apply (Qlt_not_le _ _ H E).
Qed.

Lemma jsLe_not_NaN_l x y : jsLe x y = true -> x <> NaN.
Proof. destruct x; [discriminate|discriminate|discriminate]. Qed.

(** ** Finite values are multiples of [2^-1074] *)

Lemma toGrid_multiple e q :
  -1074 <= e ->
  exists k, (toGrid e q == inject_Z k * pow2 (-1074))%Q.
Proof.
  intros He. exists (roundEven (q / pow2 e) * 2 ^ (e + 1074)).
  unfold toGrid. rewrite inject_Z_mult, pow2_Z by lia.
  rewrite <- Qmult_assoc, <- pow2_plus.
  replace (e + 1074 + -1074) with e by lia. reflexivity.
Qed.

Lemma round64_multiple q r :
  round64 q = Fin r -> exists k, (r == inject_Z k * pow2 (-1074))%Q.
Proof.
  destruct (Qlt_le_dec 0 q) as [P|N].
  - rewrite (round64_pos q P).
    destruct (Qleb (pow2 1024) (roundMagnitude q)); [discriminate|].
    intros H. assert (Hr : r = Qred (roundMagnitude q)) by congruence.
    destruct (toGrid_multiple (ulpExp q) q) as [k Hk]; [unfold ulpExp; lia|].
    exists k. rewrite Hr, Qred_correct. exact Hk.
  - destruct (Qeq_dec q 0) as [Z|NZ].
    + rewrite (round64_zero q Z). intros H.
      assert (Hr : r = 0%Q) by congruence. exists 0. rewrite Hr.
      change (inject_Z 0) with 0%Q. lra.
    + assert (L : (q < 0)%Q) by (apply Qle_lteq in N; destruct N; [assumption|contradiction]).
      rewrite (round64_neg q L).
      destruct (Qleb (pow2 1024) (roundMagnitude (- q))); [discriminate|].
      intros H.
      assert (Hr : r = Qred (- roundMagnitude (- q))) by congruence.
      destruct (toGrid_multiple (ulpExp (- q)) (- q)) as [k Hk]; [unfold ulpExp; lia|].
      exists (- k). rewrite Hr, Qred_correct. unfold roundMagnitude.
      rewrite Hk, inject_Z_opp. ring.
Qed.

Lemma isDouble_multiple w :
  isDouble w = true -> exists k, (w == inject_Z k * pow2 (-1074))%Q.
Proof.
  unfold isDouble. destruct (round64 w) as [| |r] eqn:E; try discriminate.
  intros H. apply Qeqb_eq in H.
  destruct (round64_multiple w r E) as [k Hk]. exists k. rewrite <- H. exact Hk.
Qed.

(** A negative binary64 value is at most [-2^-1074]. *)
Lemma isDouble_negative w :
  isDouble w = true -> (w < 0)%Q -> (w <= - pow2 (-1074))%Q.
Proof.
  intros D L. destruct (isDouble_multiple w D) as [k Hk].
  pose proof (pow2_pos (-1074)) as P.
  assert (K : k <= -1).
  { destruct (Z_lt_le_dec k 0) as [|G]; [lia|]. exfalso.
    assert (0 <= inject_Z k)%Q by (change 0%Q with (inject_Z 0); rewrite <- Zle_Qle; exact G).
    assert (0 <= inject_Z k * pow2 (-1074))%Q by (apply Qmult_le_0_compat; lra).
    lra. }
  rewrite Hk.
  assert (K' : (inject_Z k <= -1)%Q).
  { change (-1)%Q with (inject_Z (-1)). rewrite <- Zle_Qle. exact K. }
  assert (0 <= (- inject_Z k - 1) * pow2 (-1074))%Q; [|lra].
  apply Qmult_le_0_compat; lra.
Qed.

(** ** Values that rounding leaves as they are *)

Lemma roundMagnitude_exact e q :
  -1074 <= e -> (0 < q)%Q -> onGrid e q -> (roundMagnitude q == q)%Q.
Proof.
  intros He Hq (k & Hk & Hb).
  pose proof (pow2_pos e) as Pe.
  assert (Hk0 : 0 < k).
  { destruct (Z_lt_le_dec 0 k) as [|G]; [assumption|exfalso].
    assert (inject_Z k <= 0)%Q by (change 0%Q with (inject_Z 0); rewrite <- Zle_Qle; exact G).
    assert (0 <= (- inject_Z k) * pow2 e)%Q by (apply Qmult_le_0_compat; lra).
    lra. }
  destruct (binade_spec q Hq) as [B1 _].
  assert (Hlt : (q < pow2 (e + 53))%Q).
  { rewrite Hk, pow2_plus, (Qmult_comm (pow2 e)).
    apply Qmult_lt_compat_r; [exact Pe|].
    rewrite <- pow2_Z by lia. rewrite <- Zlt_Qlt. lia. }
  assert (Hbin : binade q < e + 53).
  { apply pow2_lt_inv. lra. }
  set (u := ulpExp q).
  assert (Hu : u <= e) by (unfold u, ulpExp; lia).
  rewrite roundMagnitude_grid. fold u.
  assert (E : (q == inject_Z (k * 2 ^ (e - u)) * pow2 u)%Q).
  { rewrite Hk, inject_Z_mult, pow2_Z by lia.
    rewrite <- Qmult_assoc, <- pow2_plus.
    replace (e - u + u) with e by lia. reflexivity. }
  rewrite (toGrid_proper u _ _ E), toGrid_fix. symmetry. exact E.
Qed.

Lemma onGrid_bound e q : onGrid e q -> (Qabs q < pow2 (e + 53))%Q.
Proof.
  intros (k & Hk & Hb). rewrite Hk, Qabs_Qmult.
  pose proof (pow2_pos e) as Pe.
  rewrite (Qabs_pos (pow2 e)) by lra.
  rewrite pow2_plus, (Qmult_comm (pow2 e)).
  apply Qmult_lt_compat_r; [exact Pe|].
  rewrite <- pow2_Z by lia.
  assert (A : (Qabs (inject_Z k) == inject_Z (Z.abs k))%Q).
  { unfold Qabs, inject_Z. simpl. reflexivity. }
  rewrite A, <- Zlt_Qlt. exact Hb.
Qed.

Lemma onGrid_opp e q : onGrid e q -> onGrid e (- q).
Proof.
  intros (k & Hk & Hb). exists (- k). split.
  - rewrite Hk, inject_Z_opp. ring.
  - rewrite Z.abs_opp. exact Hb.
Qed.

(** A value with at most 53 significant bits, within the exponent range,
    is left as it is. *)
Lemma round64_exact e q :
  -1074 <= e <= 970 -> onGrid e q -> round64 q = Fin (Qred q).
Proof.
  intros He Hg.
  pose proof (onGrid_bound e q Hg) as Hb.
  assert (Hmax : (pow2 (e + 53) <= pow2 1024)%Q) by (apply pow2_le; lia).
  destruct (Qlt_le_dec 0 q) as [P|N].
  - rewrite (round64_pos q P).
    pose proof (roundMagnitude_exact e q ltac:(lia) P Hg) as R.
    rewrite Qabs_pos in Hb by lra.
    destruct (Qleb (pow2 1024) (roundMagnitude q)) eqn:O.
    + apply Qleb_le in O. exfalso. lra.
    + f_equal. apply Qred_complete. exact R.
  - destruct (Qeq_dec q 0) as [Z|NZ].
    + rewrite (round64_zero q Z). f_equal.
      symmetry. change 0%Q with (Qred 0). apply Qred_complete. exact Z.
    + assert (L : (q < 0)%Q) by (apply Qle_lteq in N; destruct N; [assumption|contradiction]).
      rewrite (round64_neg q L).
      pose proof (roundMagnitude_exact e (- q) ltac:(lia) ltac:(lra) (onGrid_opp e q Hg)) as R.
      rewrite Qabs_neg in Hb by lra.
      destruct (Qleb (pow2 1024) (roundMagnitude (- q))) eqn:O.
      * apply Qleb_le in O. exfalso. lra.
      * f_equal. apply Qred_complete. rewrite R. ring.
Qed.

(** ** The slack formula *)

Lemma jsLe_Inf_l x : jsLe (Inf false) x = true -> x = Inf false.
Proof. destruct x as [|[]|q]; simpl; congruence. Qed.

Lemma jsLe_zero_cases x :
  jsLe (Fin 0) x = true -> x = Inf false \/ exists q, x = Fin q /\ (0 <= q)%Q.
Proof.
  destruct x as [|[]|q]; simpl; try discriminate; [left; reflexivity|].
  intros H. right. exists q. split; [reflexivity|]. apply Qleb_le. exact H.
Qed.

(** With both duals at [m >= w], the slack is NaN when doubling the weight
    overflows, and is not negative otherwise. *)
Lemma slackValue_initial (m w : Q) :
  (0 <= m)%Q -> (w <= m)%Q ->
  (jsMul (Fin 2) (Fin w) = Inf false -> slackValue (Fin m) (Fin m) w = NaN) /\
  (jsMul (Fin 2) (Fin w) <> Inf false ->
   jsLe (Fin 0) (slackValue (Fin m) (Fin m) w) = true).
Proof.
  intros Hm Hw. unfold slackValue. cbn [jsAdd jsMul].
  assert (Hab : jsLe (round64 (2 * w)) (round64 (m + m)) = true)
    by (apply round64_mono; lra).
  assert (Ha : jsLe (Fin 0) (round64 (m + m)) = true)
    by (apply round64_nonneg; lra).
  split.
  - intros E. rewrite E in *. apply jsLe_Inf_l in Hab. rewrite Hab. reflexivity.
  - intros N. destruct (jsLe_zero_cases _ Ha) as [E|(qa & E & Hqa)]; rewrite E in *.
    + destruct (round64 (2 * w)) as [|[]|qb]; try reflexivity; try discriminate.
      congruence.
    + destruct (round64 (2 * w)) as [|[]|qb]; try reflexivity; try discriminate.
      cbn [jsSub]. apply round64_nonneg. cbn [jsLe] in Hab.
      apply Qleb_le in Hab. lra.
Qed.

Lemma round64_tiny_neg : round64 (- pow2 (-1073)) = Fin (- pow2 (-1073)).
Proof. vm_compute. reflexivity. Qed.

Lemma round64_tiny_pos : round64 (pow2 (-1073)) = Fin (pow2 (-1073)).
Proof. vm_compute. reflexivity. Qed.

Lemma pow2_1073 : (pow2 (-1073) == 2 * pow2 (-1074))%Q.
Proof.
  change 2%Q with (pow2 1) at 1. rewrite <- pow2_plus. reflexivity.
Qed.

(** With both duals zero and a negative weight, the slack is positive. *)
Lemma slackValue_negative_weight (w : Q) :
  isDouble w = true -> (w < 0)%Q ->
  let sl := slackValue (Fin 0) (Fin 0) w in
  jsLe (Fin 0) sl = true /\ jsLe sl (Fin 0) = false /\
  jsLt (jsDiv sl (Fin 2)) (Fin 0) = false.
Proof.
  intros D L sl.
  pose proof (isDouble_negative w D L) as B.
  pose proof (pow2_pos (-1074)) as P.
  pose proof pow2_1073 as T.
  assert (Hb : jsLe (round64 (2 * w)) (Fin (- pow2 (-1073))) = true).
  { rewrite <- round64_tiny_neg. apply round64_mono. lra. }
  unfold sl, slackValue. cbn [jsAdd jsMul].
  rewrite (round64_zero (0 + 0)) by reflexivity.
  destruct (round64 (2 * w)) as [|[]|rb]; try discriminate.
  - repeat split; reflexivity.
  - cbn [jsLe] in Hb. apply Qleb_le in Hb. cbn [jsSub].
    assert (Hs : jsLe (Fin (pow2 (-1073))) (round64 (0 - rb)) = true).
    { rewrite <- round64_tiny_pos. apply round64_mono. lra. }
    destruct (round64 (0 - rb)) as [|[]|rs]; try discriminate.
    + repeat split; reflexivity.
    + cbn [jsLe] in Hs. apply Qleb_le in Hs.
      split; [|split].
      * cbn [jsLe]. apply Qleb_le. lra.
      * cbn [jsLe]. destruct (Qleb rs 0) eqn:E; [|reflexivity].
        apply Qleb_le in E. exfalso. lra.
      * apply jsLe_jsLt_false. cbn [jsDiv].
        change (Qeqb 2 0) with false. cbv iota.
        apply round64_nonneg. apply Qle_shift_div_l; lra.
Qed.

Lemma Qred_inject_Z z : Qred (inject_Z z) = inject_Z z.
Proof.
  unfold Qred, inject_Z.
  generalize (Z.ggcd_gcd z 1) (Z.ggcd_correct_divisors z 1).
  destruct (Z.ggcd z 1) as (d, (a, b)). simpl.
  rewrite Z.gcd_1_r. intros -> [H1 H2].
  rewrite Z.mul_1_l in H1, H2. subst. reflexivity.
Qed.

Lemma isInteger_spec q :
  isInteger (JNum q) = true <-> exists z, (q == inject_Z z)%Q.
Proof.
  unfold isInteger. rewrite Pos.eqb_eq. split.
  - intros H. exists (Qnum (Qred q)).
    rewrite <- (Qred_correct q) at 1.
    destruct (Qred q) as [a b]. simpl in *. subst b. reflexivity.
  - intros [z Hz]. apply Qred_complete in Hz.
    rewrite Hz, Qred_inject_Z. reflexivity.
Qed.

Lemma validateEdge_vertex v :
  isInteger v = true /\ isNegative v = false <-> nonNegativeInteger v.
Proof.
  split.
  - intros [Hi Hn]. destruct v; try discriminate Hi.
    apply isInteger_spec in Hi. destruct Hi as [z Hz].
    exists q, z. split; [reflexivity|]. split; [exact Hz|].
    simpl in Hn. destruct (Z.le_gt_cases 0 z) as [|Hlt]; [assumption|].
    exfalso. assert (Qltb q 0 = true) as E; [|congruence].
    apply Qltb_lt. rewrite Hz. unfold Qlt. simpl. lia.
  - intros (q & z & -> & Hz & Hpos). split.
    + apply isInteger_spec. eauto.
    + simpl. destruct (Qltb q 0) eqn:E; [|reflexivity].
      apply Qltb_lt in E. rewrite Hz in E. unfold Qlt in E. simpl in E. lia.
Qed.

Lemma isFiniteNumber_spec v : isFiniteNumber v = true <-> finiteNumber v.
Proof.
  split.
  - destruct v; try discriminate. intros _. eexists. reflexivity.
  - intros [q ->]. reflexivity.
Qed.

Lemma validateEdge_triple v1 v2 w :
  validateEdge (JArray [v1; v2; w]) = None <->
  nonNegativeInteger v1 /\ nonNegativeInteger v2 /\ finiteNumber w.
Proof.
  rewrite <- !validateEdge_vertex, <- isFiniteNumber_spec.
  cbn [validateEdge].
  destruct (isInteger v1), (isInteger v2), (isNegative v1), (isNegative v2),
    (isFiniteNumber w); simpl; intuition congruence.
Qed.

Lemma validateEdge_None e : validateEdge e = None <-> validEdge e.
Proof.
  split.
  - intros H.
    destruct e as [| | | | | | | |items]; try discriminate.
    destruct items as [|v1 [|v2 [|w [|x rest]]]]; try discriminate.
    exists v1, v2, w. split; [reflexivity|].
    apply validateEdge_triple. exact H.
  - intros (v1 & v2 & w & -> & H). apply validateEdge_triple. exact H.
Qed.

Lemma validateEdge_Error e err :
  validateEdge e = Some err -> exists msg, err = Error msg.
Proof.
  destruct e as [| | | | | | | |items]; simpl;
    try (intros [= <-]; eexists; reflexivity).
  destruct items as [|v1 [|v2 [|w [|x rest]]]];
    try (intros [= <-]; eexists; reflexivity).
  destruct (_ || _); [intros [= <-]; eexists; reflexivity|].
  destruct (negb _); [intros [= <-]; eexists; reflexivity|discriminate].
Qed.

Lemma validateEdges_None es :
  validateEdges es = None <-> Forall validEdge es.
Proof.
  induction es as [|e es IH]; simpl.
  - split; [constructor|reflexivity].
  - destruct (validateEdge e) eqn:E.
    + split; [discriminate|]. intros H. inversion H; subst.
      apply validateEdge_None in H2. congruence.
    + rewrite IH. apply validateEdge_None in E. split.
      * intros H. constructor; assumption.
      * intros H. inversion H; assumption.
Qed.

Lemma validateEdges_Some es :
  (exists err, validateEdges es = Some err) <->
  Exists (fun e => ~ validEdge e) es.
Proof.
  induction es as [|e es IH]; simpl.
  - split; [intros [err H]; discriminate | intros H; inversion H].
  - destruct (validateEdge e) eqn:E.
    + split; [|eauto]. intros _. left. rewrite <- validateEdge_None. congruence.
    + rewrite IH. apply validateEdge_None in E. split.
      * intros H. right. exact H.
      * intros H. inversion H; subst; [contradiction|assumption].
Qed.

Lemma validateEdges_Error es err :
  validateEdges es = Some err -> exists msg, err = Error msg.
Proof.
  induction es as [|e es IH]; simpl; [discriminate|].
  destruct (validateEdge e) eqn:E.
  - intros [= <-]. eapply validateEdge_Error; eauto.
  - exact IH.
Qed.

Lemma blossom_nonempty fuel e es mc :
  blossom fuel (JArray (e :: es)) mc =
  match validateEdges (e :: es) with
  | Some err => Failed (Thrown err)
  | None =>
      match runEdmonds fuel (map toEdge (e :: es)) (orFalse mc) with
      | Returned (m, _) => Returned m
      | Failed f => Failed f
      end
  end.
Proof.
  unfold blossom.
  destruct (Z.eqb_spec (Z.of_nat (length (e :: es))) 0) as [H|H];
    [cbn [length] in H; lia | reflexivity].
Qed.

Lemma runEdmonds_no_Error fuel es mc msg :
  runEdmonds fuel es mc <> Failed (Thrown (Error msg)).
Proof.
  unfold runEdmonds.
  destruct (constructorAllocates _ _); [|discriminate].
  destruct (run _ _); discriminate.
Qed.

(** C4, as amended.  [blossom] throws one of its validation errors exactly
    when [edges] is not an array or has an element that is not a triple of
    two non-negative integers and a finite number; such an error does not
    depend on the fuel, so it is raised before any algorithmic work; and
    [blossom([])] returns [[]]. *)
Theorem blossom_validation_errors (fuel : nat) (edges : JsVal)
    (maxCardinality : option bool) :
  ((exists msg, blossom fuel edges maxCardinality = Failed (Thrown (Error msg)))
     <-> invalidInput edges)
  /\ (invalidInput edges ->
       blossom fuel edges maxCardinality = blossom 0 edges maxCardinality)
  /\ blossom fuel (JArray []) maxCardinality = Returned [].
Proof.
  split; [|split; [|reflexivity]].
  - destruct edges as [| | | | | | | |es];
      try (split; [intros _; exact I | intros _; eexists; reflexivity]).
    destruct es as [|e es].
    { split; [intros [? [=]]|intros H; inversion H]. }
    rewrite blossom_nonempty. unfold invalidInput.
    rewrite <- validateEdges_Some.
    destruct (validateEdges (e :: es)) as [err|] eqn:E.
    + split; [eauto|]. intros _.
      destruct (validateEdges_Error _ _ E) as [msg ->]. eauto.
    + split; [|intros [? [=]]]. intros [msg H]. exfalso.
      destruct (runEdmonds _ _ _) as [[m st]|f] eqn:R; [discriminate|].
      injection H as ->. eapply runEdmonds_no_Error; eauto.
  - destruct edges as [| | | | | | | |es]; try reflexivity.
    destruct es as [|e es]; [reflexivity|].
    rewrite !blossom_nonempty. unfold invalidInput.
    rewrite <- validateEdges_Some. intros [err ->]. reflexivity.
Qed.

Lemma blossom_validation_errors_witness :
  invalidInput (JArray [JNull]) /\
  blossom 5 (JArray [JNull]) None = blossom 0 (JArray [JNull]) None.
Proof.
  assert (H : invalidInput (JArray [JNull])).
  { left. intros (v1 & v2 & w & E & _). discriminate E. }
  split; [exact H|].
  exact (proj1 (proj2 (blossom_validation_errors 5 (JArray [JNull]) None)) H).
Defined.

(** C4 as stated fails: the edge list [[0, 4294967296, 1]] passes every
    validation test, yet [blossom] throws, a [RangeError] from the first
    array the constructor cannot allocate. *)
Lemma blossom_range_error_counterexample :
  let edges := jsEdges [(0, 4294967296, 1)] in
  ~ invalidInput edges /\
  blossom 0 edges None = Failed (Thrown (RangeError msgArrayLength)).
Proof.
  split.
  - intros H. apply validateEdges_Some in H. destruct H as [err H].
    vm_compute in H. discriminate.
  - vm_compute. reflexivity.
Qed.


(** ** Graph setup *)

Lemma jsMax_ge_l a b : (a <= jsMax a b)%Q.
Proof.
  unfold jsMax. destruct (Qltb a b) eqn:E.
  - apply Qltb_lt in E. apply Qlt_le_weak. exact E.
  - apply Qle_refl.
Qed.

Lemma jsMax_ge_r a b : (b <= jsMax a b)%Q.
Proof.
  unfold jsMax. destruct (Qltb a b) eqn:E.
  - apply Qle_refl.
  - apply Qnot_lt_le. intros H. apply Qltb_lt in H. congruence.
Qed.

Lemma jsMax_cases a b : jsMax a b = a \/ jsMax a b = b.
Proof. unfold jsMax. destruct (Qltb a b); auto. Qed.

Lemma fold_jsMax_spec (es : list Edge) (m0 : Q) :
  let m := fold_left (fun m '(_, _, w) => jsMax m w) es m0 in
  (m0 <= m)%Q /\ Forall (fun e : Edge => (e.2 <= m)%Q) es /\
  (m = m0 \/ exists e, e ∈ es /\ m = e.2).
Proof.
  revert m0. induction es as [|[[i j] w] es IH]; intros m0; simpl.
  - split; [apply Qle_refl|]. split; [constructor|]. left. reflexivity.
  - destruct (IH (jsMax m0 w)) as (H1 & H2 & H3). split; [|split].
    + eapply Qle_trans; [apply jsMax_ge_l|exact H1].
    + constructor; [|exact H2]. simpl.
      eapply Qle_trans; [apply jsMax_ge_r|exact H1].
    + destruct H3 as [H3|(e & He & H3)].
      * destruct (jsMax_cases m0 w) as [E|E].
        -- left. rewrite H3. exact E.
        -- right. exists (i, j, w). split; [left|rewrite H3; exact E].
      * right. exists e. split; [right; exact He|exact H3].
Qed.

Lemma fold_vertexCount_spec (es : list Edge) (n0 : Z) :
  let n := fold_left (fun nV '(i, j, _) => Z.max (Z.max nV (i + 1)) (j + 1))
                     es n0 in
  n0 <= n /\ Forall (fun e : Edge => e.1.1 < n /\ e.1.2 < n) es.
Proof.
  revert n0. induction es as [|[[i j] w] es IH]; intros n0; simpl.
  - split; [lia|constructor].
  - destruct (IH (Z.max (Z.max n0 (i + 1)) (j + 1))) as (H1 & H2).
    split; [lia|]. constructor; [simpl; lia|exact H2].
Qed.

Lemma nthZ_Some {A} (l : list A) i x :
  nthZ l i = Some x <-> 0 <= i /\ l !! Z.to_nat i = Some x.
Proof.
  unfold nthZ. destruct (Z.ltb_spec i 0); split; intros H'.
  - discriminate.
  - lia.
  - split; [lia|exact H'].
  - apply H'.
Qed.

Lemma nthZ_filled_app_l {A} n m (x y : A) v :
  0 <= v < n -> nthZ (filledArray n x ++ filledArray m y) v = Some x.
Proof.
  intros H. apply nthZ_Some. split; [lia|].
  unfold filledArray. rewrite lookup_app_l.
  - apply lookup_replicate_2. lia.
  - rewrite length_replicate. lia.
Qed.

Lemma nthZ_filled_app_r {A} n m (x y : A) v :
  0 <= n -> n <= v < n + m -> nthZ (filledArray n x ++ filledArray m y) v = Some y.
Proof.
  intros Hn H. apply nthZ_Some. split; [lia|].
  unfold filledArray. rewrite lookup_app_r.
  - apply lookup_replicate_2. rewrite length_replicate. lia.
  - rewrite length_replicate. lia.
Qed.

Lemma slackOf_eq g s k i j w d1 d2 :
  nthZ (edges g) k = Some (i, j, w) ->
  nthZ (dualVar s) i = Some d1 ->
  nthZ (dualVar s) j = Some d2 ->
  slackOf g s k = Some (slackValue d1 d2 w).
Proof.
  intros H1 H2 H3. unfold slackOf.
  rewrite H1. cbn [mbind option_bind]. rewrite H2. cbn [mbind option_bind].
  rewrite H3. reflexivity.
Qed.

(** C9.  After the constructor, [maxWeight] is the maximum of 0 and the
    edge weights, every original vertex has dual variable [maxWeight] and
    every blossom slot has dual variable 0.  The slack of an edge is then
    NaN when [2 * weight] evaluates to [Infinity], and is not negative
    otherwise. *)
Theorem initial_dual_variables (es : list Edge) (mc : bool) :
  Forall (fun e : Edge => 0 <= e.1.1 /\ 0 <= e.1.2) es ->
  let g := initializeGraphProperties es mc in
  let s := initialState g in
  ((0 <= maxWeight g)%Q /\
   Forall (fun e : Edge => (e.2 <= maxWeight g)%Q) es /\
   (maxWeight g = zeroQ \/ exists e, e ∈ es /\ maxWeight g = e.2)) /\
  (forall v, 0 <= v < nVertex g ->
             nthZ (dualVar s) v = Some (Fin (maxWeight g))) /\
  (forall b, nVertex g <= b < 2 * nVertex g ->
             nthZ (dualVar s) b = Some (Fin zeroQ)) /\
  (forall k i j w, nthZ (edges g) k = Some (i, j, w) ->
     exists sl, slackOf g s k = Some sl /\
       (jsMul (Fin 2) (Fin w) = Inf false -> sl = NaN) /\
       (jsMul (Fin 2) (Fin w) <> Inf false -> jsLe (Fin 0) sl = true)).
Proof.
  intros Hpos g s.
  pose proof (fold_jsMax_spec es zeroQ) as HM.
  pose proof (fold_vertexCount_spec es 0) as HN.
  cbv zeta in HM, HN.
  change (fold_left _ es zeroQ) with (maxWeight g) in HM.
  change (fold_left _ es 0) with (nVertex g) in HN.
  destruct HN as [Hn0 Hn].
  assert (Hv : forall v, 0 <= v < nVertex g ->
                         nthZ (dualVar s) v = Some (Fin (maxWeight g))).
  { intros v Hv. apply nthZ_filled_app_l. exact Hv. }
  split; [exact HM|]. split; [exact Hv|]. split.
  - intros b Hb. apply nthZ_filled_app_r; lia.
  - intros k i j w Hk. pose proof Hk as Hk'.
    apply nthZ_Some in Hk. destruct Hk as [_ Hk].
    apply list_elem_of_lookup_2 in Hk.
    assert (Hi : 0 <= i < nVertex g /\ 0 <= j < nVertex g).
    { rewrite Forall_forall in Hpos, Hn.
      specialize (Hpos _ Hk). specialize (Hn _ Hk). simpl in *. lia. }
    eexists. split; [eapply slackOf_eq; [exact Hk'| |]; apply Hv, Hi|].
    destruct HM as (HM0 & HM & _). rewrite Forall_forall in HM.
    specialize (HM _ Hk). simpl in HM.
    change (calculateMaxWeight es) with (maxWeight g) in HM.
    apply slackValue_initial; [exact HM0|exact HM].
Qed.

Lemma initial_dual_variables_witness :
  let es : list Edge := [(1, 2, 10%Q); (2, 3, 11%Q)] in
  let g := initializeGraphProperties es false in
  Forall (fun e : Edge => 0 <= e.1.1 /\ 0 <= e.1.2) es /\
  nthZ (dualVar (initialState g)) 3 = Some (Fin (maxWeight g)) /\
  nthZ (dualVar (initialState g)) 4 = Some (Fin zeroQ) /\
  exists sl, slackOf g (initialState g) 0 = Some sl /\ jsLe (Fin 0) sl = true.
Proof.
  intros es g.
  assert (H : Forall (fun e : Edge => 0 <= e.1.1 /\ 0 <= e.1.2) es).
  { repeat constructor; simpl; lia. }
  split; [exact H|].
  destruct (initial_dual_variables es false H) as (_ & Hv & Hb & Hs).
  split; [apply Hv; vm_compute; split; congruence|].
  split; [apply Hb; vm_compute; split; congruence|].
  destruct (Hs 0 1 2 10%Q eq_refl) as (sl & Hsl & _ & Hpos).
  exists sl. split; [exact Hsl|]. apply Hpos. vm_compute. discriminate.
Defined.

(** The weight 1e308 is a finite number and twice it is not: the edge
    passes validation, and its initial slack is [Infinity - Infinity]. *)
Lemma initial_slack_overflow_counterexample :
  let es := [jsEdgeQ (0, 1, 1e308%Q)] in
  let g := initializeGraphProperties (map toEdge es) false in
  validateEdges es = None /\
  Forall (fun e : Edge => 0 <= e.1.1 /\ 0 <= e.1.2) (edges g) /\
  nthZ (dualVar (initialState g)) 0 = nthZ (dualVar (initialState g)) 1 /\
  jsAdd (Fin (maxWeight g)) (Fin (maxWeight g)) = Inf false /\
  slackOf g (initialState g) 0 = Some NaN /\
  jsLe (Fin 0) NaN = false.
Proof.
  intros es g. split; [reflexivity|].
  split; [repeat constructor; vm_compute; discriminate|].
  vm_compute. repeat split; reflexivity.
Qed.

(** C10.  Omitting [maxCardinality] (or passing [undefined]) gives the
    result of passing [false]. *)
Theorem blossom_default_maxCardinality (fuel : nat) (edges : JsVal) :
  blossom fuel edges None = blossom fuel edges (Some false).
Proof.
  unfold blossom.
  change (orFalse None) with (orFalse (Some false)).
  reflexivity.
Qed.


(** C2 fails on the code.  On two simple graphs with six vertices the
    returned matching is valid but not optimal: in weight mode it weighs 13
    where the matching [0-2, 1-4, 3-5] weighs 14, the brute-force maximum;
    in cardinality mode it has three edges of total weight 2 where three
    edges of total weight 3 exist. *)
Theorem blossom_not_optimal :
  (simpleGraph bugWeightEdges = true /\ inferredVertexCount bugWeightEdges = 6 /\
   blossom 100 (jsEdges bugWeightEdges) None = Returned [4; 3; -1; 1; 0; -1] /\
   resultCardWeight bugWeightEdges [4; 3; -1; 1; 0; -1] = Some (2, 13) /\
   resultCardWeight bugWeightEdges [2; 4; 0; 5; 1; 3] = Some (3, 14) /\
   bruteForceWeight bugWeightEdges = 14) /\
  (simpleGraph bugCardEdges = true /\ inferredVertexCount bugCardEdges = 6 /\
   blossom 100 (jsEdges bugCardEdges) (Some true) = Returned [3; 2; 1; 0; 5; 4] /\
   resultCardWeight bugCardEdges [3; 2; 1; 0; 5; 4] = Some (3, 2) /\
   resultCardWeight bugCardEdges [2; 3; 0; 1; 5; 4] = Some (3, 3) /\
   bruteForceCardWeight bugCardEdges = (3, 3)).
Proof. vm_compute. repeat split. Qed.


(** ** Rules of the program logic *)

Lemma wp_bind {A B} R (Q : B -> State -> Prop) (p : prog A) (f : A -> prog B) s :
  wp R (fun a s1 => wp R Q (f a) s1) p s -> wp R Q (bind p f) s.
Proof.
  revert s. induction p as [a|h|k IH|s' k IH]; intros s; simpl.
  - auto.
  - auto.
  - apply IH.
  - intros [H1 H2]. split; [exact H1|]. apply IH. exact H2.
Qed.

Lemma wp_weaken {A} R (Q Q' : A -> State -> Prop) (p : prog A) s :
  (forall a s1, Q a s1 -> Q' a s1) -> wp R Q p s -> wp R Q' p s.
Proof.
  intros HQ. revert s. induction p as [a|h|k IH|s' k IH]; intros s; simpl.
  - apply HQ.
  - auto.
  - apply IH.
  - intros [H1 H2]. split; [exact H1|]. apply IH. exact H2.
Qed.

Lemma wp_run {A} R (Q : A -> State -> Prop) (p : prog A) s a s1 :
  wp R Q p s -> run p s = Ret a s1 -> Q a s1.
Proof.
  revert s. induction p as [x|h|k IH|s' k IH]; intros s; simpl.
  - intros H [= <- <-]. exact H.
  - discriminate.
  - apply IH.
  - intros [_ H]. apply IH. exact H.
Qed.

Lemma run_bind {A B} (p : prog A) (f : A -> prog B) s :
  run (bind p f) s =
  match run p s with
  | Ret a s1 => run (f a) s1
  | Err h => Err h
  end.
Proof.
  revert s. induction p as [x|h|k IH|s' k IH]; intros s; simpl; auto.
Qed.

Lemma trace_bind {A B} (p : prog A) (f : A -> prog B) s :
  trace (bind p f) s =
  trace p s ++ match run p s with
               | Ret a s1 => trace (f a) s1
               | Err _ => []
               end.
Proof.
  revert s. induction p as [x|h|k IH|s' k IH]; intros s; simpl; auto.
  rewrite IH. reflexivity.
Qed.

(** Along the stores of a run, a reflexive and transitive [R] relates any
    earlier store to any later one. *)
Lemma wp_trace_from {A} R (Q : A -> State -> Prop) (p : prog A) s :
  (forall x, R x x) -> (forall x y z, R x y -> R y z -> R x z) ->
  wp R Q p s ->
  forall i j s1 s2, (i <= j)%nat ->
    (s :: trace p s) !! i = Some s1 -> (s :: trace p s) !! j = Some s2 ->
    R s1 s2.
Proof.
  intros Hrefl Htrans. revert s.
  induction p as [x|h|k IH|s' k IH]; intros s; simpl.
  - intros _ i j s1 s2 Hij H1 H2.
    destruct i, j; simpl in *; try discriminate.
    injection H1 as <-. injection H2 as <-. apply Hrefl.
  - intros _ i j s1 s2 Hij H1 H2.
    destruct i, j; simpl in *; try discriminate.
    injection H1 as <-. injection H2 as <-. apply Hrefl.
  - apply IH.
  - intros [HR Hw] i j s1 s2 Hij H1 H2.
    specialize (IH s' Hw).
    destruct i as [|i].
    + injection H1 as <-. destruct j as [|j].
      * injection H2 as <-. apply Hrefl.
      * simpl in H2. eapply Htrans; [exact HR|].
        apply (IH 0%nat j s' s2); [lia|reflexivity|exact H2].
    + destruct j as [|j]; [lia|]. simpl in H1, H2.
      apply (IH i j s1 s2); [lia|exact H1|exact H2].
Qed.

Section Respects.

Context {R : State -> State -> Prop}.

Lemma respects_Pure {A} (Q : A -> Prop) a : Q a -> respects R Q (Pure a).
Proof. intros H s. exact H. Qed.

Lemma respects_Halt {A} (Q : A -> Prop) h : respects R Q (Halt h).
Proof. intros s. exact I. Qed.

Lemma respects_bind {A B} (Q1 : A -> Prop) (Q : B -> Prop) p (f : A -> prog B) :
  respects R Q1 p -> (forall a, Q1 a -> respects R Q (f a)) ->
  respects R Q (bind p f).
Proof.
  intros Hp Hf s. apply wp_bind. eapply wp_weaken; [|apply Hp].
  intros a s1 Ha. apply Hf. exact Ha.
Qed.

Lemma respects_weaken {A} (Q Q' : A -> Prop) p :
  respects R Q p -> (forall a, Q a -> Q' a) -> respects R Q' p.
Proof.
  intros Hp HQ s. eapply wp_weaken; [|apply Hp]. intros a s1. apply HQ.
Qed.

Lemma respects_any {A} (Q : A -> Prop) p :
  respects R Q p -> respects R anyValue p.
Proof. intros Hp. eapply respects_weaken; [exact Hp|]. intros; exact I. Qed.

Lemma respects_rd {A} (f : State -> option A) : respects R anyValue (rd f).
Proof. intros s. simpl. destruct (f s); exact I. Qed.

Lemma respects_Get {A} (Q : A -> Prop) (k : State -> prog A) :
  (forall s, respects R Q (k s)) -> respects R Q (Get k).
Proof. intros H s. simpl. apply H. Qed.

Lemma respects_lift {A} (o : option A) :
  respects R (fun a => o = Some a) (lift o).
Proof. intros s. destruct o; simpl; auto. Qed.

Lemma respects_upd (f : State -> option State) :
  (forall s s', f s = Some s' -> R s s') -> respects R anyValue (upd f).
Proof.
  intros H s. simpl. destruct (f s) eqn:E; simpl; [|exact I].
  split; [apply H; exact E|exact I].
Qed.

Lemma respects_forEach {A} (l : list A) (body : A -> prog unit) :
  (forall x, x ∈ l -> respects R anyValue (body x)) ->
  respects R anyValue (forEach l body).
Proof.
  induction l as [|x l IH]; intros H; simpl.
  - apply respects_Pure. exact I.
  - eapply respects_bind; [apply H; left|].
    intros _ _. apply IH. intros y Hy. apply H. right. exact Hy.
Qed.

Lemma respects_forEachBreak {A} (l : list A) (body : A -> prog bool) :
  (forall x, x ∈ l -> respects R anyValue (body x)) ->
  respects R anyValue (forEachBreak l body).
Proof.
  induction l as [|x l IH]; intros H; simpl.
  - apply respects_Pure. exact I.
  - eapply respects_bind; [apply H; left|].
    intros [|] _; [apply respects_Pure; exact I|].
    apply IH. intros y Hy. apply H. right. exact Hy.
Qed.

Lemma respects_foldM {A B} (l : list A) (acc : B) (body : B -> A -> prog B) :
  (forall b x, respects R anyValue (body b x)) ->
  respects R anyValue (foldM l acc body).
Proof.
  intros H. revert acc. induction l as [|x l IH]; intros acc; simpl.
  - apply respects_Pure. exact I.
  - eapply respects_bind; [apply H|]. intros b _. apply IH.
Qed.

Lemma respects_mapM {A B} (f : A -> prog B) (l : list A) :
  (forall x, respects R anyValue (f x)) ->
  respects R anyValue (mapM f l).
Proof.
  intros H. induction l as [|x l IH]; simpl.
  - apply respects_Pure. exact I.
  - eapply respects_bind; [apply H|]. intros y _.
    eapply respects_bind; [apply IH|]. intros ys _.
    apply respects_Pure. exact I.
Qed.

(** Loops, with an invariant [Inv] on the loop variables. *)
Lemma respects_loop {A B} (Inv : A -> Prop) (Q : B -> Prop) fuel
    (body : A -> prog (A + B)) a :
  (forall a, Inv a ->
     respects R (fun r => match r with inl a' => Inv a' | inr b => Q b end)
              (body a)) ->
  Inv a -> respects R Q (loop fuel body a).
Proof.
  intros H. revert a. induction fuel as [|fuel IH]; intros a Ha; simpl.
  - apply respects_Halt.
  - eapply respects_bind; [apply H; exact Ha|].
    intros [a'|b] Hr.
    + apply IH. exact Hr.
    + apply respects_Pure. exact Hr.
Qed.

End Respects.


(** ** Every method respects a relation its writes respect *)

Lemma opp_involutive p : getOppositeEndpoint (getOppositeEndpoint p) = p.
Proof.
  unfold getOppositeEndpoint.
  rewrite Z.lxor_assoc, Z.lxor_nilpotent, Z.lxor_0_r. reflexivity.
Qed.

Lemma opp_even k : getOppositeEndpoint (2 * k) = 2 * k + 1.
Proof.
  unfold getOppositeEndpoint. symmetry. apply Z.add_nocarry_lxor.
  change 1 with (Z.ones 1). rewrite Z.land_ones by lia.
  change (2 ^ 1) with 2. rewrite Z.mul_comm. apply Z.mod_mul. lia.
Qed.

Lemma opp_odd k : getOppositeEndpoint (2 * k + 1) = 2 * k.
Proof. rewrite <- opp_even. apply opp_involutive. Qed.

Create HintDb resp.

Ltac resp_leaf :=
  first
    [ apply respects_Pure; solve [exact I | simpl; auto]
    | apply respects_Halt
    | apply respects_rd
    | solve [eauto with resp]
    | eapply respects_weaken;
      [solve [eauto with resp | apply respects_lift | apply respects_rd]
      | intros; simpl; solve [exact I | auto]] ].

Ltac resp_go :=
  cbv beta;
  lazymatch goal with
  | |- respects _ _ (bind (getEndpoint _ _) _) =>
      eapply respects_bind;
        [unfold getEndpoint; apply respects_lift | intros ? ?; resp_go]
  | |- respects _ _ (bind _ _) =>
      apply (respects_bind anyValue); [resp_go | intros ? _; resp_go]
  | |- respects _ _ (forEach _ _) =>
      first [ solve [resp_leaf]
            | eapply respects_weaken;
              [apply respects_forEach; intros ? _; resp_go
              | intros; exact I] ]
  | |- respects _ _ (forEachBreak _ _) =>
      eapply respects_weaken;
        [apply respects_forEachBreak; intros ? _; resp_go | intros; exact I]
  | |- respects _ _ (foldM _ _ _) =>
      eapply respects_weaken;
        [apply respects_foldM; intros; resp_go | intros; exact I]
  | |- respects _ _ (mapM _ _) =>
      eapply respects_weaken;
        [apply respects_mapM; intros; resp_go | intros; exact I]
  | |- respects _ _ (loop _ _ _) =>
      first [ solve [resp_leaf]
            | apply (respects_loop (fun _ => True)); [intros ? _; resp_go | exact I] ]
  | |- respects _ _ (if ?b then _ else _) => destruct b; resp_go
  | |- respects _ _ (match ?x with _ => _ end) => destruct x; resp_go
  | |- _ => try resp_leaf
  end.

Section Procedures.

Context (g : Graph) (fuel : nat) (R : State -> State -> Prop).

(** Writes to fields other than [mate] and [allowEdge]. *)
Hypothesis R_frame :
  forall s s', mate s' = mate s -> allowEdge s' = allowEdge s -> R s s'.
(** [allowEdge[k] = true]. *)
Hypothesis R_allow :
  forall s k l, setZ (allowEdge s) k true = Some l -> R s (set_allowEdge s l).
(** [mate[v] = x], where [v] is the near end of the edge of endpoint [x]. *)
Hypothesis R_mate :
  forall s v x l,
    nthZ (endpoint g) (getOppositeEndpoint x) = Some v ->
    setZ (mate s) v x = Some l -> R s (set_mate s l).
(** The two ends of every edge are recorded in [endpoint]. *)
Hypothesis g_endpoint :
  forall k v w q, nthZ (edges g) k = Some (v, w, q) ->
    nthZ (endpoint g) (EDGE_ENDPOINT_COUNT * k) = Some v /\
    nthZ (endpoint g) (EDGE_ENDPOINT_COUNT * k + 1) = Some w.

Ltac frame_upd :=
  apply respects_upd; intros s s' H;
  first [ injection H as <-
        | match type of H with
          | _ <$> ?o = Some _ => destruct o; [injection H as <-|discriminate H]
          end ];
  apply R_frame; reflexivity.

Lemma respects_setLabel b x : respects R anyValue (setLabel b x).
Proof. frame_upd. Qed.
Lemma respects_setLabelEnd b x : respects R anyValue (setLabelEnd b x).
Proof. frame_upd. Qed.
Lemma respects_setInBlossom b x : respects R anyValue (setInBlossom b x).
Proof. frame_upd. Qed.
Lemma respects_setBlossomParent b x : respects R anyValue (setBlossomParent b x).
Proof. frame_upd. Qed.
Lemma respects_setBlossomChilds b x : respects R anyValue (setBlossomChilds b x).
Proof. frame_upd. Qed.
Lemma respects_setBlossomBase b x : respects R anyValue (setBlossomBase b x).
Proof. frame_upd. Qed.
Lemma respects_setBlossomEndPs b x : respects R anyValue (setBlossomEndPs b x).
Proof. frame_upd. Qed.
Lemma respects_setBestEdge b x : respects R anyValue (setBestEdge b x).
Proof. frame_upd. Qed.
Lemma respects_setBlossomBestEdges b x :
  respects R anyValue (setBlossomBestEdges b x).
Proof. frame_upd. Qed.
Lemma respects_setDualVar b x : respects R anyValue (setDualVar b x).
Proof. frame_upd. Qed.
Lemma respects_queuePush vs : respects R anyValue (queuePush vs).
Proof. frame_upd. Qed.
Lemma respects_unusedPush b : respects R anyValue (unusedPush b).
Proof. frame_upd. Qed.
Lemma respects_assignLabelMinusOne : respects R anyValue assignLabelMinusOne.
Proof. frame_upd. Qed.
Lemma respects_setLabelNeg1 x :
  respects R anyValue (upd (fun s => Some (set_labelNeg1 s x))).
Proof. frame_upd. Qed.

Lemma respects_allowEdgeTrue k : respects R anyValue (allowEdgeTrue k).
Proof.
  apply respects_upd. intros s s' H.
  destruct (setZ (allowEdge s) k true) eqn:E; [|discriminate].
  injection H as <-. eapply R_allow. exact E.
Qed.

Lemma respects_setMate v x :
  nthZ (endpoint g) (getOppositeEndpoint x) = Some v ->
  respects R anyValue (setMate v x).
Proof.
  intros Hv. apply respects_upd. intros s s' H.
  destruct (setZ (mate s) v x) eqn:E; [|discriminate].
  injection H as <-. eapply R_mate; eauto.
Qed.

Hint Resolve respects_setLabel respects_setLabelEnd respects_setInBlossom
  respects_setBlossomParent respects_setBlossomChilds respects_setBlossomBase
  respects_setBlossomEndPs respects_setBestEdge respects_setBlossomBestEdges
  respects_setDualVar respects_queuePush respects_unusedPush
  respects_assignLabelMinusOne respects_setLabelNeg1 respects_allowEdgeTrue
  : resp.

Lemma respects_queuePop : respects R anyValue queuePop.
Proof. unfold queuePop. resp_go. frame_upd. Qed.
Lemma respects_unusedPop : respects R anyValue unusedPop.
Proof. unfold unusedPop. resp_go. frame_upd. Qed.

Lemma respects_blossomLeaves b : respects R anyValue (blossomLeaves g fuel b).
Proof. unfold blossomLeaves. apply respects_Get. intros s. resp_go. Qed.

Hint Resolve respects_queuePop respects_unusedPop respects_blossomLeaves : resp.

Lemma respects_assignLabelRec n vertex labelType labelingEdge :
  respects R anyValue (assignLabelRec g fuel n vertex labelType labelingEdge).
Proof.
  revert vertex labelType labelingEdge.
  induction n as [|n IH]; intros; cbn [assignLabelRec]; resp_go.
Qed.

Lemma respects_assignLabel vertex labelType labelingEdge :
  respects R anyValue (assignLabel g fuel vertex labelType labelingEdge).
Proof. apply respects_assignLabelRec. Qed.

Hint Resolve respects_assignLabel : resp.

Lemma respects_scanBlossom v w : respects R anyValue (scanBlossom g fuel v w).
Proof. unfold scanBlossom, scanBlossomStep. resp_go. Qed.

Lemma respects_addBlossom base k : respects R anyValue (addBlossom g fuel base k).
Proof. unfold addBlossom, addBlossomBestEdge, pushChild, pushEndP. resp_go. Qed.

Lemma respects_findLabelled leaves : respects R anyValue (findLabelled leaves).
Proof. induction leaves as [|v rest IH]; cbn [findLabelled]; resp_go. Qed.

Hint Resolve respects_scanBlossom respects_addBlossom respects_findLabelled : resp.

Lemma respects_expandBlossomRelabel b :
  respects R anyValue (expandBlossomRelabel g fuel b).
Proof. unfold expandBlossomRelabel. resp_go. Qed.

Hint Resolve respects_expandBlossomRelabel : resp.

Lemma respects_expandBlossomRec n b endStage :
  respects R anyValue (expandBlossomRec g fuel n b endStage).
Proof.
  revert b endStage. induction n as [|n IH]; intros; cbn [expandBlossomRec]; resp_go.
Qed.

Lemma respects_expandBlossom b endStage :
  respects R anyValue (expandBlossom g fuel b endStage).
Proof. apply respects_expandBlossomRec. Qed.

Hint Resolve respects_expandBlossom : resp.

Hint Extern 1 (respects _ _ (setMate _ _)) =>
  apply respects_setMate;
  first [assumption | rewrite opp_involutive; assumption] : resp.

Lemma respects_augmentBlossomRec n b v :
  respects R anyValue (augmentBlossomRec g fuel n b v).
Proof.
  revert b v. induction n as [|n IH]; intros; cbn [augmentBlossomRec]; resp_go.
Qed.

Lemma respects_augmentBlossom b v :
  respects R anyValue (augmentBlossom g fuel b v).
Proof. apply respects_augmentBlossomRec. Qed.

Hint Resolve respects_augmentBlossom : resp.

Lemma respects_augmentMatchingStep s p :
  nthZ (endpoint g) (getOppositeEndpoint p) = Some s ->
  respects R
    (fun r => match r with
              | inl (s', p') =>
                  nthZ (endpoint g) (getOppositeEndpoint p') = Some s'
              | inr _ => True
              end)
    (augmentMatchingStep g fuel (s, p)).
Proof.
  intros Hsp. unfold augmentMatchingStep. resp_go.
  apply respects_Pure. rewrite opp_involutive. assumption.
Qed.

Lemma respects_augmentMatching k :
  respects R anyValue (augmentMatching g fuel k).
Proof.
  unfold augmentMatching.
  eapply respects_bind; [unfold getEdge; apply respects_lift|].
  intros [[v w] q] Hk. apply g_endpoint in Hk. destruct Hk as [Hv Hw].
  apply respects_forEach. intros [s p] Hin.
  apply (respects_loop
           (fun st => nthZ (endpoint g) (getOppositeEndpoint st.2) = Some st.1)).
  - intros [s' p'] Hinv. eapply respects_weaken.
    + apply respects_augmentMatchingStep. exact Hinv.
    + intros [[s2 p2]|[]]; auto.
  - simpl. apply list_elem_of_In in Hin. simpl in Hin.
    destruct Hin as [[= <- <-]|[[= <- <-]|[]]].
    + unfold EDGE_ENDPOINT_COUNT in *. rewrite opp_odd. exact Hv.
    + unfold EDGE_ENDPOINT_COUNT in *. rewrite opp_even. exact Hw.
Qed.

Hint Resolve respects_augmentMatching : resp.

Lemma respects_slack k : respects R anyValue (slack g k).
Proof. apply respects_rd. Qed.

Hint Resolve respects_slack : resp.

Lemma respects_initRoots : respects R anyValue (initRoots g fuel).
Proof. unfold initRoots. resp_go. Qed.

Lemma respects_scanNeighbour v p : respects R anyValue (scanNeighbour g fuel v p).
Proof.
  unfold scanNeighbour, trackBestEdge, isUnlabeledVertex, isSVertex,
    hasVertexLabel.
  resp_go.
Qed.

Hint Resolve respects_initRoots respects_scanNeighbour : resp.

Lemma respects_searchLoop : respects R anyValue (searchLoop g fuel).
Proof. unfold searchLoop. resp_go. Qed.

Lemma respects_applyDelta d : respects R anyValue (applyDelta g d).
Proof. unfold applyDelta. resp_go. Qed.

Lemma respects_actOnDelta d : respects R anyValue (actOnDelta g fuel d).
Proof.
  unfold actOnDelta, isUnlabeledVertex, hasVertexLabel. resp_go.
Qed.

Hint Resolve respects_searchLoop respects_applyDelta respects_actOnDelta : resp.

Lemma respects_dualAdjust : respects R anyValue (dualAdjust g fuel).
Proof. unfold dualAdjust. resp_go. Qed.

Hint Resolve respects_dualAdjust : resp.

Lemma respects_stageSearch : respects R anyValue (stageSearch g fuel).
Proof. unfold stageSearch. resp_go. Qed.

Lemma respects_endStageExpand : respects R anyValue (endStageExpand g fuel).
Proof. unfold endStageExpand. resp_go. Qed.

Hint Resolve respects_stageSearch respects_endStageExpand : resp.

Lemma respects_stageBody : respects R anyValue (stageBody g fuel).
Proof. unfold stageBody. resp_go. Qed.

(** The reset at the start of a stage replaces [allowEdge]. *)
Hypothesis R_reset :
  forall s, R s (set_allowEdge s (filledArray (nEdge g) false)).

Lemma respects_stageReset : respects R anyValue (stageReset g).
Proof.
  unfold stageReset. resp_go; try frame_upd.
  apply respects_upd. intros s s' [= <-]. apply R_reset.
Qed.

Hint Resolve respects_stageBody respects_stageReset : resp.

Lemma respects_stages : respects R anyValue (stages g fuel).
Proof. unfold stages, stage. resp_go. Qed.

End Procedures.


(** ** The graph the constructor builds *)
Lemma buildEndpoint_lookup (es : list Edge) (k : nat) v w q :
  es !! k = Some (v, w, q) ->
  buildEndpoint es !! (2 * k)%nat = Some v /\
  buildEndpoint es !! (2 * k + 1)%nat = Some w.
Proof.
  revert k. induction es as [|[[i j] x] es IH]; intros k H; [discriminate|].
  destruct k as [|k]; simpl in H.
  - injection H as -> -> ->. split; reflexivity.
  - apply IH in H. replace (2 * S k)%nat with (S (S (2 * k))) by lia.
    exact H.
Qed.

Lemma graph_endpoint es mc k v w q :
  let g := initializeGraphProperties es mc in
  nthZ (edges g) k = Some (v, w, q) ->
  nthZ (endpoint g) (EDGE_ENDPOINT_COUNT * k) = Some v /\
  nthZ (endpoint g) (EDGE_ENDPOINT_COUNT * k + 1) = Some w.
Proof.
  intros g H. apply nthZ_Some in H. destruct H as [Hk H].
  apply buildEndpoint_lookup in H. destruct H as [H1 H2].
  unfold EDGE_ENDPOINT_COUNT. split; apply nthZ_Some; (split; [lia|]).
  - replace (Z.to_nat (2 * k)) with (2 * Z.to_nat k)%nat by lia. exact H1.
  - replace (Z.to_nat (2 * k + 1)) with (2 * Z.to_nat k + 1)%nat by lia.
    exact H2.
Qed.

Lemma buildEndpoint_elem (es : list Edge) x :
  x ∈ buildEndpoint es -> exists e, e ∈ es /\ (x = e.1.1 \/ x = e.1.2).
Proof.
  induction es as [|[[i j] q] es IH]; simpl; intros H.
  - inversion H.
  - apply elem_of_cons in H. destruct H as [->|H].
    { exists (i, j, q). split; [left|auto]. }
    apply elem_of_cons in H. destruct H as [->|H].
    { exists (i, j, q). split; [left|auto]. }
    destruct (IH H) as (e & He & Hx). exists e. split; [right; exact He|exact Hx].
Qed.

Lemma graph_endpoint_range es mc p w :
  Forall (fun e : Edge => 0 <= e.1.1 /\ 0 <= e.1.2) es ->
  let g := initializeGraphProperties es mc in
  nthZ (endpoint g) p = Some w -> 0 <= w < nVertex g.
Proof.
  intros Hpos g H. apply nthZ_Some in H. destruct H as [_ H].
  apply list_elem_of_lookup_2 in H. apply buildEndpoint_elem in H.
  destruct H as (e & He & Hx).
  destruct (fold_vertexCount_spec es 0) as [_ Hn].
  rewrite Forall_forall in Hpos, Hn.
  specialize (Hpos _ He). specialize (Hn _ He).
  change (fold_left _ es 0) with (nVertex g) in Hn. lia.
Qed.

(** ** [allowEdge] within a stage *)

Lemma allowMono_refl s : allowMono s s.
Proof. split; auto. Qed.

Lemma allowMono_trans s1 s2 s3 :
  allowMono s1 s2 -> allowMono s2 s3 -> allowMono s1 s3.
Proof. intros [L1 H1] [L2 H2]. split; [congruence|auto]. Qed.

Lemma nthZ_setZ_eq {A} (l l' : list A) i x :
  setZ l i x = Some l' -> nthZ l' i = Some x.
Proof.
  unfold setZ. destruct (_ && _) eqn:E; [|discriminate].
  intros [= <-]. apply andb_true_iff in E. destruct E as [E1 E2].
  apply Z.leb_le in E1. apply Z.ltb_lt in E2.
  apply nthZ_Some. split; [lia|]. apply list_lookup_insert_eq. lia.
Qed.

Lemma nthZ_setZ_ne {A} (l l' : list A) i j x :
  setZ l i x = Some l' -> i <> j -> nthZ l' j = nthZ l j.
Proof.
  unfold setZ. destruct (_ && _) eqn:E; [|discriminate].
  intros [= <-] Hij. apply andb_true_iff in E. destruct E as [E1 E2].
  apply Z.leb_le in E1. unfold nthZ.
  destruct (Z.ltb_spec j 0); [reflexivity|].
  apply list_lookup_insert_ne. lia.
Qed.

Lemma setZ_length {A} (l l' : list A) i x :
  setZ l i x = Some l' -> length l' = length l.
Proof.
  unfold setZ. destruct (_ && _); [|discriminate].
  intros [= <-]. apply length_insert.
Qed.

Lemma allowMono_frame s s' :
  mate s' = mate s -> allowEdge s' = allowEdge s -> allowMono s s'.
Proof. intros _ H. unfold allowMono. rewrite H. auto. Qed.

Lemma allowMono_allow s k l :
  setZ (allowEdge s) k true = Some l -> allowMono s (set_allowEdge s l).
Proof.
  intros H. split; simpl.
  - eapply setZ_length; eauto.
  - intros j Hj. destruct (Z.eq_dec k j) as [->|Hne].
    + eapply nthZ_setZ_eq; eauto.
    + erewrite nthZ_setZ_ne; eauto.
Qed.

Lemma allowMono_mate g s v x l :
  nthZ (endpoint g) (getOppositeEndpoint x) = Some v ->
  setZ (mate s) v x = Some l -> allowMono s (set_mate s l).
Proof. intros _ _. split; simpl; auto. Qed.

(** C8.  Along the stores a stage goes through after its reset, an edge
    whose [allowEdge] flag is true at one store has it true at every later
    store; the reset that opens a stage sets every flag to false. *)
Theorem allowEdge_monotone_in_stage (es : list Edge) (mc : bool) (fuel : nat)
    (s : State) :
  let g := initializeGraphProperties es mc in
  (forall i j s1 s2 k, (i <= j)%nat ->
     (s :: trace (stageBody g fuel) s) !! i = Some s1 ->
     (s :: trace (stageBody g fuel) s) !! j = Some s2 ->
     nthZ (allowEdge s1) k = Some true -> nthZ (allowEdge s2) k = Some true) /\
  (forall s', run (stageReset g) s = Ret tt s' ->
     allowEdge s' = filledArray (nEdge g) false).
Proof.
  intros g. split.
  - intros i j s1 s2 k Hij H1 H2.
    assert (allowMono s1 s2) as [_ H]; [|apply H].
    eapply (wp_trace_from allowMono (fun _ _ => anyValue tt)
              (stageBody g fuel) s allowMono_refl allowMono_trans); eauto.
    eapply wp_weaken; [|apply (respects_stageBody g fuel allowMono)].
    + intros; exact I.
    + apply allowMono_frame.
    + apply allowMono_allow.
    + apply allowMono_mate.
    + apply graph_endpoint.
  - intros s'. cbn. intros [= <-]. reflexivity.
Qed.

Lemma allowEdge_monotone_in_stage_witness :
  let g := initializeGraphProperties [(0, 1, 1%Q)] false in
  let tr := initialState g :: trace (stageBody g 10) (initialState g) in
  exists s1 s2,
    tr !! 16%nat = Some s1 /\ tr !! 22%nat = Some s2 /\
    nthZ (allowEdge s1) 0 = Some true /\ nthZ (allowEdge s2) 0 = Some true.
Proof.
  intros g tr.
  destruct (tr !! 16%nat) as [s1|] eqn:E1; [|vm_compute in E1; discriminate].
  destruct (tr !! 22%nat) as [s2|] eqn:E2; [|vm_compute in E2; discriminate].
  exists s1, s2. split; [reflexivity|]. split; [reflexivity|].
  assert (H1 : nthZ (allowEdge s1) 0 = Some true).
  { vm_compute in E1. injection E1 as <-. reflexivity. }
  split; [exact H1|].
  refine (proj1 (allowEdge_monotone_in_stage [(0, 1, 1%Q)] false 10
                   (initialState g)) 16%nat 22%nat s1 s2 0 _ E1 E2 H1).
  lia.
Defined.

(** ** The shape of [mate] during the stage loop *)

Lemma keepsMateShape_refl g s : keepsMateShape g s s.
Proof. split; auto. Qed.

Lemma keepsMateShape_trans g s1 s2 s3 :
  keepsMateShape g s1 s2 -> keepsMateShape g s2 s3 -> keepsMateShape g s1 s3.
Proof. intros [L1 H1] [L2 H2]. split; [congruence|auto]. Qed.

Lemma keepsMateShape_frame g s s' :
  mate s' = mate s -> keepsMateShape g s s'.
Proof. intros H. unfold keepsMateShape, mateShape. rewrite H. auto. Qed.

Lemma keepsMateShape_mate g s v x l :
  nthZ (endpoint g) (getOppositeEndpoint x) = Some v ->
  setZ (mate s) v x = Some l -> keepsMateShape g s (set_mate s l).
Proof.
  intros Hx Hl. split; simpl.
  - eapply setZ_length; eauto.
  - intros Hs u y Hu. destruct (Z.eq_dec v u) as [->|Hne].
    + erewrite nthZ_setZ_eq in Hu by eauto. injection Hu as <-. right. exact Hx.
    + erewrite nthZ_setZ_ne in Hu by eauto. apply Hs. exact Hu.
Qed.

Lemma stages_keep_mateShape g fuel s :
  endpointsOfEdges g ->
  wp (keepsMateShape g) (fun _ _ => True) (stages g fuel) s.
Proof.
  intros Hg.
  eapply wp_weaken; [|apply (respects_stages g fuel (keepsMateShape g))].
  - intros; exact I.
  - intros; apply keepsMateShape_frame; assumption.
  - intros; apply keepsMateShape_frame; reflexivity.
  - apply keepsMateShape_mate.
  - exact Hg.
  - intros; apply keepsMateShape_frame; reflexivity.
Qed.

Lemma initialState_mateShape g : mateShape g (initialState g).
Proof.
  intros v x H. left. apply nthZ_Some in H. destruct H as [_ H].
  simpl in H. unfold filledArray in H. apply lookup_replicate in H.
  apply H.
Qed.

(** X24.  At every store of the stage loop, if [mate[v] = p] with
    [p >= 0] then [endpoint[p ^ 1] = v]: [mate[v]] names the far end of an
    edge whose near end is [v]. *)
Theorem mate_names_far_end (es : list Edge) (mc : bool) (fuel : nat) :
  let g := initializeGraphProperties es mc in
  forall st, st ∈ initialState g :: trace (stages g fuel) (initialState g) ->
  forall v p, nthZ (mate st) v = Some p -> 0 <= p ->
    nthZ (endpoint g) (Z.lxor p 1) = Some v.
Proof.
  intros g st Hst v p Hv Hp.
  apply list_elem_of_lookup in Hst. destruct Hst as [j Hj].
  assert (keepsMateShape g (initialState g) st) as [_ H].
  { eapply (wp_trace_from (keepsMateShape g) _ (stages g fuel) (initialState g)
              (keepsMateShape_refl g) (keepsMateShape_trans g)
              (stages_keep_mateShape g fuel _ (graph_endpoint es mc)) 0%nat j);
      [lia|reflexivity|exact Hj]. }
  specialize (H (initialState_mateShape g) v p Hv).
  destruct H as [->|H]; [unfold UNMATCHED in Hp; lia|].
  exact H.
Qed.

Lemma mate_names_far_end_witness :
  let g := initializeGraphProperties [(0, 1, 1%Q)] false in
  let tr := initialState g :: trace (stages g 10) (initialState g) in
  exists st, tr !! 27%nat = Some st /\
    nthZ (mate st) 0 = Some 1 /\
    nthZ (endpoint g) (Z.lxor 1 1) = Some 0.
Proof.
  intros g tr.
  destruct (tr !! 27%nat) as [st|] eqn:E; [|vm_compute in E; discriminate].
  exists st. split; [reflexivity|].
  assert (Hm : nthZ (mate st) 0 = Some 1).
  { vm_compute in E. injection E as <-. reflexivity. }
  split; [exact Hm|].
  refine (mate_names_far_end [(0, 1, 1%Q)] false 10 st _ 0 1 Hm _).
  - eapply list_elem_of_lookup_2. exact E.
  - lia.
Defined.

(** The formula [mate[endpoint[p ^ 1]] = p ^ 1] fails: once the single
    edge of the graph [(0, 1, 1)] is matched, [mate[0] = 1],
    [endpoint[1 ^ 1] = 0] and [mate[0]] is not [1 ^ 1]. *)
Lemma mate_symmetry_formula_counterexample :
  let g := initializeGraphProperties [(0, 1, 1%Q)] false in
  let tr := initialState g :: trace (stages g 10) (initialState g) in
  exists st v p u,
    tr !! 27%nat = Some st /\
    nthZ (mate st) v = Some p /\ 0 <= p /\
    nthZ (endpoint g) (Z.lxor p 1) = Some u /\
    nthZ (mate st) u <> Some (Z.lxor p 1).
Proof.
  intros g tr.
  destruct (tr !! 27%nat) as [st|] eqn:E; [|vm_compute in E; discriminate].
  exists st, 0, 1, 0. split; [reflexivity|].
  vm_compute in E. injection E as <-.
  split; [reflexivity|]. split; [lia|]. split; [reflexivity|].
  vm_compute. discriminate.
Qed.

(** Between the two writes of an augmentation step the matching is
    one-sided: in the same run, one store earlier, [mate[0] = 1] names
    vertex 1 and [mate[1]] is still -1. *)
Lemma mate_one_sided_during_augmentation :
  let g := initializeGraphProperties [(0, 1, 1%Q)] false in
  let tr := initialState g :: trace (stages g 10) (initialState g) in
  exists st,
    tr !! 26%nat = Some st /\
    nthZ (mate st) 0 = Some 1 /\
    nthZ (endpoint g) 1 = Some 1 /\
    nthZ (mate st) 1 = Some UNMATCHED.
Proof.
  intros g tr.
  destruct (tr !! 26%nat) as [st|] eqn:E; [|vm_compute in E; discriminate].
  exists st. split; [reflexivity|].
  vm_compute in E. injection E as <-. repeat split; reflexivity.
Qed.

(** ** The shape of the returned array *)

Lemma wp_rd_intro {A} R (Q : A -> State -> Prop) (f : State -> option A) s :
  (forall a, f s = Some a -> Q a s) -> wp R Q (rd f) s.
Proof. intros H. simpl. destruct (f s); simpl; auto. Qed.

Lemma wp_lift_intro {A} R (Q : A -> State -> Prop) (o : option A) s :
  (forall a, o = Some a -> Q a s) -> wp R Q (lift o) s.
Proof. intros H. destruct o; simpl; auto. Qed.

Lemma wp_upd_intro R (Q : unit -> State -> Prop) (f : State -> option State) s :
  (forall s', f s = Some s' -> R s s' /\ Q tt s') -> wp R Q (upd f) s.
Proof. intros H. simpl. destruct (f s); simpl; auto. Qed.

Lemma wp_relax {A} (R R' : State -> State -> Prop) (Q : A -> State -> Prop)
    (p : prog A) s :
  (forall x y, R x y -> R' x y) -> wp R Q p s -> wp R' Q p s.
Proof.
  intros HR. revert s.
  induction p as [x|h|k IH|s' k IH]; intros s; simpl; auto.
  intros [H1 H2]. split; [apply HR; exact H1|apply IH; exact H2].
Qed.

(** With a reflexive and transitive [R], the final store is [R]-related to
    the first. *)
Lemma wp_final {A} (R : State -> State -> Prop) (p : prog A) s0 s :
  (forall x y z, R x y -> R y z -> R x z) ->
  R s0 s -> wp R (fun _ _ => True) p s -> wp R (fun _ s' => R s0 s') p s.
Proof.
  intros Htrans. revert s.
  induction p as [x|h|k IH|s' k IH]; intros s Hs; simpl; auto.
  intros [H1 H2]. split; [exact H1|]. apply IH; [|exact H2].
  eapply Htrans; eauto.
Qed.

Lemma calculateVertexCount_fold (es : list Edge) (n0 : Z) :
  0 <= n0 ->
  fold_left (fun nV '(i, j, _) => Z.max (Z.max nV (i + 1)) (j + 1)) es n0
  = Z.max n0 (1 + maxVertexId es).
Proof.
  revert n0. induction es as [|[[i j] w] es IH]; intros n0 H0.
  - unfold maxVertexId. simpl. lia.
  - cbn [fold_left]. rewrite IH by lia. unfold maxVertexId. simpl. lia.
Qed.

Lemma maxVertexId_nonneg (es : list Edge) :
  es <> [] -> Forall (fun e : Edge => 0 <= e.1.1 /\ 0 <= e.1.2) es ->
  0 <= maxVertexId es.
Proof.
  intros Hne H. destruct es as [|[[i j] w] es]; [congruence|].
  inversion H; subst. unfold maxVertexId. simpl in *. lia.
Qed.

Lemma calculateVertexCount_max (es : list Edge) :
  es <> [] -> Forall (fun e : Edge => 0 <= e.1.1 /\ 0 <= e.1.2) es ->
  calculateVertexCount es = 1 + maxVertexId es.
Proof.
  intros Hne H. unfold calculateVertexCount.
  rewrite calculateVertexCount_fold by lia.
  pose proof (maxVertexId_nonneg es Hne H). lia.
Qed.

Section Conversion.

Context (g : Graph).
Hypothesis g_range :
  forall p w, nthZ (endpoint g) p = Some w -> 0 <= w < nVertex g.

Lemma opp_nonneg x : 0 <= getOppositeEndpoint x <-> 0 <= x.
Proof. unfold getOppositeEndpoint. rewrite Z.lxor_nonneg. lia. Qed.




End Conversion.

Lemma toEdge_nonneg e :
  validEdge e -> 0 <= (toEdge e).1.1 /\ 0 <= (toEdge e).1.2.
Proof.
  intros (v1 & v2 & w & -> & H1 & H2 & _).
  destruct H1 as (q1 & z1 & -> & E1 & P1).
  destruct H2 as (q2 & z2 & -> & E2 & P2).
  simpl. apply Qred_complete in E1, E2.
  rewrite E1, E2, !Qred_inject_Z. simpl. lia.
Qed.


Lemma runEdmonds_Returned fuel es mc M st :
  runEdmonds fuel es mc = Returned (M, st) ->
  run (maxWeightMatching (initializeGraphProperties es mc) fuel)
      (initialState (initializeGraphProperties es mc)) = Ret M st.
Proof.
  unfold runEdmonds.
  destruct (constructorAllocates _ _); [|discriminate].
  destruct (run _ _) as [m s|h]; [|discriminate].
  intros [= -> ->]. reflexivity.
Qed.







(** ** The choice of delta *)

Lemma consider_none d c :
  deltaType d = DELTA_TYPE_NONE -> properType c -> cValue c <> NaN ->
  earliestMinimum [c] (consider d c).
Proof.
  intros Hd Hc Hn. unfold consider. rewrite Hd. simpl.
  exists 0%nat, c. split; [reflexivity|]. simpl.
  split; [reflexivity|]. split; [reflexivity|]. split; [|split; [|split]].
  - intros [E|E]; rewrite E; reflexivity.
  - intros E; rewrite E; reflexivity.
  - intros [|j] c' H; [|destruct j; discriminate].
    injection H as <-. apply jsLe_refl. exact Hn.
  - intros j c' Hj. lia.
Qed.

Lemma consider_next cs d c :
  properType c -> Forall properType cs -> cValue c <> NaN ->
  earliestMinimum cs d ->
  earliestMinimum (cs ++ [c]) (consider d c).
Proof.
  intros Hc Hcs Hn (i & ci & Hi & Ht & Hv & He & Hb & Hmin & Hfirst).
  assert (Hnone : (deltaType d =? DELTA_TYPE_NONE) = false).
  { apply Z.eqb_neq. rewrite Ht.
    rewrite Forall_forall in Hcs. apply list_elem_of_lookup_2 in Hi.
    destruct (Hcs _ Hi) as [E|[E|[E|E]]]; rewrite E; discriminate. }
  unfold consider. rewrite Hnone. simpl.
  destruct (jsLt (cValue c) (delta d)) eqn:Hlt.
  - rewrite Hv in Hlt.
    exists (length cs), c.
    split; [rewrite lookup_app_r, Nat.sub_diag by lia; reflexivity|].
    simpl. split; [reflexivity|]. split; [reflexivity|].
    split; [|split; [|split]].
    + intros [E|E]; rewrite E; reflexivity.
    + intros E; rewrite E; reflexivity.
    + intros j c' Hj. apply lookup_app_Some in Hj.
      destruct Hj as [Hj|[Hlen Hj]].
      * apply jsLt_jsLe. eapply jsLt_jsLe_trans; [exact Hlt|]. eauto.
      * destruct (j - length cs)%nat; [|destruct n; discriminate].
        injection Hj as <-. apply jsLe_refl. exact Hn.
    + intros j c' Hlen Hj. rewrite lookup_app_l in Hj by exact Hlen.
      eapply jsLt_jsLe_trans; [exact Hlt|]. eauto.
  - assert (Hge : jsLe (cValue ci) (cValue c) = true).
    { apply jsLt_false_jsLe; [exact Hn| |rewrite <- Hv; exact Hlt].
      exact (jsLe_not_NaN_l _ _ (Hmin _ _ Hi)). }
    exists i, ci.
    split; [apply lookup_app_l_Some; exact Hi|].
    split; [exact Ht|]. split; [exact Hv|]. split; [exact He|].
    split; [exact Hb|]. split.
    + intros j c' Hj. apply lookup_app_Some in Hj.
      destruct Hj as [Hj|[Hlen Hj]]; [eauto|].
      destruct (j - length cs)%nat; [|destruct n; discriminate].
      injection Hj as <-. exact Hge.
    + intros j c' Hji Hj. apply lookup_lt_Some in Hi.
      rewrite lookup_app_l in Hj by lia. eauto.
Qed.

Lemma fold_consider cs d0 :
  deltaType d0 = DELTA_TYPE_NONE -> Forall properType cs ->
  match cs with
  | [] => fold_left consider cs d0 = d0
  | _ => comparable cs -> earliestMinimum cs (fold_left consider cs d0)
  end.
Proof.
  intros Hd. induction cs as [|c cs IH] using rev_ind; intros Hcs.
  - reflexivity.
  - apply Forall_app in Hcs. destruct Hcs as [Hcs Hc].
    inversion Hc; subst. rewrite fold_left_app. simpl.
    specialize (IH Hcs).
    assert (G : comparable (cs ++ [c]) ->
                earliestMinimum (cs ++ [c]) (consider (fold_left consider cs d0) c)).
    { intros Hn. apply Forall_app in Hn. destruct Hn as [Hn Hnc].
      inversion Hnc; subst.
      destruct cs as [|c0 cs].
      - simpl. apply consider_none; assumption.
      - apply (consider_next (c0 :: cs)); try assumption. apply IH. exact Hn. }
    destruct cs; exact G.
Qed.

(** The type of the delta chosen among candidates is never "none". *)
Lemma fold_consider_type cs d :
  Forall properType cs -> cs <> [] ->
  (deltaType (fold_left consider cs d) =? DELTA_TYPE_NONE) = false.
Proof.
  intros Hcs Hne.
  assert (G : forall cs d, Forall properType cs ->
              (deltaType d =? DELTA_TYPE_NONE) = false ->
              (deltaType (fold_left consider cs d) =? DELTA_TYPE_NONE) = false).
  { clear. induction cs as [|c cs IH]; intros d Hcs Hd; [exact Hd|].
    inversion Hcs; subst. simpl. apply IH; [assumption|].
    unfold consider. rewrite Hd. simpl.
    destruct (jsLt _ _); [|exact Hd]. simpl.
    apply Z.eqb_neq. destruct H1 as [E|[E|[E|E]]]; rewrite E; discriminate. }
  destruct cs as [|c cs]; [congruence|]. inversion Hcs; subst. simpl.
  apply G; [assumption|].
  unfold consider.
  destruct (deltaType d =? DELTA_TYPE_NONE) eqn:Hd; simpl.
  - apply Z.eqb_neq. destruct H1 as [E|[E|[E|E]]]; rewrite E; discriminate.
  - destruct (jsLt _ _); [|exact Hd]. simpl.
    apply Z.eqb_neq. destruct H1 as [E|[E|[E|E]]]; rewrite E; discriminate.
Qed.

Section StepLemmas.

Variable g : Graph.
Variable s : State.

Lemma deltaEdgeSlackStep_consider d v :
  deltaEdgeSlackStep g s d v =
  (cs ← edgeSlackCandidates g s v; Some (fold_left consider cs d)).
Proof.
  unfold deltaEdgeSlackStep, edgeSlackCandidates.
  destruct (topLabel s v) as [l|]; [|reflexivity]. cbn [mbind option_bind].
  destruct (l =? UNLABELED); [|reflexivity]. cbn [negb].
  destruct (nthZ (bestEdge s) v) as [be|]; [|reflexivity].
  cbn [mbind option_bind].
  destruct (be =? UNMATCHED); [reflexivity|].
  destruct (slackOf g s be) as [sl|]; [|reflexivity].
  cbn [mbind option_bind fold_left]. unfold consider. cbn [cType cValue cEdge].
  destruct (_ || _); reflexivity.
Qed.

Lemma deltaBlossomSlackStep_consider d b :
  deltaBlossomSlackStep g s d b =
  (cs ← blossomSlackCandidates g s b; Some (fold_left consider cs d)).
Proof.
  unfold deltaBlossomSlackStep, blossomSlackCandidates.
  destruct (nthZ (blossomParent s) b) as [par|]; [|reflexivity].
  cbn [mbind option_bind].
  destruct (par =? UNMATCHED); [|reflexivity]. cbn [negb].
  destruct (nthZ (label s) b) as [l|]; [|reflexivity].
  cbn [mbind option_bind].
  destruct (l =? VERTEX_LABEL_S); [|reflexivity]. cbn [negb].
  destruct (nthZ (bestEdge s) b) as [be|]; [|reflexivity].
  cbn [mbind option_bind].
  destruct (be =? UNMATCHED); [reflexivity|].
  destruct (slackOf g s be) as [sl|]; [|reflexivity].
  cbn [mbind option_bind fold_left]. unfold consider. cbn [cType cValue cEdge].
  destruct (_ || _); reflexivity.
Qed.

Lemma deltaBlossomExpandStep_consider d b :
  deltaBlossomExpandStep s d b =
  (cs ← blossomExpandCandidates s b; Some (fold_left consider cs d)).
Proof.
  unfold deltaBlossomExpandStep, blossomExpandCandidates.
  destruct (nthZ (blossomBase s) b) as [base|]; [|reflexivity].
  cbn [mbind option_bind].
  destruct (base >=? 0); [|reflexivity]. cbn [negb].
  destruct (nthZ (blossomParent s) b) as [par|]; [|reflexivity].
  cbn [mbind option_bind].
  destruct (par =? UNMATCHED); [|reflexivity]. cbn [negb].
  destruct (nthZ (label s) b) as [l|]; [|reflexivity].
  cbn [mbind option_bind].
  destruct (l =? VERTEX_LABEL_T); [|reflexivity]. cbn [negb].
  destruct (nthZ (dualVar s) b) as [dv|];
    [|destruct (deltaType d =? DELTA_TYPE_NONE); reflexivity].
  cbn [mbind option_bind fold_left]. unfold consider.
  cbn [cType cValue cEdge cBlossom].
  destruct (deltaType d =? DELTA_TYPE_NONE); cbn [orb]; [reflexivity|].
  destruct (jsLt dv (delta d)); reflexivity.
Qed.

Lemma foldOpt_collect (l : list Z) d step cand :
  (forall d v, step d v = (cs ← cand v; Some (fold_left consider cs d))) ->
  foldOpt l d step = (cs ← collect l cand; Some (fold_left consider cs d)).
Proof.
  intros H. revert d. induction l as [|x l IH]; intros d; [reflexivity|].
  cbn [foldOpt collect]. rewrite H.
  destruct (cand x) as [c|]; [|reflexivity]. cbn [mbind option_bind].
  rewrite IH. destruct (collect l cand) as [cs|]; [|reflexivity].
  cbn [mbind option_bind]. rewrite fold_left_app. reflexivity.
Qed.

Lemma collect_proper (l : list Z) cand cs :
  (forall v c, cand v = Some c -> Forall properType c) ->
  collect l cand = Some cs -> Forall properType cs.
Proof.
  intros H. revert cs. induction l as [|x l IH]; intros cs.
  - intros [= <-]. constructor.
  - cbn [collect]. destruct (cand x) as [c|] eqn:E; [|discriminate].
    cbn [mbind option_bind].
    destruct (collect l cand) as [cs'|]; [|discriminate].
    intros [= <-]. apply Forall_app. split; [eapply H; eauto|apply IH; auto].
Qed.

End StepLemmas.

Lemma mathMin_cases a b :
  a <> NaN -> b <> NaN ->
  (mathMin a b = a \/ mathMin a b = b) /\
  jsLe (mathMin a b) a = true /\ jsLe (mathMin a b) b = true.
Proof.
  intros Ha Hb. unfold mathMin.
  destruct a as [|sa|qa]; [congruence| |];
    (destruct b as [|sb|qb]; [congruence| |]).
  all: match goal with |- context [jsLt ?x ?y] => destruct (jsLt x y) eqn:E end.
  all: split; [auto|].
  all: split; try (apply jsLe_refl; discriminate).
  all: try (apply jsLt_jsLe; exact E).
  all: apply jsLt_false_jsLe; [discriminate|discriminate|exact E].
Qed.

Lemma fold_mathMin_spec (rest : list number) (x : number) :
  x <> NaN -> Forall (fun y => y <> NaN) rest ->
  let m := fold_left mathMin rest x in
  m ∈ x :: rest /\ Forall (fun y => jsLe m y = true) (x :: rest).
Proof.
  revert x. induction rest as [|y rest IH]; intros x Hx Hr; simpl.
  - split; [left|]. constructor; [apply jsLe_refl; exact Hx|constructor].
  - inversion Hr as [|? ? Hy Hr']; subst.
    destruct (mathMin_cases x y Hx Hy) as (Hc & Hl & Hrr).
    assert (Hm : mathMin x y <> NaN) by (destruct Hc as [E|E]; rewrite E; assumption).
    destruct (IH (mathMin x y) Hm Hr') as [Hin Hle]. cbv zeta in Hin, Hle.
    inversion Hle as [|? ? Hm' Hle']; subst. split.
    + apply elem_of_cons in Hin. destruct Hin as [Hin|Hin].
      * rewrite Hin. destruct Hc as [E|E]; rewrite E; [left|right; left].
      * right. right. exact Hin.
    + constructor; [eapply jsLe_trans; [exact Hm'|exact Hl]|].
      constructor; [eapply jsLe_trans; [exact Hm'|exact Hrr]|].
      exact Hle'.
Qed.

Lemma mathMin_Inf_l x : mathMin (Inf false) x = x.
Proof. destruct x as [|[]|q]; reflexivity. Qed.

(** [getMin(dualVar, 0, nVertex - 1)] is the least dual variable of the
    original vertices, when there is a vertex and no dual variable is NaN. *)
Lemma getMin_spec (arr : list number) (n : Z) :
  let vs := take (Z.to_nat n) arr in
  vs <> [] -> Forall (fun y => y <> NaN) vs ->
  getMin arr 0 (n - 1) ∈ vs /\
  Forall (fun y => jsLe (getMin arr 0 (n - 1)) y = true) vs.
Proof.
  intros vs Hne Hn. unfold getMin. replace (n - 1 + 1 - 0) with n by lia.
  change (Z.to_nat 0) with 0%nat. rewrite drop_0. fold vs.
  destruct vs as [|x rest]; [congruence|]. cbn [fold_left].
  rewrite mathMin_Inf_l.
  inversion Hn; subst. apply fold_mathMin_spec; assumption.
Qed.

(** C7.  At a dual adjustment none of whose bounds is NaN, the delta
    chosen is the earliest candidate of least value among the type 1 to
    type 4 bounds taken in scan order; with no candidate at all it is
    [max(0, minimum vertex dual)] with type 1. *)
Theorem delta_is_earliest_minimum (g : Graph) (s : State) (d : DeltaChoice) :
  computeDelta g s = Some d ->
  (exists cs, deltaCandidates g s = Some cs /\
     match cs with
     | [] => deltaType d = DELTA_TYPE_DUAL_DECREASE /\
             delta d = mathMax (Fin zeroQ)
                         (getMin (dualVar s) 0 (nVertex g - 1))
     | _ => comparable cs -> earliestMinimum cs d
     end) /\
  (let vs := take (Z.to_nat (nVertex g)) (dualVar s) in
   vs <> [] -> Forall (fun y => y <> NaN) vs ->
   getMin (dualVar s) 0 (nVertex g - 1) ∈ vs /\
   Forall (fun y => jsLe (getMin (dualVar s) 0 (nVertex g - 1)) y = true) vs).
Proof.
  intros Hd. split; [|apply getMin_spec]. revert Hd.
  unfold computeDelta, deltaCandidates. cbv zeta.
  set (d0 := mkDelta DELTA_TYPE_NONE (Fin zeroQ) UNMATCHED UNMATCHED).
  assert (E1 : exists c1, dualDecreaseCandidates g s = Some c1 /\
             Forall properType c1 /\
             (if negb (maxCardinality g)
              then mkDelta DELTA_TYPE_DUAL_DECREASE
                     (getMin (dualVar s) 0 (nVertex g - 1)) UNMATCHED UNMATCHED
              else d0) = fold_left consider c1 d0).
  { unfold dualDecreaseCandidates. destruct (maxCardinality g); cbn [negb].
    - exists []. repeat split. constructor.
    - eexists. split; [reflexivity|]. split; [|reflexivity].
      repeat constructor. }
  destruct E1 as (c1 & E1 & P1 & ->). rewrite E1. cbn [mbind option_bind].
  rewrite (foldOpt_collect _ _ _ (edgeSlackCandidates g s))
    by apply deltaEdgeSlackStep_consider.
  destruct (collect _ (edgeSlackCandidates g s)) as [c2|] eqn:E2;
    [|discriminate].
  cbn [mbind option_bind].
  rewrite (foldOpt_collect _ _ _ (blossomSlackCandidates g s))
    by apply deltaBlossomSlackStep_consider.
  destruct (collect _ (blossomSlackCandidates g s)) as [c3|] eqn:E3;
    [|discriminate].
  cbn [mbind option_bind].
  rewrite (foldOpt_collect _ _ _ (blossomExpandCandidates s))
    by apply deltaBlossomExpandStep_consider.
  destruct (collect _ (blossomExpandCandidates s)) as [c4|] eqn:E4;
    [|discriminate].
  cbn [mbind option_bind].
  rewrite <- !fold_left_app, <- ?app_assoc.
  set (cs := c1 ++ c2 ++ c3 ++ c4).
  assert (Hcs : Forall properType cs).
  { unfold cs. rewrite !Forall_app. repeat split.
    - exact P1.
    - eapply collect_proper; [|exact E2]. intros v c. unfold edgeSlackCandidates.
      destruct (topLabel s v); [|discriminate]. cbn [mbind option_bind].
      destruct (_ =? _); [|intros [= <-]; constructor].
      destruct (nthZ (bestEdge s) v) as [be|]; [|discriminate].
      cbn [mbind option_bind].
      destruct (be =? _); [intros [= <-]; constructor|].
      destruct (slackOf g s be); [|discriminate]. intros [= <-].
      constructor; [|constructor]. right. left. reflexivity.
    - eapply collect_proper; [|exact E3]. intros v c.
      unfold blossomSlackCandidates.
      destruct (nthZ (blossomParent s) v); [|discriminate].
      cbn [mbind option_bind].
      destruct (_ =? _); [|intros [= <-]; constructor].
      destruct (nthZ (label s) v); [|discriminate]. cbn [mbind option_bind].
      destruct (_ =? _); [|intros [= <-]; constructor].
      destruct (nthZ (bestEdge s) v) as [be|]; [|discriminate].
      cbn [mbind option_bind].
      destruct (be =? _); [intros [= <-]; constructor|].
      destruct (slackOf g s be); [|discriminate]. intros [= <-].
      constructor; [|constructor]. right. right. left. reflexivity.
    - eapply collect_proper; [|exact E4]. intros v c.
      unfold blossomExpandCandidates.
      destruct (nthZ (blossomBase s) v); [|discriminate].
      cbn [mbind option_bind].
      destruct (_ >=? _); [|intros [= <-]; constructor].
      destruct (nthZ (blossomParent s) v); [|discriminate].
      cbn [mbind option_bind].
      destruct (_ =? _); [|intros [= <-]; constructor].
      destruct (nthZ (label s) v); [|discriminate]. cbn [mbind option_bind].
      destruct (_ =? _); [|intros [= <-]; constructor].
      destruct (nthZ (dualVar s) v); [|discriminate]. intros [= <-].
      constructor; [|constructor]. right. right. right. reflexivity. }
  pose proof (fold_consider cs d0 eq_refl Hcs) as Hfold.
  intros H. exists cs. split; [reflexivity|].
  destruct cs as [|c cs'].
  - rewrite Hfold in H. change (deltaType d0 =? DELTA_TYPE_NONE) with true in H.
    cbv iota in H. injection H as <-. split; reflexivity.
  - rewrite (fold_consider_type (c :: cs') d0 Hcs) in H by discriminate.
    injection H as <-. exact Hfold.
Qed.

Lemma delta_is_earliest_minimum_witness :
  let es : list Edge :=
    [(0, 1, 2%Q); (1, 2, 3%Q); (2, 3, 3%Q); (0, 3, 1 # 2)] in
  let g := initializeGraphProperties es true in
  let p := let* _ := stage g 20 0 in
           let* _ := stageReset g in
           let* _ := initRoots g 20 in
           searchLoop g 20 in
  exists a s cs,
    run p (initialState g) = Ret a s /\
    computeDelta g s = Some (mkDelta 3 (Fin 1) 0 (-1)) /\
    deltaCandidates g s = Some cs /\
    comparable cs /\
    earliestMinimum cs (mkDelta 3 (Fin 1) 0 (-1)).
Proof.
  intros es g p.
  destruct (run p (initialState g)) as [a s|h] eqn:E;
    [|vm_compute in E; discriminate].
  assert (D : computeDelta g s = Some (mkDelta 3 (Fin 1) 0 (-1))).
  { vm_compute in E. injection E as _ <-. vm_compute. reflexivity. }
  destruct (delta_is_earliest_minimum g s _ D) as [(cs & Hcs & H) _].
  assert (C : comparable cs).
  { vm_compute in E. injection E as _ <-. vm_compute in Hcs.
    injection Hcs as <-. repeat constructor; discriminate. }
  exists a, s, cs. split; [reflexivity|]. split; [exact D|].
  split; [exact Hcs|]. split; [exact C|].
  destruct cs as [|c cs]; [|exact (H C)].
  exfalso. vm_compute in E. injection E as _ <-. vm_compute in Hcs.
  discriminate Hcs.
Defined.

(** With the weight 1e308 the dual variables are 1e308, the slack of that
    edge is [Infinity - Infinity], and in maximum-cardinality mode the
    first bound of the first dual adjustment is NaN: it is taken, no later
    bound replaces it, and delta is NaN, which is not the least bound. *)
Lemma delta_nan_counterexample :
  let es := [jsEdgeQ (0, 1, 1e308%Q); jsEdgeQ (2, 3, 1%Q)] in
  let g := initializeGraphProperties (map toEdge es) true in
  let p := let* _ := stageReset g in
           let* _ := initRoots g 20 in
           searchLoop g 20 in
  validateEdges es = None /\
  exists a s cs d,
    run p (initialState g) = Ret a s /\
    deltaCandidates g s = Some cs /\
    map cValue cs = [NaN; NaN; Inf false; Inf false] /\
    computeDelta g s = Some d /\
    delta d = NaN /\
    ~ earliestMinimum cs d.
Proof.
  intros es g p. split; [reflexivity|].
  assert (H : match run p (initialState g) with
              | Ret _ s => (map cValue <$> deltaCandidates g s,
                            delta <$> computeDelta g s)
              | Err _ => (None, None)
              end = (Some [NaN; NaN; Inf false; Inf false], Some NaN))
    by (vm_compute; reflexivity).
  destruct (run p (initialState g)) as [a s|h] eqn:E; [|discriminate H].
  destruct (deltaCandidates g s) as [cs|] eqn:C; [|discriminate H].
  destruct (computeDelta g s) as [d|] eqn:D; [|discriminate H].
  cbn [fmap option_fmap option_map] in H.
  assert (Hc : map cValue cs = [NaN; NaN; Inf false; Inf false]) by congruence.
  assert (Hd : delta d = NaN) by congruence.
  exists a, s, cs, d. do 5 (split; [reflexivity || assumption|]).
  intros (i & c & Hi & _ & Hv & _ & _ & Hmin & _).
  specialize (Hmin i c Hi). rewrite <- Hv, Hd in Hmin. discriminate Hmin.
Qed.

(** ** The results the repository's tests expect *)

Example test_empty : blossom 0 (JArray []) None = Returned [].
Proof. reflexivity. Qed.

Example test_single_edge :
  blossom 50 (jsEdges [(0, 1, 1)]) None = Returned [1; 0].
Proof. vm_compute. reflexivity. Qed.

Example test_two_edges :
  blossom 50 (jsEdges [(1, 2, 10); (2, 3, 11)]) None = Returned [-1; -1; 3; 2].
Proof. vm_compute. reflexivity. Qed.

Example test_maximum_cardinality :
  blossom 50 (jsEdges [(1, 2, 5); (2, 3, 11); (3, 4, 5)]) (Some true)
  = Returned [-1; 2; 1; 4; 3].
Proof. vm_compute. reflexivity. Qed.

Example test_negative_weights :
  blossom 50 (jsEdges [(1, 2, 2); (1, 3, -2); (2, 3, 1); (2, 4, -1); (3, 4, -6)])
          None
  = Returned [-1; 2; 1; -1; -1].
Proof. vm_compute. reflexivity. Qed.

Example test_negative_weights_cardinality :
  blossom 50 (jsEdges [(1, 2, 2); (1, 3, -2); (2, 3, 1); (2, 4, -1); (3, 4, -6)])
          (Some true)
  = Returned [-1; 3; 4; 1; 2].
Proof. vm_compute. reflexivity. Qed.

Example test_nested_s_blossom :
  blossom 50 (jsEdges [(1, 2, 9); (1, 3, 9); (2, 3, 10); (2, 4, 8); (3, 5, 8);
                       (4, 5, 10); (5, 6, 6)]) None
  = Returned [-1; 3; 4; 1; 2; 6; 5].
Proof. vm_compute. reflexivity. Qed.

Example test_t_blossom_expand :
  blossom 50 (jsEdges [(1, 2, 23); (1, 5, 22); (1, 6, 15); (2, 3, 25);
                       (3, 4, 22); (4, 5, 25); (4, 8, 14); (5, 7, 13)]) None
  = Returned [-1; 6; 3; 2; 8; 7; 1; 5; 4].
Proof. vm_compute. reflexivity. Qed.

Example test_nested_t_blossom_expand :
  blossom 50 (jsEdges [(1, 2, 19); (1, 3, 20); (1, 8, 8); (2, 3, 25);
                       (2, 4, 18); (3, 5, 18); (4, 5, 13); (4, 7, 7);
                       (5, 6, 7)]) None
  = Returned [-1; 8; 3; 2; 7; 6; 5; 4; 1].
Proof. vm_compute. reflexivity. Qed.

Example test_relabel_t_more_than_one_way :
  blossom 50 (jsEdges [(1, 2, 45); (1, 5, 45); (2, 3, 50); (3, 4, 45);
                       (4, 5, 50); (1, 6, 30); (3, 9, 35); (4, 8, 35);
                       (5, 7, 26); (9, 10, 5)]) None
  = Returned [-1; 6; 3; 2; 8; 7; 1; 5; 4; 10; 9].
Proof. vm_compute. reflexivity. Qed.

Example test_nested_blossom_on_augmenting_path :
  blossom 50 (jsEdges [(1, 2, 45); (1, 7, 45); (2, 3, 50); (3, 4, 45);
                       (4, 5, 95); (4, 6, 94); (5, 6, 94); (6, 7, 50);
                       (1, 8, 30); (3, 11, 35); (5, 9, 36); (7, 10, 26);
                       (11, 12, 5)]) None
  = Returned [-1; 8; 3; 2; 6; 9; 4; 10; 1; 5; 7; 12; 11].
Proof. vm_compute. reflexivity. Qed.

Example test_expand_recursively :
  blossom 50 (jsEdges [(1, 2, 40); (1, 3, 40); (2, 3, 60); (2, 4, 55);
                       (3, 5, 55); (4, 5, 50); (1, 8, 15); (5, 7, 30);
                       (7, 6, 10); (8, 10, 10); (4, 9, 30)]) None
  = Returned [-1; 2; 1; 5; 9; 3; 7; 6; 10; 4; 8].
Proof. vm_compute. reflexivity. Qed.

Example test_zero_index_triangle :
  blossom 50 (jsEdges [(0, 1, 6); (0, 2, 10); (1, 2, 5)]) None
  = Returned [2; -1; 0].
Proof. vm_compute. reflexivity. Qed.

(** [Math.PI], [Math.exp(1)] and [Math.sqrt(2.0)] by their shortest
    decimal literals. *)
Example test_floating_point_weights :
  blossom 50
    (JArray (map jsEdgeQ
       [(1, 2, 3.141592653589793%Q); (2, 3, 2.718281828459045%Q);
        (1, 3, 3.0%Q); (1, 4, 1.4142135623730951%Q)])) None
  = Returned [-1; 4; 3; 2; 1].
Proof. vm_compute. reflexivity. Qed.

Example test_nbLists_with_floats :
  blossom 50
    (JArray (map jsEdgeQ
       [(1, 2, 47.2612%Q); (1, 3, 46.9176%Q); (2, 3, 49.3305%Q);
        (1, 4, 44.7978%Q); (2, 4, 49.1123%Q); (2, 5, 51.1539%Q);
        (4, 5, 50.5430%Q); (2, 6, 48.2873%Q); (3, 6, 47.7470%Q);
        (4, 6, 46.8674%Q); (5, 6, 48.8397%Q)])) None
  = Returned [-1; 3; 6; 1; 5; 4; 2].
Proof. vm_compute. reflexivity. Qed.

(** Rounding is visible in the result: with the weights 1e16 and 1 the
    second edge has slack [2e16 - 2], which rounds to [2e16], so that the
    first dual adjustment ends the search and the edge stays unmatched. *)
Example test_rounded_slack :
  blossom 50 (JArray (map jsEdgeQ [(0, 1, 1e16%Q); (2, 3, 1%Q)])) None
  = Returned [1; 0; -1; -1].
Proof. vm_compute. reflexivity. Qed.

(** * Further properties *)

(** ** The neighbour lists *)

Lemma pushAt_length nb i x : length (pushAt nb i x) = length nb.
Proof.
  unfold pushAt. destruct (nthZ nb i); [apply length_insert|reflexivity].
Qed.

Lemma pushAt_lookup nb i x (v : nat) :
  0 <= i < Z.of_nat (length nb) ->
  pushAt nb i x !! v =
  (fun l => if decide (Z.of_nat v = i) then l ++ [x] else l) <$> nb !! v.
Proof.
  intros Hi. unfold pushAt.
  destruct (nthZ nb i) as [l|] eqn:E.
  - apply nthZ_Some in E. destruct E as [_ E].
    destruct (decide (Z.of_nat v = i)) as [<-|Hne].
    + rewrite Nat2Z.id in *. rewrite list_lookup_insert_eq by (apply lookup_lt_Some in E; lia).
      rewrite E. reflexivity.
    + rewrite list_lookup_insert_ne by lia.
      destruct (nb !! v); reflexivity.
  - exfalso. unfold nthZ in E. destruct (Z.ltb_spec i 0); [lia|].
    apply lookup_ge_None in E. lia.
Qed.

Lemma incidentEndpoint_bound pre v p :
  incidentEndpoint pre v p -> 0 <= p < 2 * Z.of_nat (length pre).
Proof.
  intros (q & i & j & w & Hq & H). apply lookup_lt_Some in Hq.
  unfold Edge in *. destruct H as [[_ ->]|[_ ->]]; lia.
Qed.

Lemma incidentEndpoint_snoc pre i j w v p :
  incidentEndpoint (pre ++ [(i, j, w)]) v p <->
  incidentEndpoint pre v p \/
  (i = v /\ p = 2 * Z.of_nat (length pre) + 1) \/
  (j = v /\ p = 2 * Z.of_nat (length pre)).
Proof.
  split.
  - intros (q & i' & j' & w' & Hq & H).
    apply lookup_app_Some in Hq. destruct Hq as [Hq|[Hge Hq]].
    + left. exists q, i', j', w'. auto.
    + right. destruct (q - length pre)%nat as [|n] eqn:En; [|destruct n; discriminate].
      injection Hq as <- <- <-.
      replace q with (length pre) in H by lia. exact H.
  - intros [(q & i' & j' & w' & Hq & H)|H].
    + exists q, i', j', w'. split; [|exact H].
      apply lookup_app_l_Some. exact Hq.
    + exists (length pre), i, j, w. split; [|exact H].
      rewrite lookup_app_r by lia. rewrite Nat.sub_diag. reflexivity.
Qed.

Lemma neighbendUpTo_step pre nb i j w :
  0 <= i < Z.of_nat (length nb) -> 0 <= j < Z.of_nat (length nb) ->
  neighbendUpTo pre nb ->
  let k := Z.of_nat (length pre) in
  neighbendUpTo (pre ++ [(i, j, w)])
    (pushAt (pushAt nb i (EDGE_ENDPOINT_COUNT * k + 1)) j (EDGE_ENDPOINT_COUNT * k)).
Proof.
  intros Hi Hj Hinv k v l2 Hl2. unfold EDGE_ENDPOINT_COUNT in Hl2.
  rewrite pushAt_lookup in Hl2 by (rewrite pushAt_length; exact Hj).
  rewrite pushAt_lookup in Hl2 by exact Hi.
  destruct (nb !! v) as [l|] eqn:El; [|discriminate].
  destruct (Hinv v l El) as [Hnd Hmem].
  assert (Hfresh : forall p, p ∈ l -> p < 2 * k).
  { intros p Hp. apply Hmem in Hp. apply incidentEndpoint_bound in Hp. lia. }
  simpl in Hl2. injection Hl2 as <-.
  split.
  - destruct (decide (Z.of_nat v = i)), (decide (Z.of_nat v = j));
      rewrite ?NoDup_app, ?NoDup_singleton; repeat split; auto;
      try (intros x Hx Hx'; apply list_elem_of_singleton in Hx'; subst x);
      try (apply elem_of_app in Hx; destruct Hx as [Hx|Hx];
           [|apply list_elem_of_singleton in Hx; lia]);
      try (apply Hfresh in Hx; lia);
      apply NoDup_singleton.
  - intros p. rewrite incidentEndpoint_snoc. fold k.
    destruct (decide (Z.of_nat v = i)) as [e1|e1],
             (decide (Z.of_nat v = j)) as [e2|e2];
      rewrite ?elem_of_app, ?list_elem_of_singleton, Hmem;
      unfold k; clear -e1 e2; generalize (incidentEndpoint pre (Z.of_nat v) p);
      intros P; intuition congruence.
Qed.

Lemma buildNeighbendFrom_spec es pre nb :
  Forall (fun e : Edge => 0 <= e.1.1 < Z.of_nat (length nb) /\
                          0 <= e.1.2 < Z.of_nat (length nb)) es ->
  neighbendUpTo pre nb ->
  let nb' := buildNeighbendFrom es (Z.of_nat (length pre)) nb in
  length nb' = length nb /\ neighbendUpTo (pre ++ es) nb'.
Proof.
  revert pre nb. induction es as [|[[i j] w] es IH]; intros pre nb Hr Hinv.
  - simpl. rewrite app_nil_r. auto.
  - inversion Hr as [|e es' [Hi Hj] Hr']; subst. simpl in Hi, Hj.
    cbn [buildNeighbendFrom].
    pose proof (neighbendUpTo_step pre nb i j w Hi Hj Hinv) as Hstep.
    cbv zeta in Hstep.
    set (nb2 := pushAt (pushAt nb i _) j _) in *.
    assert (Hlen2 : length nb2 = length nb) by (unfold nb2; rewrite !pushAt_length; reflexivity).
    specialize (IH (pre ++ [(i, j, w)]) nb2
                  ltac:(rewrite Hlen2; exact Hr') Hstep).
    cbv zeta in IH. rewrite length_app in IH. cbn [length] in IH.
    replace (Z.of_nat (length pre + 1)) with (Z.of_nat (length pre) + 1) in IH by lia.
    rewrite Hlen2, <- app_assoc in IH. exact IH.
Qed.

Lemma buildEndpoint_nthZ (es : list Edge) (p : Z) :
  nthZ (buildEndpoint es) p =
    match nthZ es (p / 2) with
    | Some (i, j, _) => Some (if p mod 2 =? 0 then i else j)
    | None => None
    end.
Proof.
  unfold nthZ.
  destruct (Z.ltb_spec p 0) as [Hneg|Hpos].
  { destruct (Z.ltb_spec (p / 2) 0) as [_|H]; [reflexivity|].
    exfalso. pose proof (Z.div_lt_upper_bound p 2 0 ltac:(lia) ltac:(lia)). lia. }
  destruct (Z.ltb_spec (p / 2) 0) as [H|_].
  { exfalso. pose proof (Z.div_pos p 2 Hpos ltac:(lia)). lia. }
  pose proof (Z.div_mod p 2 ltac:(lia)) as Hdm.
  pose proof (Z.mod_pos_bound p 2 ltac:(lia)) as Hb.
  destruct (es !! Z.to_nat (p / 2)) as [[[i j] w]|] eqn:E.
  - apply buildEndpoint_lookup in E. destruct E as [E0 E1].
    destruct (Z.eqb_spec (p mod 2) 0) as [Hm|Hm].
    + replace (Z.to_nat p) with (2 * Z.to_nat (p / 2))%nat by lia. exact E0.
    + replace (Z.to_nat p) with (2 * Z.to_nat (p / 2) + 1)%nat by lia. exact E1.
  - apply lookup_ge_None in E.
    apply lookup_ge_None.
    assert (length (buildEndpoint es) = (2 * length es)%nat) as ->; [|lia].
    clear. induction es as [|[[i j] w] es IH]; simpl; [reflexivity|].
    rewrite IH. lia.
Qed.

Lemma even_div2 q : (2 * q) / 2 = q.
Proof. symmetry. apply (Z.div_unique _ 2 q 0); lia. Qed.
Lemma even_mod2 q : (2 * q) mod 2 = 0.
Proof. symmetry. apply (Z.mod_unique _ 2 q 0); lia. Qed.
Lemma odd_div2 q : (2 * q + 1) / 2 = q.
Proof. symmetry. apply (Z.div_unique _ 2 q 1); lia. Qed.
Lemma odd_mod2 q : (2 * q + 1) mod 2 = 1.
Proof. symmetry. apply (Z.mod_unique _ 2 q 1); lia. Qed.

Lemma incidentEndpoint_endpoint es v p :
  incidentEndpoint es v p <->
  nthZ (buildEndpoint es) (getOppositeEndpoint p) = Some v.
Proof.
  rewrite buildEndpoint_nthZ. unfold incidentEndpoint, Edge in *. split.
  - intros (q & i & j & w & Hq & [[<- ->]|[<- ->]]).
    + rewrite opp_odd, even_div2, even_mod2.
      unfold nthZ. destruct (Z.ltb_spec (Z.of_nat q) 0); [lia|].
      rewrite Nat2Z.id, Hq. reflexivity.
    + rewrite opp_even, odd_div2, odd_mod2.
      unfold nthZ. destruct (Z.ltb_spec (Z.of_nat q) 0); [lia|].
      rewrite Nat2Z.id, Hq. reflexivity.
  - destruct (nthZ es (getOppositeEndpoint p / 2)) as [[[i j] w]|] eqn:E;
      [|discriminate].
    intros Hv. apply nthZ_Some in E. destruct E as [Hq E].
    set (o := getOppositeEndpoint p) in *.
    assert (Ho : 0 <= o).
    { destruct (Z.lt_ge_cases o 0) as [Hn|]; [|assumption].
      pose proof (Z.div_lt_upper_bound o 2 0 ltac:(lia) ltac:(lia)). lia. }
    pose proof (Z.div_mod o 2 ltac:(lia)) as Hdm.
    pose proof (Z.mod_pos_bound o 2 ltac:(lia)) as Hb.
    assert (Hp : p = getOppositeEndpoint o) by (unfold o; rewrite opp_involutive; reflexivity).
    exists (Z.to_nat (o / 2)), i, j, w. split; [exact E|].
    rewrite Z2Nat.id by lia.
    destruct (Z.eqb_spec (o mod 2) 0) as [Hm|Hm]; injection Hv as <-.
    + left. split; [reflexivity|]. rewrite Hp.
      replace o with (2 * (o / 2)) at 1 by lia. apply opp_even.
    + right. split; [reflexivity|]. rewrite Hp.
      replace o with (2 * (o / 2) + 1) at 1 by lia. apply opp_odd.
Qed.

Lemma calculateVertexCount_nonneg es : 0 <= calculateVertexCount es.
Proof. apply (fold_vertexCount_spec es 0). Qed.

Lemma neighbend_upTo (es : list Edge) (mc : bool) :
  Forall (fun e : Edge => 0 <= e.1.1 /\ 0 <= e.1.2) es ->
  let g := initializeGraphProperties es mc in
  Z.of_nat (length (neighbend g)) = nVertex g /\
  neighbendUpTo es (neighbend g).
Proof.
  intros Hpos g.
  cbn [g initializeGraphProperties neighbend nVertex endpoint].
  pose proof (calculateVertexCount_nonneg es) as Hn.
  assert (Hlen : Z.of_nat (length (initArrArr (calculateVertexCount es)))
                 = calculateVertexCount es).
  { unfold initArrArr. rewrite length_replicate. lia. }
  destruct (buildNeighbendFrom_spec es [] (initArrArr (calculateVertexCount es)))
    as [HL Hinv].
  - rewrite Hlen. destruct (fold_vertexCount_spec es 0) as [_ Hlt].
    rewrite Forall_forall in Hpos, Hlt. apply Forall_forall. intros e He.
    specialize (Hpos e He). specialize (Hlt e He).
    unfold calculateVertexCount. lia.
  - intros v l Hl. unfold initArrArr in Hl. apply lookup_replicate in Hl.
    destruct Hl as [-> _]. split; [constructor|].
    intros p. split; [intros H; inversion H|].
    intros (q & i & j & w & Hq & _). discriminate.
  - cbn [length app] in HL, Hinv. change (Z.of_nat 0) with 0 in HL, Hinv.
    unfold buildNeighbend. split; [rewrite HL; exact Hlen|exact Hinv].
Qed.

(** X3.  When no vertex id is negative, the constructor builds one
    neighbour list per vertex, and [neighbend[v]] holds, without
    repetition, exactly the endpoints [p] whose opposite endpoint is [v]
    ([endpoint[p ^ 1] = v]): the far ends of the edges at [v]. *)
Theorem neighbend_lists_incident_endpoints (es : list Edge) (mc : bool) :
  Forall (fun e : Edge => 0 <= e.1.1 /\ 0 <= e.1.2) es ->
  let g := initializeGraphProperties es mc in
  Z.of_nat (length (neighbend g)) = nVertex g /\
  forall v l, nthZ (neighbend g) v = Some l ->
    NoDup l /\
    forall p, p ∈ l <->
      nthZ (endpoint g) (getOppositeEndpoint p) = Some v.
Proof.
  intros Hpos g. destruct (neighbend_upTo es mc Hpos) as [Hlen Hinv].
  split; [exact Hlen|].
  intros v l Hl. apply nthZ_Some in Hl. destruct Hl as [Hv Hl].
  destruct (Hinv _ _ Hl) as [Hnd Hmem]. split; [exact Hnd|].
  intros p. rewrite Hmem, Z2Nat.id by lia. apply incidentEndpoint_endpoint.
Qed.

Lemma neighbend_lists_incident_endpoints_witness :
  let es : list Edge := [(0, 1, 5%Q); (1, 2, 3%Q); (1, 1, 2%Q)] in
  let g := initializeGraphProperties es false in
  Forall (fun e : Edge => 0 <= e.1.1 /\ 0 <= e.1.2) es /\
  nthZ (neighbend g) 1 = Some [0; 3; 5; 4] /\
  Z.of_nat (length (neighbend g)) = nVertex g /\
  forall v l, nthZ (neighbend g) v = Some l ->
    NoDup l /\
    forall p, p ∈ l <->
      nthZ (endpoint g) (getOppositeEndpoint p) = Some v.
Proof.
  intros es g.
  assert (H : Forall (fun e : Edge => 0 <= e.1.1 /\ 0 <= e.1.2) es).
  { repeat constructor; simpl; lia. }
  split; [exact H|]. split; [reflexivity|].
  exact (neighbend_lists_incident_endpoints es false H).
Defined.

(** ** Endpoints *)

(** X1.  For an endpoint id [p] with [0 <= p < 2^31] (where [p ^ 1] does
    not wrap), [getOppositeEndpoint] is an involution with a non-negative
    result, [p] and [p ^ 1] are endpoints of the same edge
    ([getEdgeFromEndpoint]), and they are the ids [2k] and [2k + 1] of that
    edge [k]: their sum is [4k + 1]. *)
Theorem opposite_endpoint_same_edge (p : Z) :
  0 <= p < 2 ^ 31 ->
  getOppositeEndpoint (getOppositeEndpoint p) = p /\
  0 <= getOppositeEndpoint p /\
  getEdgeFromEndpoint (getOppositeEndpoint p) = getEdgeFromEndpoint p /\
  p + getOppositeEndpoint p = 4 * getEdgeFromEndpoint p + 1.
Proof.
  intros Hp. change (2 ^ 31) with 2147483648 in Hp.
  split; [apply opp_involutive|].
  unfold getEdgeFromEndpoint, EDGE_ENDPOINT_COUNT.
  pose proof (Z.div_mod p 2 ltac:(lia)) as Hdm.
  pose proof (Z.mod_pos_bound p 2 ltac:(lia)) as Hb.
  assert (exists k, 0 <= k /\ (p = 2 * k \/ p = 2 * k + 1)) as (k & Hk & [->| ->]).
  { exists (p / 2). split; [apply Z.div_pos; lia|lia]. }
  - rewrite opp_even. split; [lia|].
    rewrite (Z.mul_comm 2 k), Z.div_add_l, Z.div_mul by lia.
    change (1 / 2) with 0. split; lia.
  - rewrite opp_odd. split; [lia|].
    rewrite (Z.mul_comm 2 k), Z.div_add_l, Z.div_mul by lia.
    change (1 / 2) with 0. split; lia.
Qed.

Lemma opposite_endpoint_same_edge_witness :
  0 <= 5 < 2 ^ 31 /\
  getOppositeEndpoint (getOppositeEndpoint 5) = 5 /\
  0 <= getOppositeEndpoint 5 /\
  getEdgeFromEndpoint (getOppositeEndpoint 5) = getEdgeFromEndpoint 5 /\
  5 + getOppositeEndpoint 5 = 4 * getEdgeFromEndpoint 5 + 1.
Proof.
  assert (H : 0 <= 5 < 2 ^ 31) by (split; [lia|reflexivity]).
  split; [exact H|]. exact (opposite_endpoint_same_edge 5 H).
Defined.

Lemma buildEndpoint_length (es : list Edge) :
  length (buildEndpoint es) = (2 * length es)%nat.
Proof.
  induction es as [|[[i j] w] es IH]; simpl; [reflexivity|].
  rewrite IH. lia.
Qed.

Lemma buildEndpoint_lookup_None (es : list Edge) (k : nat) :
  es !! k = None ->
  buildEndpoint es !! (2 * k)%nat = None /\
  buildEndpoint es !! (2 * k + 1)%nat = None.
Proof.
  intros H. apply lookup_ge_None in H.
  split; apply lookup_ge_None; rewrite buildEndpoint_length; lia.
Qed.

(** X2.  The constructor fills [endpoint] with two entries per edge:
    [endpoint[p]] is the first vertex of edge [floor(p / 2)] when [p] is
    even and its second vertex when [p] is odd, and there is no entry at
    any other index. *)
Theorem endpoint_lists_edge_ends (es : list Edge) (mc : bool) (p : Z) :
  let g := initializeGraphProperties es mc in
  Z.of_nat (length (endpoint g)) = EDGE_ENDPOINT_COUNT * nEdge g /\
  nthZ (endpoint g) p =
    match nthZ (edges g) (getEdgeFromEndpoint p) with
    | Some (i, j, _) => Some (if p mod EDGE_ENDPOINT_COUNT =? 0 then i else j)
    | None => None
    end.
Proof.
  intros g. cbn [g initializeGraphProperties endpoint nEdge edges].
  unfold getEdgeFromEndpoint, EDGE_ENDPOINT_COUNT. split.
  { rewrite buildEndpoint_length. lia. }
  unfold nthZ at 1 2.
  destruct (Z.ltb_spec p 0) as [Hneg|Hpos].
  { destruct (Z.ltb_spec (p / 2) 0) as [_|H]; [reflexivity|].
    exfalso. pose proof (Z.div_lt_upper_bound p 2 0 ltac:(lia) ltac:(lia)). lia. }
  destruct (Z.ltb_spec (p / 2) 0) as [H|_].
  { exfalso. pose proof (Z.div_pos p 2 Hpos ltac:(lia)). lia. }
  pose proof (Z.div_mod p 2 ltac:(lia)) as Hdm.
  pose proof (Z.mod_pos_bound p 2 ltac:(lia)) as Hb.
  destruct (es !! Z.to_nat (p / 2)) as [[[i j] w]|] eqn:E.
  - apply buildEndpoint_lookup in E. destruct E as [E0 E1].
    destruct (Z.eqb_spec (p mod 2) 0) as [Hm|Hm].
    + replace (Z.to_nat p) with (2 * Z.to_nat (p / 2))%nat by lia. exact E0.
    + replace (Z.to_nat p) with (2 * Z.to_nat (p / 2) + 1)%nat by lia. exact E1.
  - apply buildEndpoint_lookup_None in E. destruct E as [E0 E1].
    assert (p mod 2 = 0 \/ p mod 2 = 1) as [Hm|Hm] by lia.
    + replace (Z.to_nat p) with (2 * Z.to_nat (p / 2))%nat by lia. exact E0.
    + replace (Z.to_nat p) with (2 * Z.to_nat (p / 2) + 1)%nat by lia. exact E1.
Qed.

(** ** Validation, edge by edge *)

Lemma validateEdges_app_invalid pre e post err :
  validateEdges pre = None -> validateEdge e = Some err ->
  validateEdges (pre ++ e :: post) = Some err.
Proof.
  intros Hpre He. induction pre as [|x pre IH]; simpl in *.
  - rewrite He. reflexivity.
  - destruct (validateEdge x); [discriminate|]. apply IH. exact Hpre.
Qed.

(** X4.  [blossom] throws the error of the first invalid edge: when the
    edges before [e] are valid and the validation rejects [e] with [err],
    the call throws [err], whatever follows [e] in the list and whatever
    [maxCardinality] is. *)
Theorem blossom_reports_first_invalid_edge (fuel : nat)
    (pre post : list JsVal) (e : JsVal) (err : JsError)
    (maxCardinality : option bool) :
  Forall validEdge pre -> validateEdge e = Some err ->
  blossom fuel (JArray (pre ++ e :: post)) maxCardinality = Failed (Thrown err).
Proof.
  intros Hpre He. apply validateEdges_None in Hpre.
  pose proof (validateEdges_app_invalid pre e post err Hpre He) as Hv.
  destruct (pre ++ e :: post) as [|x rest] eqn:E.
  - destruct pre; discriminate.
  - rewrite blossom_nonempty, Hv. reflexivity.
Qed.

Lemma blossom_reports_first_invalid_edge_witness :
  let pre := [jsEdge (0, 1, 5)] in
  let e := JArray [JNum (inject_Z 1); JNum (-1)%Q; JString "x"] in
  let post := [JNull] in
  Forall validEdge pre /\ validateEdge e = Some (Error msgVertex) /\
  blossom 0 (JArray (pre ++ e :: post)) None = Failed (Thrown (Error msgVertex)).
Proof.
  intros pre e post.
  assert (H1 : Forall validEdge pre).
  { apply validateEdges_None. reflexivity. }
  assert (H2 : validateEdge e = Some (Error msgVertex)) by reflexivity.
  split; [exact H1|]. split; [exact H2|].
  exact (blossom_reports_first_invalid_edge 0 pre post e (Error msgVertex) None H1 H2).
Defined.

(** X5.  The order of the checks on one edge: the shape error is reported
    exactly for values that are not arrays of three elements; for an array
    of three elements the vertex error is reported exactly when one of the
    first two is not a non-negative integer, and the weight error exactly
    when both are and the third is not a finite number. *)
Theorem validateEdge_check_order (e : JsVal) :
  (validateEdge e = Some (Error msgEdgeShape) <->
     ~ exists v1 v2 w, e = JArray [v1; v2; w]) /\
  (forall v1 v2 w, e = JArray [v1; v2; w] ->
     (validateEdge e = Some (Error msgVertex) <->
        ~ (nonNegativeInteger v1 /\ nonNegativeInteger v2)) /\
     (validateEdge e = Some (Error msgWeight) <->
        nonNegativeInteger v1 /\ nonNegativeInteger v2 /\ ~ finiteNumber w)).
Proof.
  split.
  - split.
    + intros H (v1 & v2 & w & ->). cbn [validateEdge] in H.
      destruct (_ || _); [discriminate|]. destruct (negb _); discriminate.
    + intros H. destruct e as [| | | | | | | |items]; try reflexivity.
      destruct items as [|v1 [|v2 [|w [|x rest]]]]; try reflexivity.
      exfalso. apply H. eauto.
  - intros v1 v2 w ->. cbn [validateEdge].
    rewrite <- !validateEdge_vertex, <- isFiniteNumber_spec.
    destruct (isInteger v1), (isInteger v2), (isNegative v1), (isNegative v2),
      (isFiniteNumber w); simpl; split; split;
      first [discriminate | intuition congruence].
Qed.

(** ** Which fields a method writes *)

Section Footprint.

Context (g : Graph) (fuel : nat) (R : State -> State -> Prop).

Hypothesis W_mate :
  forall s v x l, setZ (mate s) v x = Some l -> R s (set_mate s l).
Hypothesis W_label :
  forall s b x l, setZ (label s) b x = Some l -> R s (set_label s l).
Hypothesis W_labelNeg1 : forall s x, R s (set_labelNeg1 s x).
Hypothesis W_labelEnd :
  forall s b x l, setZ (labelEnd s) b x = Some l -> R s (set_labelEnd s l).
Hypothesis W_inBlossom :
  forall s v x l, setZ (inBlossom s) v x = Some l -> R s (set_inBlossom s l).
Hypothesis W_blossomParent :
  forall s b x l, setZ (blossomParent s) b x = Some l ->
    R s (set_blossomParent s l).
Hypothesis W_blossomChilds :
  forall s b x l, setZ (blossomChilds s) b x = Some l ->
    R s (set_blossomChilds s l).
Hypothesis W_blossomBase :
  forall s b x l, setZ (blossomBase s) b x = Some l -> R s (set_blossomBase s l).
Hypothesis W_blossomEndPs :
  forall s b x l, setZ (blossomEndPs s) b x = Some l ->
    R s (set_blossomEndPs s l).
Hypothesis W_bestEdge :
  forall s b x l, setZ (bestEdge s) b x = Some l -> R s (set_bestEdge s l).
Hypothesis W_blossomBestEdges :
  forall s b x l, setZ (blossomBestEdges s) b x = Some l ->
    R s (set_blossomBestEdges s l).
Hypothesis W_unusedBlossoms : forall s u, R s (set_unusedBlossoms s u).
Hypothesis W_dualVar :
  forall s b x l, setZ (dualVar s) b x = Some l -> R s (set_dualVar s l).
Hypothesis W_allowEdge :
  forall s k l, setZ (allowEdge s) k true = Some l -> R s (set_allowEdge s l).
Hypothesis W_queue : forall s q, R s (set_queue s q).

Ltac wr_upd :=
  apply respects_upd; intros s s' H;
  first [ injection H as <-
        | match type of H with
          | _ <$> ?o = Some _ =>
              let E := fresh "E" in
              destruct o eqn:E; [injection H as <-|discriminate H]
          end ];
  eauto.

Lemma writes_setMate v x : respects R anyValue (setMate v x).
Proof. wr_upd. Qed.
Lemma writes_setLabel b x : respects R anyValue (setLabel b x).
Proof. wr_upd. Qed.
Lemma writes_setLabelEnd b x : respects R anyValue (setLabelEnd b x).
Proof. wr_upd. Qed.
Lemma writes_setInBlossom b x : respects R anyValue (setInBlossom b x).
Proof. wr_upd. Qed.
Lemma writes_setBlossomParent b x : respects R anyValue (setBlossomParent b x).
Proof. wr_upd. Qed.
Lemma writes_setBlossomChilds b x : respects R anyValue (setBlossomChilds b x).
Proof. wr_upd. Qed.
Lemma writes_setBlossomBase b x : respects R anyValue (setBlossomBase b x).
Proof. wr_upd. Qed.
Lemma writes_setBlossomEndPs b x : respects R anyValue (setBlossomEndPs b x).
Proof. wr_upd. Qed.
Lemma writes_setBestEdge b x : respects R anyValue (setBestEdge b x).
Proof. wr_upd. Qed.
Lemma writes_setBlossomBestEdges b x :
  respects R anyValue (setBlossomBestEdges b x).
Proof. wr_upd. Qed.
Lemma writes_setDualVar b x : respects R anyValue (setDualVar b x).
Proof. wr_upd. Qed.
Lemma writes_allowEdgeTrue k : respects R anyValue (allowEdgeTrue k).
Proof. wr_upd. Qed.
Lemma writes_queuePush vs : respects R anyValue (queuePush vs).
Proof. wr_upd. Qed.
Lemma writes_unusedPush b : respects R anyValue (unusedPush b).
Proof. wr_upd. Qed.
Lemma writes_assignLabelMinusOne : respects R anyValue assignLabelMinusOne.
Proof. wr_upd. Qed.
Lemma writes_setLabelNeg1 x :
  respects R anyValue (upd (fun s => Some (set_labelNeg1 s x))).
Proof. wr_upd. Qed.

Hint Resolve writes_setMate writes_setLabel writes_setLabelEnd
  writes_setInBlossom writes_setBlossomParent writes_setBlossomChilds
  writes_setBlossomBase writes_setBlossomEndPs writes_setBestEdge
  writes_setBlossomBestEdges writes_setDualVar writes_allowEdgeTrue
  writes_queuePush writes_unusedPush writes_assignLabelMinusOne
  writes_setLabelNeg1 : resp.

Lemma writes_queuePop : respects R anyValue queuePop.
Proof. unfold queuePop. resp_go. wr_upd. Qed.
Lemma writes_unusedPop : respects R anyValue unusedPop.
Proof. unfold unusedPop. resp_go. wr_upd. Qed.
Lemma writes_blossomLeaves b : respects R anyValue (blossomLeaves g fuel b).
Proof. unfold blossomLeaves. apply respects_Get. intros s. resp_go. Qed.
Lemma writes_slack k : respects R anyValue (slack g k).
Proof. apply respects_rd. Qed.

Hint Resolve writes_queuePop writes_unusedPop writes_blossomLeaves
  writes_slack : resp.

Lemma writes_assignLabelRec n vertex labelType labelingEdge :
  respects R anyValue (assignLabelRec g fuel n vertex labelType labelingEdge).
Proof.
  revert vertex labelType labelingEdge.
  induction n as [|n IH]; intros; cbn [assignLabelRec]; resp_go.
Qed.

Lemma writes_assignLabel vertex labelType labelingEdge :
  respects R anyValue (assignLabel g fuel vertex labelType labelingEdge).
Proof. apply writes_assignLabelRec. Qed.

Hint Resolve writes_assignLabel : resp.

Lemma writes_pushChild b x : respects R anyValue (pushChild b x).
Proof. unfold pushChild. resp_go. Qed.
Lemma writes_pushEndP b x : respects R anyValue (pushEndP b x).
Proof. unfold pushEndP. resp_go. Qed.
Lemma writes_addBlossomBestEdge b bestEdgeTo edgeK :
  respects R anyValue (addBlossomBestEdge g b bestEdgeTo edgeK).
Proof. unfold addBlossomBestEdge. resp_go. Qed.

Hint Resolve writes_pushChild writes_pushEndP writes_addBlossomBestEdge : resp.

Lemma writes_scanBlossom v w : respects R anyValue (scanBlossom g fuel v w).
Proof. unfold scanBlossom, scanBlossomStep. resp_go. Qed.

Lemma writes_addBlossom base k : respects R anyValue (addBlossom g fuel base k).
Proof. unfold addBlossom. resp_go. Qed.

Lemma writes_findLabelled leaves : respects R anyValue (findLabelled leaves).
Proof. induction leaves as [|v rest IH]; cbn [findLabelled]; resp_go. Qed.

Hint Resolve writes_scanBlossom writes_addBlossom writes_findLabelled : resp.

Lemma writes_expandBlossomRelabel b :
  respects R anyValue (expandBlossomRelabel g fuel b).
Proof. unfold expandBlossomRelabel. resp_go. Qed.

Hint Resolve writes_expandBlossomRelabel : resp.

Lemma writes_expandBlossomRec n b endStage :
  respects R anyValue (expandBlossomRec g fuel n b endStage).
Proof.
  revert b endStage. induction n as [|n IH]; intros; cbn [expandBlossomRec]; resp_go.
Qed.

Lemma writes_expandBlossom b endStage :
  respects R anyValue (expandBlossom g fuel b endStage).
Proof. apply writes_expandBlossomRec. Qed.

Hint Resolve writes_expandBlossom : resp.

Lemma writes_augmentBlossomRec n b v :
  respects R anyValue (augmentBlossomRec g fuel n b v).
Proof.
  revert b v. induction n as [|n IH]; intros; cbn [augmentBlossomRec]; resp_go.
Qed.

Lemma writes_augmentBlossom b v :
  respects R anyValue (augmentBlossom g fuel b v).
Proof. apply writes_augmentBlossomRec. Qed.

Hint Resolve writes_augmentBlossom : resp.

Lemma writes_augmentMatching k : respects R anyValue (augmentMatching g fuel k).
Proof. unfold augmentMatching, augmentMatchingStep. resp_go. Qed.

Hint Resolve writes_augmentMatching : resp.

Lemma writes_initRoots : respects R anyValue (initRoots g fuel).
Proof. unfold initRoots. resp_go. Qed.

Lemma writes_trackBestEdge x k : respects R anyValue (trackBestEdge g x k).
Proof. unfold trackBestEdge. resp_go. Qed.

Hint Resolve writes_initRoots writes_trackBestEdge : resp.

Lemma writes_hasVertexLabel v l : respects R anyValue (hasVertexLabel v l).
Proof. unfold hasVertexLabel. resp_go. Qed.

Hint Resolve writes_hasVertexLabel : resp.

Lemma writes_scanNeighbour v p : respects R anyValue (scanNeighbour g fuel v p).
Proof. unfold scanNeighbour, isUnlabeledVertex, isSVertex. resp_go. Qed.

Hint Resolve writes_scanNeighbour : resp.

Lemma writes_searchLoop : respects R anyValue (searchLoop g fuel).
Proof. unfold searchLoop. resp_go. Qed.

Lemma writes_applyDelta d : respects R anyValue (applyDelta g d).
Proof. unfold applyDelta. resp_go. Qed.

Lemma writes_actOnDelta d : respects R anyValue (actOnDelta g fuel d).
Proof. unfold actOnDelta, isUnlabeledVertex. resp_go. Qed.

Hint Resolve writes_searchLoop writes_applyDelta writes_actOnDelta : resp.

Lemma writes_dualAdjust : respects R anyValue (dualAdjust g fuel).
Proof. unfold dualAdjust. resp_go. Qed.

Hint Resolve writes_dualAdjust : resp.

Lemma writes_stageSearch : respects R anyValue (stageSearch g fuel).
Proof. unfold stageSearch. resp_go. Qed.

Lemma writes_endStageExpand : respects R anyValue (endStageExpand g fuel).
Proof. unfold endStageExpand. resp_go. Qed.

End Footprint.

Lemma writes_stageReset (g : Graph) (R : State -> State -> Prop) :
  (forall s l, R s (set_labelNeg1 (set_label s l) None)) ->
  (forall s l, R s (set_bestEdge s l)) ->
  (forall s l, R s (set_blossomBestEdges s l)) ->
  (forall s l, R s (set_allowEdge s l)) ->
  (forall s q, R s (set_queue s q)) ->
  respects R anyValue (stageReset g).
Proof.
  intros H1 H2 H3 H4 H5. unfold stageReset.
  repeat (apply (respects_bind anyValue);
          [apply respects_upd; intros s s' [= <-]; auto | intros _ _]).
  apply respects_upd. intros s s' [= <-]. auto.
Qed.

(** ** Footprints and Hoare-style rules *)

Lemma sameField_refl f s : sameField f s s.
Proof. destruct f; reflexivity. Qed.

Lemma sameField_trans f s1 s2 s3 :
  sameField f s1 s2 -> sameField f s2 s3 -> sameField f s1 s3.
Proof. destruct f; simpl; congruence. Qed.

Lemma writesOnly_refl fs s : writesOnly fs s s.
Proof. intros f _. apply sameField_refl. Qed.

Lemma writesOnly_trans fs s1 s2 s3 :
  writesOnly fs s1 s2 -> writesOnly fs s2 s3 -> writesOnly fs s1 s3.
Proof. intros H1 H2 f Hf. eapply sameField_trans; eauto. Qed.

Lemma writesOnly_mono fs fs' s s' :
  (forall f, f ∈ fs -> f ∈ fs') -> writesOnly fs s s' -> writesOnly fs' s s'.
Proof. intros Hsub H f Hf. apply H. intros Hin. apply Hf, Hsub, Hin. Qed.

Ltac solve_elem :=
  repeat first [apply list_elem_of_here | apply list_elem_of_further].

Ltac wr_only :=
  intros;
  let f := fresh "f" in let Hf := fresh "Hf" in
  intros f Hf; destruct f;
  first [reflexivity | exfalso; apply Hf; solve_elem].

Lemma wp_any {A} (p : prog A) s : wp anyStore (fun _ _ => True) p s.
Proof.
  revert s. induction p as [x|h|k IH|s' k IH]; intros s; simpl; auto.
  split; [exact I|apply IH].
Qed.

Lemma wp_of_respects {A} (R : State -> State -> Prop) (p : prog A) s0 s :
  (forall x y z, R x y -> R y z -> R x z) ->
  respects R anyValue p -> R s0 s ->
  wp anyStore (fun _ s' => R s0 s') p s.
Proof.
  intros Htrans Hp Hs.
  apply (wp_relax R); [intros; exact I|].
  apply wp_final; [exact Htrans|exact Hs|].
  eapply wp_weaken; [|apply Hp]. intros; exact I.
Qed.

Lemma wp_step {A B} (R : State -> State -> Prop) s0 (p : prog A)
    (f : A -> prog B) (Q : B -> State -> Prop) s :
  (forall x y z, R x y -> R y z -> R x z) ->
  respects R anyValue p -> R s0 s ->
  (forall a s1, R s0 s1 -> wp anyStore Q (f a) s1) ->
  wp anyStore Q (bind p f) s.
Proof.
  intros Htrans Hp Hs Hf. apply wp_bind.
  eapply wp_weaken; [|apply (wp_of_respects R p s0 s Htrans Hp Hs)].
  intros a s1 H1. apply Hf. exact H1.
Qed.

Lemma wp_loop {A B} (Inv : A -> State -> Prop) (Q : B -> State -> Prop) fuel
    (body : A -> prog (A + B)) a s :
  (forall a s, Inv a s ->
     wp anyStore (fun r s' => match r with
                              | inl a' => Inv a' s'
                              | inr b => Q b s'
                              end) (body a) s) ->
  Inv a s -> wp anyStore Q (loop fuel body a) s.
Proof.
  intros H. revert a s. induction fuel as [|fuel IH]; intros a s Ha; simpl.
  - exact I.
  - apply wp_bind. eapply wp_weaken; [|apply H; exact Ha].
    intros [a'|b] s1 Hr; simpl.
    + apply IH. exact Hr.
    + exact Hr.
Qed.

Lemma wp_forEach {A} (Inv : list A -> State -> Prop) (l : list A)
    (body : A -> prog unit) s :
  (forall done x rest s, l = done ++ x :: rest -> Inv done s ->
     wp anyStore (fun _ s' => Inv (done ++ [x]) s') (body x) s) ->
  Inv [] s -> wp anyStore (fun _ s' => Inv l s') (forEach l body) s.
Proof.
  intros H.
  assert (G : forall rest done s, l = done ++ rest -> Inv done s ->
            wp anyStore (fun _ s' => Inv l s') (forEach rest body) s).
  { induction rest as [|x rest IH]; intros done s1 Hl Hd; simpl.
    - rewrite app_nil_r in Hl. subst. exact Hd.
    - apply wp_bind. eapply wp_weaken; [|eapply H; eauto].
      intros [] s2 H2. cbv beta. apply (IH (done ++ [x])); [|exact H2].
      rewrite <- app_assoc. exact Hl. }
  intros H0. apply (G l [] s); [reflexivity|exact H0].
Qed.

Lemma wp_forEachBreak_unless {A} (P : State -> Prop) (l : list A)
    (body : A -> prog bool) s :
  (forall x s, P s -> wp anyStore (fun r s' => r = false -> P s') (body x) s) ->
  P s -> wp anyStore (fun r s' => r = false -> P s') (forEachBreak l body) s.
Proof.
  intros H. revert s. induction l as [|x l IH]; intros s Hs; simpl.
  - intros _. exact Hs.
  - apply wp_bind. eapply wp_weaken; [|apply H; exact Hs].
    intros [|] s1 H1; simpl; [discriminate|]. apply IH. apply H1. reflexivity.
Qed.

Lemma rotationOf_refl {A} (l : list A) : rotationOf l l.
Proof. exists [], l. rewrite app_nil_r. auto. Qed.

Lemma rotationOf_trans {A} (l1 l2 l3 : list A) :
  rotationOf l1 l2 -> rotationOf l2 l3 -> rotationOf l1 l3.
Proof.
  intros (a & b & -> & ->) (c & d & E & ->).
  apply app_eq_app in E. destruct E as [x [[-> ->]|[-> ->]]].
  - exists (a ++ c), x. rewrite <- !app_assoc. auto.
  - exists x, (d ++ b). rewrite <- !app_assoc. auto.
Qed.

Lemma rotationOf_length {A} (l l' : list A) :
  rotationOf l l' -> length l' = length l.
Proof. intros (a & b & -> & ->). rewrite !length_app. lia. Qed.

Lemma rotationOf_elem_of {A} (l l' : list A) x :
  rotationOf l l' -> x ∈ l' <-> x ∈ l.
Proof. intros (a & b & -> & ->). rewrite !elem_of_app. tauto. Qed.

Lemma rotationOf_slices {A} (l : list A) (i : Z) :
  rotationOf l (sliceFrom l i ++ sliceTo l i).
Proof.
  exists (sliceTo l i), (sliceFrom l i). split; [|reflexivity].
  unfold sliceTo, sliceFrom. symmetry. apply take_drop.
Qed.

Lemma rotatesEntries_refl f s : rotatesEntries f s s.
Proof. split; [reflexivity|]. intros b l H. exists l. split; [exact H|apply rotationOf_refl]. Qed.

Lemma rotatesEntries_trans f s1 s2 s3 :
  rotatesEntries f s1 s2 -> rotatesEntries f s2 s3 -> rotatesEntries f s1 s3.
Proof.
  intros [L1 H1] [L2 H2]. split; [congruence|].
  intros b l Hl. destruct (H1 b l Hl) as (l' & Hl' & R1).
  destruct (H2 b l' Hl') as (l'' & Hl'' & R2).
  exists l''. split; [exact Hl''|]. eapply rotationOf_trans; eauto.
Qed.

Lemma rotatesEntries_same f s s' : f s' = f s -> rotatesEntries f s s'.
Proof. intros E. unfold rotatesEntries. rewrite E. apply (rotatesEntries_refl f s). Qed.

(** ** Augmentation rotates the blossoms *)

Lemma respects_rd_upd {A B} (R : State -> State -> Prop) (Q : B -> Prop)
    (f : State -> option A) (w : A -> State -> option State) (k : A -> prog B) :
  (forall s a s', f s = Some a -> w a s = Some s' -> R s s') ->
  (forall a, respects R Q (k a)) ->
  respects R Q (bind (rd f) (fun a => bind (upd (w a)) (fun _ => k a))).
Proof.
  intros H Hk s. simpl. destruct (f s) as [a|] eqn:E; simpl; [|exact I].
  destruct (w a s) as [s'|] eqn:E'; simpl; [|exact I].
  split; [eapply H; eauto|apply Hk].
Qed.

Lemma augmentEffect_refl s : augmentEffect s s.
Proof.
  repeat split; try reflexivity; try apply writesOnly_refl;
    intros b l H; exists l; (split; [exact H|apply rotationOf_refl]).
Qed.

Lemma augmentEffect_trans s1 s2 s3 :
  augmentEffect s1 s2 -> augmentEffect s2 s3 -> augmentEffect s1 s3.
Proof.
  intros (A1 & B1 & C1 & D1 & E1) (A2 & B2 & C2 & D2 & E2).
  split; [eapply writesOnly_trans; eauto|].
  split; [congruence|]. split; [congruence|].
  split; eapply rotatesEntries_trans; eauto.
Qed.

Lemma rotatesEntries_write (f : State -> list (list Z)) s s' b old i :
  nthZ (f s) b = Some old ->
  setZ (f s) b (sliceFrom old i ++ sliceTo old i) = Some (f s') ->
  rotatesEntries f s s'.
Proof.
  intros Hold Hset. split; [eapply setZ_length; eauto|].
  intros b' l Hl. destruct (Z.eq_dec b b') as [<-|Hne].
  - erewrite nthZ_setZ_eq by eauto. eexists. split; [reflexivity|].
    rewrite Hold in Hl. injection Hl as <-. apply rotationOf_slices.
  - erewrite nthZ_setZ_ne by eauto. exists l. split; [exact Hl|apply rotationOf_refl].
Qed.

Section AugmentEffect.

Context (g : Graph) (fuel : nat).

Lemma augment_setMate v x : respects augmentEffect anyValue (setMate v x).
Proof.
  apply writes_setMate. intros s v' x' l H.
  split; [wr_only|]. split; [eapply setZ_length; eauto|].
  split; [reflexivity|]. split; apply rotatesEntries_same; reflexivity.
Qed.

Lemma augment_setBlossomBase b x :
  respects augmentEffect anyValue (setBlossomBase b x).
Proof.
  apply writes_setBlossomBase. intros s v' x' l H.
  split; [wr_only|]. split; [reflexivity|].
  split; [eapply setZ_length; eauto|]. split; apply rotatesEntries_same; reflexivity.
Qed.

Hint Resolve augment_setMate augment_setBlossomBase : resp.

Lemma augment_rotate_childs {B} (Q : B -> Prop) b i (k : prog B) :
  respects augmentEffect Q k ->
  respects augmentEffect Q
    (let* childs := getBlossomChilds b in
     let* _ := setBlossomChilds b (sliceFrom childs i ++ sliceTo childs i) in
     k).
Proof.
  intros Hk. unfold getBlossomChilds, setBlossomChilds.
  apply (respects_rd_upd augmentEffect Q
           (fun s => nthZ (blossomChilds s) b)
           (fun childs s => set_blossomChilds s <$>
              setZ (blossomChilds s) b (sliceFrom childs i ++ sliceTo childs i))
           (fun _ => k)); [|intros _; exact Hk].
  intros s childs s' Hc Hs.
  destruct (setZ _ _ _) as [l|] eqn:E; [|discriminate]. injection Hs as <-.
  split; [wr_only|]. split; [reflexivity|]. split; [reflexivity|].
  split; [|apply rotatesEntries_same; reflexivity].
  eapply rotatesEntries_write; eauto.
Qed.

Lemma augment_rotate_endPs {B} (Q : B -> Prop) b i (k : prog B) :
  respects augmentEffect Q k ->
  respects augmentEffect Q
    (let* endPs := getBlossomEndPs b in
     let* _ := setBlossomEndPs b (sliceFrom endPs i ++ sliceTo endPs i) in
     k).
Proof.
  intros Hk. unfold getBlossomEndPs, setBlossomEndPs.
  apply (respects_rd_upd augmentEffect Q
           (fun s => nthZ (blossomEndPs s) b)
           (fun endPs s => set_blossomEndPs s <$>
              setZ (blossomEndPs s) b (sliceFrom endPs i ++ sliceTo endPs i))
           (fun _ => k)); [|intros _; exact Hk].
  intros s endPs s' Hc Hs.
  destruct (setZ _ _ _) as [l|] eqn:E; [|discriminate]. injection Hs as <-.
  split; [wr_only|]. split; [reflexivity|]. split; [reflexivity|].
  split; [apply rotatesEntries_same; reflexivity|].
  eapply rotatesEntries_write; eauto.
Qed.

Lemma augment_augmentBlossomRec n b v :
  respects augmentEffect anyValue (augmentBlossomRec g fuel n b v).
Proof.
  revert b v. induction n as [|n IH]; intros b v; cbn [augmentBlossomRec];
    [apply respects_Halt|].
  apply (respects_bind anyValue); [resp_go|]. intros cb _.
  apply (respects_bind anyValue);
    [destruct (cb >? nVertex g); [apply IH|resp_go]|]. intros _ _.
  apply (respects_bind anyValue); [resp_go|]. intros childs _. cbv zeta.
  destruct (negb _);
    (apply (respects_bind anyValue); [resp_go|]; intros _ _;
     apply augment_rotate_childs; apply augment_rotate_endPs; resp_go).
Qed.

Lemma augment_augmentBlossom b v :
  respects augmentEffect anyValue (augmentBlossom g fuel b v).
Proof. apply augment_augmentBlossomRec. Qed.

Hint Resolve augment_augmentBlossom : resp.

Lemma augment_augmentMatching k :
  respects augmentEffect anyValue (augmentMatching g fuel k).
Proof. unfold augmentMatching, augmentMatchingStep. resp_go. Qed.

End AugmentEffect.

(** X13.  A call [augmentMatching(k)] that returns has written only [mate],
    [blossomChilds], [blossomBase] and [blossomEndPs]; [mate] and
    [blossomBase] keep their lengths, and every child list and every
    endpoint list is a rotation of what it was. *)
Theorem augmentMatching_rotates_blossoms (g : Graph) (fuel : nat) (k : Z)
    (s s' : State) :
  run (augmentMatching g fuel k) s = Ret tt s' ->
  writesOnly [fMate; fBlossomChilds; fBlossomBase; fBlossomEndPs] s s' /\
  length (mate s') = length (mate s) /\
  length (blossomBase s') = length (blossomBase s) /\
  rotatesEntries blossomChilds s s' /\
  rotatesEntries blossomEndPs s s'.
Proof.
  intros Hrun.
  refine (wp_run anyStore (fun _ s1 => augmentEffect s s1) _ _ _ _ _ Hrun).
  apply wp_of_respects.
  - apply augmentEffect_trans.
  - apply augment_augmentMatching.
  - apply augmentEffect_refl.
Qed.

Lemma augmentMatching_rotates_blossoms_witness :
  let g := initializeGraphProperties sBlossomEdges false in
  let s := storeAt sBlossomEdges 162 in
  exists s',
    run (augmentMatching g 50 3) s = Ret tt s' /\
    nthZ (blossomChilds s) 9 = Some [1; 2; 3] /\
    nthZ (blossomChilds s') 9 = Some [3; 1; 2] /\
    writesOnly [fMate; fBlossomChilds; fBlossomBase; fBlossomEndPs] s s' /\
    length (mate s') = length (mate s) /\
    length (blossomBase s') = length (blossomBase s) /\
    rotatesEntries blossomChilds s s' /\
    rotatesEntries blossomEndPs s s'.
Proof.
  intros g s.
  destruct (run (augmentMatching g 50 3) s) as [[] s'|h] eqn:R;
    [|vm_compute in R; discriminate R].
  exists s'. split; [reflexivity|].
  split; [vm_compute; reflexivity|].
  split; [|exact (augmentMatching_rotates_blossoms g 50 3 s s' R)].
  vm_compute in R. injection R as <-. vm_compute. reflexivity.
Defined.

(** ** A stage that does not augment *)

Create HintDb writes.

Ltac solve_writes :=
  solve [ intros; reflexivity | wr_only | eauto with writes ].

#[global] Hint Extern 5 (respects _ _ (setMate _ _)) =>
  (apply writes_setMate; solve_writes) : resp.
#[global] Hint Extern 5 (respects _ _ (setLabel _ _)) =>
  (apply writes_setLabel; solve_writes) : resp.
#[global] Hint Extern 5 (respects _ _ (setLabelEnd _ _)) =>
  (apply writes_setLabelEnd; solve_writes) : resp.
#[global] Hint Extern 5 (respects _ _ (setInBlossom _ _)) =>
  (apply writes_setInBlossom; solve_writes) : resp.
#[global] Hint Extern 5 (respects _ _ (setBlossomParent _ _)) =>
  (apply writes_setBlossomParent; solve_writes) : resp.
#[global] Hint Extern 5 (respects _ _ (setBlossomChilds _ _)) =>
  (apply writes_setBlossomChilds; solve_writes) : resp.
#[global] Hint Extern 5 (respects _ _ (setBlossomBase _ _)) =>
  (apply writes_setBlossomBase; solve_writes) : resp.
#[global] Hint Extern 5 (respects _ _ (setBlossomEndPs _ _)) =>
  (apply writes_setBlossomEndPs; solve_writes) : resp.
#[global] Hint Extern 5 (respects _ _ (setBestEdge _ _)) =>
  (apply writes_setBestEdge; solve_writes) : resp.
#[global] Hint Extern 5 (respects _ _ (setBlossomBestEdges _ _)) =>
  (apply writes_setBlossomBestEdges; solve_writes) : resp.
#[global] Hint Extern 5 (respects _ _ (setDualVar _ _)) =>
  (apply writes_setDualVar; solve_writes) : resp.
#[global] Hint Extern 5 (respects _ _ (allowEdgeTrue _)) =>
  (apply writes_allowEdgeTrue; solve_writes) : resp.
#[global] Hint Extern 5 (respects _ _ (queuePush _)) =>
  (apply writes_queuePush; solve_writes) : resp.
#[global] Hint Extern 5 (respects _ _ queuePop) =>
  (apply writes_queuePop; solve_writes) : resp.
#[global] Hint Extern 5 (respects _ _ (unusedPush _)) =>
  (apply writes_unusedPush; solve_writes) : resp.
#[global] Hint Extern 5 (respects _ _ unusedPop) =>
  (apply writes_unusedPop; solve_writes) : resp.
#[global] Hint Extern 5 (respects _ _ (blossomLeaves _ _ _)) =>
  (apply writes_blossomLeaves) : resp.
#[global] Hint Extern 5 (respects _ _ (slack _ _)) =>
  (apply writes_slack) : resp.
#[global] Hint Extern 5 (respects _ _ (hasVertexLabel _ _)) =>
  (apply writes_hasVertexLabel) : resp.
#[global] Hint Extern 5 (respects _ _ (isUnlabeledVertex _)) =>
  (apply writes_hasVertexLabel) : resp.
#[global] Hint Extern 5 (respects _ _ (isSVertex _)) =>
  (apply writes_hasVertexLabel) : resp.
#[global] Hint Extern 5 (respects _ _ (assignLabel _ _ _ _ _)) =>
  (apply writes_assignLabel; solve_writes) : resp.
#[global] Hint Extern 5 (respects _ _ (assignLabelRec _ _ _ _ _ _)) =>
  (apply writes_assignLabelRec; solve_writes) : resp.
#[global] Hint Extern 5 (respects _ _ (scanBlossom _ _ _ _)) =>
  (apply writes_scanBlossom; solve_writes) : resp.
#[global] Hint Extern 5 (respects _ _ (addBlossom _ _ _ _)) =>
  (apply writes_addBlossom; solve_writes) : resp.
#[global] Hint Extern 5 (respects _ _ (pushChild _ _)) =>
  (apply writes_pushChild; solve_writes) : resp.
#[global] Hint Extern 5 (respects _ _ (pushEndP _ _)) =>
  (apply writes_pushEndP; solve_writes) : resp.
#[global] Hint Extern 5 (respects _ _ (addBlossomBestEdge _ _ _ _)) =>
  (apply writes_addBlossomBestEdge) : resp.
#[global] Hint Extern 5 (respects _ _ (findLabelled _)) =>
  (apply writes_findLabelled) : resp.
#[global] Hint Extern 5 (respects _ _ (expandBlossom _ _ _ _)) =>
  (apply writes_expandBlossom; solve_writes) : resp.
#[global] Hint Extern 5 (respects _ _ (expandBlossomRec _ _ _ _ _)) =>
  (apply writes_expandBlossomRec; solve_writes) : resp.
#[global] Hint Extern 5 (respects _ _ (expandBlossomRelabel _ _ _)) =>
  (apply writes_expandBlossomRelabel; solve_writes) : resp.
#[global] Hint Extern 5 (respects _ _ (augmentBlossom _ _ _ _)) =>
  (apply writes_augmentBlossom; solve_writes) : resp.
#[global] Hint Extern 5 (respects _ _ (augmentMatching _ _ _)) =>
  (apply writes_augmentMatching; solve_writes) : resp.
#[global] Hint Extern 5 (respects _ _ (trackBestEdge _ _ _)) =>
  (apply writes_trackBestEdge; solve_writes) : resp.
#[global] Hint Extern 5 (respects _ _ (initRoots _ _)) =>
  (apply writes_initRoots; solve_writes) : resp.
#[global] Hint Extern 5 (respects _ _ (applyDelta _ _)) =>
  (apply writes_applyDelta; solve_writes) : resp.
#[global] Hint Extern 5 (respects _ _ (actOnDelta _ _ _)) =>
  (apply writes_actOnDelta; solve_writes) : resp.
#[global] Hint Extern 5 (respects _ _ (dualAdjust _ _)) =>
  (apply writes_dualAdjust; solve_writes) : resp.
#[global] Hint Extern 5 (respects _ _ (endStageExpand _ _)) =>
  (apply writes_endStageExpand; solve_writes) : resp.
#[global] Hint Extern 5 (respects _ _ (stageReset _)) =>
  (apply writes_stageReset; solve_writes) : resp.
#[global] Hint Extern 5 (respects _ _ assignLabelMinusOne) =>
  (apply writes_assignLabelMinusOne; solve_writes) : resp.

Lemma sameMate_trans x y z : sameMate x y -> sameMate y z -> sameMate x z.
Proof. unfold sameMate. congruence. Qed.

(** Steps of a program that answers [true] when it has changed what [R]
    protects. *)
Ltac unless_go R s0 Htrans :=
  cbv beta zeta;
  lazymatch goal with
  | |- wp _ _ (bind (augmentMatching _ _ _) _) _ =>
      apply wp_bind; eapply wp_weaken; [|apply wp_any];
      intros; simpl; discriminate
  | |- wp _ _ (bind _ _) _ =>
      eapply (wp_step R s0);
        [exact Htrans | solve [resp_go] | assumption
        | intros ? ? ?; unless_go R s0 Htrans]
  | |- wp _ _ (if ?b then _ else _) _ => destruct b; unless_go R s0 Htrans
  | |- wp _ _ (Pure _) _ => simpl; intros; assumption
  end.

Section Unaugmented.

Context (g : Graph) (fuel : nat) (s0 : State).

Lemma scanNeighbour_unless v p s :
  sameMate s0 s ->
  wp anyStore (fun r s' => r = false -> sameMate s0 s')
     (scanNeighbour g fuel v p) s.
Proof.
  intros Hs. unfold scanNeighbour.
  unless_go sameMate s0 sameMate_trans.
Qed.

Lemma searchLoop_unless s :
  sameMate s0 s ->
  wp anyStore (fun r s' => r = false -> sameMate s0 s') (searchLoop g fuel) s.
Proof.
  intros Hs. unfold searchLoop.
  apply (wp_loop (fun _ s1 => sameMate s0 s1)); [|exact Hs].
  clear s Hs. intros [] s Hs.
  eapply (wp_step sameMate s0); [exact sameMate_trans|resp_go|exact Hs|].
  intros q s1 H1. destruct (_ >? _); [|simpl; intros _; exact H1].
  eapply (wp_step sameMate s0); [exact sameMate_trans|solve [resp_go]|exact H1|].
  intros cv s2 H2.
  eapply (wp_step sameMate s0); [exact sameMate_trans|solve [resp_go]|exact H2|].
  intros nb s3 H3. apply wp_bind.
  eapply wp_weaken;
    [|apply (wp_forEachBreak_unless (sameMate s0));
      [intros x sx Hx; apply scanNeighbour_unless; exact Hx|exact H3]].
  intros [|] s4 H4; simpl; [discriminate|]. apply H4. reflexivity.
Qed.

Lemma stageSearch_unless s :
  sameMate s0 s ->
  wp anyStore (fun r s' => r = false -> sameMate s0 s') (stageSearch g fuel) s.
Proof.
  intros Hs. unfold stageSearch.
  apply (wp_loop (fun _ s1 => sameMate s0 s1)); [|exact Hs].
  clear s Hs. intros [] s Hs. apply wp_bind.
  eapply wp_weaken; [|apply searchLoop_unless; exact Hs].
  intros [|] s1 H1; cbv beta; [simpl; discriminate|].
  specialize (H1 eq_refl).
  eapply (wp_step sameMate s0); [exact sameMate_trans|solve [resp_go]|exact H1|].
  intros [|] s2 H2; simpl; [intros _|]; exact H2.
Qed.

End Unaugmented.

(** X19.  A stage that ends without augmenting (the stage loop then stops)
    leaves [mate] exactly as it found it. *)
Theorem stage_without_augmenting_keeps_mate (g : Graph) (fuel : nat) (t : Z)
    (s s' : State) :
  run (stage g fuel t) s = Ret true s' -> mate s' = mate s.
Proof.
  intros Hrun.
  refine (wp_run anyStore (fun r s1 => r = true -> sameMate s s1)
            _ _ _ _ _ Hrun eq_refl).
  unfold stage, stageBody.
  eapply (wp_step sameMate s); [exact sameMate_trans|solve [resp_go]|reflexivity|].
  intros _ s1 H1.
  eapply (wp_step sameMate s); [exact sameMate_trans|solve [resp_go]|exact H1|].
  intros _ s2 H2. apply wp_bind.
  eapply wp_weaken; [|apply (stageSearch_unless g fuel s); exact H2].
  intros [|] s3 H3; cbv beta.
  - apply wp_bind. eapply wp_weaken; [|apply wp_any].
    intros; simpl; discriminate.
  - simpl. intros _. apply H3. reflexivity.
Qed.

Lemma stage_without_augmenting_keeps_mate_witness :
  let g := initializeGraphProperties sBlossomEdges false in
  let s := storeAt sBlossomEdges 169 in
  exists s', run (stage g 50 2) s = Ret true s' /\ mate s' = mate s.
Proof.
  intros g s.
  destruct (run (stage g 50 2) s) as [[] s'|h] eqn:R;
    [| vm_compute in R; discriminate R | vm_compute in R; discriminate R].
  exists s'. split; [reflexivity|].
  exact (stage_without_augmenting_keeps_mate g 50 2 s s' R).
Defined.

(** ** Edges with slack *)

Lemma writesOnly_bestEdge_slack g s s' k :
  writesOnly [fBestEdge] s s' -> slackOf g s' k = slackOf g s k.
Proof.
  intros H. unfold slackOf.
  assert (E : dualVar s' = dualVar s).
  { apply (H fDualVar). intros Hin. repeat (apply elem_of_cons in Hin; destruct Hin as [Hin|Hin]; [discriminate|]). inversion Hin. }
  rewrite E. reflexivity.
Qed.

Lemma writesOnly_bestEdge_allowEdge s s' :
  writesOnly [fBestEdge] s s' -> allowEdge s' = allowEdge s.
Proof.
  intros H. apply (H fAllowEdge). intros Hin.
  repeat (apply elem_of_cons in Hin; destruct Hin as [Hin|Hin]; [discriminate|]).
  inversion Hin.
Qed.

(** X15.  In phase 2, an edge that is not allowed and has positive slack
    starts nothing: the iteration for it does not augment and writes at
    most [bestEdge]. *)
Theorem scanNeighbour_skips_loose_edge (g : Graph) (fuel : nat) (v p : Z)
    (s s' : State) (sl : number) (r : bool) :
  nthZ (allowEdge s) (getEdgeFromEndpoint p) = Some false ->
  slackOf g s (getEdgeFromEndpoint p) = Some sl -> jsLt (Fin 0) sl = true ->
  run (scanNeighbour g fuel v p) s = Ret r s' ->
  r = false /\ writesOnly [fBestEdge] s s'.
Proof.
  intros Hallow Hslack Hpos Hrun.
  refine (wp_run anyStore (fun r s1 => r = false /\ writesOnly [fBestEdge] s s1)
            _ _ _ _ _ Hrun).
  pose proof (writesOnly_trans [fBestEdge]) as Htrans.
  set (R := writesOnly [fBestEdge]) in *.
  assert (H0 : R s s) by apply writesOnly_refl.
  unfold scanNeighbour. cbv zeta.
  eapply (wp_step R s); [exact Htrans|solve [resp_go]|exact H0|]. intros adj s1 H1.
  eapply (wp_step R s); [exact Htrans|solve [resp_go]|exact H1|]. intros bc s2 H2.
  eapply (wp_step R s); [exact Htrans|solve [resp_go]|exact H2|]. intros ba s3 H3.
  destruct (bc =? ba); [simpl; auto|].
  apply wp_bind. apply wp_rd_intro. intros allowed Ha.
  rewrite (writesOnly_bestEdge_allowEdge s s3 H3), Hallow in Ha.
  injection Ha as <-. cbn [negb].
  apply wp_bind. apply wp_bind. apply wp_rd_intro. intros sl' Hsl'.
  rewrite (writesOnly_bestEdge_slack g s s3 _ H3), Hslack in Hsl'.
  injection Hsl' as <-.
  rewrite (jsLt_not_jsLe _ _ Hpos). cbn [skip wp].
  apply wp_bind. apply wp_rd_intro. intros allowed Ha.
  rewrite (writesOnly_bestEdge_allowEdge s s3 H3), Hallow in Ha.
  injection Ha as <-.
  eapply (wp_step R s); [exact Htrans|solve [resp_go]|exact H3|]. intros isS s4 H4.
  destruct isS.
  - eapply (wp_step R s); [exact Htrans|solve [resp_go]|exact H4|]. intros cb s5 H5.
    eapply (wp_step R s); [exact Htrans|solve [resp_go]|exact H5|]. intros _ s6 H6.
    simpl. auto.
  - eapply (wp_step R s); [exact Htrans|solve [resp_go]|exact H4|]. intros l s5 H5.
    destruct (l =? UNLABELED); [|simpl; auto].
    eapply (wp_step R s); [exact Htrans|solve [resp_go]|exact H5|]. intros _ s6 H6.
    simpl. auto.
Qed.

Lemma scanNeighbour_skips_loose_edge_witness :
  let g := initializeGraphProperties sBlossomEdges false in
  let s := storeAt sBlossomEdges 41 in
  exists s' r,
    nthZ (allowEdge s) (getEdgeFromEndpoint 6) = Some false /\
    slackOf g s (getEdgeFromEndpoint 6) = Some (Fin 6) /\
    jsLt (Fin 0) (Fin 6) = true /\
    run (scanNeighbour g 50 4 6) s = Ret r s' /\
    r = false /\ writesOnly [fBestEdge] s s'.
Proof.
  intros g s.
  destruct (run (scanNeighbour g 50 4 6) s) as [r s'|h] eqn:R;
    [|vm_compute in R; discriminate R].
  assert (H1 : nthZ (allowEdge s) (getEdgeFromEndpoint 6) = Some false)
    by (vm_compute; reflexivity).
  assert (H2 : slackOf g s (getEdgeFromEndpoint 6) = Some (Fin 6))
    by (vm_compute; reflexivity).
  assert (H3 : jsLt (Fin 0) (Fin 6) = true) by reflexivity.
  exists s', r. do 4 (split; [assumption || reflexivity|]).
  exact (scanNeighbour_skips_loose_edge g 50 4 6 s s' (Fin 6) r H1 H2 H3 R).
Defined.

(** ** [scanBlossom] terminates *)

Lemma wpe_bind {A B} (Q : B -> State -> Prop) E (p : prog A) (f : A -> prog B) s :
  wpe (fun a s1 => wpe Q E (f a) s1) E p s -> wpe Q E (bind p f) s.
Proof.
  revert s. induction p as [a|h|k IH|s' k IH]; intros s; simpl; auto.
Qed.

Lemma wpe_weaken {A} (Q Q' : A -> State -> Prop) E (p : prog A) s :
  (forall a s1, Q a s1 -> Q' a s1) -> wpe Q E p s -> wpe Q' E p s.
Proof.
  intros HQ. revert s. induction p as [a|h|k IH|s' k IH]; intros s; simpl; auto.
Qed.

Lemma wpe_run {A} (Q : A -> State -> Prop) E (p : prog A) s :
  wpe Q E p s ->
  match run p s with Ret a s1 => Q a s1 | Err h => E h end.
Proof.
  revert s. induction p as [a|h|k IH|s' k IH]; intros s; simpl; auto.
  - apply IH.
  - apply IH.
Qed.

Lemma wpe_rd {A B} (Q : B -> State -> Prop) (E : haltReason -> Prop)
    (f : State -> option A) (k : A -> prog B) s :
  E Stuck -> (forall a, f s = Some a -> wpe Q E (k a) s) ->
  wpe Q E (bind (rd f) k) s.
Proof. intros HE H. simpl. destruct (f s); simpl; auto. Qed.

Lemma wpe_lift {A B} (Q : B -> State -> Prop) (E : haltReason -> Prop)
    (o : option A) (k : A -> prog B) s :
  E Stuck -> (forall a, o = Some a -> wpe Q E (k a) s) ->
  wpe Q E (bind (lift o) k) s.
Proof. intros HE H. destruct o; simpl; auto. Qed.

Lemma wpe_upd {B} (Q : B -> State -> Prop) (E : haltReason -> Prop)
    (f : State -> option State) (k : unit -> prog B) s :
  E Stuck -> (forall s', f s = Some s' -> wpe Q E (k tt) s') ->
  wpe Q E (bind (upd f) k) s.
Proof. intros HE H. simpl. destruct (f s); simpl; auto. Qed.

Lemma filter_insert_mark (l : list Z) (i : nat) (lb : Z) :
  l !! i = Some lb -> Z.land lb 4 = 0 ->
  S (length (filter (fun l => Z.land l 4 = 0) (<[i := 5]> l)))
  = length (filter (fun l => Z.land l 4 = 0) l).
Proof.
  intros Hi Hlb.
  rewrite <- (take_drop_middle l i lb Hi) at 2.
  rewrite insert_take_drop by (apply lookup_lt_Some in Hi; exact Hi).
  rewrite !filter_app, !filter_cons.
  destruct (decide (Z.land 5 4 = 0)) as [H5|_]; [discriminate H5|].
  destruct (decide (Z.land lb 4 = 0)) as [_|Hn]; [|contradiction].
  rewrite !length_app. simpl. lia.
Qed.

Lemma unmarked_setLabel s b lb l :
  nthZ (label s) b = Some lb -> Z.land lb 4 = 0 ->
  setZ (label s) b 5 = Some l ->
  S (unmarked (set_label s l)) = unmarked s.
Proof.
  intros Hb Hlb Hset. unfold unmarked. cbn [label set_label].
  unfold setZ in Hset. destruct (_ && _); [|discriminate].
  injection Hset as <-. apply nthZ_Some in Hb. destruct Hb as [_ Hb].
  eapply filter_insert_mark; eauto.
Qed.

Section ScanBlossom.

Context (g : Graph).

Lemma scanBlossomStep_progress st s :
  wpe (fun r s1 => match r with
                   | inl _ => (unmarked s1 < unmarked s)%nat
                   | inr _ => True
                   end)
      (fun h => h = Stuck) (scanBlossomStep g st) s.
Proof.
  destruct st as [[path c1] c2]. unfold scanBlossomStep.
  assert (Hbody : forall blossom c2',
    wpe (fun r s1 => match r with
                     | inl _ => (unmarked s1 < unmarked s)%nat
                     | inr _ => True
                     end)
        (fun h => h = Stuck)
        (let* lb := getLabel blossom in
         if negb (Z.land lb 4 =? 0) then
           let* base := getBlossomBase blossom in
           Pure (inr (path, base))
         else
           let path := path ++ [blossom] in
           let* _ := setLabel blossom 5 in
           let* le := getLabelEnd blossom in
           let* current1 :=
             if le =? UNMATCHED then Pure None
             else
               let* c1 := getEndpoint g le in
               let* blossom := getInBlossom c1 in
               let* le' := getLabelEnd blossom in
               let* c1' := getEndpoint g le' in
               Pure (Some c1') in
           match c2' with
           | Some _ => Pure (inl (path, c2', current1))
           | None => Pure (inl (path, current1, c2'))
           end) s).
  { intros blossom c2'. apply wpe_rd; [reflexivity|]. intros lb Hlb.
    destruct (Z.eqb_spec (Z.land lb 4) 0) as [Hz|Hnz]; cbn [negb].
    - cbv zeta. apply wpe_upd; [reflexivity|]. intros s1 Hs1.
      destruct (setZ (label s) blossom 5) as [l|] eqn:E; [|discriminate].
      injection Hs1 as <-.
      pose proof (unmarked_setLabel s blossom lb l Hlb Hz E) as Hdec.
      apply wpe_rd; [reflexivity|]. intros le Hle.
      apply wpe_bind. destruct (le =? UNMATCHED).
      + simpl. destruct c2'; simpl; lia.
      + unfold getEndpoint. apply wpe_lift; [reflexivity|]. intros x1 _.
        apply wpe_rd; [reflexivity|]. intros x2 _.
        apply wpe_rd; [reflexivity|]. intros x3 _.
        apply wpe_lift; [reflexivity|]. intros x4 _.
        simpl. destruct c2'; simpl; lia.
    - apply wpe_rd; [reflexivity|]. intros base _. simpl. exact I. }
  destruct c1 as [c1|].
  - apply wpe_bind. apply wpe_rd; [reflexivity|]. intros b _. cbn [wpe].
    exact (Hbody b c2).
  - destruct c2 as [c2|]; [|simpl; exact I].
    apply wpe_bind. apply wpe_lift; [reflexivity|]. intros c2' _.
    apply wpe_rd; [reflexivity|]. intros b _. cbn [wpe]. exact (Hbody b None).
Qed.

Lemma scanBlossom_loop_terminates fuel st s :
  (unmarked s < fuel)%nat ->
  wpe (fun _ _ => True) (fun h => h = Stuck) (loop fuel (scanBlossomStep g) st) s.
Proof.
  revert st s. induction fuel as [|fuel IH]; intros st s Hlt; [lia|].
  cbn [loop]. apply wpe_bind.
  eapply wpe_weaken; [|apply scanBlossomStep_progress].
  intros [st'|[path base]] s1 H1; simpl; [|exact I].
  apply IH. lia.
Qed.

Lemma restore_labels_no_fuel (path : list Z) s :
  wpe (fun _ _ => True) (fun h => h = Stuck)
      (forEach path (fun blossomIndex => setLabel blossomIndex VERTEX_LABEL_S)) s.
Proof.
  revert s. induction path as [|b path IH]; intros s; simpl; [exact I|].
  destruct (set_label s <$> _); simpl; [|reflexivity].
  apply IH.
Qed.

End ScanBlossom.

(** X9.  [scanBlossom] cannot use up an iteration bound above the length
    of [label]: every iteration of its walk that does not leave the loop
    marks a blossom that was not marked. *)
Theorem scanBlossom_terminates (g : Graph) (fuel : nat) (v w : Z) (s : State) :
  (length (label s) < fuel)%nat ->
  run (scanBlossom g fuel v w) s <> Err OutOfFuel.
Proof.
  intros Hfuel.
  assert (Hu : (unmarked s < fuel)%nat).
  { unfold unmarked. pose proof (length_filter (fun l => Z.land l 4 = 0) (label s)). lia. }
  assert (H : wpe (fun _ _ => True) (fun h => h = Stuck) (scanBlossom g fuel v w) s).
  { unfold scanBlossom. apply wpe_bind.
    eapply wpe_weaken; [|apply scanBlossom_loop_terminates; exact Hu].
    intros [path base] s1 _. cbv beta. apply wpe_bind.
    eapply wpe_weaken; [|apply restore_labels_no_fuel].
    intros [] s2 _. exact I. }
  apply wpe_run in H. destruct (run _ s) as [a s1|h]; [discriminate|].
  subst h. discriminate.
Qed.

Lemma scanBlossom_terminates_witness :
  let g := initializeGraphProperties sBlossomEdges false in
  let s := storeAt sBlossomEdges 113 in
  (length (label s) < 50)%nat /\
  run (scanBlossom g 50 1 2) s <> Err OutOfFuel.
Proof.
  intros g s.
  assert (H : (length (label s) < 50)%nat) by (vm_compute; lia).
  split; [exact H|]. exact (scanBlossom_terminates g 50 1 2 s H).
Defined.

(** ** [scanBlossom] restores the labels *)

Lemma writesOnly_label_set s s1 l :
  writesOnly [fLabel] s s1 -> writesOnly [fLabel] s (set_label s1 l).
Proof.
  intros H. eapply writesOnly_trans; [exact H|]. wr_only.
Qed.

Lemma marksPath_nil s : marksPath [] s s.
Proof.
  split; [apply writesOnly_refl|]. split; [reflexivity|].
  intros b. split; [intros H; inversion H|reflexivity].
Qed.

Lemma marksPath_snoc path s s1 blossom lb l :
  marksPath path s s1 ->
  nthZ (label s1) blossom = Some lb -> Z.land lb 4 = 0 ->
  setZ (label s1) blossom 5 = Some l ->
  marksPath (path ++ [blossom]) s (set_label s1 l).
Proof.
  intros (HW & HL & Hm) Hlb Hz Hset.
  assert (Hnot : blossom ∉ path).
  { intros Hin. destruct (Hm blossom) as [H5 _]. destruct (H5 Hin) as [_ H5'].
    rewrite H5' in Hlb. injection Hlb as <-. discriminate Hz. }
  split; [apply writesOnly_label_set; exact HW|].
  split; [cbn [label set_label]; rewrite (setZ_length _ _ _ _ Hset); exact HL|].
  intros b. cbn [label set_label]. split.
  - intros Hin. apply elem_of_app in Hin. destruct Hin as [Hin|Hin].
    + destruct (Hm b) as [H5 _]. destruct (H5 Hin) as [Horig H5'].
      split; [exact Horig|].
      rewrite (nthZ_setZ_ne _ _ _ _ _ Hset); [exact H5'|].
      intros ->. contradiction.
    + apply list_elem_of_singleton in Hin. subst b. split.
      * exists lb. split; [|exact Hz].
        destruct (Hm blossom) as [_ Hsame]. rewrite <- Hsame by exact Hnot.
        exact Hlb.
      * eapply nthZ_setZ_eq; eauto.
  - intros Hnin. rewrite not_elem_of_app in Hnin. destruct Hnin as [Hn1 Hn2].
    rewrite (nthZ_setZ_ne _ _ _ _ _ Hset).
    + apply Hm. exact Hn1.
    + intros ->. apply Hn2. apply list_elem_of_singleton. reflexivity.
Qed.

Section ScanEffect.

Context (g : Graph).

Lemma scanBlossomStep_marks s st s1 :
  marksPath st.1.1 s s1 ->
  wp anyStore
     (fun r s2 => match r with
                  | inl st' => marksPath st'.1.1 s s2
                  | inr (path, _) => marksPath path s s2
                  end)
     (scanBlossomStep g st) s1.
Proof.
  destruct st as [[path c1] c2]. cbn [fst]. intros Hm.
  unfold scanBlossomStep.
  assert (Hbody : forall blossom c2',
    wp anyStore
       (fun r s2 => match r with
                    | inl st' => marksPath st'.1.1 s s2
                    | inr (path, _) => marksPath path s s2
                    end)
       (let* lb := getLabel blossom in
         if negb (Z.land lb 4 =? 0) then
           let* base := getBlossomBase blossom in
           Pure (inr (path, base))
         else
           let path := path ++ [blossom] in
           let* _ := setLabel blossom 5 in
           let* le := getLabelEnd blossom in
           let* current1 :=
             if le =? UNMATCHED then Pure None
             else
               let* c1 := getEndpoint g le in
               let* blossom := getInBlossom c1 in
               let* le' := getLabelEnd blossom in
               let* c1' := getEndpoint g le' in
               Pure (Some c1') in
           match c2' with
           | Some _ => Pure (inl (path, c2', current1))
           | None => Pure (inl (path, current1, c2'))
           end) s1).
  { intros blossom c2'. apply wp_bind. apply wp_rd_intro. intros lb Hlb.
    destruct (Z.eqb_spec (Z.land lb 4) 0) as [Hz|Hnz]; cbn [negb].
    - cbv zeta. apply wp_bind. apply wp_upd_intro. intros s2 Hs2.
      split; [exact I|].
      destruct (setZ (label s1) blossom 5) as [l|] eqn:E; [|discriminate].
      injection Hs2 as <-.
      pose proof (marksPath_snoc path s s1 blossom lb l Hm Hlb Hz E) as Hm'.
      apply wp_bind. apply wp_rd_intro. intros le _.
      apply wp_bind. destruct (le =? UNMATCHED).
      + simpl. destruct c2'; simpl; exact Hm'.
      + unfold getEndpoint. apply wp_bind. apply wp_lift_intro. intros x1 _.
        apply wp_bind. apply wp_rd_intro. intros x2 _.
        apply wp_bind. apply wp_rd_intro. intros x3 _.
        apply wp_bind. apply wp_lift_intro. intros x4 _.
        simpl. destruct c2'; simpl; exact Hm'.
    - apply wp_bind. apply wp_rd_intro. intros base _. simpl. exact Hm. }
  destruct c1 as [c1|].
  - apply wp_bind. apply wp_bind. apply wp_rd_intro. intros b _. cbn [wp].
    exact (Hbody b c2).
  - destruct c2 as [c2|]; [|simpl; exact Hm].
    apply wp_bind. apply wp_bind. apply wp_lift_intro. intros c2' _.
    apply wp_bind. apply wp_rd_intro. intros b _. cbn [wp].
    exact (Hbody b None).
Qed.

End ScanEffect.

Lemma restore_labels (path : list Z) s1 :
  wp anyStore
     (fun _ s' =>
        writesOnly [fLabel] s1 s' /\ length (label s') = length (label s1) /\
        forall b, (b ∈ path -> nthZ (label s') b = Some VERTEX_LABEL_S) /\
                  (b ∉ path -> nthZ (label s') b = nthZ (label s1) b))
     (forEach path (fun blossomIndex => setLabel blossomIndex VERTEX_LABEL_S)) s1.
Proof.
  apply (wp_forEach
           (fun done s' =>
              writesOnly [fLabel] s1 s' /\ length (label s') = length (label s1) /\
              forall b, (b ∈ done -> nthZ (label s') b = Some VERTEX_LABEL_S) /\
                        (b ∉ done -> nthZ (label s') b = nthZ (label s1) b))).
  - intros done x rest sx _ (HW & HL & Hb).
    apply wp_upd_intro. intros s' Hs'. split; [exact I|].
    destruct (setZ (label sx) x VERTEX_LABEL_S) as [l|] eqn:E; [|discriminate].
    injection Hs' as <-.
    split; [apply writesOnly_label_set; exact HW|].
    split; [cbn [label set_label]; rewrite (setZ_length _ _ _ _ E); exact HL|].
    intros b. cbn [label set_label]. split.
    + intros Hin. destruct (Z.eq_dec x b) as [->|Hne].
      * eapply nthZ_setZ_eq; eauto.
      * rewrite (nthZ_setZ_ne _ _ _ _ _ E) by exact Hne.
        apply Hb. apply elem_of_app in Hin. destruct Hin as [Hin|Hin]; [exact Hin|].
        apply list_elem_of_singleton in Hin. congruence.
    + intros Hnin. rewrite not_elem_of_app in Hnin. destruct Hnin as [Hn1 Hn2].
      rewrite (nthZ_setZ_ne _ _ _ _ _ E).
      * apply Hb. exact Hn1.
      * intros ->. apply Hn2. apply list_elem_of_singleton. reflexivity.
  - split; [apply writesOnly_refl|]. split; [reflexivity|].
    intros b. split; [intros H; inversion H|reflexivity].
Qed.

(** X10.  A call of [scanBlossom] that returns has written only [label],
    and each entry of [label] is what it was, or is [S] at a blossom whose
    entry did not have the mark bit 4 set: the marks (label 5) of the walk
    are all replaced by [S]. *)
Theorem scanBlossom_restores_labels (g : Graph) (fuel : nat) (v w : Z)
    (s s' : State) (base : Z) :
  run (scanBlossom g fuel v w) s = Ret base s' ->
  writesOnly [fLabel] s s' /\
  length (label s') = length (label s) /\
  forall b,
    nthZ (label s') b = nthZ (label s) b \/
    (nthZ (label s') b = Some VERTEX_LABEL_S /\
     exists lb, nthZ (label s) b = Some lb /\ Z.land lb 4 = 0).
Proof.
  intros Hrun.
  refine (wp_run anyStore
            (fun _ s' =>
               writesOnly [fLabel] s s' /\
               length (label s') = length (label s) /\
               forall b,
                 nthZ (label s') b = nthZ (label s) b \/
                 (nthZ (label s') b = Some VERTEX_LABEL_S /\
                  exists lb, nthZ (label s) b = Some lb /\ Z.land lb 4 = 0))
            _ _ _ _ _ Hrun).
  unfold scanBlossom. apply wp_bind.
  eapply wp_weaken;
    [|apply (wp_loop (fun st s1 => marksPath st.1.1 s s1)
               (fun r s1 => marksPath r.1 s s1));
      [|apply marksPath_nil]].
  - intros [path base'] s1 (HW & HL & Hm). cbv beta. apply wp_bind.
    eapply wp_weaken; [|apply restore_labels].
    intros [] s2 (HW2 & HL2 & Hr). cbn [wp].
    split; [eapply writesOnly_trans; eauto|]. split; [congruence|].
    intros b. destruct (decide (b ∈ path)) as [Hin|Hnin].
    + right. split; [apply Hr; exact Hin|]. apply Hm. exact Hin.
    + left. destruct (Hr b) as [_ H1]. destruct (Hm b) as [_ H2].
      rewrite H1, H2 by assumption. reflexivity.
  - intros st s1 Hinv. eapply wp_weaken; [|apply scanBlossomStep_marks; exact Hinv].
    intros [st'|[path base']] s2 H; exact H.
Qed.

Lemma scanBlossom_restores_labels_witness :
  let g := initializeGraphProperties sBlossomEdges false in
  let s := storeAt sBlossomEdges 113 in
  exists s',
    run (scanBlossom g 50 1 2) s = Ret 1 s' /\
    writesOnly [fLabel] s s' /\
    length (label s') = length (label s) /\
    forall b,
      nthZ (label s') b = nthZ (label s) b \/
      (nthZ (label s') b = Some VERTEX_LABEL_S /\
       exists lb, nthZ (label s) b = Some lb /\ Z.land lb 4 = 0).
Proof.
  intros g s.
  destruct (run (scanBlossom g 50 1 2) s) as [base s'|h] eqn:R;
    [|vm_compute in R; discriminate R].
  assert (Hb : base = 1) by (vm_compute in R; congruence).
  subst base. exists s'. split; [reflexivity|].
  exact (scanBlossom_restores_labels g 50 1 2 s s' 1 R).
Defined.

(** ** Phase 4 *)

Lemma elem_of_zrange a len v :
  v ∈ zrange a len <-> a <= v < a + len.
Proof.
  unfold zrange. rewrite list_elem_of_fmap. split.
  - intros (i & -> & Hi). apply elem_of_seq in Hi. lia.
  - intros H. exists (Z.to_nat (v - a)). split; [lia|].
    apply elem_of_seq. lia.
Qed.

Lemma NoDup_zrange a len : NoDup (zrange a len).
Proof.
  unfold zrange. apply NoDup_fmap_2; [|apply NoDup_seq].
  intros i j H. lia.
Qed.

Lemma writesOnly_dualVar_set s s1 l :
  writesOnly [fDualVar] s s1 -> writesOnly [fDualVar] s (set_dualVar s1 l).
Proof. intros H. eapply writesOnly_trans; [exact H|]. wr_only. Qed.

Lemma writesOnly_dualVar_fields s s1 :
  writesOnly [fDualVar] s s1 ->
  label s1 = label s /\ inBlossom s1 = inBlossom s /\
  blossomBase s1 = blossomBase s /\ blossomParent s1 = blossomParent s.
Proof.
  intros H.
  assert (G : forall f, f <> fDualVar -> sameField f s s1).
  { intros f Hf. apply H. intros Hin. apply list_elem_of_singleton in Hin. contradiction. }
  repeat split;
    [apply (G fLabel)|apply (G fInBlossom)|apply (G fBlossomBase)
    |apply (G fBlossomParent)]; discriminate.
Qed.

Lemma dual_loop (spec : Z -> (number -> number) -> Prop) (l : list Z)
    (body : Z -> prog unit) s :
  NoDup l ->
  (forall v sx, writesOnly [fDualVar] s sx ->
     wp anyStore
        (fun _ s' =>
           writesOnly [fDualVar] sx s' /\
           length (dualVar s') = length (dualVar sx) /\
           (forall u, u <> v -> nthZ (dualVar s') u = nthZ (dualVar sx) u) /\
           exists F, spec v F /\ nthZ (dualVar s') v = F <$> nthZ (dualVar sx) v)
        (body v) sx) ->
  wp anyStore (fun _ s' => dualsShifted spec l s s') (forEach l body) s.
Proof.
  intros Hnd Hbody.
  apply (wp_forEach (fun done s' => dualsShifted spec done s s')).
  - intros done x rest sx Hl (HW & HL & Hu).
    assert (Hx : x ∉ done).
    { subst l. apply NoDup_app in Hnd. destruct Hnd as (_ & Hd & _).
      intros Hin. apply (Hd x Hin). left. }
    eapply wp_weaken; [|apply Hbody; exact HW].
    intros [] s' (HW' & HL' & Hother & F & HF & Hv).
    split; [eapply writesOnly_trans; eauto|]. split; [congruence|].
    intros u. split.
    + intros Hin. apply elem_of_app in Hin. destruct Hin as [Hin|Hin].
      * destruct (Hu u) as [H1 _]. destruct (H1 Hin) as (F' & HF' & E).
        exists F'. split; [exact HF'|].
        rewrite Hother; [exact E|]. intros ->. contradiction.
      * apply list_elem_of_singleton in Hin. subst u.
        exists F. split; [exact HF|]. rewrite Hv.
        destruct (Hu x) as [_ H2]. rewrite H2 by exact Hx. reflexivity.
    + intros Hnin. rewrite not_elem_of_app in Hnin. destruct Hnin as [Hn1 Hn2].
      rewrite Hother.
      * apply Hu. exact Hn1.
      * intros ->. apply Hn2. apply list_elem_of_singleton. reflexivity.
  - split; [apply writesOnly_refl|]. split; [reflexivity|].
    intros u. split; [intros H; inversion H|reflexivity].
Qed.

(** One write [dualVar[v] = F(dualVar[v])]. *)
Lemma shift_one (P : unit -> State -> Prop) v (F : number -> number) sx :
  (forall s', writesOnly [fDualVar] sx s' ->
     length (dualVar s') = length (dualVar sx) ->
     (forall u, u <> v -> nthZ (dualVar s') u = nthZ (dualVar sx) u) ->
     nthZ (dualVar s') v = F <$> nthZ (dualVar sx) v -> P tt s') ->
  wp anyStore P (let* x := getDualVar v in setDualVar v (F x)) sx.
Proof.
  intros H. apply wp_bind. apply wp_rd_intro. intros x Hx.
  apply wp_upd_intro. intros s' Hs'. split; [exact I|].
  destruct (setZ (dualVar sx) v (F x)) as [l|] eqn:E; [|discriminate].
  injection Hs' as <-. apply H.
  - wr_only.
  - cbn [dualVar set_dualVar]. eapply setZ_length; eauto.
  - intros u Hu. cbn [dualVar set_dualVar]. eapply nthZ_setZ_ne; eauto.
  - cbn [dualVar set_dualVar]. rewrite Hx. eapply nthZ_setZ_eq; eauto.
Qed.

Section ApplyDelta.

Context (d : number) (s : State).

Lemma applyDelta_vertices l s0 :
  NoDup l -> writesOnly [fDualVar] s s0 ->
  wp anyStore (fun _ s' => dualsShifted (vertexSpec d s) l s0 s')
    (forEach l (fun v =>
      let* ib := getInBlossom v in
      let* vertexLabel := getLabel ib in
      if vertexLabel =? VERTEX_LABEL_S then
        let* x := getDualVar v in setDualVar v (jsSub x d)
      else if vertexLabel =? VERTEX_LABEL_T then
        let* x := getDualVar v in setDualVar v (jsAdd x d)
      else skip)) s0.
Proof.
  intros Hnd H0. apply dual_loop; [exact Hnd|].
  intros v sx Hsx.
  assert (HW : writesOnly [fDualVar] s sx) by (eapply writesOnly_trans; eauto).
  destruct (writesOnly_dualVar_fields s sx HW) as (El & Ei & _ & _).
  apply wp_bind. apply wp_rd_intro. intros ib Hib.
  apply wp_bind. apply wp_rd_intro. intros vl Hvl.
  assert (Htop : topLabel s v = Some vl).
  { unfold topLabel. rewrite <- Ei, Hib. cbn [mbind option_bind].
    rewrite <- El. exact Hvl. }
  destruct (vl =? VERTEX_LABEL_S) eqn:ES;
    [|destruct (vl =? VERTEX_LABEL_T) eqn:ET].
  - apply (shift_one _ v (fun x => jsSub x d)).
    intros s' A B C D. repeat split; auto.
    eexists. split; [exists vl; split; [exact Htop|reflexivity]|].
    rewrite D. unfold vertexShift. rewrite ES. reflexivity.
  - apply (shift_one _ v (fun x => jsAdd x d)).
    intros s' A B C D. repeat split; auto.
    eexists. split; [exists vl; split; [exact Htop|reflexivity]|].
    rewrite D. unfold vertexShift. rewrite ES, ET. reflexivity.
  - cbn [skip wp]. split; [apply writesOnly_refl|]. do 2 (split; [reflexivity|]).
    eexists. split; [exists vl; split; [exact Htop|reflexivity]|].
    unfold vertexShift. rewrite ES, ET.
    destruct (nthZ (dualVar sx) v); reflexivity.
Qed.

Lemma applyDelta_blossoms l s0 :
  NoDup l -> writesOnly [fDualVar] s s0 ->
  wp anyStore (fun _ s' => dualsShifted (blossomSpec d s) l s0 s')
    (forEach l (fun b =>
      let* base := getBlossomBase b in
      if base >=? 0 then
        let* par := getBlossomParent b in
        if par =? UNMATCHED then
          let* l := getLabel b in
          if l =? VERTEX_LABEL_S then
            let* x := getDualVar b in setDualVar b (jsAdd x d)
          else if l =? VERTEX_LABEL_T then
            let* x := getDualVar b in setDualVar b (jsSub x d)
          else skip
        else skip
      else skip)) s0.
Proof.
  intros Hnd H0. apply dual_loop; [exact Hnd|].
  intros b sx Hsx.
  assert (HW : writesOnly [fDualVar] s sx) by (eapply writesOnly_trans; eauto).
  destruct (writesOnly_dualVar_fields s sx HW) as (El & _ & Eb & Ep).
  apply wp_bind. apply wp_rd_intro. intros base Hbase. rewrite Eb in Hbase.
  destruct (base >=? 0) eqn:EB.
  2:{ cbn [skip wp]. split; [apply writesOnly_refl|]. do 2 (split; [reflexivity|]).
      eexists. split; [exists UNLABELED; split; [|reflexivity]|].
      - unfold liveBlossomLabel. rewrite Hbase. cbn [mbind option_bind].
        rewrite EB. reflexivity.
      - destruct (nthZ (dualVar sx) b); reflexivity. }
  apply wp_bind. apply wp_rd_intro. intros par Hpar. rewrite Ep in Hpar.
  destruct (par =? UNMATCHED) eqn:EP.
  2:{ cbn [skip wp]. split; [apply writesOnly_refl|]. do 2 (split; [reflexivity|]).
      eexists. split; [exists UNLABELED; split; [|reflexivity]|].
      - unfold liveBlossomLabel. rewrite Hbase. cbn [mbind option_bind].
        rewrite EB, Hpar. cbn [mbind option_bind]. rewrite EP. reflexivity.
      - destruct (nthZ (dualVar sx) b); reflexivity. }
  apply wp_bind. apply wp_rd_intro. intros lb Hlb. rewrite El in Hlb.
  assert (Hlive : liveBlossomLabel s b = Some lb).
  { unfold liveBlossomLabel. rewrite Hbase. cbn [mbind option_bind].
    rewrite EB, Hpar. cbn [mbind option_bind]. rewrite EP. exact Hlb. }
  destruct (lb =? VERTEX_LABEL_S) eqn:ES;
    [|destruct (lb =? VERTEX_LABEL_T) eqn:ET].
  - apply (shift_one _ b (fun x => jsAdd x d)).
    intros s' A B C D. repeat split; auto.
    eexists. split; [exists lb; split; [exact Hlive|reflexivity]|].
    rewrite D. unfold blossomShift. rewrite ES. reflexivity.
  - apply (shift_one _ b (fun x => jsSub x d)).
    intros s' A B C D. repeat split; auto.
    eexists. split; [exists lb; split; [exact Hlive|reflexivity]|].
    rewrite D. unfold blossomShift. rewrite ES, ET. reflexivity.
  - cbn [skip wp]. split; [apply writesOnly_refl|]. do 2 (split; [reflexivity|]).
    eexists. split; [exists lb; split; [exact Hlive|reflexivity]|].
    unfold blossomShift. rewrite ES, ET.
    destruct (nthZ (dualVar sx) b); reflexivity.
Qed.

End ApplyDelta.

Lemma applyDelta_loops (g : Graph) (d : number) (s s' : State) :
  run (applyDelta g d) s = Ret tt s' ->
  exists s1,
    dualsShifted (vertexSpec d s) (zrange 0 (nVertex g)) s s1 /\
    dualsShifted (blossomSpec d s) (zrange (nVertex g) (nVertex g)) s1 s'.
Proof.
  intros Hrun.
  refine (wp_run anyStore
            (fun _ s' => exists s1,
               dualsShifted (vertexSpec d s) (zrange 0 (nVertex g)) s s1 /\
               dualsShifted (blossomSpec d s) (zrange (nVertex g) (nVertex g)) s1 s')
            _ _ _ _ _ Hrun).
  unfold applyDelta. cbv zeta. apply wp_bind.
  eapply wp_weaken;
    [|apply (applyDelta_vertices d s);
      [apply NoDup_zrange|apply writesOnly_refl]].
  intros [] s1 H1. cbv beta.
  eapply wp_weaken;
    [|apply (applyDelta_blossoms d s);
      [apply NoDup_zrange|apply H1]].
  intros [] s2 H2. exists s1. auto.
Qed.

(** X17.  Phase 4 with [delta = d] writes only [dualVar]: the dual variable
    of a vertex goes down by [d] when its top-level blossom is labelled
    [S], up by [d] when it is labelled [T], and stays otherwise; that of a
    blossom slot in use and without parent goes up by [d] for [S] and down
    by [d] for [T]; all other entries stay. *)
Theorem applyDelta_shifts_duals (g : Graph) (d : number) (s s' : State) :
  run (applyDelta g d) s = Ret tt s' ->
  writesOnly [fDualVar] s s' /\
  length (dualVar s') = length (dualVar s) /\
  (forall v, 0 <= v < nVertex g ->
     exists l, topLabel s v = Some l /\
       nthZ (dualVar s') v = vertexShift l d <$> nthZ (dualVar s) v) /\
  (forall b, nVertex g <= b < 2 * nVertex g ->
     exists l, liveBlossomLabel s b = Some l /\
       nthZ (dualVar s') b = blossomShift l d <$> nthZ (dualVar s) b) /\
  (forall x, ~ 0 <= x < 2 * nVertex g ->
     nthZ (dualVar s') x = nthZ (dualVar s) x).
Proof.
  intros Hrun. apply applyDelta_loops in Hrun.
  destruct Hrun as (s1 & (W1 & L1 & H1) & (W2 & L2 & H2)).
  split; [eapply writesOnly_trans; eauto|]. split; [congruence|].
  split; [|split].
  - intros v Hv. destruct (H1 v) as [Hin _].
    destruct Hin as (F & (l & Hl & ->) & E); [apply elem_of_zrange; lia|].
    exists l. split; [exact Hl|].
    destruct (H2 v) as [_ Hout]. rewrite Hout; [exact E|].
    rewrite elem_of_zrange. lia.
  - intros b Hb. destruct (H2 b) as [Hin _].
    destruct Hin as (F & (l & Hl & ->) & E); [apply elem_of_zrange; lia|].
    exists l. split; [exact Hl|]. rewrite E.
    destruct (H1 b) as [_ Hout]. rewrite Hout; [reflexivity|].
    rewrite elem_of_zrange. lia.
  - intros x Hx. destruct (H2 x) as [_ Hout2]. destruct (H1 x) as [_ Hout1].
    rewrite Hout2, Hout1; [reflexivity| |]; rewrite elem_of_zrange; lia.
Qed.

Lemma applyDelta_shifts_duals_witness :
  let g := initializeGraphProperties sBlossomEdges false in
  let s := storeAt sBlossomEdges 149 in
  exists s',
    run (applyDelta g (Fin 2)) s = Ret tt s' /\
    liveBlossomLabel s 9 = Some VERTEX_LABEL_S /\
    writesOnly [fDualVar] s s' /\
    length (dualVar s') = length (dualVar s) /\
    (forall v, 0 <= v < nVertex g ->
       exists l, topLabel s v = Some l /\
         nthZ (dualVar s') v = vertexShift l (Fin 2) <$> nthZ (dualVar s) v) /\
    (forall b, nVertex g <= b < 2 * nVertex g ->
       exists l, liveBlossomLabel s b = Some l /\
         nthZ (dualVar s') b = blossomShift l (Fin 2) <$> nthZ (dualVar s) b) /\
    (forall x, ~ 0 <= x < 2 * nVertex g ->
       nthZ (dualVar s') x = nthZ (dualVar s) x).
Proof.
  intros g s.
  destruct (run (applyDelta g (Fin 2)) s) as [[] s'|h] eqn:R;
    [|vm_compute in R; discriminate R].
  exists s'. split; [reflexivity|]. split; [vm_compute; reflexivity|].
  exact (applyDelta_shifts_duals g (Fin 2) s s' R).
Defined.

Lemma half_onGrid q k :
  (q == k # 2)%Q -> Z.abs k < 2 ^ 53 -> onGrid (-1) q.
Proof.
  intros Hq Hk. exists k. split; [|exact Hk].
  rewrite Hq. rewrite (Qmake_Qdiv k 2). reflexivity.
Qed.

(** Sums and differences of halves, and twice a half, are computed
    exactly. *)
Lemma round64_half q k :
  (q == k # 2)%Q -> Z.abs k < 2 ^ 53 -> round64 q = Fin (Qred q).
Proof.
  intros Hq Hk. apply (round64_exact (-1)); [lia|].
  exact (half_onGrid q k Hq Hk).
Qed.

Lemma half_plus a b ka kb :
  (a == ka # 2)%Q -> (b == kb # 2)%Q -> (a + b == (ka + kb) # 2)%Q.
Proof.
  intros -> ->. rewrite !Qmake_Qdiv, inject_Z_plus. field.
Qed.

Lemma half_minus a b ka kb :
  (a == ka # 2)%Q -> (b == kb # 2)%Q -> (a - b == (ka - kb) # 2)%Q.
Proof.
  intros -> ->. rewrite !Qmake_Qdiv. unfold Z.sub.
  rewrite inject_Z_plus, inject_Z_opp. field.
Qed.

Lemma half_double a ka : (a == ka # 2)%Q -> (2 * a == (2 * ka) # 2)%Q.
Proof.
  intros ->. rewrite !Qmake_Qdiv, inject_Z_mult. field.
Qed.

Lemma slackValue_half a b w ka kb kw :
  (a == ka # 2)%Q -> (b == kb # 2)%Q -> (w == kw # 2)%Q ->
  Z.abs ka <= 2 ^ 51 -> Z.abs kb <= 2 ^ 51 -> Z.abs kw <= 2 ^ 50 ->
  exists r, slackValue (Fin a) (Fin b) w = Fin r /\ (r == a + b - 2 * w)%Q.
Proof.
  intros Ha Hb Hw Ka Kb Kw. unfold slackValue. cbn [jsAdd jsMul].
  rewrite (round64_half (a + b) (ka + kb) (half_plus _ _ _ _ Ha Hb)) by lia.
  rewrite (round64_half (2 * w) (2 * kw) (half_double _ _ Hw)) by lia.
  cbn [jsSub].
  assert (E : (Qred (a + b) - Qred (2 * w) == (ka + kb - 2 * kw) # 2)%Q).
  { rewrite !Qred_correct. apply half_minus.
    - apply half_plus; assumption.
    - apply half_double; assumption. }
  rewrite (round64_half _ _ E) by lia.
  eexists. split; [reflexivity|]. rewrite !Qred_correct. reflexivity.
Qed.

Lemma vertexShift_half l d x qd kd q k :
  d = Fin qd -> (qd == kd # 2)%Q -> Z.abs kd <= 2 ^ 50 ->
  x = Fin q -> (q == k # 2)%Q -> Z.abs k <= 2 ^ 50 ->
  exists q' k', vertexShift l d x = Fin q' /\ (q' == k' # 2)%Q /\
    Z.abs k' <= 2 ^ 51 /\ (q' == q + labelSign l * qd)%Q.
Proof.
  intros -> Hd Kd -> Hq Kq. unfold vertexShift, labelSign.
  destruct (l =? VERTEX_LABEL_S).
  - cbn [jsSub].
    rewrite (round64_half (q - qd) (k - kd) (half_minus _ _ _ _ Hq Hd)) by lia.
    exists (Qred (q - qd)), (k - kd). split; [reflexivity|].
    rewrite Qred_correct. split; [apply half_minus; assumption|].
    split; [lia|ring].
  - destruct (l =? VERTEX_LABEL_T).
    + cbn [jsAdd].
      rewrite (round64_half (q + qd) (k + kd) (half_plus _ _ _ _ Hq Hd)) by lia.
      exists (Qred (q + qd)), (k + kd). split; [reflexivity|].
      rewrite Qred_correct. split; [apply half_plus; assumption|].
      split; [lia|ring].
    + exists q, k. split; [reflexivity|]. split; [exact Hq|].
      split; [lia|ring].
Qed.

(** X18.  When delta, the weight of an edge and the dual variables of its
    two ends are integer multiples of 1/2 of magnitude at most [2^49], the
    arithmetic of phase 4 and of [slack] is exact: phase 4 with
    [delta = d] changes the slack of the edge by [d] times the sum of the
    signs of its two ends, the sign of an end being -1 under a top-level
    [S], 1 under a top-level [T] and 0 otherwise. *)
Theorem applyDelta_slack (g : Graph) (d : number) (s s' : State)
    (k i j : Z) (w : Q) (sl : number) :
  run (applyDelta g d) s = Ret tt s' ->
  nthZ (edges g) k = Some (i, j, w) ->
  0 <= i < nVertex g -> 0 <= j < nVertex g ->
  slackOf g s k = Some sl ->
  smallHalf d -> smallHalf (Fin w) ->
  (forall x, nthZ (dualVar s) i = Some x -> smallHalf x) ->
  (forall x, nthZ (dualVar s) j = Some x -> smallHalf x) ->
  exists li lj q q' qd,
    topLabel s i = Some li /\ topLabel s j = Some lj /\
    sl = Fin q /\ d = Fin qd /\ slackOf g s' k = Some (Fin q') /\
    (q' == q + (labelSign li + labelSign lj) * qd)%Q.
Proof.
  intros Hrun Hk Hi Hj Hsl Hd Hw Hdi Hdj. apply applyDelta_loops in Hrun.
  destruct Hrun as (s1 & (W1 & L1 & H1) & (W2 & L2 & H2)).
  assert (Hv : forall v, 0 <= v < nVertex g ->
            exists l, topLabel s v = Some l /\
              nthZ (dualVar s') v = vertexShift l d <$> nthZ (dualVar s) v).
  { intros v Hv. destruct (H1 v) as [Hin _].
    destruct Hin as (F & (l & Hl & ->) & E); [apply elem_of_zrange; lia|].
    exists l. split; [exact Hl|].
    destruct (H2 v) as [_ Hout]. rewrite Hout; [exact E|].
    rewrite elem_of_zrange. lia. }
  destruct (Hv i Hi) as (li & Hli & Ei). destruct (Hv j Hj) as (lj & Hlj & Ej).
  unfold slackOf in Hsl |- *. rewrite Hk in Hsl |- *.
  cbn [mbind option_bind] in Hsl |- *.
  destruct (nthZ (dualVar s) i) as [d1|] eqn:D1; [|discriminate].
  cbn [mbind option_bind] in Hsl.
  destruct (nthZ (dualVar s) j) as [d2|] eqn:D2; [|discriminate].
  cbn [mbind option_bind] in Hsl. injection Hsl as <-.
  rewrite Ei, Ej. cbn [fmap option_fmap option_map mbind option_bind].
  destruct Hd as (qd & kd & Ed & Hqd & Kd).
  destruct Hw as (qw & kw & Ew & Hqw & Kw). injection Ew as <-.
  destruct (Hdi d1 eq_refl) as (q1 & k1 & E1 & Hq1 & K1).
  destruct (Hdj d2 eq_refl) as (q2 & k2 & E2 & Hq2 & K2).
  destruct (vertexShift_half li d d1 qd kd q1 k1 Ed Hqd Kd E1 Hq1 K1)
    as (q1' & k1' & S1 & Hq1' & K1' & V1).
  destruct (vertexShift_half lj d d2 qd kd q2 k2 Ed Hqd Kd E2 Hq2 K2)
    as (q2' & k2' & S2 & Hq2' & K2' & V2).
  rewrite S1, S2. subst d1 d2.
  destruct (slackValue_half q1 q2 w k1 k2 kw Hq1 Hq2 Hqw) as (r & Er & Hr);
    [lia|lia|lia|].
  destruct (slackValue_half q1' q2' w k1' k2' kw Hq1' Hq2' Hqw) as (r' & Er' & Hr');
    [lia|lia|lia|].
  exists li, lj, r, r', qd. split; [exact Hli|]. split; [exact Hlj|].
  split; [exact Er|]. split; [exact Ed|]. split; [rewrite Er'; reflexivity|].
  rewrite Hr', Hr, V1, V2. ring.
Qed.

Lemma applyDelta_slack_witness :
  let g := initializeGraphProperties sBlossomEdges false in
  let s := storeAt sBlossomEdges 149 in
  exists s',
    run (applyDelta g (Fin 2)) s = Ret tt s' /\
    nthZ (edges g) 3 = Some (3, 4, 7%Q) /\
    0 <= 3 < nVertex g /\ 0 <= 4 < nVertex g /\
    slackOf g s 3 = Some (Fin 4) /\
    smallHalf (Fin 2) /\ smallHalf (Fin 7) /\
    nthZ (dualVar s) 3 = Some (Fin 11) /\
    nthZ (dualVar s) 4 = Some (Fin 7) /\
    smallHalf (Fin 11) /\
    exists li lj q q' qd,
      topLabel s 3 = Some li /\ topLabel s 4 = Some lj /\
      Fin 4 = Fin q /\ Fin 2 = Fin qd /\ slackOf g s' 3 = Some (Fin q') /\
      (q' == q + (labelSign li + labelSign lj) * qd)%Q.
Proof.
  intros g s.
  destruct (run (applyDelta g (Fin 2)) s) as [[] s'|h] eqn:R;
    [|vm_compute in R; discriminate R].
  assert (Hk : nthZ (edges g) 3 = Some (3, 4, 7%Q)) by reflexivity.
  assert (Hi : 0 <= 3 < nVertex g) by (vm_compute; split; [discriminate|reflexivity]).
  assert (Hj : 0 <= 4 < nVertex g) by (vm_compute; split; [discriminate|reflexivity]).
  assert (Hsl : slackOf g s 3 = Some (Fin 4)) by (vm_compute; reflexivity).
  assert (H2 : smallHalf (Fin 2))
    by (exists 2%Q, 4; split; [reflexivity|split; [reflexivity|vm_compute; discriminate]]).
  assert (H7 : smallHalf (Fin 7))
    by (exists 7%Q, 14; split; [reflexivity|split; [reflexivity|vm_compute; discriminate]]).
  assert (H11 : smallHalf (Fin 11))
    by (exists 11%Q, 22; split; [reflexivity|split; [reflexivity|vm_compute; discriminate]]).
  assert (D3 : nthZ (dualVar s) 3 = Some (Fin 11)) by (vm_compute; reflexivity).
  assert (D4 : nthZ (dualVar s) 4 = Some (Fin 7)) by (vm_compute; reflexivity).
  exists s'. do 10 (split; [assumption || reflexivity|]).
  apply (applyDelta_slack g (Fin 2) s s' 3 3 4 7%Q (Fin 4) R Hk Hi Hj Hsl H2 H7).
  - intros x Hx. rewrite D3 in Hx. injection Hx as <-. exact H11.
  - intros x Hx. rewrite D4 in Hx. injection Hx as <-. exact H7.
Defined.

(** ** [expandBlossom] *)

Lemma expandEffect_refl s : expandEffect s s.
Proof. repeat split; auto. Qed.

Lemma expandEffect_trans s1 s2 s3 :
  expandEffect s1 s2 -> expandEffect s2 s3 -> expandEffect s1 s3.
Proof.
  intros (A1 & B1 & C1 & D1) (A2 & B2 & C2 & D2).
  repeat split; try congruence. auto.
Qed.

Lemma expandEffect_frame s s' :
  mate s' = mate s -> dualVar s' = dualVar s ->
  blossomParent s' = blossomParent s -> expandEffect s s'.
Proof. intros A B C. unfold expandEffect. rewrite A, B, C. auto. Qed.

#[global] Hint Extern 1 (expandEffect _ _) =>
  (apply expandEffect_frame; reflexivity) : writes.

Lemma expandEffect_free s x l :
  setZ (blossomParent s) x (-1) = Some l ->
  expandEffect s (set_blossomParent s l).
Proof.
  intros H. split; [reflexivity|]. split; [reflexivity|].
  split; [cbn; eapply setZ_length; eauto|].
  intros y Hy. cbn [blossomParent set_blossomParent].
  destruct (Z.eq_dec x y) as [->|Hne].
  - eapply nthZ_setZ_eq; eauto.
  - erewrite nthZ_setZ_ne; eauto.
Qed.

Section ExpandEffect.

Context (g : Graph) (fuel : nat).

Lemma expand_freeParent x :
  respects expandEffect anyValue (setBlossomParent x (-1)).
Proof.
  apply respects_upd. intros s s' H.
  destruct (setZ (blossomParent s) x (-1)) as [l|] eqn:E; [|discriminate].
  injection H as <-. eapply expandEffect_free; eauto.
Qed.

Hint Resolve expand_freeParent : resp.

Lemma expand_expandBlossomRec n b endStage :
  respects expandEffect anyValue (expandBlossomRec g fuel n b endStage).
Proof.
  revert b endStage. induction n as [|n IH]; intros; cbn [expandBlossomRec]; resp_go.
Qed.

End ExpandEffect.

Lemma release_slot (b : Z) (s : State) :
  wp anyStore
     (fun _ s' => slotReleased b s' /\ mate s' = mate s /\
                  dualVar s' = dualVar s /\ blossomParent s' = blossomParent s)
     (let* _ := setLabelEnd b UNMATCHED in
      let* _ := setLabel b UNMATCHED in
      let* _ := setBlossomEndPs b [] in
      let* _ := setBlossomChilds b [] in
      let* _ := setBlossomBase b UNMATCHED in
      let* _ := setBlossomBestEdges b [] in
      let* _ := setBestEdge b UNMATCHED in
      unusedPush b) s.
Proof.
  unfold setLabelEnd, setLabel, setBlossomEndPs, setBlossomChilds,
    setBlossomBase, setBlossomBestEdges, setBestEdge, unusedPush.
  apply wp_bind. apply wp_upd_intro. intros s1 H1. split; [exact I|].
  destruct (setZ (labelEnd s) _ _) as [l1|] eqn:E1; [|discriminate]. injection H1 as <-.
  apply wp_bind. apply wp_upd_intro. intros s2 H2. split; [exact I|].
  cbn in H2. destruct (setZ (label s) _ _) as [l2|] eqn:E2; [|discriminate]. injection H2 as <-.
  apply wp_bind. apply wp_upd_intro. intros s3 H3. split; [exact I|].
  cbn in H3. destruct (setZ (blossomEndPs s) _ _) as [l3|] eqn:E3; [|discriminate]. injection H3 as <-.
  apply wp_bind. apply wp_upd_intro. intros s4 H4. split; [exact I|].
  cbn in H4. destruct (setZ (blossomChilds s) _ _) as [l4|] eqn:E4; [|discriminate]. injection H4 as <-.
  apply wp_bind. apply wp_upd_intro. intros s5 H5. split; [exact I|].
  cbn in H5. destruct (setZ (blossomBase s) _ _) as [l5|] eqn:E5; [|discriminate]. injection H5 as <-.
  apply wp_bind. apply wp_upd_intro. intros s6 H6. split; [exact I|].
  cbn in H6. destruct (setZ (blossomBestEdges s) _ _) as [l6|] eqn:E6; [|discriminate]. injection H6 as <-.
  apply wp_bind. apply wp_upd_intro. intros s7 H7. split; [exact I|].
  cbn in H7. destruct (setZ (bestEdge s) _ _) as [l7|] eqn:E7; [|discriminate]. injection H7 as <-.
  apply wp_upd_intro. intros s8 H8. split; [exact I|].
  cbn in H8. injection H8 as <-. cbn.
  split; [|auto].
  unfold slotReleased. cbn.
  repeat split; try (eapply nthZ_setZ_eq; eassumption).
  apply last_snoc.
Qed.

(** X12.  A call [expandBlossom(b, endStage)] that returns leaves slot [b]
    free: no base, children, endpoints, best edges, label or labelling
    endpoint, and [b] on top of [unusedBlossoms]; every former child of
    [b] has no parent; the matching and the dual variables are unchanged. *)
Theorem expandBlossom_releases_slot (g : Graph) (fuel : nat) (b : Z)
    (endStage : bool) (s s' : State) :
  run (expandBlossom g fuel b endStage) s = Ret tt s' ->
  slotReleased b s' /\
  mate s' = mate s /\ dualVar s' = dualVar s /\
  forall childs c, nthZ (blossomChilds s) b = Some childs -> c ∈ childs ->
    nthZ (blossomParent s') c = Some UNMATCHED.
Proof.
  intros Hrun.
  refine (wp_run anyStore
            (fun _ s' =>
               slotReleased b s' /\
               mate s' = mate s /\ dualVar s' = dualVar s /\
               forall childs c, nthZ (blossomChilds s) b = Some childs ->
                 c ∈ childs -> nthZ (blossomParent s') c = Some UNMATCHED)
            _ _ _ _ _ Hrun).
  unfold expandBlossom. destruct fuel as [|n]; [exact I|].
  cbn [expandBlossomRec].
  apply wp_bind. apply wp_rd_intro. intros childs Hchilds.
  apply wp_bind.
  eapply wp_weaken;
    [|apply (wp_forEach
               (fun done sx => expandEffect s sx /\
                  forall c, c ∈ done -> nthZ (blossomParent sx) c = Some UNMATCHED))].
  - intros [] s1 [He1 Hp1]. cbv beta.
    eapply (wp_step expandEffect s1);
      [exact expandEffect_trans|solve [resp_go]|apply expandEffect_refl|].
    intros relabel s2 He2.
    eapply (wp_step expandEffect s1);
      [exact expandEffect_trans|solve [resp_go]|exact He2|].
    intros _ s3 He3.
    eapply wp_weaken; [|apply release_slot].
    intros [] s4 (Hrel & Em & Ed & Ep).
    destruct (expandEffect_trans _ _ _ He1 He3) as (A & B & _ & _).
    split; [exact Hrel|]. split; [congruence|]. split; [congruence|].
    intros childs' c Hc' Hc. rewrite Hchilds in Hc'. injection Hc' as <-.
    rewrite Ep. destruct He3 as (_ & _ & _ & Hmono). apply Hmono.
    apply Hp1. exact Hc.
  - intros done x rest sx _ [Hex Hpx].
    apply wp_bind. apply wp_upd_intro. intros sx1 Hsx1. split; [exact I|].
    destruct (setZ (blossomParent sx) x (-1)) as [l|] eqn:E; [|discriminate].
    injection Hsx1 as <-.
    pose proof (expandEffect_free sx x l E) as Hfree.
    eapply wp_weaken;
      [|apply (wp_of_respects expandEffect _ (set_blossomParent sx l)
                 (set_blossomParent sx l) expandEffect_trans);
        [|apply expandEffect_refl]].
    + intros [] sx2 Hsx2.
      split; [eapply expandEffect_trans; [exact Hex|];
              eapply expandEffect_trans; [exact Hfree|exact Hsx2]|].
      intros c Hc. destruct Hsx2 as (_ & _ & _ & Hmono). apply Hmono.
      cbn [blossomParent set_blossomParent].
      apply elem_of_app in Hc. destruct Hc as [Hc|Hc].
      * destruct Hfree as (_ & _ & _ & Hm0). apply Hm0. apply Hpx. exact Hc.
      * apply list_elem_of_singleton in Hc. subst c.
        eapply nthZ_setZ_eq; eauto.
    + destruct (x <? nVertex g); [solve [resp_go]|].
      apply (respects_bind anyValue); [solve [resp_go]|]. intros zeroDual _.
      destruct zeroDual; [apply expand_expandBlossomRec|solve [resp_go]].
  - split; [apply expandEffect_refl|]. intros c Hc. inversion Hc.
Qed.

Lemma expandBlossom_releases_slot_witness :
  let g := initializeGraphProperties tBlossomEdges false in
  let s := storeAt tBlossomEdges 402 in
  exists s',
    run (expandBlossom g 50 17 false) s = Ret tt s' /\
    nthZ (blossomChilds s) 17 = Some [1; 2; 3; 4; 5] /\
    slotReleased 17 s' /\
    mate s' = mate s /\ dualVar s' = dualVar s /\
    forall childs c, nthZ (blossomChilds s) 17 = Some childs -> c ∈ childs ->
      nthZ (blossomParent s') c = Some UNMATCHED.
Proof.
  intros g s.
  destruct (run (expandBlossom g 50 17 false) s) as [[] s'|h] eqn:R;
    [|vm_compute in R; discriminate R].
  exists s'. split; [reflexivity|]. split; [vm_compute; reflexivity|].
  exact (expandBlossom_releases_slot g 50 17 false s s' R).
Defined.

(** ** [addBlossom] *)

Ltac not_elem :=
  let Hin := fresh in
  intros Hin;
  repeat (apply elem_of_cons in Hin; destruct Hin as [Hin|Hin]; [discriminate Hin|]);
  inversion Hin.

Ltac field_eq H f E := pose proof (H f ltac:(not_elem)) as E; simpl in E.

Ltac fields_in H :=
  cbn [mate label labelNeg1 labelEnd inBlossom blossomParent blossomChilds
       blossomBase blossomEndPs bestEdge blossomBestEdges unusedBlossoms
       dualVar allowEdge queue
       set_mate set_label set_labelNeg1 set_labelEnd set_inBlossom
       set_blossomParent set_blossomChilds set_blossomBase set_blossomEndPs
       set_bestEdge set_blossomBestEdges set_unusedBlossoms set_dualVar
       set_allowEdge set_queue] in H.

Tactic Notation "wp_read" ident(x) ident(Hx) :=
  apply wp_bind; apply wp_rd_intro; intros x Hx; fields_in Hx.

Tactic Notation "wp_write" ident(s') ident(E) :=
  apply wp_bind; apply wp_upd_intro;
  let H := fresh "H" in
  intros s' H; split; [exact I|];
  match type of H with
  | _ <$> ?o = Some _ => destruct o eqn:E; [|discriminate H]
  end;
  injection H as <-; fields_in E.

Lemma wp_pushChild {B} (P : B -> State -> Prop) b x (k : unit -> prog B) sx :
  (forall c l, nthZ (blossomChilds sx) b = Some c ->
     setZ (blossomChilds sx) b (c ++ [x]) = Some l ->
     wp anyStore P (k tt) (set_blossomChilds sx l)) ->
  wp anyStore P (bind (pushChild b x) k) sx.
Proof.
  intros H. unfold pushChild. apply wp_bind. apply wp_bind.
  apply wp_rd_intro. intros c Hc. apply wp_upd_intro. intros s' Hs'.
  split; [exact I|].
  destruct (setZ (blossomChilds sx) b (c ++ [x])) as [l|] eqn:E; [|discriminate].
  injection Hs' as <-. exact (H c l Hc E).
Qed.

Lemma wp_pushEndP {B} (P : B -> State -> Prop) b x (k : unit -> prog B) sx :
  (forall e l, nthZ (blossomEndPs sx) b = Some e ->
     setZ (blossomEndPs sx) b (e ++ [x]) = Some l ->
     wp anyStore P (k tt) (set_blossomEndPs sx l)) ->
  wp anyStore P (bind (pushEndP b x) k) sx.
Proof.
  intros H. unfold pushEndP. apply wp_bind. apply wp_bind.
  apply wp_rd_intro. intros c Hc. apply wp_upd_intro. intros s' Hs'.
  split; [exact I|].
  destruct (setZ (blossomEndPs sx) b (c ++ [x])) as [l|] eqn:E; [|discriminate].
  injection Hs' as <-. exact (H c l Hc E).
Qed.

Section AddBlossom.

Context (g : Graph) (fuel : nat).

(** The two loops that walk from an end of the closing edge to the base. *)
Lemma addBlossom_walk (b baseBlossom : Z) (opp : bool)
    (x0 : Z) (s0 sx : State) (I : State -> Prop) :
  (forall sa, I sa -> forall sb,
     writesOnly [fBlossomParent] sa sb -> I sb) ->
  (forall sa c e lc le x y,
     I sa -> nthZ (blossomChilds sa) b = Some c ->
     setZ (blossomChilds sa) b (c ++ [x]) = Some lc ->
     nthZ (blossomEndPs sa) b = Some e ->
     setZ (blossomEndPs sa) b (e ++ [y]) = Some le ->
     I (set_blossomEndPs (set_blossomChilds sa lc) le)) ->
  writesOnly [fBlossomParent; fBlossomChilds; fBlossomEndPs] s0 sx -> I sx ->
  wp anyStore
     (fun _ s' =>
        writesOnly [fBlossomParent; fBlossomChilds; fBlossomEndPs] s0 s' /\ I s')
     (loop fuel (fun xBlossom =>
        if xBlossom =? baseBlossom then Pure (inr tt)
        else
          let* _ := setBlossomParent xBlossom b in
          let* _ := pushChild b xBlossom in
          let* le := getLabelEnd xBlossom in
          let* _ := pushEndP b (if opp then getOppositeEndpoint le else le) in
          let* le := getLabelEnd xBlossom in
          let* xNext := getEndpoint g le in
          let* xBlossom := getInBlossom xNext in
          Pure (inl xBlossom)) x0) sx.
Proof.
  intros Hpar Hpush HW HI.
  apply (wp_loop (fun _ s' =>
           writesOnly [fBlossomParent; fBlossomChilds; fBlossomEndPs] s0 s' /\ I s'));
    [|split; assumption].
  clear sx HW HI. intros x sx [HW HI].
  destruct (x =? baseBlossom); [simpl; auto|].
  unfold setBlossomParent. wp_write s1 E1.
  assert (W1 : writesOnly [fBlossomParent] sx (set_blossomParent sx l)) by wr_only.
  pose proof (Hpar _ HI _ W1) as HI1.
  apply wp_pushChild. intros c lc Hc Elc.
  wp_read le1 Hle1.
  apply wp_pushEndP. intros e le' He Ele.
  wp_read le2 Hle2. unfold getEndpoint. apply wp_bind. apply wp_lift_intro.
  intros xn _. wp_read xb Hxb. simpl. split.
  - eapply writesOnly_trans; [exact HW|]. wr_only.
  - eapply Hpush; eauto.
Qed.

End AddBlossom.

Lemma balanced_parent b sa sb :
  balancedBlossom b sa -> writesOnly [fBlossomParent] sa sb ->
  balancedBlossom b sb.
Proof.
  intros (c & e & Hc & He & HL) H.
  field_eq H fBlossomChilds E1. field_eq H fBlossomEndPs E2.
  exists c, e. rewrite E1, E2. auto.
Qed.

Lemma closed_parent b first sa sb :
  closedBlossom b first sa -> writesOnly [fBlossomParent] sa sb ->
  closedBlossom b first sb.
Proof.
  intros (c & e & Hc & He & HL) H.
  field_eq H fBlossomChilds E1. field_eq H fBlossomEndPs E2.
  exists c, e. rewrite E1, E2. auto.
Qed.

Lemma balanced_push b sa c e lc le x y :
  balancedBlossom b sa -> nthZ (blossomChilds sa) b = Some c ->
  setZ (blossomChilds sa) b (c ++ [x]) = Some lc ->
  nthZ (blossomEndPs sa) b = Some e ->
  setZ (blossomEndPs sa) b (e ++ [y]) = Some le ->
  balancedBlossom b (set_blossomEndPs (set_blossomChilds sa lc) le).
Proof.
  intros (c' & e' & Hc' & He' & HL) Hc Elc He Ele.
  rewrite Hc in Hc'. rewrite He in He'. injection Hc' as <-. injection He' as <-.
  exists (c ++ [x]), (e ++ [y]). cbn.
  split; [eapply nthZ_setZ_eq; eauto|]. split; [eapply nthZ_setZ_eq; eauto|].
  rewrite !length_app. simpl. lia.
Qed.

Lemma closed_push b first sa c e lc le x y :
  closedBlossom b first sa -> nthZ (blossomChilds sa) b = Some c ->
  setZ (blossomChilds sa) b (c ++ [x]) = Some lc ->
  nthZ (blossomEndPs sa) b = Some e ->
  setZ (blossomEndPs sa) b (e ++ [y]) = Some le ->
  closedBlossom b first (set_blossomEndPs (set_blossomChilds sa lc) le).
Proof.
  intros (tl & e' & Hc' & He' & HL) Hc Elc He Ele.
  rewrite Hc in Hc'. rewrite He in He'. injection Hc' as ->. injection He' as <-.
  exists (tl ++ [x]), (e ++ [y]). cbn.
  split; [eapply nthZ_setZ_eq; eauto|]. split; [eapply nthZ_setZ_eq; eauto|].
  rewrite !length_app. simpl. lia.
Qed.

(** X11.  A call [addBlossom(base, k)] that returns has taken the blossom
    [b] on top of [unusedBlossoms]; [b] has base [base], the blossom of
    [base] as first child, one endpoint per child, label [S] and dual
    variable 0; every leaf of [b] has [inBlossom] equal to [b]; the
    matching, the allowed edges and the other dual variables are
    unchanged. *)
Theorem addBlossom_creates_S_blossom (g : Graph) (fuel : nat) (base k : Z)
    (s s' : State) :
  run (addBlossom g fuel base k) s = Ret tt s' ->
  exists b baseBlossom,
    last (unusedBlossoms s) = Some b /\
    unusedBlossoms s' = removelast (unusedBlossoms s) /\
    nthZ (inBlossom s) base = Some baseBlossom /\
    nthZ (blossomBase s') b = Some base /\
    closedBlossom b baseBlossom s' /\
    nthZ (label s') b = Some VERTEX_LABEL_S /\
    nthZ (dualVar s') b = Some (Fin zeroQ) /\
    (forall x, x <> b -> nthZ (dualVar s') x = nthZ (dualVar s) x) /\
    mate s' = mate s /\ allowEdge s' = allowEdge s /\
    exists leaves,
      blossomLeavesOf g fuel (blossomChilds s') b = Some leaves /\
      forall v, v ∈ leaves -> nthZ (inBlossom s') v = Some b.
Proof.
  intros Hrun.
  refine (wp_run anyStore
    (fun _ s' =>
      exists b baseBlossom,
        last (unusedBlossoms s) = Some b /\
        unusedBlossoms s' = removelast (unusedBlossoms s) /\
        nthZ (inBlossom s) base = Some baseBlossom /\
        nthZ (blossomBase s') b = Some base /\
        closedBlossom b baseBlossom s' /\
        nthZ (label s') b = Some VERTEX_LABEL_S /\
        nthZ (dualVar s') b = Some (Fin zeroQ) /\
        (forall x, x <> b -> nthZ (dualVar s') x = nthZ (dualVar s) x) /\
        mate s' = mate s /\ allowEdge s' = allowEdge s /\
        exists leaves,
          blossomLeavesOf g fuel (blossomChilds s') b = Some leaves /\
          forall v, v ∈ leaves -> nthZ (inBlossom s') v = Some b)
    _ _ _ _ _ Hrun).
  clear Hrun s'. unfold addBlossom.
  (* the reads that open the method *)
  unfold getEdge. apply wp_bind. apply wp_lift_intro. intros [[v w] q] _.
  wp_read baseBlossom Hbb. wp_read vBlossom Hvb. wp_read wBlossom Hwb.
  (* b = unusedBlossoms.pop() *)
  unfold unusedPop. apply wp_bind. apply wp_bind. apply wp_rd_intro.
  intros b Hb. apply wp_bind. apply wp_upd_intro. intros s1 Hs1.
  split; [exact I|]. injection Hs1 as <-. cbn [wp].
  set (s1 := set_unusedBlossoms s (removelast (unusedBlossoms s))).
  (* blossomBase[b] = base *)
  unfold setBlossomBase. wp_write s2 Ebase.
  set (s2 := set_blossomBase s1 l).
  assert (Hbase2 : nthZ (blossomBase s2) b = Some base)
    by (eapply nthZ_setZ_eq; eauto).
  pose proof (writesOnly_trans [fBlossomParent; fBlossomChilds; fBlossomEndPs])
    as HtransB.
  set (RB := writesOnly [fBlossomParent; fBlossomChilds; fBlossomEndPs]) in *.
  eapply (wp_step RB s2); [exact HtransB|solve [resp_go]|apply writesOnly_refl|].
  intros _ s3 H3.
  eapply (wp_step RB s2); [exact HtransB|solve [resp_go]|exact H3|].
  intros _ s4 H4.
  unfold setBlossomChilds. wp_write s5 Ec5.
  unfold setBlossomEndPs. wp_write s6 Ee6.
  set (s6 := set_blossomEndPs (set_blossomChilds s4 l0) l1).
  assert (H6 : RB s2 s6).
  { eapply HtransB; [exact H4|]. unfold s6. wr_only. }
  assert (Hbal6 : balancedBlossom b s6).
  { exists [], []. unfold s6. cbn.
    split; [eapply nthZ_setZ_eq; eauto|]. split; [eapply nthZ_setZ_eq; eauto|].
    reflexivity. }
  (* the walk from v to the base *)
  apply wp_bind.
  eapply wp_weaken;
    [|apply (addBlossom_walk g fuel b baseBlossom false vBlossom s2 s6
               (balancedBlossom b));
      [intros; eapply balanced_parent; eauto
      |intros; eapply balanced_push; eauto
      |exact H6|exact Hbal6]].
  intros [] s7 [H7 Hbal7]. cbv beta.
  (* path.push(baseBlossom); path.reverse(); endPs.reverse(); endPs.push(2k) *)
  apply wp_pushChild. intros c lc Hc Elc.
  wp_read path Hpath. unfold setBlossomChilds. wp_write s9 Ec9.
  wp_read endPs HendPs. unfold setBlossomEndPs. wp_write s10 Ee10.
  apply wp_pushEndP. intros e le He Ele.
  match goal with |- wp _ _ _ ?st => set (s11 := st) end.
  assert (H11 : RB s2 s11).
  { eapply HtransB; [exact H7|]. unfold s11. wr_only. }
  assert (Hclosed11 : closedBlossom b baseBlossom s11).
  { destruct Hbal7 as (c7 & e7 & Hc7 & He7 & HL7).
    rewrite Hc7 in Hc. injection Hc as <-.
    cbn in Hpath. rewrite (nthZ_setZ_eq _ _ _ _ Elc) in Hpath.
    injection Hpath as <-.
    cbn in HendPs. rewrite He7 in HendPs. injection HendPs as <-.
    cbn in He. rewrite (nthZ_setZ_eq _ _ _ _ Ee10) in He. injection He as <-.
    exists (rev c7), (rev e7 ++ [EDGE_ENDPOINT_COUNT * k]). unfold s11. cbn.
    split; [rewrite (nthZ_setZ_eq _ _ _ _ Ec9), rev_app_distr; reflexivity|].
    split; [eapply nthZ_setZ_eq; eauto|].
    rewrite length_app, !length_rev. simpl. lia. }
  clearbody s11.
  (* the walk from w to the base *)
  apply wp_bind.
  eapply wp_weaken;
    [|apply (addBlossom_walk g fuel b baseBlossom true wBlossom s2 s11
               (closedBlossom b baseBlossom));
      [intros; eapply closed_parent; eauto
      |intros; eapply closed_push; eauto
      |exact H11|exact Hclosed11]].
  intros [] s12 [H12 Hclosed12]. cbv beta.
  (* label[b] = S; labelEnd[b] = labelEnd[baseBlossom]; dualVar[b] = 0 *)
  unfold setLabel. wp_write s13 El13.
  wp_read le13 Hle13. unfold setLabelEnd. wp_write s14 Ele14.
  unfold setDualVar. wp_write s15 Ed15.
  match goal with |- wp _ _ _ ?st => set (s15 := st) end.
  assert (Hlabel15 : nthZ (label s15) b = Some VERTEX_LABEL_S).
  { unfold s15. cbn. eapply nthZ_setZ_eq; eauto. }
  assert (Hdual15 : nthZ (dualVar s15) b = Some (Fin zeroQ)).
  { unfold s15. cbn. eapply nthZ_setZ_eq; eauto. }
  field_eq H12 fDualVar ED. field_eq H12 fBlossomBase EBB.
  field_eq H12 fMate EM. field_eq H12 fAllowEdge EA.
  field_eq H12 fUnusedBlossoms EU.
  assert (Hdual15' : forall x, x <> b -> nthZ (dualVar s15) x = nthZ (dualVar s) x).
  { intros x Hx. unfold s15. cbn.
    rewrite (nthZ_setZ_ne _ _ _ _ _ Ed15) by congruence.
    rewrite ED. reflexivity. }
  assert (Hrest15 : blossomBase s15 = blossomBase s2 /\ mate s15 = mate s /\
                    allowEdge s15 = allowEdge s /\
                    unusedBlossoms s15 = removelast (unusedBlossoms s) /\
                    blossomChilds s15 = blossomChilds s12 /\
                    blossomEndPs s15 = blossomEndPs s12).
  { unfold s15. cbn. rewrite EBB, EM, EA, EU. repeat split; reflexivity. }
  destruct Hrest15 as (F1 & F2 & F3 & F4 & F5 & F6).
  clearbody s15.
  (* the leaves of b are moved into b *)
  unfold blossomLeaves at 1. apply wp_bind. cbn [wp].
  destruct (blossomLeavesOf g fuel (blossomChilds s15) b) as [leaves|] eqn:Eleaves;
    [|exact I].
  cbn [wp]. apply wp_bind.
  eapply wp_weaken;
    [|apply (wp_forEach
               (fun done sx => writesOnly [fQueue; fInBlossom] s15 sx /\
                  forall v, v ∈ done -> nthZ (inBlossom sx) v = Some b))].
  - intros [] s16 [H16 Hin16]. cbv beta zeta.
    (* the best edges of b *)
    pose proof (writesOnly_trans [fBlossomBestEdges; fBestEdge]) as HtransE.
    eapply wp_weaken;
      [|apply (wp_of_respects (writesOnly [fBlossomBestEdges; fBestEdge])
                 _ s16 s16 HtransE); [solve [resp_go]|apply writesOnly_refl]].
    intros [] s17 H17. cbv beta.
    field_eq H16 fBlossomBase A1. field_eq H16 fBlossomChilds A2.
    field_eq H16 fBlossomEndPs A3. field_eq H16 fLabel A4.
    field_eq H16 fDualVar A5. field_eq H16 fMate A6.
    field_eq H16 fAllowEdge A7. field_eq H16 fUnusedBlossoms A8.
    field_eq H17 fBlossomBase B1. field_eq H17 fBlossomChilds B2.
    field_eq H17 fBlossomEndPs B3. field_eq H17 fLabel B4.
    field_eq H17 fDualVar B5. field_eq H17 fMate B6.
    field_eq H17 fAllowEdge B7. field_eq H17 fUnusedBlossoms B8.
    field_eq H17 fInBlossom B9.
    exists b, baseBlossom.
    split; [exact Hb|]. split; [congruence|]. split; [exact Hbb|].
    split; [rewrite B1, A1, F1; exact Hbase2|].
    split.
    { destruct Hclosed12 as (tl & e12 & Hc12 & He12 & HL12).
      exists tl, e12. rewrite B2, A2, F5, B3, A3, F6. auto. }
    split; [rewrite B4, A4; exact Hlabel15|].
    split; [rewrite B5, A5; exact Hdual15|].
    split; [intros x Hx; rewrite B5, A5; apply Hdual15'; exact Hx|].
    split; [congruence|]. split; [congruence|].
    exists leaves. split; [rewrite B2, A2; exact Eleaves|].
    intros v0 Hv0. rewrite B9. apply Hin16. exact Hv0.
  - intros done x rest sx _ [HWx Hdone].
    wp_read ib Hib. wp_read lx Hlx.
    eapply (wp_step (writesOnly [fQueue]) sx);
      [apply writesOnly_trans|solve [resp_go]|apply writesOnly_refl|].
    intros _ sy HWy. field_eq HWy fInBlossom EI.
    unfold setInBlossom. apply wp_upd_intro. intros sz Hsz. split; [exact I|].
    destruct (setZ (inBlossom sy) x b) as [li|] eqn:Eli; [|discriminate].
    injection Hsz as <-.
    split.
    { eapply writesOnly_trans; [exact HWx|].
      apply (writesOnly_trans _ sx sy); [|wr_only].
      eapply writesOnly_mono; [|exact HWy].
      intros f Hf. apply list_elem_of_singleton in Hf. subst f. solve_elem. }
    intros v0 Hv0. cbn [inBlossom set_inBlossom].
    destruct (Z.eq_dec x v0) as [->|Hne]; [eapply nthZ_setZ_eq; eauto|].
    rewrite (nthZ_setZ_ne _ _ _ _ _ Eli) by exact Hne.
    rewrite EI. apply Hdone.
    apply elem_of_app in Hv0. destruct Hv0 as [Hv0|Hv0]; [exact Hv0|].
    apply list_elem_of_singleton in Hv0. congruence.
  - split; [apply writesOnly_refl|]. intros v0 Hv0. inversion Hv0.
Qed.

Lemma addBlossom_creates_S_blossom_witness :
  let g := initializeGraphProperties sBlossomEdges false in
  let s := storeAt sBlossomEdges 117 in
  exists s',
    run (addBlossom g 50 1 0) s = Ret tt s' /\
    exists b baseBlossom,
      last (unusedBlossoms s) = Some b /\
      unusedBlossoms s' = removelast (unusedBlossoms s) /\
      nthZ (inBlossom s) 1 = Some baseBlossom /\
      nthZ (blossomBase s') b = Some 1 /\
      closedBlossom b baseBlossom s' /\
      nthZ (label s') b = Some VERTEX_LABEL_S /\
      nthZ (dualVar s') b = Some (Fin zeroQ) /\
      (forall x, x <> b -> nthZ (dualVar s') x = nthZ (dualVar s) x) /\
      mate s' = mate s /\ allowEdge s' = allowEdge s /\
      exists leaves,
        blossomLeavesOf g 50 (blossomChilds s') b = Some leaves /\
        forall v, v ∈ leaves -> nthZ (inBlossom s') v = Some b.
Proof.
  intros g s.
  destruct (run (addBlossom g 50 1 0) s) as [[] s'|h] eqn:R;
    [|vm_compute in R; discriminate R].
  exists s'. split; [reflexivity|].
  exact (addBlossom_creates_S_blossom g 50 1 0 s s' R).
Defined.

(** ** [assignLabel] *)
Lemma wp_self {A} (p : prog A) s :
  wp anyStore (fun a s' => run p s = Ret a s') p s.
Proof.
  revert s. induction p as [a|h|k IH|s0 k IH]; intros s; cbn [wp run].
  - reflexivity.
  - exact I.
  - apply IH.
  - split; [exact I|apply IH].
Qed.

Lemma setZ_twice {A} (l l1 l2 : list A) b v t :
  setZ l b t = Some l1 -> setZ l1 v t = Some l2 ->
  (forall x, x = b \/ x = v -> nthZ l2 x = Some t) /\
  (forall x, x <> b -> x <> v -> nthZ l2 x = nthZ l x).
Proof.
  intros E1 E2. split.
  - intros x [->| ->].
    + destruct (Z.eq_dec v b) as [->|Hne]; [eapply nthZ_setZ_eq; eauto|].
      rewrite (nthZ_setZ_ne _ _ _ _ _ E2 Hne). eapply nthZ_setZ_eq; eauto.
    + eapply nthZ_setZ_eq; eauto.
  - intros x Hb Hv.
    rewrite (nthZ_setZ_ne _ _ _ _ _ E2) by congruence.
    apply (nthZ_setZ_ne _ _ _ _ _ E1). congruence.
Qed.

(** X8.  [assignLabel(v, t, p)] gives [v] and its top-level blossom [b] the
    label [t], the labelling endpoint [p] and no best edge, and changes no
    other entry of [label], [labelEnd] and [bestEdge].  Then, for [t = S]
    it appends the leaves of [b] to the queue; for [t = T] it does what
    [assignLabel(w, S, mate[base] ^ 1)] does, [w] being the vertex at the
    endpoint [mate[base]] of the base of [b]; for any other [t] it stops. *)
Theorem assignLabel_labels_then_continues (g : Graph) (fuel : nat)
    (v labelType labelingEdge : Z) (s s' : State) :
  run (assignLabel g fuel v labelType labelingEdge) s = Ret tt s' ->
  exists b s1,
    nthZ (inBlossom s) v = Some b /\
    labelsAssigned v b labelType labelingEdge s s1 /\
    ((labelType = VERTEX_LABEL_S /\
      exists leaves,
        blossomLeavesOf g fuel (blossomChilds s) b = Some leaves /\
        s' = set_queue s1 (queue s ++ leaves)) \/
     (labelType = VERTEX_LABEL_T /\
      exists base m w,
        nthZ (blossomBase s) b = Some base /\
        nthZ (mate s) base = Some m /\
        nthZ (endpoint g) m = Some w /\
        run (assignLabel g fuel w VERTEX_LABEL_S (getOppositeEndpoint m)) s1
        = Ret tt s') \/
     (labelType <> VERTEX_LABEL_S /\ labelType <> VERTEX_LABEL_T /\ s' = s1)).
Proof.
  intros Hrun.
  refine (wp_run anyStore
    (fun _ s' => exists b s1,
       nthZ (inBlossom s) v = Some b /\
       labelsAssigned v b labelType labelingEdge s s1 /\
       ((labelType = VERTEX_LABEL_S /\
         exists leaves,
           blossomLeavesOf g fuel (blossomChilds s) b = Some leaves /\
           s' = set_queue s1 (queue s ++ leaves)) \/
        (labelType = VERTEX_LABEL_T /\
         exists base m w,
           nthZ (blossomBase s) b = Some base /\
           nthZ (mate s) base = Some m /\
           nthZ (endpoint g) m = Some w /\
           run (assignLabel g fuel w VERTEX_LABEL_S (getOppositeEndpoint m)) s1
           = Ret tt s') \/
        (labelType <> VERTEX_LABEL_S /\ labelType <> VERTEX_LABEL_T /\ s' = s1)))
    _ _ _ _ _ Hrun).
  clear Hrun s'.
  change (assignLabel g fuel v labelType labelingEdge)
    with (assignLabelRec g fuel fuel v labelType labelingEdge).
  destruct fuel as [|n]; [exact I|].
  cbn [assignLabelRec].
  wp_read b Hb.
  wp_write s1 E1. wp_write s2 E2. wp_write s3 E3. wp_write s4 E4.
  wp_write s5 E5. wp_write s6 E6.
  destruct (setZ_twice _ _ _ _ _ _ E1 E2) as [L1 L2].
  destruct (setZ_twice _ _ _ _ _ _ E3 E4) as [M1 M2].
  destruct (setZ_twice _ _ _ _ _ _ E5 E6) as [N1 N2].
  match goal with |- wp _ _ _ ?sx => set (s1' := sx) end.
  assert (HL : labelsAssigned v b labelType labelingEdge s s1').
  { split; [subst s1'; wr_only|]. subst s1'.
    split; intros x; cbn [label labelEnd bestEdge set_label set_labelEnd
      set_bestEdge]; auto. }
  destruct (Z.eqb_spec labelType VERTEX_LABEL_S) as [HS|HS].
  - unfold blossomLeaves. cbn [bind wp]. subst s1'.
    cbn [blossomChilds set_label set_labelEnd set_bestEdge].
    destruct (blossomLeavesOf g (S n) (blossomChilds s) b) as [leaves|] eqn:El;
      cbn [bind wp]; [|exact I].
    split; [exact I|]. exists b. eexists. split; [exact Hb|].
    split; [exact HL|]. left. split; [exact HS|]. exists leaves.
    split; [exact El|]. reflexivity.
  - destruct (Z.eqb_spec labelType VERTEX_LABEL_T) as [HT|HT].
    + wp_read base Hbase. wp_read m Hm.
      unfold getEndpoint. apply wp_bind. apply wp_lift_intro. intros w Hw.
      subst s1'. destruct n as [|n']; [exact I|].
      eapply wp_weaken; [|apply wp_self].
      intros [] sf Hsf. exists b. eexists. split; [exact Hb|].
      split; [exact HL|]. right. left. split; [exact HT|].
      exists base, m, w. repeat split; assumption.
    + cbn [skip wp]. exists b, s1'. split; [exact Hb|]. split; [exact HL|].
      right. right. auto.
Qed.

Lemma assignLabel_labels_then_continues_witness :
  let g := initializeGraphProperties sBlossomEdges false in
  let s := storeAt sBlossomEdges 89 in
  exists s',
    run (assignLabel g 50 3 VERTEX_LABEL_T 2) s = Ret tt s' /\
    exists b s1,
      nthZ (inBlossom s) 3 = Some b /\
      labelsAssigned 3 b VERTEX_LABEL_T 2 s s1 /\
      ((VERTEX_LABEL_T = VERTEX_LABEL_S /\
        exists leaves,
          blossomLeavesOf g 50 (blossomChilds s) b = Some leaves /\
          s' = set_queue s1 (queue s ++ leaves)) \/
       (VERTEX_LABEL_T = VERTEX_LABEL_T /\
        exists base m w,
          nthZ (blossomBase s) b = Some base /\
          nthZ (mate s) base = Some m /\
          nthZ (endpoint g) m = Some w /\
          run (assignLabel g 50 w VERTEX_LABEL_S (getOppositeEndpoint m)) s1
          = Ret tt s') \/
       (VERTEX_LABEL_T <> VERTEX_LABEL_S /\
        VERTEX_LABEL_T <> VERTEX_LABEL_T /\ s' = s1)).
Proof.
  intros g s.
  destruct (run (assignLabel g 50 3 VERTEX_LABEL_T 2) s) as [[] s'|h] eqn:R;
    [|vm_compute in R; discriminate R].
  exists s'. split; [reflexivity|].
  exact (assignLabel_labels_then_continues g 50 3 VERTEX_LABEL_T 2 s s' R).
Defined.

(** ** Leaves, tight edges and the initial store *)

Lemma blossomLeavesOf_spec g n childs b leaves :
  blossomLeavesOf g n childs b = Some leaves ->
  (b < nVertex g -> leaves = [b]) /\
  (nVertex g <= b -> Forall (leafOf g childs) leaves).
Proof.
  revert b leaves. induction n as [|n IH]; intros b leaves H; [discriminate|].
  cbn [blossomLeavesOf] in H.
  destruct (Z.ltb_spec b (nVertex g)) as [Hlt|Hge].
  { injection H as <-. split; [reflexivity|lia]. }
  split; [lia|]. intros _.
  destruct (nthZ childs b) as [childList|] eqn:Ec; cbn [default] in H.
  2:{ injection H as <-. constructor. }
  assert (G : forall l, (forall x, x ∈ l -> x ∈ childList) ->
            forall leaves,
            foldr (fun child rest =>
                     if child <=? nVertex g then cons child <$> rest
                     else sub ← blossomLeavesOf g n childs child; app sub <$> rest)
                  (Some []) l = Some leaves ->
            Forall (leafOf g childs) leaves).
  { clear H leaves. induction l as [|child l IHl]; intros Hsub leaves H.
    - injection H as <-. constructor.
    - cbn [foldr] in H.
      destruct (foldr _ _ l) as [rest|] eqn:Er.
      2:{ destruct (child <=? nVertex g); [discriminate|].
          destruct (blossomLeavesOf g n childs child); discriminate. }
      specialize (IHl (fun x Hx => Hsub x (list_elem_of_further _ _ _ Hx)) rest eq_refl).
      destruct (Z.leb_spec child (nVertex g)) as [Hle|Hgt].
      + injection H as <-. constructor; [|exact IHl].
        split; [exact Hle|]. exists b, childList. split; [exact Ec|].
        apply Hsub. left.
      + destruct (blossomLeavesOf g n childs child) as [sub|] eqn:Es; [|discriminate].
        injection H as <-. apply Forall_app. split; [|exact IHl].
        apply (IH child sub Es). lia. }
  apply (G childList); [auto|exact H].
Qed.

(** X14.  [blossomLeaves(b)] changes nothing; for a vertex [b] it is [[b]];
    for a blossom, each leaf it gives is at most [nVertex] and is an entry
    of some child list. *)
Theorem blossomLeaves_are_children (g : Graph) (fuel : nat) (b : Z)
    (s s' : State) (leaves : list Z) :
  run (blossomLeaves g fuel b) s = Ret leaves s' ->
  s' = s /\
  (b < nVertex g -> leaves = [b]) /\
  (nVertex g <= b -> Forall (leafOf g (blossomChilds s)) leaves).
Proof.
  unfold blossomLeaves. cbn [run].
  destruct (blossomLeavesOf g fuel (blossomChilds s) b) as [l|] eqn:E;
    [|discriminate].
  cbn [run]. intros [= <- <-]. split; [reflexivity|].
  eapply blossomLeavesOf_spec; eauto.
Qed.

Lemma blossomLeaves_are_children_witness :
  let g := initializeGraphProperties sBlossomEdges false in
  let s := storeAt sBlossomEdges 162 in
  exists s',
    run (blossomLeaves g 50 9) s = Ret [1; 2; 3] s' /\
    s' = s /\
    (9 < nVertex g -> [1; 2; 3] = [9]) /\
    (nVertex g <= 9 -> Forall (leafOf g (blossomChilds s)) [1; 2; 3]).
Proof.
  intros g s.
  destruct (run (blossomLeaves g 50 9) s) as [l s'|h] eqn:R;
    [|vm_compute in R; discriminate R].
  assert (Hl : l = [1; 2; 3]) by (vm_compute in R; congruence).
  subst l. exists s'. split; [reflexivity|].
  exact (blossomLeaves_are_children g 50 9 s s' [1; 2; 3] R).
Defined.

Lemma sameAllowEdge_trans x y z :
  sameAllowEdge x y -> sameAllowEdge y z -> sameAllowEdge x z.
Proof. unfold sameAllowEdge. congruence. Qed.

(** X16.  One iteration of phase 2 for the endpoint [p] leaves [allowEdge]
    as it was, or sets the entry of the edge of [p], and then the slack of
    that edge was not positive. *)
Theorem scanNeighbour_allows_only_tight_edge (g : Graph) (fuel : nat)
    (v p : Z) (s s' : State) (r : bool) :
  run (scanNeighbour g fuel v p) s = Ret r s' ->
  allowsTight g (getEdgeFromEndpoint p) s s'.
Proof.
  intros Hrun.
  refine (wp_run anyStore
            (fun _ s1 => allowsTight g (getEdgeFromEndpoint p) s s1)
            _ _ _ _ _ Hrun).
  clear Hrun. unfold scanNeighbour. cbv zeta.
  unfold getEndpoint at 1. apply wp_bind. apply wp_lift_intro. intros adj _.
  wp_read bc Hbc. wp_read ba Hba.
  destruct (bc =? ba); [simpl; left; reflexivity|].
  wp_read allowed Ha. apply wp_bind.
  (* the rest of the body leaves allowEdge alone *)
  assert (Hafter : forall s1 (pr : prog bool),
            respects sameAllowEdge anyValue pr ->
            allowsTight g (getEdgeFromEndpoint p) s s1 ->
            wp anyStore (fun _ s2 => allowsTight g (getEdgeFromEndpoint p) s s2)
               pr s1).
  { intros s1 pr Hpr H1.
    eapply wp_weaken;
      [|apply (wp_of_respects sameAllowEdge pr s1 s1 sameAllowEdge_trans Hpr);
        reflexivity].
    intros a s2 E. unfold sameAllowEdge in E.
    destruct H1 as [H1|[H1 H2]]; [left; congruence|right].
    split; [exact H1|]. rewrite E. exact H2. }
  destruct allowed; cbn [negb].
  - cbn [skip wp]. apply Hafter; [|left; reflexivity].
    unfold isUnlabeledVertex, isSVertex. resp_go.
  - wp_read sl Hsl. destruct (jsLe sl (Fin 0)) eqn:Esl.
    + unfold allowEdgeTrue. apply wp_upd_intro. intros s1 Hs1. split; [exact I|].
      destruct (setZ (allowEdge s) (getEdgeFromEndpoint p) true) as [l|] eqn:E;
        [|discriminate].
      injection Hs1 as <-. apply Hafter.
      * unfold isUnlabeledVertex, isSVertex. resp_go.
      * right. split; [|exact E]. exists sl. split; [exact Hsl|exact Esl].
    + cbn [skip wp]. apply Hafter; [|left; reflexivity].
      unfold isUnlabeledVertex, isSVertex. resp_go.
Qed.

Lemma scanNeighbour_allows_only_tight_edge_witness :
  let g := initializeGraphProperties sBlossomEdges false in
  let s := storeAt sBlossomEdges 44 in
  exists s' r,
    run (scanNeighbour g 50 3 4) s = Ret r s' /\
    nthZ (allowEdge s) 2 = Some false /\
    nthZ (allowEdge s') 2 = Some true /\
    allowsTight g (getEdgeFromEndpoint 4) s s'.
Proof.
  intros g s.
  destruct (run (scanNeighbour g 50 3 4) s) as [r s'|h] eqn:R;
    [|vm_compute in R; discriminate R].
  exists s', r. split; [reflexivity|]. split; [vm_compute; reflexivity|].
  split; [|exact (scanNeighbour_allows_only_tight_edge g 50 3 4 s s' r R)].
  vm_compute in R. injection R as _ <-. vm_compute. reflexivity.
Defined.

Lemma nthZ_zrange a len v :
  0 <= v < len -> nthZ (zrange a len) v = Some (a + v).
Proof.
  intros Hv. apply nthZ_Some. split; [lia|].
  unfold zrange. rewrite list_lookup_fmap.
  rewrite lookup_seq_lt by lia. simpl. f_equal. lia.
Qed.

Lemma nthZ_filledArray {A} len (x : A) v :
  0 <= v < len -> nthZ (filledArray len x) v = Some x.
Proof.
  intros Hv. apply nthZ_Some. split; [lia|].
  unfold filledArray. apply lookup_replicate_2. lia.
Qed.

(** X6.  The store the constructor leaves: every vertex is unmatched and
    is the base of the trivial blossom that contains it; the blossom slots
    [n .. 2n-1] are free (base -1) and are exactly the entries of
    [unusedBlossoms], without repetition, [2n - 1] on top; no blossom has
    a parent, a child, a label, a labelling endpoint or a best edge. *)
Theorem initial_blossom_structure (es : list Edge) (mc : bool) :
  let g := initializeGraphProperties es mc in
  let s := initialState g in
  let n := nVertex g in
  (forall v, 0 <= v < n ->
     nthZ (inBlossom s) v = Some v /\ nthZ (blossomBase s) v = Some v /\
     nthZ (mate s) v = Some UNMATCHED) /\
  (forall b, n <= b < 2 * n ->
     nthZ (blossomBase s) b = Some UNMATCHED /\ b ∈ unusedBlossoms s) /\
  (forall b, 0 <= b < 2 * n ->
     nthZ (blossomParent s) b = Some UNMATCHED /\
     nthZ (blossomChilds s) b = Some [] /\
     nthZ (label s) b = Some UNLABELED /\
     nthZ (labelEnd s) b = Some UNMATCHED /\
     nthZ (bestEdge s) b = Some UNMATCHED) /\
  NoDup (unusedBlossoms s) /\
  Z.of_nat (length (unusedBlossoms s)) = n /\
  (0 < n -> last (unusedBlossoms s) = Some (2 * n - 1)).
Proof.
  intros g s n.
  assert (Hn : 0 <= n) by apply calculateVertexCount_nonneg.
  unfold s. cbn [initialState inBlossom blossomBase mate
    unusedBlossoms blossomParent blossomChilds label labelEnd bestEdge].
  fold n. unfold BLOSSOM_MULTIPLIER.
  split; [|split; [|split; [|split; [|split]]]].
  - intros v Hv. split; [rewrite nthZ_zrange by lia; reflexivity|].
    split; [|apply nthZ_filledArray; lia].
    apply nthZ_Some. split; [lia|]. rewrite lookup_app_l.
    + pose proof (nthZ_zrange 0 n v Hv) as H. apply nthZ_Some in H.
      destruct H as [_ H]. rewrite H. reflexivity.
    + unfold zrange. rewrite length_fmap, length_seq. lia.
  - intros b Hb. split.
    + apply nthZ_Some. split; [lia|]. rewrite lookup_app_r.
      * unfold zrange, filledArray. rewrite length_fmap, length_seq.
        apply lookup_replicate_2. lia.
      * unfold zrange. rewrite length_fmap, length_seq. lia.
    + apply elem_of_zrange. lia.
  - intros b Hb. unfold initArrArr.
    repeat split; apply nthZ_filledArray; lia.
  - apply NoDup_zrange.
  - unfold zrange. rewrite length_fmap, length_seq. lia.
  - intros Hpos. unfold zrange.
    replace (Z.to_nat n) with (S (Z.to_nat (n - 1))) by lia.
    rewrite seq_S, fmap_app. cbn [fmap list_fmap]. rewrite last_snoc.
    f_equal. lia.
Qed.

(** ** Matched pairs are edges *)

Lemma matesToVertices_values (g : Graph) (s : State) :
  wp anyStore (fun _ s' => matesConverted g (zrange 0 (nVertex g)) s s')
     (matesToVertices g) s.
Proof.
  unfold matesToVertices.
  pose proof (NoDup_zrange 0 (nVertex g)) as Hnd.
  revert Hnd. generalize (zrange 0 (nVertex g)). intros l Hnd.
  apply (wp_forEach (fun done s' => matesConverted g done s s')).
  - intros done x rest sx Hl [HL Hm].
    assert (Hx : x ∉ done).
    { subst l. apply NoDup_app in Hnd. destruct Hnd as (_ & Hd & _).
      intros Hin. apply (Hd x Hin). left. }
    unfold mateToVertex. wp_read m Hmx.
    destruct (Hm x) as [_ Hsame]. rewrite (Hsame Hx) in Hmx.
    destruct (m >=? 0) eqn:Em.
    + unfold getEndpoint. apply wp_bind. apply wp_lift_intro. intros w Hw.
      unfold setMate. apply wp_upd_intro. intros s' Hs'. split; [exact I|].
      destruct (setZ (mate sx) x w) as [lm|] eqn:E; [|discriminate].
      injection Hs' as <-. unfold matesConverted. cbn [mate set_mate].
      split; [rewrite (setZ_length _ _ _ _ E); exact HL|].
      intros v. split.
      * intros Hin p Hp. apply elem_of_app in Hin. destruct Hin as [Hin|Hin].
        -- rewrite (nthZ_setZ_ne _ _ _ _ _ E) by (intros ->; contradiction).
           destruct (Hm v) as [Hd _]. exact (Hd Hin p Hp).
        -- apply list_elem_of_singleton in Hin. subst v.
           rewrite (nthZ_setZ_eq _ _ _ _ E).
           rewrite Hmx in Hp. injection Hp as <-.
           unfold mateVertex. rewrite Em. symmetry. exact Hw.
      * intros Hnin. rewrite not_elem_of_app in Hnin. destruct Hnin as [Hn1 Hn2].
        rewrite (nthZ_setZ_ne _ _ _ _ _ E).
        -- apply Hm. exact Hn1.
        -- intros ->. apply Hn2. apply list_elem_of_singleton. reflexivity.
    + cbn [skip wp]. split; [exact HL|]. intros v. split.
      * intros Hin p Hp. apply elem_of_app in Hin. destruct Hin as [Hin|Hin].
        -- destruct (Hm v) as [Hd _]. exact (Hd Hin p Hp).
        -- apply list_elem_of_singleton in Hin. subst v.
           destruct (Hm x) as [_ Hs]. rewrite (Hs Hx), Hmx.
           rewrite Hmx in Hp. injection Hp as <-.
           unfold mateVertex. rewrite Em. reflexivity.
      * intros Hnin. rewrite not_elem_of_app in Hnin. destruct Hnin as [Hn1 _].
        apply Hm. exact Hn1.
  - split; [reflexivity|]. intros v. split; [intros H; inversion H|reflexivity].
Qed.

Lemma endpoint_pair (es : list Edge) (p v u : Z) :
  nthZ (buildEndpoint es) (getOppositeEndpoint p) = Some v ->
  nthZ (buildEndpoint es) p = Some u ->
  exists e, e ∈ es /\
    ((e.1.1 = v /\ e.1.2 = u) \/ (e.1.1 = u /\ e.1.2 = v)).
Proof.
  intros Hv Hu.
  apply incidentEndpoint_endpoint in Hv.
  destruct Hv as (q & i & j & w & Hq & H).
  exists (i, j, w). split; [eapply list_elem_of_lookup_2; exact Hq|].
  rewrite buildEndpoint_nthZ in Hu.
  destruct H as [[<- ->]|[<- ->]].
  - rewrite odd_div2, odd_mod2 in Hu.
    unfold nthZ in Hu. destruct (Z.ltb_spec (Z.of_nat q) 0); [lia|].
    rewrite Nat2Z.id in Hu. unfold Edge in *. rewrite Hq in Hu.
    simpl in Hu. injection Hu as <-. left. auto.
  - rewrite even_div2, even_mod2 in Hu.
    unfold nthZ in Hu. destruct (Z.ltb_spec (Z.of_nat q) 0); [lia|].
    rewrite Nat2Z.id in Hu. unfold Edge in *. rewrite Hq in Hu.
    simpl in Hu. injection Hu as <-. right. auto.
Qed.

Lemma runEdmonds_pairs_are_edges fuel (es : list Edge) mc M st :
  runEdmonds fuel es mc = Returned (M, st) ->
  forall v u, nthZ M v = Some u -> u <> UNMATCHED ->
  exists e, e ∈ es /\
    ((e.1.1 = v /\ e.1.2 = u) \/ (e.1.1 = u /\ e.1.2 = v)).
Proof.
  intros Hrun. apply runEdmonds_Returned in Hrun.
  set (g := initializeGraphProperties es mc) in *.
  assert (Hpost :
    wp anyStore
       (fun M' _ => forall v u, nthZ M' v = Some u -> u <> UNMATCHED ->
          exists p, 0 <= p /\ nthZ (endpoint g) p = Some u /\
                    nthZ (endpoint g) (getOppositeEndpoint p) = Some v)
       (maxWeightMatching g fuel) (initialState g)).
  { unfold maxWeightMatching. apply wp_bind.
    eapply wp_weaken;
      [|apply (wp_relax (keepsMateShape g)); [intros; exact I|];
        apply (wp_final (keepsMateShape g) (stages g fuel) (initialState g));
        [apply keepsMateShape_trans|apply keepsMateShape_refl|];
        apply stages_keep_mateShape;
        intros k0 v0 w0 q0 Hk0; exact (graph_endpoint es mc k0 v0 w0 q0 Hk0)].
    intros b s1 [L1 H1]. cbv beta.
    specialize (H1 (initialState_mateShape g)).
    apply wp_bind.
    eapply wp_weaken; [|apply matesToVertices_values].
    intros [] s2 [L2 H2]. cbv beta. apply wp_rd_intro.
    intros M' [= <-] v u Hvu Hu.
    destruct (decide (v ∈ zrange 0 (nVertex g))) as [Hin|Hnin].
    - destruct (H2 v) as [Hd _].
      assert (exists p, nthZ (mate s1) v = Some p) as [p Hp].
      { apply nthZ_Some in Hvu. destruct Hvu as [Hv0 Hvu].
        apply lookup_lt_Some in Hvu. rewrite L2 in Hvu.
        destruct (lookup_lt_is_Some_2 (mate s1) (Z.to_nat v) Hvu) as [p Hp].
        exists p. apply nthZ_Some. auto. }
      rewrite (Hd Hin p Hp) in Hvu. unfold mateVertex in Hvu.
      destruct (Z.geb_spec p 0) as [Hge|Hlt].
      + exists p. split; [lia|]. split; [exact Hvu|].
        destruct (H1 v p Hp) as [->|H]; [unfold UNMATCHED in Hge; lia|exact H].
      + injection Hvu as <-. destruct (H1 v p Hp) as [->|H]; [contradiction|].
        apply nthZ_Some in H. destruct H as [H _].
        apply (proj1 (opp_nonneg p)) in H. lia.
    - destruct (H2 v) as [_ Hs]. rewrite (Hs Hnin) in Hvu.
      destruct (H1 v u Hvu) as [->|H]; [contradiction|].
      exfalso. apply Hnin. apply elem_of_zrange.
      apply nthZ_Some in Hvu. destruct Hvu as [Hv0 Hvu].
      apply lookup_lt_Some in Hvu. rewrite L1 in Hvu.
      cbn [initialState mate] in Hvu. unfold filledArray in Hvu.
      rewrite length_replicate in Hvu. lia. }
  intros v u Hvu Hu.
  destruct (wp_run _ _ _ _ _ _ Hpost Hrun v u Hvu Hu) as (p & Hp & H1 & H2).
  eapply endpoint_pair; eauto.
Qed.

(** X20.  In an array that [blossom] returns, an entry [M[v] = u] other
    than -1 comes with an edge of the input between [v] and [u]. *)
Theorem blossom_pairs_are_edges (fuel : nat) (es : list JsVal)
    (maxCardinality : option bool) (M : list Z) :
  blossom fuel (JArray es) maxCardinality = Returned M ->
  forall v u, nthZ M v = Some u -> u <> UNMATCHED ->
  exists e, e ∈ map toEdge es /\
    ((e.1.1 = v /\ e.1.2 = u) \/ (e.1.1 = u /\ e.1.2 = v)).
Proof.
  intros Hrun v u Hvu Hu.
  destruct es as [|e0 es0].
  { cbn in Hrun. injection Hrun as <-.
    unfold nthZ in Hvu. destruct (v <? 0); discriminate Hvu. }
  rewrite blossom_nonempty in Hrun.
  destruct (validateEdges (e0 :: es0)) as [err|]; [discriminate|].
  destruct (runEdmonds _ _ _) as [[m st]|f] eqn:R; [|discriminate].
  injection Hrun as ->.
  eapply runEdmonds_pairs_are_edges; eauto.
Qed.

Lemma blossom_pairs_are_edges_witness :
  let es := map jsEdge [(1, 2, 10); (2, 3, 11)] in
  blossom 20 (JArray es) None = Returned [-1; -1; 3; 2] /\
  forall v u, nthZ [-1; -1; 3; 2] v = Some u -> u <> UNMATCHED ->
    exists e, e ∈ map toEdge es /\
      ((e.1.1 = v /\ e.1.2 = u) \/ (e.1.1 = u /\ e.1.2 = v)).
Proof.
  intros es.
  assert (H : blossom 20 (JArray es) None = Returned [-1; -1; 3; 2])
    by (vm_compute; reflexivity).
  split; [exact H|].
  exact (blossom_pairs_are_edges 20 es None [-1; -1; 3; 2] H).
Defined.

(** X7.  The arrays a call can change.  [assignLabel] writes only
    [label], [labelEnd], [bestEdge] and [queue]; [augmentBlossom] writes
    only [mate], [blossomChilds], [blossomBase] and [blossomEndPs];
    [addBlossom] writes neither [mate] nor [allowEdge] (nor the [-1]
    property of [label]); [expandBlossom] writes neither [mate] nor
    [dualVar]. *)
Theorem methods_write_only (g : Graph) (fuel : nat) (s s' : State) :
  (forall v l p, run (assignLabel g fuel v l p) s = Ret tt s' ->
     writesOnly [fLabel; fLabelEnd; fBestEdge; fQueue] s s') /\
  (forall b v, run (augmentBlossom g fuel b v) s = Ret tt s' ->
     writesOnly [fMate; fBlossomChilds; fBlossomBase; fBlossomEndPs] s s') /\
  (forall base k, run (addBlossom g fuel base k) s = Ret tt s' ->
     writesOnly [fLabel; fLabelEnd; fInBlossom; fBlossomParent; fBlossomChilds;
                 fBlossomBase; fBlossomEndPs; fBestEdge; fBlossomBestEdges;
                 fUnusedBlossoms; fDualVar; fQueue] s s') /\
  (forall b endStage, run (expandBlossom g fuel b endStage) s = Ret tt s' ->
     writesOnly [fLabel; fLabelNeg1; fLabelEnd; fInBlossom; fBlossomParent;
                 fBlossomChilds; fBlossomBase; fBlossomEndPs; fBestEdge;
                 fBlossomBestEdges; fUnusedBlossoms; fAllowEdge; fQueue] s s').
Proof.
  assert (G : forall A (p : prog A) fs a,
            respects (writesOnly fs) anyValue p ->
            run p s = Ret a s' -> writesOnly fs s s').
  { intros A p fs a Hp Hrun.
    refine (wp_run anyStore (fun _ s1 => writesOnly fs s s1) _ _ _ _ _ Hrun).
    apply wp_of_respects;
      [apply writesOnly_trans|exact Hp|apply writesOnly_refl]. }
  repeat split; intros;
    match goal with
    | H : run ?p s = Ret ?a s' |- writesOnly ?fs s s' =>
        apply (G _ p fs a); [solve [auto with resp]|exact H]
    end.
Qed.

Lemma methods_write_only_witness :
  let g := initializeGraphProperties sBlossomEdges false in
  let s := storeAt sBlossomEdges 117 in
  exists s',
    run (addBlossom g 50 1 0) s = Ret tt s' /\
    writesOnly [fLabel; fLabelEnd; fInBlossom; fBlossomParent; fBlossomChilds;
                fBlossomBase; fBlossomEndPs; fBestEdge; fBlossomBestEdges;
                fUnusedBlossoms; fDualVar; fQueue] s s'.
Proof.
  intros g s.
  destruct (run (addBlossom g 50 1 0) s) as [[] s'|h] eqn:R;
    [|vm_compute in R; discriminate R].
  exists s'. split; [reflexivity|].
  destruct (methods_write_only g 50 s s') as (_ & _ & H & _).
  exact (H 1 0 R).
Defined.

(** ** Negative weights *)
Lemma returns_run {A} (Q : A -> State -> Prop) (p : prog A) s :
  returns Q p s -> exists a s', run p s = Ret a s' /\ Q a s'.
Proof.
  intros H. apply wpe_run in H. destruct (run p s) as [a s'|h]; [eauto|].
  destruct H.
Qed.

Lemma returns_bind {A B} (Q : B -> State -> Prop) (p : prog A) (f : A -> prog B) s :
  returns (fun a s1 => returns Q (f a) s1) p s -> returns Q (bind p f) s.
Proof. apply wpe_bind. Qed.

Lemma returns_weaken {A} (Q Q' : A -> State -> Prop) (p : prog A) s :
  (forall a s1, Q a s1 -> Q' a s1) -> returns Q p s -> returns Q' p s.
Proof. apply wpe_weaken. Qed.

Lemma returns_rd {A B} (Q : B -> State -> Prop) (f : State -> option A)
    (k : A -> prog B) s a :
  f s = Some a -> returns Q (k a) s -> returns Q (bind (rd f) k) s.
Proof. intros E H. unfold returns. simpl. rewrite E. exact H. Qed.

Lemma returns_lift {A B} (Q : B -> State -> Prop) (o : option A)
    (k : A -> prog B) s a :
  o = Some a -> returns Q (k a) s -> returns Q (bind (lift o) k) s.
Proof. intros -> H. exact H. Qed.

Lemma returns_upd {B} (Q : B -> State -> Prop) (f : State -> option State)
    (k : unit -> prog B) s s' :
  f s = Some s' -> returns Q (k tt) s' -> returns Q (bind (upd f) k) s.
Proof. intros E H. unfold returns. simpl. rewrite E. exact H. Qed.

Lemma setZ_Some {A} (l : list A) i x :
  0 <= i < Z.of_nat (length l) -> setZ l i x = Some (<[Z.to_nat i := x]> l).
Proof.
  intros H. unfold setZ.
  destruct (Z.leb_spec 0 i); [|lia]. destruct (Z.ltb_spec i (Z.of_nat (length l))); [|lia].
  reflexivity.
Qed.

Lemma setZ_same {A} (l : list A) i x :
  nthZ l i = Some x -> setZ l i x = Some l.
Proof.
  intros H. apply nthZ_Some in H. destruct H as [Hi H].
  rewrite setZ_Some by (apply lookup_lt_Some in H; lia).
  rewrite list_insert_id by exact H. reflexivity.
Qed.

Lemma nthZ_lt_length {A} (l : list A) i :
  0 <= i < Z.of_nat (length l) -> exists x, nthZ l i = Some x.
Proof.
  intros H. destruct (lookup_lt_is_Some_2 l (Z.to_nat i)) as [x Hx]; [lia|].
  exists x. apply nthZ_Some. split; [lia|exact Hx].
Qed.

Lemma nthZ_Forall {A} (P : A -> Prop) (l : list A) i x :
  Forall P l -> nthZ l i = Some x -> P x.
Proof.
  intros HF H. apply nthZ_Some in H. destruct H as [_ H].
  rewrite Forall_lookup in HF. eapply HF; eauto.
Qed.

Lemma nthZ_blossomBase_unused n v :
  0 <= n -> n <= v < n + n ->
  nthZ (zrange 0 n ++ filledArray n UNMATCHED) v = Some UNMATCHED.
Proof.
  intros Hn Hv. apply nthZ_Some. split; [lia|].
  unfold zrange, filledArray. rewrite lookup_app_r.
  - rewrite length_fmap, length_seq. apply lookup_replicate_2. lia.
  - rewrite length_fmap, length_seq. lia.
Qed.

Lemma returns_forEach {A} (Inv : list A -> State -> Prop) (l : list A)
    (body : A -> prog unit) s :
  (forall done x rest s, l = done ++ x :: rest -> Inv done s ->
     returns (fun _ s' => Inv (done ++ [x]) s') (body x) s) ->
  Inv [] s -> returns (fun _ s' => Inv l s') (forEach l body) s.
Proof.
  intros H.
  assert (G : forall rest done s, l = done ++ rest -> Inv done s ->
            returns (fun _ s' => Inv l s') (forEach rest body) s).
  { induction rest as [|x rest IH]; intros done s1 Hl Hd.
    - rewrite app_nil_r in Hl. subst. exact Hd.
    - cbn [forEach]. apply returns_bind.
      eapply returns_weaken; [|eapply H; eauto].
      intros [] s2 H2. cbv beta. apply (IH (done ++ [x])); [|exact H2].
      rewrite <- app_assoc. exact Hl. }
  intros H0. apply (G l [] s); [reflexivity|exact H0].
Qed.

Lemma zrange_split a n done x rest :
  zrange a n = done ++ x :: rest ->
  x = a + Z.of_nat (length done) /\ a <= x < a + n.
Proof.
  intros E.
  assert (Hin : x ∈ zrange a n) by (rewrite E; apply elem_of_app; right; left).
  apply elem_of_zrange in Hin. split; [|exact Hin].
  assert (Hl : zrange a n !! length done = Some x).
  { rewrite E. rewrite lookup_app_r by lia. rewrite Nat.sub_diag. reflexivity. }
  unfold zrange in Hl. rewrite list_lookup_fmap in Hl.
  destruct (seq 0 (Z.to_nat n) !! length done) as [i|] eqn:Ei; [|discriminate].
  apply lookup_seq in Ei. destruct Ei as [-> _]. injection Hl as <-. lia.
Qed.

Section NegativeWeights.

Context (g : Graph) (fuel : nat).
Hypothesis Hn : 0 < nVertex g.
Hypothesis HmaxW : maxWeight g = zeroQ.
Hypothesis Hmc : maxCardinality g = false.
Hypothesis Hedges : forall k, 0 <= k < nEdge g ->
  exists i j w, nthZ (edges g) k = Some (i, j, w) /\
    0 <= i < nVertex g /\ 0 <= j < nVertex g /\
    (w < 0)%Q /\ isDouble w = true.
Hypothesis Hnb : forall v, 0 <= v < nVertex g ->
  exists l, nthZ (neighbend g) v = Some l /\
    forall p, p ∈ l ->
      0 <= getEdgeFromEndpoint p < nEdge g /\
      exists adj, nthZ (endpoint g) p = Some adj /\ 0 <= adj < nVertex g.

Lemma allRoots_slack s k :
  allRoots g s -> 0 <= k < nEdge g ->
  exists sl, slackOf g s k = Some sl /\
    jsLe sl (Fin 0) = false /\ jsLt (jsDiv sl (Fin 2)) (Fin 0) = false.
Proof.
  intros [_ _ _ _ _ _ Hd _ _ _] Hk.
  destruct (Hedges k Hk) as (i & j & w & He & Hi & Hj & Hw & Hdbl).
  eexists. split.
  - apply (slackOf_eq g s k i j w (Fin zeroQ) (Fin zeroQ) He); rewrite Hd;
      apply nthZ_filled_app_l; assumption.
  - apply (slackValue_negative_weight w Hdbl Hw).
Qed.

Lemma allRoots_set_bestEdge s v k l :
  allRoots g s -> setZ (bestEdge s) v k = Some l ->
  k = UNMATCHED \/ 0 <= k < nEdge g ->
  allRoots g (set_bestEdge s l).
Proof.
  intros [H1 H2 H3' H3 H4 H5 H6 H7 H8 H9] Hset Hk.
  constructor; cbn [set_bestEdge mate inBlossom label blossomParent
    blossomBase dualVar allowEdge bestEdge]; try assumption.
  - rewrite (setZ_length _ _ _ _ Hset). exact H8.
  - unfold setZ in Hset. destruct (_ && _); [|discriminate].
    injection Hset as <-. apply Forall_insert; assumption.
Qed.

Lemma scanNeighbour_allRoots v p s :
  allRoots g s -> 0 <= v < nVertex g ->
  0 <= getEdgeFromEndpoint p < nEdge g ->
  (exists adj, nthZ (endpoint g) p = Some adj /\ 0 <= adj < nVertex g) ->
  returns (fun r s' => r = false /\ allRoots g s' /\ queue s' = queue s)
          (scanNeighbour g fuel v p) s.
Proof.
  intros HI Hv Hk (adj & Hadj & Hadjr).
  pose proof HI as [H1 H2 H3' H3 H4 H5 H6 H7 H8 H9].
  unfold scanNeighbour. cbv zeta.
  unfold getEndpoint. eapply returns_lift; [exact Hadj|].
  assert (Hibv : nthZ (inBlossom s) v = Some v).
  { rewrite H2, nthZ_zrange by lia. reflexivity. }
  assert (Hiba : nthZ (inBlossom s) adj = Some adj).
  { rewrite H2, nthZ_zrange by lia. reflexivity. }
  eapply returns_rd; [exact Hibv|]. eapply returns_rd; [exact Hiba|].
  destruct (v =? adj); [unfold returns; cbn [wpe]; auto|].
  assert (Hal : nthZ (allowEdge s) (getEdgeFromEndpoint p) = Some false).
  { rewrite H7. apply nthZ_filledArray. exact Hk. }
  destruct (allRoots_slack s _ HI Hk) as (sl & Hsl & Hq & _).
  eapply returns_rd; [exact Hal|]. cbn [negb].
  apply returns_bind. unfold slack. eapply returns_rd; [exact Hsl|].
  rewrite Hq. unfold skip, returns. cbn [wpe]. fold (@returns bool).
  eapply returns_rd; [exact Hal|].
  unfold isSVertex, hasVertexLabel.
  apply returns_bind. eapply returns_rd; [exact Hiba|].
  eapply returns_rd; [exact (H3 adj Hadjr)|].
  unfold returns at 1. cbn [wpe]. change (VERTEX_LABEL_S =? VERTEX_LABEL_S) with true.
  cbv iota.
  eapply returns_rd; [exact Hibv|].
  apply returns_bind. unfold trackBestEdge, slack.
  eapply returns_rd; [exact Hsl|].
  destruct (nthZ_lt_length (bestEdge s) v ltac:(unfold BLOSSOM_MULTIPLIER in H8; lia))
    as (be & Hbe).
  unfold getBestEdge. eapply returns_rd; [exact Hbe|].
  assert (Hset : forall (better : bool),
    returns (fun _ s1 => returns
               (fun r s' => r = false /\ allRoots g s' /\ queue s' = queue s)
               (Pure false) s1)
       (if better then setBestEdge v (getEdgeFromEndpoint p) else skip) s).
  { intros [|].
    - unfold setBestEdge, returns. cbn [upd wpe].
      rewrite setZ_Some by (unfold BLOSSOM_MULTIPLIER in H8; lia).
      cbn [fmap option_fmap option_map wpe].
      split; [reflexivity|]. split; [|reflexivity].
      eapply allRoots_set_bestEdge; [exact HI| |right; exact Hk].
      apply setZ_Some. unfold BLOSSOM_MULTIPLIER in H8. lia.
    - unfold skip, returns. cbn [wpe]. auto. }
  apply returns_bind.
  destruct (be =? UNMATCHED) eqn:Ebe.
  - unfold returns at 1. cbn [wpe]. exact (Hset true).
  - pose proof (nthZ_Forall _ _ _ _ H9 Hbe) as [Hb|Hb].
    { apply Z.eqb_neq in Ebe. contradiction. }
    destruct (allRoots_slack s be HI Hb) as (sb & Hsb & _).
    eapply returns_rd; [exact Hsb|].
    unfold returns at 1. cbn [wpe]. exact (Hset (jsLt sl sb)).
Qed.

Lemma scanNeighbours_allRoots v l s :
  allRoots g s -> 0 <= v < nVertex g ->
  (forall p, p ∈ l ->
     0 <= getEdgeFromEndpoint p < nEdge g /\
     exists adj, nthZ (endpoint g) p = Some adj /\ 0 <= adj < nVertex g) ->
  returns (fun r s' => r = false /\ allRoots g s' /\ queue s' = queue s)
          (forEachBreak l (scanNeighbour g fuel v)) s.
Proof.
  intros HI Hv. revert s HI. induction l as [|p l IH]; intros s HI Hl.
  - unfold returns. cbn [forEachBreak wpe]. auto.
  - cbn [forEachBreak]. apply returns_bind.
    destruct (Hl p ltac:(left)) as [Hk Hadj].
    eapply returns_weaken; [|apply scanNeighbour_allRoots; eauto].
    intros r s1 (-> & H1 & Hq). cbv iota.
    eapply returns_weaken; [|apply IH; [exact H1|]].
    + intros r s2 (-> & H2 & Hq2). split; [reflexivity|]. split; [exact H2|].
      congruence.
    + intros q Hq'. apply Hl. right. exact Hq'.
Qed.

Lemma searchLoop_allRoots s :
  allRoots g s -> Forall (fun v => 0 <= v < nVertex g) (queue s) ->
  (length (queue s) < fuel)%nat ->
  returns (fun r s' => r = false /\ allRoots g s' /\ queue s' = [])
          (searchLoop g fuel) s.
Proof.
  unfold searchLoop.
  match goal with |- _ -> _ -> _ -> returns _ (loop _ ?body tt) _ =>
    set (bd := body) end.
  assert (G : forall k s, allRoots g s ->
            Forall (fun v => 0 <= v < nVertex g) (queue s) ->
            (length (queue s) < k)%nat ->
            returns (fun r s' => r = false /\ allRoots g s' /\ queue s' = [])
                    (loop k bd tt) s).
  2:{ intros; apply G; assumption. }
  clear s. induction k as [|k IH]; intros s HI Hq Hlen; [lia|].
  cbn [loop]. apply returns_bind. unfold bd at 1.
  eapply returns_rd; [reflexivity|].
  destruct (queue s) as [|x xs] eqn:Eq0.
  { change (Z.of_nat (length (@nil Z)) >? 0) with false. unfold returns. cbn [wpe]. auto. }
  destruct (exists_last (l := x :: xs)) as (qs & q0 & Eq1); [discriminate|].
  rewrite Eq1 in *. clear Eq1 x xs. rename Eq0 into Eq.
  rewrite length_app in Hlen |- *. cbn [length] in Hlen |- *.
  replace (Z.of_nat (length qs + 1) >? 0) with true by (symmetry; apply Z.gtb_lt; lia).
  apply Forall_app in Hq. destruct Hq as [Hqs Hq0].
  inversion Hq0 as [|? ? Hq0r _]; subst.
  unfold queuePop. apply returns_bind.
  eapply returns_rd; [cbv beta; rewrite Eq; apply last_snoc|].
  eapply returns_upd; [reflexivity|].
  unfold returns at 1. cbn [wpe].
  destruct (Hnb q0 Hq0r) as (l & Hl & Hlp).
  unfold getNeighbend. eapply returns_lift; [exact Hl|].
  apply returns_bind.
  eapply returns_weaken;
    [|apply scanNeighbours_allRoots; [|exact Hq0r|exact Hlp]].
  - intros r s1 (-> & H1 & Hq1). unfold returns at 1. cbn [wpe].
    cbn [queue set_queue] in Hq1. rewrite Eq, removelast_last in Hq1.
    apply IH; [exact H1|rewrite Hq1; exact Hqs|rewrite Hq1; lia].
  - destruct HI as [H1 H2 H3' H3 H4 H5 H6 H7 H8 H9].
    constructor; cbn [set_queue mate inBlossom label blossomParent
      blossomBase dualVar allowEdge bestEdge]; assumption.
Qed.

Lemma foldOpt_const {A B} (l : list A) (d : B) (step : B -> A -> option B) :
  (forall x, x ∈ l -> step d x = Some d) -> foldOpt l d step = Some d.
Proof.
  induction l as [|x l IH]; intros H; [reflexivity|].
  cbn [foldOpt]. rewrite (H x) by left. apply IH.
  intros y Hy. apply H. right. exact Hy.
Qed.

Lemma fold_mathMin_zero (l : list number) :
  Forall (fun x => x = Fin zeroQ) l ->
  fold_left mathMin l (Fin zeroQ) = Fin zeroQ.
Proof.
  induction 1 as [|x l -> _ IH]; [reflexivity|]. cbn [fold_left]. exact IH.
Qed.

Lemma computeDelta_allRoots s :
  allRoots g s ->
  computeDelta g s
  = Some (mkDelta DELTA_TYPE_DUAL_DECREASE (Fin zeroQ) UNMATCHED UNMATCHED).
Proof.
  intros HI. pose proof HI as [H1 H2 H3' H3 H4 H5 H6 H7 H8 H9].
  unfold computeDelta. cbv zeta. rewrite Hmc. cbn [negb].
  assert (Hmin : getMin (dualVar s) 0 (nVertex g - 1) = Fin zeroQ).
  { unfold getMin. rewrite H6. change (Z.to_nat 0) with 0%nat. rewrite drop_0.
    replace (nVertex g - 1 + 1 - 0) with (nVertex g) by lia.
    unfold filledArray.
    rewrite take_app_length' by (rewrite length_replicate; reflexivity).
    destruct (Z.to_nat (nVertex g)) as [|m] eqn:Em; [lia|].
    cbn [replicate fold_left]. apply fold_mathMin_zero.
    apply Forall_replicate. reflexivity. }
  rewrite Hmin.
  set (d1 := mkDelta DELTA_TYPE_DUAL_DECREASE (Fin zeroQ) UNMATCHED UNMATCHED).
  rewrite foldOpt_const.
  2:{ intros v Hv. apply elem_of_zrange in Hv.
      unfold deltaEdgeSlackStep, topLabel.
      rewrite H2, nthZ_zrange by lia. cbn [mbind option_bind].
      rewrite (H3 (0 + v)) by lia. reflexivity. }
  cbn [mbind option_bind]. rewrite foldOpt_const.
  2:{ intros b Hb. apply elem_of_zrange in Hb.
      unfold deltaBlossomSlackStep.
      rewrite H4, nthZ_filledArray by lia. cbn [mbind option_bind].
      change (negb (UNMATCHED =? UNMATCHED)) with false. cbv iota.
      destruct (nthZ_lt_length (bestEdge s) b ltac:(lia)) as (be & Hbe).
      destruct (nthZ_lt_length (label s) b ltac:(lia)) as (lb & El).
      rewrite El.
      cbn [mbind option_bind].
      destruct (negb (lb =? VERTEX_LABEL_S)); [reflexivity|].
      rewrite Hbe. cbn [mbind option_bind].
      destruct (be =? UNMATCHED) eqn:Ebe; [reflexivity|].
      pose proof (nthZ_Forall _ _ _ _ H9 Hbe) as [Hx|Hx].
      { apply Z.eqb_neq in Ebe. contradiction. }
      destruct (allRoots_slack s be HI Hx) as (sb & Hsb & _ & Hhalf).
      rewrite Hsb. cbn [mbind option_bind].
      change (deltaType d1 =? DELTA_TYPE_NONE) with false. cbn [orb delta d1].
      change (Fin zeroQ) with (Fin 0). rewrite Hhalf. reflexivity. }
  cbn [mbind option_bind]. rewrite foldOpt_const.
  2:{ intros b Hb. apply elem_of_zrange in Hb.
      unfold deltaBlossomExpandStep.
      rewrite H5. rewrite nthZ_blossomBase_unused by lia. reflexivity. }
  reflexivity.
Qed.

Lemma allRoots_set_dualVar s :
  allRoots g s -> allRoots g (set_dualVar s (dualVar s)).
Proof.
  intros [H1 H2 H3' H3 H4 H5 H6 H7 H8 H9].
  constructor; cbn [set_dualVar mate inBlossom label blossomParent
    blossomBase dualVar allowEdge bestEdge]; assumption.
Qed.

Lemma applyDelta_allRoots s :
  allRoots g s ->
  returns (fun _ s' => allRoots g s' /\ queue s' = queue s)
          (applyDelta g (Fin zeroQ)) s.
Proof.
  intros HI. unfold applyDelta. cbv zeta. apply returns_bind.
  eapply returns_weaken;
    [|apply (returns_forEach (fun _ s' => allRoots g s' /\ queue s' = queue s));
      [|auto]].
  - intros [] s1 [HI1 Hq1]. cbv beta.
    eapply returns_weaken;
      [|apply (returns_forEach (fun _ s' => allRoots g s' /\ queue s' = queue s));
        [|auto]].
    + intros [] s2 H. exact H.
    + intros done b rest sx E [HIx Hqx].
      apply zrange_split in E. destruct E as [_ Hb].
      eapply returns_rd.
      { rewrite (ar_blossomBase _ _ HIx).
        apply nthZ_blossomBase_unused; lia. }
      change (UNMATCHED >=? 0) with false. unfold skip, returns. cbn [wpe]. auto.
  - intros done v rest sx E [HIx Hqx].
    apply zrange_split in E. destruct E as [_ Hv].
    assert (Hib : nthZ (inBlossom sx) v = Some v).
    { rewrite (ar_inBlossom _ _ HIx). apply nthZ_zrange. lia. }
    eapply returns_rd; [exact Hib|].
    eapply returns_rd; [apply (ar_label _ _ HIx); lia|].
    change (VERTEX_LABEL_S =? VERTEX_LABEL_S) with true. cbv iota.
    assert (Hd : nthZ (dualVar sx) v = Some (Fin zeroQ)).
    { rewrite (ar_dualVar _ _ HIx). apply nthZ_filled_app_l. lia. }
    unfold getDualVar. eapply returns_rd; [exact Hd|].
    change (jsSub (Fin zeroQ) (Fin zeroQ)) with (Fin zeroQ).
    unfold setDualVar, returns. cbn [upd wpe].
    rewrite (setZ_same _ _ _ Hd). cbn [fmap option_fmap option_map wpe].
    split; [apply allRoots_set_dualVar; exact HIx|exact Hqx].
Qed.

Lemma dualAdjust_allRoots s :
  allRoots g s ->
  returns (fun r s' => r = true /\ allRoots g s' /\ queue s' = queue s)
          (dualAdjust g fuel) s.
Proof.
  intros HI. unfold dualAdjust.
  eapply returns_rd; [apply computeDelta_allRoots; exact HI|].
  cbn [delta]. apply returns_bind.
  eapply returns_weaken; [|apply applyDelta_allRoots; exact HI].
  intros [] s1 [H1 Hq]. unfold actOnDelta, returns. cbn [deltaType].
  change (DELTA_TYPE_DUAL_DECREASE =? DELTA_TYPE_DUAL_DECREASE) with true.
  cbn [wpe]. auto.
Qed.

Lemma stageSearch_allRoots s :
  allRoots g s -> Forall (fun v => 0 <= v < nVertex g) (queue s) ->
  (length (queue s) < fuel)%nat ->
  returns (fun r s' => r = false /\ allRoots g s') (stageSearch g fuel) s.
Proof.
  intros HI Hq Hlen. unfold stageSearch.
  match goal with |- returns _ (loop _ ?body tt) _ => set (bd := body) end.
  assert (G : forall k, (0 < k)%nat ->
            returns (fun r s' => r = false /\ allRoots g s') (loop k bd tt) s).
  2:{ apply G. lia. }
  intros [|k] Hk; [lia|].
  cbn [loop]. apply returns_bind. unfold bd at 1. apply returns_bind.
  eapply returns_weaken; [|apply searchLoop_allRoots; assumption].
  intros r s1 (-> & H1 & Hq1). cbv iota. apply returns_bind.
  eapply returns_weaken; [|apply dualAdjust_allRoots; exact H1].
  intros r s2 (-> & H2 & _). unfold returns. cbn [wpe]. auto.
Qed.

Lemma matesToVertices_unmatched s :
  mate s = filledArray (nVertex g) UNMATCHED ->
  returns (fun _ s' => s' = s) (matesToVertices g) s.
Proof.
  intros Hm. unfold matesToVertices.
  apply (returns_forEach (fun _ s' => s' = s)); [|reflexivity].
  intros done v rest sx E ->. apply zrange_split in E. destruct E as [_ Hv].
  unfold mateToVertex. eapply returns_rd.
  { rewrite Hm. apply nthZ_filledArray. lia. }
  change (UNMATCHED >=? 0) with false. unfold skip, returns. cbn [wpe].
  reflexivity.
Qed.

Lemma nthZ_insert {A} (l : list A) v x b :
  0 <= v < Z.of_nat (length l) ->
  nthZ (<[Z.to_nat v := x]> l) b = if b =? v then Some x else nthZ l b.
Proof.
  intros Hv. destruct (Z.eqb_spec b v) as [->|Hne].
  - eapply nthZ_setZ_eq. apply setZ_Some. exact Hv.
  - eapply nthZ_setZ_ne; [apply setZ_Some; exact Hv|]. congruence.
Qed.

Lemma blossomLeavesOf_vertex childs v :
  (0 < fuel)%nat -> v < nVertex g ->
  blossomLeavesOf g fuel childs v = Some [v].
Proof.
  intros Hf Hv. destruct fuel as [|f]; [lia|]. cbn [blossomLeavesOf].
  destruct (Z.ltb_spec v (nVertex g)); [reflexivity|lia].
Qed.

Lemma assignLabel_root k done v s :
  (0 < k)%nat -> (0 < fuel)%nat ->
  rootsUpTo g done s -> v = Z.of_nat (length done) -> v < nVertex g ->
  returns (fun _ s' => rootsUpTo g (done ++ [v]) s')
          (assignLabelRec g fuel k v VERTEX_LABEL_S UNMATCHED) s.
Proof.
  intros Hk Hf [H1 H2 H3' H3 H4' H4 H5 H6 H7 H8 H9] Hv Hvn.
  assert (Hv0 : 0 <= v) by lia.
  destruct k as [|k]; [lia|]. cbn [assignLabelRec].
  eapply (returns_rd _ _ _ _ v).
  { rewrite H2. apply nthZ_zrange. lia. }
  unfold BLOSSOM_MULTIPLIER in *.
  unfold setLabel. eapply returns_upd.
  { rewrite setZ_Some by lia. reflexivity. }
  eapply returns_upd.
  { cbn [label set_label]. rewrite setZ_Some by (rewrite length_insert; lia).
    reflexivity. }
  unfold setLabelEnd. eapply returns_upd.
  { cbn [labelEnd set_label]. rewrite setZ_Some by lia. reflexivity. }
  eapply returns_upd.
  { cbn [labelEnd set_labelEnd]. rewrite setZ_Some by (rewrite length_insert; lia).
    reflexivity. }
  assert (Hbe : nthZ (bestEdge s) v = Some UNMATCHED).
  { rewrite H8. apply nthZ_filledArray. lia. }
  unfold setBestEdge. eapply returns_upd.
  { cbn [bestEdge set_label set_labelEnd]. rewrite (setZ_same _ _ _ Hbe).
    reflexivity. }
  eapply returns_upd.
  { cbn [bestEdge set_bestEdge]. rewrite (setZ_same _ _ _ Hbe). reflexivity. }
  change (VERTEX_LABEL_S =? VERTEX_LABEL_S) with true. cbv iota.
  unfold blossomLeaves, returns. cbn [bind wpe].
  rewrite blossomLeavesOf_vertex by assumption.
  cbn [bind queuePush upd wpe].
  constructor; cbn [mate inBlossom label labelEnd blossomParent blossomBase
    dualVar allowEdge bestEdge queue set_label set_labelEnd set_bestEdge
    set_queue]; try assumption.
  - rewrite !length_insert. exact H3'.
  - intros b Hb. rewrite !nthZ_insert by (rewrite ?length_insert; lia).
    rewrite length_app. cbn [length].
    destruct (Z.eqb_spec b v) as [->|Hne].
    + destruct (Z.ltb_spec v (Z.of_nat (length done + 1))); [reflexivity|lia].
    + rewrite (H3 b Hb).
      destruct (Z.ltb_spec b (Z.of_nat (length done)));
        destruct (Z.ltb_spec b (Z.of_nat (length done + 1)));
        try reflexivity; lia.
  - rewrite !length_insert. exact H4'.
  - rewrite H9. reflexivity.
Qed.

Lemma initRoots_allRoots s :
  (0 < fuel)%nat -> rootsUpTo g [] s ->
  returns (fun _ s' => allRoots g s' /\ queue s' = zrange 0 (nVertex g))
          (initRoots g fuel) s.
Proof.
  intros Hf H0. unfold initRoots.
  eapply returns_weaken;
    [|apply (returns_forEach (rootsUpTo g)); [|exact H0]].
  - intros [] s1 [H1 H2 H3' H3 H4' H4 H5 H6 H7 H8 H9].
    split; [|exact H9].
    constructor; try assumption.
    + intros v Hv. rewrite H3 by (unfold BLOSSOM_MULTIPLIER; lia).
      unfold zrange. rewrite length_fmap, length_seq.
      destruct (Z.ltb_spec v (Z.of_nat (Z.to_nat (nVertex g)))); [reflexivity|lia].
    + rewrite H8. unfold filledArray. rewrite length_replicate.
      unfold BLOSSOM_MULTIPLIER. lia.
    + rewrite H8. apply Forall_replicate. left. reflexivity.
  - intros done v rest sx E HIx. apply zrange_split in E.
    destruct E as [Ev Hv].
    assert (Ev' : Z.of_nat (length done) = v) by lia. clear Ev.
    eapply returns_rd.
    { rewrite (ru_mate _ _ _ HIx). apply nthZ_filledArray. lia. }
    change (UNMATCHED =? UNMATCHED) with true. cbv iota.
    eapply (returns_rd _ _ _ _ v).
    { rewrite (ru_inBlossom _ _ _ HIx). apply nthZ_zrange. lia. }
    eapply returns_rd.
    { apply (ru_label _ _ _ HIx). unfold BLOSSOM_MULTIPLIER. lia. }
    rewrite Ev', Z.ltb_irrefl.
    change (UNLABELED =? UNLABELED) with true. cbv iota.
    apply assignLabel_root; try assumption; lia.
Qed.

Lemma stageReset_returns s :
  returns (fun _ s' =>
             mate s' = mate s /\ inBlossom s' = inBlossom s /\
             labelEnd s' = labelEnd s /\ blossomParent s' = blossomParent s /\
             blossomBase s' = blossomBase s /\ dualVar s' = dualVar s /\
             label s' = filledArray (BLOSSOM_MULTIPLIER * nVertex g) UNLABELED /\
             bestEdge s' = filledArray (BLOSSOM_MULTIPLIER * nVertex g) UNMATCHED /\
             allowEdge s' = filledArray (nEdge g) false /\
             queue s' = [])
          (stageReset g) s.
Proof.
  destruct s as [x1 x2 x3 x4 x5 x6 x7 x8 x9 x10 x11 x12 x13 x14 x15].
  unfold stageReset, returns. cbv zeta.
  cbn [bind upd wpe set_label set_labelNeg1 set_bestEdge set_blossomBestEdges
       set_allowEdge set_queue mate inBlossom label labelNeg1 labelEnd
       blossomParent blossomChilds blossomBase blossomEndPs bestEdge
       blossomBestEdges unusedBlossoms dualVar allowEdge queue].
  repeat split; reflexivity.
Qed.

Lemma stage_allRoots t :
  (Z.to_nat (nVertex g) < fuel)%nat ->
  returns (fun r s' => r = true /\ allRoots g s') (stage g fuel t)
          (initialState g).
Proof.
  intros Hfuel. unfold stage. apply returns_bind.
  eapply returns_weaken; [|apply stageReset_returns].
  intros [] s0 (E1 & E2 & E3 & E4 & E5 & E6 & E7 & E8 & E9 & E10).
  cbn [initialState mate inBlossom labelEnd blossomParent blossomBase dualVar]
    in E1, E2, E3, E4, E5, E6.
  assert (H0 : rootsUpTo g [] s0).
  { constructor; try assumption.
    - rewrite E7. unfold filledArray. rewrite length_replicate.
      unfold BLOSSOM_MULTIPLIER. lia.
    - intros b Hb. rewrite E7, nthZ_filledArray by exact Hb.
      cbn [length]. destruct (Z.ltb_spec b (Z.of_nat 0)); [lia|reflexivity].
    - rewrite E3. unfold filledArray. rewrite length_replicate.
      unfold BLOSSOM_MULTIPLIER. lia.
    - rewrite E6, HmaxW. reflexivity. }
  unfold stageBody. apply returns_bind.
  eapply returns_weaken; [|apply initRoots_allRoots; [lia|exact H0]].
  intros [] s1 [H1 Hq]. cbv beta. apply returns_bind.
  eapply returns_weaken; [|apply stageSearch_allRoots; [exact H1| |]].
  - intros r s2 [-> H2]. unfold returns. cbn [wpe]. auto.
  - rewrite Hq. apply Forall_forall. intros v Hv.
    apply elem_of_zrange in Hv. lia.
  - rewrite Hq. unfold zrange. rewrite length_fmap, length_seq. exact Hfuel.
Qed.

Lemma maxWeightMatching_allRoots :
  (Z.to_nat (nVertex g) < fuel)%nat ->
  returns (fun m _ => m = filledArray (nVertex g) UNMATCHED)
          (maxWeightMatching g fuel) (initialState g).
Proof.
  intros Hfuel. unfold maxWeightMatching. apply returns_bind.
  unfold stages.
  destruct (zrange 0 (nVertex g)) as [|t ts] eqn:Ez.
  { apply (f_equal length) in Ez. unfold zrange in Ez.
    rewrite length_fmap, length_seq in Ez. cbn [length] in Ez. lia. }
  cbn [forEachBreak]. apply returns_bind.
  eapply returns_weaken; [|apply stage_allRoots; exact Hfuel].
  intros r s1 [-> H1]. unfold returns at 1 2. cbn [wpe].
  apply returns_bind.
  eapply returns_weaken;
    [|apply matesToVertices_unmatched; exact (ar_mate _ _ H1)].
  intros [] s2 ->. unfold returns. cbn [rd wpe]. exact (ar_mate _ _ H1).
Qed.

End NegativeWeights.

Lemma calculateMaxWeight_negative (es : list Edge) :
  Forall (fun e : Edge => (e.2 < 0)%Q) es -> calculateMaxWeight es = zeroQ.
Proof.
  unfold calculateMaxWeight. induction 1 as [|[[i j] w] es Hw _ IH];
    [reflexivity|].
  cbn [fold_left]. cbn [snd] in Hw.
  replace (jsMax zeroQ w) with zeroQ; [exact IH|].
  unfold jsMax. destruct (Qltb zeroQ w) eqn:E; [|reflexivity].
  apply Qltb_lt in E. unfold zeroQ in E. lra.
Qed.

Lemma maxWeightMatching_negative_weights (fuel : nat) (es : list Edge) :
  es <> [] ->
  Forall (fun e : Edge => 0 <= e.1.1 /\ 0 <= e.1.2) es ->
  Forall (fun e : Edge => (e.2 < 0)%Q) es ->
  Forall (fun e : Edge => isDouble e.2 = true) es ->
  (Z.to_nat (calculateVertexCount es) < fuel)%nat ->
  let g := initializeGraphProperties es false in
  exists st,
    run (maxWeightMatching g fuel) (initialState g)
    = Ret (filledArray (calculateVertexCount es) UNMATCHED) st.
Proof.
  intros Hne Hpos Hneg Hdbl Hfuel g.
  assert (Hn : 0 < nVertex g).
  { cbn [g initializeGraphProperties nVertex].
    rewrite (calculateVertexCount_max es Hne Hpos).
    pose proof (maxVertexId_nonneg es Hne Hpos). lia. }
  destruct (fold_vertexCount_spec es 0) as [_ Hlt].
  change (fold_left _ es 0) with (nVertex g) in Hlt.
  assert (Hedges : forall k, 0 <= k < nEdge g ->
    exists i j w, nthZ (edges g) k = Some (i, j, w) /\
      0 <= i < nVertex g /\ 0 <= j < nVertex g /\
      (w < 0)%Q /\ isDouble w = true).
  { intros k Hk. cbn [g initializeGraphProperties nEdge edges] in Hk |- *.
    destruct (nthZ_lt_length es k Hk) as ([[i j] w] & He).
    exists i, j, w. split; [exact He|].
    pose proof (nthZ_Forall _ _ _ _ Hpos He) as H1.
    pose proof (nthZ_Forall _ _ _ _ Hlt He) as H2.
    pose proof (nthZ_Forall _ _ _ _ Hneg He) as H3.
    pose proof (nthZ_Forall _ _ _ _ Hdbl He) as H4.
    cbn [fst snd] in H1, H2, H3, H4.
    split; [lia|]. split; [lia|]. split; [exact H3|exact H4]. }
  assert (Hnb : forall v, 0 <= v < nVertex g ->
    exists l, nthZ (neighbend g) v = Some l /\
      forall p, p ∈ l ->
        0 <= getEdgeFromEndpoint p < nEdge g /\
        exists adj, nthZ (endpoint g) p = Some adj /\ 0 <= adj < nVertex g).
  { intros v Hv. destruct (neighbend_upTo es false Hpos) as [Hlen Hinv].
    fold g in Hlen, Hinv.
    destruct (nthZ_lt_length (neighbend g) v ltac:(lia)) as (l & Hl).
    exists l. split; [exact Hl|]. intros p Hp.
    apply nthZ_Some in Hl. destruct Hl as [_ Hl].
    destruct (Hinv _ _ Hl) as [_ Hmem]. apply Hmem in Hp.
    apply incidentEndpoint_bound in Hp.
    assert (Hk : 0 <= getEdgeFromEndpoint p < nEdge g).
    { cbn [g initializeGraphProperties nEdge].
      unfold getEdgeFromEndpoint, EDGE_ENDPOINT_COUNT. split.
      - apply Z.div_pos; lia.
      - apply Z.div_lt_upper_bound; lia. }
    split; [exact Hk|].
    destruct (nthZ_lt_length (endpoint g) p) as (adj & Hadj).
    { cbn [g initializeGraphProperties endpoint].
      rewrite buildEndpoint_length. lia. }
    exists adj. split; [exact Hadj|].
    exact (graph_endpoint_range es false p adj Hpos Hadj). }
  pose proof (maxWeightMatching_allRoots g fuel Hn
                (calculateMaxWeight_negative es Hneg) eq_refl Hedges Hnb Hfuel)
    as H.
  apply returns_run in H. destruct H as (m & st & Hrun & ->).
  exists st. exact Hrun.
Qed.

(** X21.  When every weight is negative and [maxCardinality] is not set,
    [blossom] matches nothing: given an iteration bound above the number
    of vertices it returns, after one stage, the array that holds -1 for
    every vertex.  The weights are JavaScript numbers, that is binary64
    values. *)
Theorem blossom_negative_weights_match_nothing (fuel : nat) (es : list JsVal)
    (maxCardinality : option bool) :
  es <> [] -> validateEdges es = None ->
  Forall (fun e => ((toEdge e).2 < 0)%Q) es ->
  Forall (fun e => isDouble (toEdge e).2 = true) es ->
  orFalse maxCardinality = false ->
  let n := calculateVertexCount (map toEdge es) in
  constructorAllocates n (Z.of_nat (length es)) = true ->
  (Z.to_nat n < fuel)%nat ->
  blossom fuel (JArray es) maxCardinality = Returned (filledArray n UNMATCHED).
Proof.
  intros Hne Hval Hneg Hdbl Hmc n Halloc Hfuel.
  destruct es as [|e0 es0]; [congruence|].
  rewrite blossom_nonempty, Hval, Hmc.
  unfold runEdmonds. rewrite length_map. fold n. rewrite Halloc.
  apply validateEdges_None in Hval.
  destruct (maxWeightMatching_negative_weights fuel (map toEdge (e0 :: es0)))
    as (st & Hrun).
  - discriminate.
  - apply Forall_map. eapply Forall_impl; [exact Hval|].
    intros e He. apply toEdge_nonneg. exact He.
  - apply Forall_map. exact Hneg.
  - apply Forall_map. exact Hdbl.
  - exact Hfuel.
  - rewrite Hrun. reflexivity.
Qed.

Lemma blossom_negative_weights_match_nothing_witness :
  let es := [jsEdge (0, 1, -5); jsEdge (1, 2, -3); jsEdge (0, 2, -1)] in
  es <> [] /\ validateEdges es = None /\
  Forall (fun e => ((toEdge e).2 < 0)%Q) es /\
  Forall (fun e => isDouble (toEdge e).2 = true) es /\
  orFalse None = false /\
  constructorAllocates (calculateVertexCount (map toEdge es))
                       (Z.of_nat (length es)) = true /\
  (Z.to_nat (calculateVertexCount (map toEdge es)) < 4)%nat /\
  blossom 4 (JArray es) None = Returned [-1; -1; -1].
Proof.
  intros es.
  assert (H1 : es <> []) by discriminate.
  assert (H2 : validateEdges es = None) by reflexivity.
  assert (H3 : Forall (fun e => ((toEdge e).2 < 0)%Q) es)
    by (repeat constructor).
  assert (H3' : Forall (fun e => isDouble (toEdge e).2 = true) es)
    by (repeat constructor).
  assert (H4 : orFalse None = false) by reflexivity.
  assert (H5 : constructorAllocates (calculateVertexCount (map toEdge es))
                 (Z.of_nat (length es)) = true) by reflexivity.
  assert (H6 : (Z.to_nat (calculateVertexCount (map toEdge es)) < 4)%nat)
    by (vm_compute; lia).
  do 7 (split; [assumption|]).
  exact (blossom_negative_weights_match_nothing 4 es None H1 H2 H3 H3' H4 H5 H6).
Defined.

(** ** No vertex is matched to itself *)
Lemma proper_opp g p : properEndpoint g p -> properEndpoint g (getOppositeEndpoint p).
Proof.
  intros (v & w & Hv & Hw & Hne). exists w, v.
  rewrite opp_involutive. auto.
Qed.

Lemma nthZ_neg {A} (l : list A) i : i < 0 -> nthZ l i = None.
Proof. intros H. unfold nthZ. destruct (Z.ltb_spec i 0); [reflexivity|lia]. Qed.

Lemma ok_tricked g p : okEndpoint g p -> okTricked g p.
Proof. intros [->|H]; [left; reflexivity|right; right; exact H]. Qed.

Lemma tricked_opp g p : okTricked g p -> okTricked g (getOppositeEndpoint p).
Proof.
  intros [->|[->|H]].
  - right. left. reflexivity.
  - left. reflexivity.
  - right. right. apply proper_opp. exact H.
Qed.

Lemma tricked_lxor g e t :
  okEndpoint g e -> t = 0 \/ t = 1 -> okTricked g (Z.lxor e t).
Proof.
  intros He [->| ->].
  - rewrite Z.lxor_0_r. apply ok_tricked. exact He.
  - apply (tricked_opp g e). apply ok_tricked. exact He.
Qed.

Lemma tricked_read g p x :
  okTricked g p -> nthZ (endpoint g) p = Some x -> properEndpoint g p.
Proof.
  intros [->|[->|H]] Hx; [| |exact H]; rewrite nthZ_neg in Hx by lia; discriminate.
Qed.

Lemma tricked_read_opp g p x :
  okTricked g p -> nthZ (endpoint g) (getOppositeEndpoint p) = Some x ->
  properEndpoint g p.
Proof.
  intros H Hx. apply tricked_opp in H.
  pose proof (tricked_read g _ x H Hx) as Hp.
  apply proper_opp in Hp. rewrite opp_involutive in Hp. exact Hp.
Qed.

Lemma ok_read g p x :
  okEndpoint g p -> nthZ (endpoint g) p = Some x -> properEndpoint g p.
Proof. intros H. apply tricked_read. apply ok_tricked. exact H. Qed.

Lemma ok_read_opp g p x :
  okEndpoint g p -> nthZ (endpoint g) (getOppositeEndpoint p) = Some x ->
  properEndpoint g p.
Proof. intros H. apply tricked_read_opp. apply ok_tricked. exact H. Qed.

Lemma ok_unmatched g : okEndpoint g UNMATCHED.
Proof. left. reflexivity. Qed.

Lemma proper_ok g p : properEndpoint g p -> okEndpoint g p.
Proof. intros H. right. exact H. Qed.

Lemma proper_edge_ends g p :
  properEndpoint g p ->
  properEndpoint g (EDGE_ENDPOINT_COUNT * getEdgeFromEndpoint p) /\
  properEndpoint g (EDGE_ENDPOINT_COUNT * getEdgeFromEndpoint p + 1).
Proof.
  intros H. pose proof H as (v & w & Hv & _).
  apply nthZ_Some in Hv. destruct Hv as [Hp _].
  unfold getEdgeFromEndpoint, EDGE_ENDPOINT_COUNT.
  pose proof (Z.div_mod p 2 ltac:(lia)) as Hdm.
  pose proof (Z.mod_pos_bound p 2 ltac:(lia)) as Hb.
  assert (p = 2 * (p / 2) \/ p = 2 * (p / 2) + 1) as [E|E] by lia.
  - split; [rewrite <- E; exact H|].
    rewrite <- opp_even, <- E. apply proper_opp. exact H.
  - split; [|rewrite <- E; exact H].
    rewrite <- opp_odd, <- E. apply proper_opp. exact H.
Qed.

Lemma sameLinks_refl s : sameLinks s s.
Proof. repeat split. Qed.

Lemma sameLinks_trans x y z : sameLinks x y -> sameLinks y z -> sameLinks x z.
Proof. intros (A & B & C) (D & E & F). repeat split; congruence. Qed.

#[global] Hint Extern 1 (sameLinks _ _) => (repeat split; reflexivity) : writes.

Lemma links_frame g s s' : sameLinks s s' -> linksProper g s -> linksProper g s'.
Proof. intros (A & B & C). unfold linksProper. rewrite A, B, C. auto. Qed.

Lemma Forall_setZ {A} (P : A -> Prop) (l l' : list A) i x :
  setZ l i x = Some l' -> Forall P l -> P x -> Forall P l'.
Proof.
  unfold setZ. destruct (_ && _); [|discriminate].
  intros [= <-] Hl Hx. apply Forall_insert; assumption.
Qed.

Lemma links_labelEnd g s i x l :
  linksProper g s -> okEndpoint g x -> setZ (labelEnd s) i x = Some l ->
  linksProper g (set_labelEnd s l).
Proof.
  intros (A & B & C) Hx E. repeat split; cbn; try assumption.
  eapply Forall_setZ; eauto.
Qed.

Lemma links_mate g s i x l :
  linksProper g s -> okEndpoint g x -> setZ (mate s) i x = Some l ->
  linksProper g (set_mate s l).
Proof.
  intros (A & B & C) Hx E. repeat split; cbn; try assumption.
  eapply Forall_setZ; eauto.
Qed.

Lemma links_blossomEndPs g s i x l :
  linksProper g s -> Forall (okEndpoint g) x ->
  setZ (blossomEndPs s) i x = Some l ->
  linksProper g (set_blossomEndPs s l).
Proof.
  intros (A & B & C) Hx E. repeat split; cbn; try assumption.
  eapply Forall_setZ; eauto.
Qed.

Lemma links_read_mate g s v m :
  linksProper g s -> nthZ (mate s) v = Some m -> okEndpoint g m.
Proof. intros (A & _) H. eapply nthZ_Forall; eauto. Qed.

Lemma links_read_labelEnd g s v m :
  linksProper g s -> nthZ (labelEnd s) v = Some m -> okEndpoint g m.
Proof. intros (_ & A & _) H. eapply nthZ_Forall; eauto. Qed.

Lemma links_read_endPs g s b l :
  linksProper g s -> nthZ (blossomEndPs s) b = Some l -> Forall (okEndpoint g) l.
Proof. intros (_ & _ & A) H. eapply nthZ_Forall; eauto. Qed.

Lemma atZ_Forall {A} (P : A -> Prop) (l : list A) j x :
  Forall P l -> atZ l j = Some x -> P x.
Proof. unfold atZ. apply nthZ_Forall. Qed.

Section Links.

Context (g : Graph) (fuel : nat).

Lemma keeps_Pure {A} (Q : A -> Prop) (a : A) : Q a -> keepsLinks g Q (Pure a).
Proof. intros Ha s Hs. split; assumption. Qed.

Lemma keeps_Halt {A} (Q : A -> Prop) h : keepsLinks g Q (Halt h).
Proof. intros s Hs. exact I. Qed.

Lemma keeps_bind {A B} (Q1 : A -> Prop) (Q : B -> Prop) (p : prog A)
    (f : A -> prog B) :
  keepsLinks g Q1 p -> (forall a, Q1 a -> keepsLinks g Q (f a)) ->
  keepsLinks g Q (bind p f).
Proof.
  intros Hp Hf s Hs. apply wp_bind.
  eapply wp_weaken; [|apply Hp; exact Hs].
  intros a s1 [H1 Ha]. apply Hf; assumption.
Qed.

Lemma keeps_weaken {A} (Q Q' : A -> Prop) (p : prog A) :
  (forall a, Q a -> Q' a) -> keepsLinks g Q p -> keepsLinks g Q' p.
Proof.
  intros HQ Hp s Hs. eapply wp_weaken; [|apply Hp; exact Hs].
  intros a s1 [H1 Ha]. split; [exact H1|apply HQ; exact Ha].
Qed.

Lemma keeps_frame {A} (p : prog A) :
  respects sameLinks anyValue p -> keepsLinks g anyValue p.
Proof.
  intros Hp s Hs.
  eapply wp_weaken;
    [|apply (wp_of_respects sameLinks p s s sameLinks_trans Hp (sameLinks_refl s))].
  intros a s1 H1. split; [exact (links_frame g s s1 H1 Hs)|exact I].
Qed.

Lemma keeps_upd (f : State -> option State) :
  (forall s s', linksProper g s -> f s = Some s' -> linksProper g s') ->
  keepsLinks g anyValue (upd f).
Proof.
  intros H s Hs. apply wp_upd_intro. intros s' E.
  split; [exact I|]. split; [eapply H; eauto|exact I].
Qed.

Lemma keeps_setLabelEnd i x :
  okEndpoint g x -> keepsLinks g anyValue (setLabelEnd i x).
Proof.
  intros Hx. apply keeps_upd. intros s s' Hs H.
  destruct (setZ (labelEnd s) i x) as [l|] eqn:E; [|discriminate].
  injection H as <-. eapply links_labelEnd; eauto.
Qed.

Lemma keeps_setMate i x :
  okEndpoint g x -> keepsLinks g anyValue (setMate i x).
Proof.
  intros Hx. apply keeps_upd. intros s s' Hs H.
  destruct (setZ (mate s) i x) as [l|] eqn:E; [|discriminate].
  injection H as <-. eapply links_mate; eauto.
Qed.

Lemma keeps_setBlossomEndPs i x :
  Forall (okEndpoint g) x -> keepsLinks g anyValue (setBlossomEndPs i x).
Proof.
  intros Hx. apply keeps_upd. intros s s' Hs H.
  destruct (setZ (blossomEndPs s) i x) as [l|] eqn:E; [|discriminate].
  injection H as <-. eapply links_blossomEndPs; eauto.
Qed.

Lemma keeps_forEach {A} (l : list A) (body : A -> prog unit) :
  (forall x, x ∈ l -> keepsLinks g anyValue (body x)) ->
  keepsLinks g anyValue (forEach l body).
Proof.
  induction l as [|x l IH]; intros H; cbn [forEach].
  - apply keeps_Pure. exact I.
  - apply (keeps_bind anyValue); [apply H; left|].
    intros _ _. apply IH. intros y Hy. apply H. right. exact Hy.
Qed.

Lemma keeps_forEachBreak {A} (l : list A) (body : A -> prog bool) :
  (forall x, x ∈ l -> keepsLinks g anyValue (body x)) ->
  keepsLinks g anyValue (forEachBreak l body).
Proof.
  induction l as [|x l IH]; intros H; cbn [forEachBreak].
  - apply keeps_Pure. exact I.
  - apply (keeps_bind anyValue); [apply H; left|].
    intros [|] _; [apply keeps_Pure; exact I|]. apply IH.
    intros y Hy. apply H. right. exact Hy.
Qed.

Lemma keeps_loop {A B} (Inv : A -> Prop) (Q : B -> Prop) n
    (body : A -> prog (A + B)) a :
  (forall a, Inv a ->
     keepsLinks g (fun r => match r with inl a' => Inv a' | inr b => Q b end)
                (body a)) ->
  Inv a -> keepsLinks g Q (loop n body a).
Proof.
  intros H. revert a. induction n as [|n IH]; intros a Ha; cbn [loop].
  - apply keeps_Halt.
  - eapply keeps_bind; [apply H; exact Ha|].
    intros [a'|b] Hr; [apply IH; exact Hr|apply keeps_Pure; exact Hr].
Qed.

Lemma keeps_getEndpoint {B} (Q : B -> Prop) q (k : Z -> prog B) :
  (forall x, nthZ (endpoint g) q = Some x -> keepsLinks g Q (k x)) ->
  keepsLinks g Q (bind (getEndpoint g q) k).
Proof.
  intros H s Hs. unfold getEndpoint. apply wp_bind. apply wp_lift_intro.
  intros x Hx. apply H; assumption.
Qed.

Lemma keeps_lift {A B} (Q : B -> Prop) (o : option A) (k : A -> prog B) :
  (forall x, o = Some x -> keepsLinks g Q (k x)) ->
  keepsLinks g Q (bind (lift o) k).
Proof.
  intros H s Hs. apply wp_bind. apply wp_lift_intro.
  intros x Hx. apply H; assumption.
Qed.

Lemma keeps_getLabelEnd {B} (Q : B -> Prop) b (k : Z -> prog B) :
  (forall x, okEndpoint g x -> keepsLinks g Q (k x)) ->
  keepsLinks g Q (bind (getLabelEnd b) k).
Proof.
  intros H s Hs. unfold getLabelEnd. apply wp_bind. apply wp_rd_intro.
  intros x Hx. apply H; [|exact Hs]. eapply links_read_labelEnd; eauto.
Qed.

Lemma keeps_getMate {B} (Q : B -> Prop) v (k : Z -> prog B) :
  (forall x, okEndpoint g x -> keepsLinks g Q (k x)) ->
  keepsLinks g Q (bind (getMate v) k).
Proof.
  intros H s Hs. unfold getMate. apply wp_bind. apply wp_rd_intro.
  intros x Hx. apply H; [|exact Hs]. eapply links_read_mate; eauto.
Qed.

Lemma keeps_getBlossomEndPs {B} (Q : B -> Prop) b (k : list Z -> prog B) :
  (forall l, Forall (okEndpoint g) l -> keepsLinks g Q (k l)) ->
  keepsLinks g Q (bind (getBlossomEndPs b) k).
Proof.
  intros H s Hs. unfold getBlossomEndPs. apply wp_bind. apply wp_rd_intro.
  intros x Hx. apply H; [|exact Hs]. eapply links_read_endPs; eauto.
Qed.

Lemma keeps_pushEndP b x :
  okEndpoint g x -> keepsLinks g anyValue (pushEndP b x).
Proof.
  intros Hx. unfold pushEndP. apply keeps_getBlossomEndPs. intros l Hl.
  apply keeps_setBlossomEndPs. apply Forall_app. split; [exact Hl|].
  constructor; [exact Hx|constructor].
Qed.

End Links.

Create HintDb links.
#[global] Hint Resolve ok_unmatched proper_ok proper_opp ok_read ok_read_opp ok_tricked
  tricked_opp tricked_lxor tricked_read tricked_read_opp : links.

(** A write to a field other than the three. *)
Ltac kframe_upd :=
  apply keeps_upd;
  let H := fresh in
  intros ? ? ? H; injection H as <-;
  (eapply links_frame; [|eassumption]); repeat split; reflexivity.

(** One step of a proof that a method keeps the invariant. *)
Ltac kstep :=
  cbv beta;
  lazymatch goal with
  | |- keepsLinks _ _ (Pure _) => apply keeps_Pure; try exact I
  | |- keepsLinks _ _ skip => apply keeps_Pure; try exact I
  | |- keepsLinks _ _ (Halt _) => apply keeps_Halt
  | |- keepsLinks _ _ (bind (getLabelEnd _) _) =>
      apply keeps_getLabelEnd; intros ? ?
  | |- keepsLinks _ _ (bind (getMate _) _) => apply keeps_getMate; intros ? ?
  | |- keepsLinks _ _ (bind (getBlossomEndPs _) _) =>
      apply keeps_getBlossomEndPs; intros ? ?
  | |- keepsLinks _ _ (bind (getEndpoint _ _) _) =>
      apply keeps_getEndpoint; intros ? ?
  | |- keepsLinks _ _ (bind (lift _) _) => apply keeps_lift; intros ? ?
  | |- keepsLinks _ _ (bind (setLabelEnd _ _) _) =>
      apply (keeps_bind _ anyValue);
        [apply keeps_setLabelEnd; solve [eauto 8 with links]|intros _ _]
  | |- keepsLinks _ _ (bind (setMate _ _) _) =>
      apply (keeps_bind _ anyValue);
        [apply keeps_setMate; solve [eauto 8 with links]|intros _ _]
  | |- keepsLinks _ _ (bind (pushEndP _ _) _) =>
      apply (keeps_bind _ anyValue);
        [apply keeps_pushEndP; solve [eauto 8 with links]|intros _ _]
  | |- keepsLinks _ _ (bind (setBlossomEndPs _ _) _) =>
      apply (keeps_bind _ anyValue);
        [apply keeps_setBlossomEndPs|intros _ _]
  | |- keepsLinks _ _ (setLabelEnd _ _) =>
      apply keeps_setLabelEnd; solve [eauto 8 with links]
  | |- keepsLinks _ _ (setMate _ _) =>
      apply keeps_setMate; solve [eauto 8 with links]
  | |- keepsLinks _ _ (bind ?p _) =>
      apply (keeps_bind _ anyValue);
        [try first [ solve [eauto with links]
                   | apply keeps_frame; solve [auto with resp | resp_go]
                   | solve [kframe_upd] ]
        | intros ? _ ]
  | |- keepsLinks _ _ (if ?b then _ else _) => destruct b
  | |- keepsLinks _ _ _ =>
      first [ solve [eauto with links]
            | apply keeps_frame; solve [auto with resp | resp_go]
            | solve [kframe_upd] ]
  end.

Tactic Notation "kbind" ident(x) :=
  cbv beta;
  lazymatch goal with
  | |- keepsLinks _ _ (bind ?p _) =>
      apply (keeps_bind _ anyValue);
        [try first [ solve [eauto with links]
                   | apply keeps_frame; solve [auto with resp | resp_go]
                   | solve [kframe_upd] ]
        | intros x _ ]
  end.

Tactic Notation "kread" ident(x) ident(H) :=
  cbv beta;
  lazymatch goal with
  | |- keepsLinks _ _ (bind (getLabelEnd _) _) =>
      apply keeps_getLabelEnd; intros x H
  | |- keepsLinks _ _ (bind (getMate _) _) => apply keeps_getMate; intros x H
  | |- keepsLinks _ _ (bind (getBlossomEndPs _) _) =>
      apply keeps_getBlossomEndPs; intros x H
  | |- keepsLinks _ _ (bind (getEndpoint _ _) _) =>
      apply keeps_getEndpoint; intros x H
  | |- keepsLinks _ _ (bind (lift _) _) => apply keeps_lift; intros x H
  end.

Section LinksMethods.

Context (g : Graph) (fuel : nat).

Lemma keeps_assignLabelRec n v t p :
  okEndpoint g p -> keepsLinks g anyValue (assignLabelRec g fuel n v t p).
Proof.
  revert v t p. induction n as [|n IH]; intros v t p Hp; cbn [assignLabelRec].
  - kstep.
  - do 7 kstep. kstep.
    + repeat kstep.
    + kstep; [|kstep].
      do 3 kstep. apply IH. eauto 6 with links.
Qed.

Lemma keeps_assignLabel v t p :
  okEndpoint g p -> keepsLinks g anyValue (assignLabel g fuel v t p).
Proof. apply keeps_assignLabelRec. Qed.

Lemma keeps_augmentBlossomRec n b v :
  keepsLinks g anyValue (augmentBlossomRec g fuel n b v).
Proof.
  revert b v. induction n as [|n IH]; intros b v; cbn [augmentBlossomRec].
  - kstep.
  - kstep. kstep.
    { destruct (_ >? _); [apply IH|kstep]. }
    kstep.
    match goal with |- context [if ?c then _ else _] => destruct c end;
      cbv beta iota.
    + kstep.
      { apply (keeps_loop g (fun _ => True) anyValue); [|exact I].
        intros ci _. destruct (ci =? 0); [kstep|].
        cbv zeta. kstep. kstep. kstep. kstep.
        assert (He : okEndpoint g x0) by (eapply atZ_Forall; eauto).
        assert (Hp : okTricked g (Z.lxor x0 0))
          by (apply tricked_lxor; auto).
        kstep.
        { destruct (_ >=? _); [|kstep]. kstep. apply IH. }
        kstep. kstep. kstep.
        { destruct (_ >=? _); [|kstep]. kstep. apply IH. }
        kstep.
        assert (Hpp : properEndpoint g (Z.lxor x0 0)) by eauto with links.
        kstep. kstep. kstep. kstep. }
      kstep. kstep. kstep. kstep.
      { unfold sliceFrom, sliceTo. apply Forall_app.
        split; [apply Forall_drop|apply Forall_take]; assumption. }
      repeat kstep.
    + kstep.
      { apply (keeps_loop g (fun _ => True) anyValue); [|exact I].
        intros ci _. destruct (ci =? 0); [kstep|].
        cbv zeta. kstep. kstep. kstep. kstep.
        assert (He : okEndpoint g x0) by (eapply atZ_Forall; eauto).
        assert (Hp : okTricked g (Z.lxor x0 1))
          by (apply tricked_lxor; auto).
        kstep.
        { destruct (_ >=? _); [|kstep]. kstep. apply IH. }
        kstep. kstep. kstep.
        { destruct (_ >=? _); [|kstep]. kstep. apply IH. }
        kstep.
        assert (Hpp : properEndpoint g (Z.lxor x0 1)) by eauto with links.
        kstep. kstep. kstep. kstep. }
      kstep. kstep. kstep. kstep.
      { unfold sliceFrom, sliceTo. apply Forall_app.
        split; [apply Forall_drop|apply Forall_take]; assumption. }
      repeat kstep.
Qed.

Lemma keeps_augmentBlossom b v : keepsLinks g anyValue (augmentBlossom g fuel b v).
Proof. apply keeps_augmentBlossomRec. Qed.

Hint Resolve keeps_augmentBlossom keeps_assignLabel : links.

Lemma keeps_augmentMatchingStep s p :
  properEndpoint g p ->
  keepsLinks g (fun r => match r with
                         | inl (_, p') => properEndpoint g p'
                         | inr _ => True
                         end)
             (augmentMatchingStep g fuel (s, p)).
Proof.
  intros Hp. unfold augmentMatchingStep.
  kstep. kstep.
  { destruct (_ >=? _); kstep. }
  kstep. kstep.
  destruct (_ =? _); [kstep|].
  kstep. kstep. kstep. kstep. kstep. kstep.
  { destruct (_ >=? _); kstep. }
  kstep. kstep. eauto with links.
Qed.

Lemma keeps_augmentMatching k :
  properEndpoint g (EDGE_ENDPOINT_COUNT * k) ->
  properEndpoint g (EDGE_ENDPOINT_COUNT * k + 1) ->
  keepsLinks g anyValue (augmentMatching g fuel k).
Proof.
  intros H0 H1. unfold augmentMatching, getEdge.
  kstep. destruct x as [[v w] q].
  apply keeps_forEach. intros [s p] Hin.
  apply (keeps_loop g (fun '(_, p) => properEndpoint g p) anyValue).
  - intros [s1 p1] Hp1.
    eapply keeps_weaken; [|apply keeps_augmentMatchingStep; exact Hp1].
    intros [[s2 p2]|[]] Hr; [exact Hr|exact I].
  - apply elem_of_cons in Hin. destruct Hin as [[= -> ->]|Hin]; [exact H1|].
    apply list_elem_of_singleton in Hin. injection Hin as -> ->. exact H0.
Qed.

Hint Resolve keeps_augmentMatching : links.

(** In the second walk of [addBlossom] the endpoint [labelEnd[wBlossom] ^ 1]
    is pushed before [endpoint[labelEnd[wBlossom]]] is read. *)
Lemma keeps_push_opposite {B} (Q : B -> Prop) b wBlossom (k : Z -> prog B) :
  (forall wNext, keepsLinks g Q (k wNext)) ->
  keepsLinks g Q
    (let* le := getLabelEnd wBlossom in
     let* _ := pushEndP b (getOppositeEndpoint le) in
     let* le := getLabelEnd wBlossom in
     let* wNext := getEndpoint g le in
     k wNext).
Proof.
  intros Hk s Hs. wp_read le Hle.
  pose proof (links_read_labelEnd g s _ _ Hs Hle) as Hok.
  apply wp_pushEndP. intros e l He Hset.
  wp_read le' Hle'. rewrite Hle in Hle'. injection Hle' as <-.
  unfold getEndpoint. apply wp_bind. apply wp_lift_intro. intros wNext Hw.
  apply Hk. eapply links_blossomEndPs; [exact Hs| |exact Hset].
  apply Forall_app. split; [eapply links_read_endPs; eauto|].
  constructor; [|constructor]. eauto with links.
Qed.

Lemma keeps_addBlossom base k :
  properEndpoint g (EDGE_ENDPOINT_COUNT * k) ->
  keepsLinks g anyValue (addBlossom g fuel base k).
Proof.
  intros Hk. unfold addBlossom, getEdge.
  kstep. destruct x as [[v w] q].
  do 8 kstep. kstep; [constructor|].
  kstep.
  { apply (keeps_loop g (fun _ => True) anyValue); [|exact I].
    intros vB _. destruct (vB =? _); [kstep|]. repeat kstep. }
  do 4 kstep. kstep; [apply Forall_rev; assumption|].
  kstep. kstep.
  { apply (keeps_loop g (fun _ => True) anyValue); [|exact I].
    intros wB _. destruct (wB =? _); [kstep|]. kstep. kstep.
    apply keeps_push_opposite. intros wNext. repeat kstep. }
  repeat kstep.
Qed.

Hint Resolve keeps_addBlossom : links.

Lemma keeps_expandBlossomRelabel b :
  keepsLinks g anyValue (expandBlossomRelabel g fuel b).
Proof.
  unfold expandBlossomRelabel.
  kread le0 Hle0. kread x0 Hx0. kstep. kstep. cbv zeta.
  match goal with |- context [if ?c then ?a else ?b] =>
    set (tr := if c then a else b);
    assert (Ht : tr.2 = 0 \/ tr.2 = 1) by (subst tr; destruct c; auto);
    clearbody tr
  end.
  destruct tr as [[j0 jStep] endpTrick]. cbn [snd] in Ht. cbv beta iota.
  kread le Hle.
  eapply keeps_bind.
  { apply (keeps_loop g (fun '(_, p) => okTricked g p)
                        (fun '(_, p) => okTricked g p));
      [|eauto with links].
    intros [j p] Hp. destruct (j =? 0); [kstep; exact Hp|].
    kread x1 Hx1. kstep. kread endPs1 HendPs1. kread e1 He1.
    kread y1 Hy1. kstep. kread x2 Hx2.
    kstep.
    kread endPs2 HendPs2. kread e2 He2. kstep.
    kread endPs3 HendPs3. kread e3 He3. kstep. kstep.
    eapply atZ_Forall in He3; [|eassumption].
    apply tricked_lxor; auto. }
  intros [j p] Hp. kstep. kread bv Hbv. kread x3 Hx3. kstep. kstep.
  kread x4 Hx4. kstep. kstep. kstep.
  apply (keeps_loop g (fun _ => True) anyValue); [|exact I].
  intros j2 _. kstep. kread currentBv Hcb. destruct (_ =? _); [kstep|].
  kstep. destruct (_ =? _); [kstep|].
  kstep. kstep. kstep; [|kstep].
  destruct (_ =? _).
  - apply (keeps_bind g anyValue); [kstep|intros l _].
    destruct l as [[| |]|]; repeat kstep.
  - kstep. destruct (negb _); [|kstep].
    kstep. kstep. kread m Hm. kread y Hy. kstep.
    kread lev Hlev. apply keeps_assignLabel. exact Hlev.
Qed.

Hint Resolve keeps_expandBlossomRelabel : links.

Lemma keeps_expandBlossomRec n b endStage :
  keepsLinks g anyValue (expandBlossomRec g fuel n b endStage).
Proof.
  revert b. induction n as [|n IH]; intros b; cbn [expandBlossomRec].
  - kstep.
  - kstep. kstep.
    { apply keeps_forEach. intros c _. kstep.
      destruct (c <? _); [kstep|].
      kbind zeroDual. destruct zeroDual; [apply IH|]. repeat kstep. }
    kbind relabel. kstep; [destruct relabel; kstep|].
    kstep. kstep. kstep; [constructor|]. repeat kstep.
Qed.

Lemma keeps_expandBlossom b endStage :
  keepsLinks g anyValue (expandBlossom g fuel b endStage).
Proof. apply keeps_expandBlossomRec. Qed.

Hint Resolve keeps_expandBlossom : links.

(** Two reads of [inBlossom] from one store. *)
Lemma keeps_inBlossom_pair {B} (Q : B -> Prop) v w (k : Z -> Z -> prog B) :
  (forall bv bw, (v = w -> bv = bw) -> keepsLinks g Q (k bv bw)) ->
  keepsLinks g Q
    (let* bv := getInBlossom v in let* bw := getInBlossom w in k bv bw).
Proof.
  intros Hk s Hs. wp_read bv Hbv. wp_read bw Hbw.
  apply Hk; [|exact Hs]. intros ->. congruence.
Qed.

Lemma keeps_scanNeighbour v p :
  nthZ (endpoint g) (getOppositeEndpoint p) = Some v ->
  keepsLinks g anyValue (scanNeighbour g fuel v p).
Proof.
  intros Hv. unfold scanNeighbour. cbv zeta.
  kread adj Hadj. apply keeps_inBlossom_pair. intros bc ba Hb.
  destruct (Z.eqb_spec bc ba) as [_|Hne]; [kstep|].
  assert (Hp : properEndpoint g p).
  { exists adj, v. repeat split; try assumption. intros ->. auto. }
  destruct (proper_edge_ends g p Hp) as [Hk0 Hk1].
  kstep. kstep. kbind allowed. destruct allowed.
  - kbind unlabeled. destruct unlabeled; [kstep; kstep|].
    kbind isS. destruct isS.
    + kbind base. destruct (_ >=? _); repeat kstep.
    + kstep. destruct (_ =? _); repeat kstep.
  - repeat kstep.
Qed.

Hint Resolve keeps_scanNeighbour : links.

Hypothesis g_far : neighboursFar g.

Lemma keeps_searchLoop : keepsLinks g anyValue (searchLoop g fuel).
Proof.
  unfold searchLoop.
  apply (keeps_loop g (fun _ => True) anyValue); [|exact I].
  intros [] _. kstep. destruct (_ >? _); [|kstep].
  kstep. unfold getNeighbend. kread nb Hnb.
  kbind augmented; [|destruct augmented; kstep].
  apply keeps_forEachBreak. intros p Hp. apply keeps_scanNeighbour.
  eapply g_far; eauto.
Qed.

Lemma keeps_actOnDelta d : keepsLinks g anyValue (actOnDelta g fuel d).
Proof.
  unfold actOnDelta, getEdge.
  destruct (_ =? _); [kstep|].
  destruct (_ =? _).
  { kstep. kread e He. destruct e as [[v1 v2] q]. repeat kstep. }
  destruct (_ =? _).
  { kstep. kread e He. destruct e as [[v1 v2] q]. repeat kstep. }
  destruct (_ =? _); repeat kstep.
Qed.

Lemma keeps_dualAdjust : keepsLinks g anyValue (dualAdjust g fuel).
Proof. unfold dualAdjust. kstep. kstep. apply keeps_actOnDelta. Qed.

Lemma keeps_stageSearch : keepsLinks g anyValue (stageSearch g fuel).
Proof.
  unfold stageSearch.
  apply (keeps_loop g (fun _ => True) anyValue); [|exact I].
  intros [] _. kbind augmented; [apply keeps_searchLoop|].
  destruct augmented; [kstep|]. kbind stop; [apply keeps_dualAdjust|].
  destruct stop; kstep.
Qed.

Lemma keeps_endStageExpand : keepsLinks g anyValue (endStageExpand g fuel).
Proof.
  unfold endStageExpand. cbv zeta. apply keeps_forEach. intros b _.
  kstep. destruct (_ =? _); [|kstep].
  kstep. destruct (_ >=? _); [|kstep].
  kstep. destruct (_ =? _); [|kstep].
  kstep. destruct (jsEq _ _); kstep.
Qed.

Lemma keeps_initRoots : keepsLinks g anyValue (initRoots g fuel).
Proof.
  unfold initRoots. apply keeps_forEach. intros v _.
  kstep. destruct (_ =? _); [|kstep].
  kstep. kstep. destruct (_ =? _); [|kstep].
  apply keeps_assignLabel. apply ok_unmatched.
Qed.

Lemma keeps_stages : keepsLinks g anyValue (stages g fuel).
Proof.
  unfold stages. apply keeps_forEachBreak. intros t _.
  unfold stage. kstep. unfold stageBody.
  kstep; [apply keeps_initRoots|].
  kbind augmented; [apply keeps_stageSearch|].
  destruct augmented; [|kstep]. kstep; [apply keeps_endStageExpand|]. kstep.
Qed.

End LinksMethods.

Lemma initialState_linksProper g : linksProper g (initialState g).
Proof.
  unfold linksProper. cbn [initialState mate labelEnd blossomEndPs].
  unfold filledArray, initArrArr.
  repeat split; apply Forall_replicate;
    first [left; reflexivity | constructor].
Qed.

Lemma wp_conj {A} R (Q1 Q2 : A -> State -> Prop) (p : prog A) s :
  wp R Q1 p s -> wp R Q2 p s -> wp R (fun a s' => Q1 a s' /\ Q2 a s') p s.
Proof.
  revert s. induction p as [a|h|k IH|s0 k IH]; intros s; cbn [wp].
  - auto.
  - auto.
  - apply IH.
  - intros [H1 H2] [_ H3]. split; [exact H1|]. apply IH; assumption.
Qed.

Lemma graph_neighboursFar (es : list Edge) (mc : bool) :
  Forall (fun e : Edge => 0 <= e.1.1 /\ 0 <= e.1.2) es ->
  neighboursFar (initializeGraphProperties es mc).
Proof.
  intros Hpos v l p Hl Hp.
  destruct (neighbend_upTo es mc Hpos) as [_ Hinv].
  apply nthZ_Some in Hl. destruct Hl as [Hv Hl].
  destruct (Hinv _ _ Hl) as [_ Hmem]. apply Hmem in Hp.
  rewrite Z2Nat.id in Hp by lia.
  apply incidentEndpoint_endpoint in Hp. exact Hp.
Qed.

Lemma runEdmonds_no_self_match fuel (es : list Edge) mc M st :
  Forall (fun e : Edge => 0 <= e.1.1 /\ 0 <= e.1.2) es ->
  runEdmonds fuel es mc = Returned (M, st) ->
  forall v, nthZ M v <> Some v.
Proof.
  intros Hpos Hrun. apply runEdmonds_Returned in Hrun.
  set (g := initializeGraphProperties es mc) in *.
  assert (Hpost :
    wp anyStore (fun M' _ => forall v, nthZ M' v <> Some v)
       (maxWeightMatching g fuel) (initialState g)).
  { unfold maxWeightMatching. apply wp_bind.
    eapply wp_weaken;
      [|apply wp_conj;
        [apply (wp_relax (keepsMateShape g)); [intros; exact I|];
         apply (wp_final (keepsMateShape g) (stages g fuel) (initialState g));
         [apply keepsMateShape_trans|apply keepsMateShape_refl|];
         apply stages_keep_mateShape;
         intros k0 v0 w0 q0 Hk0; exact (graph_endpoint es mc k0 v0 w0 q0 Hk0)
        |apply (keeps_stages g fuel (graph_neighboursFar es mc Hpos));
         apply initialState_linksProper]].
    intros b s1 [[L1 H1] [HL _]]. cbv beta.
    specialize (H1 (initialState_mateShape g)).
    apply wp_bind.
    eapply wp_weaken; [|apply matesToVertices_values].
    intros [] s2 [L2 H2]. cbv beta. apply wp_rd_intro.
    intros M' [= <-] v Hvv.
    assert (Hv0 : 0 <= v) by (apply nthZ_Some in Hvv; lia).
    assert (exists p, nthZ (mate s1) v = Some p) as [p Hp].
    { apply nthZ_Some in Hvv. destruct Hvv as [_ Hvv].
      apply lookup_lt_Some in Hvv. rewrite L2 in Hvv.
      destruct (lookup_lt_is_Some_2 (mate s1) (Z.to_nat v) Hvv) as [p Hp].
      exists p. apply nthZ_Some. auto. }
    pose proof (links_read_mate g s1 v p HL Hp) as Hok.
    destruct (decide (v ∈ zrange 0 (nVertex g))) as [Hin|Hnin].
    - destruct (H2 v) as [Hd _]. rewrite (Hd Hin p Hp) in Hvv.
      unfold mateVertex in Hvv.
      destruct (Z.geb_spec p 0) as [Hge|Hlt].
      + destruct (ok_read g p v Hok Hvv) as (a & c & Ha & Hc & Hne).
        destruct (H1 v p Hp) as [->|Hfar]; [unfold UNMATCHED in Hge; lia|].
        congruence.
      + injection Hvv as ->. lia.
    - destruct (H2 v) as [_ Hs]. rewrite (Hs Hnin) in Hvv.
      rewrite Hp in Hvv. injection Hvv as ->.
      destruct Hok as [E|Hpr]; [unfold UNMATCHED in E; lia|].
      destruct (H1 v v Hp) as [E|Hfar]; [unfold UNMATCHED in E; lia|].
      destruct Hpr as (a & c & Ha & Hc & Hne).
      apply Hnin. apply elem_of_zrange.
      apply nthZ_Some in Hp. destruct Hp as [_ Hp].
      apply lookup_lt_Some in Hp. rewrite L1 in Hp.
      cbn [initialState mate] in Hp. unfold filledArray in Hp.
      rewrite length_replicate in Hp. lia. }
  exact (wp_run _ _ _ _ _ _ Hpost Hrun).
Qed.

(** X22.  [blossom] never matches a vertex to itself: no entry of an
    array it returns holds its own index, whether or not the input has
    self-loops.  (No endpoint kept in [mate], [labelEnd] or [blossomEndPs]
    ever belongs to a self-loop.) *)
Theorem blossom_never_matches_vertex_to_itself (fuel : nat) (es : list JsVal)
    (maxCardinality : option bool) (M : list Z) :
  blossom fuel (JArray es) maxCardinality = Returned M ->
  forall v, nthZ M v <> Some v.
Proof.
  intros Hrun v.
  destruct es as [|e0 es0].
  { cbn in Hrun. injection Hrun as <-.
    unfold nthZ. destruct (v <? 0); discriminate. }
  rewrite blossom_nonempty in Hrun.
  destruct (validateEdges (e0 :: es0)) as [err|] eqn:Hval; [discriminate|].
  apply validateEdges_None in Hval.
  destruct (runEdmonds _ _ _) as [[m st]|f] eqn:R; [|discriminate].
  injection Hrun as ->.
  eapply runEdmonds_no_self_match; [|exact R].
  apply Forall_map. eapply Forall_impl; [exact Hval|].
  intros e He. apply toEdge_nonneg. exact He.
Qed.

Lemma blossom_never_matches_vertex_to_itself_witness :
  let es := map jsEdge [(1, 1, 9); (1, 2, 5); (2, 2, 7)] in
  blossom 20 (JArray es) None = Returned [-1; 2; 1] /\
  forall v, nthZ [-1; 2; 1] v <> Some v.
Proof.
  intros es.
  assert (H : blossom 20 (JArray es) None = Returned [-1; 2; 1])
    by (vm_compute; reflexivity).
  split; [exact H|].
  exact (blossom_never_matches_vertex_to_itself 20 es None [-1; 2; 1] H).
Defined.

(** ** Matched vertices stay matched *)
Lemma staysMatched_refl s : staysMatched s s.
Proof. split; [reflexivity|]. intros v p Hp H0. exists p. auto. Qed.

Lemma staysMatched_trans x y z :
  staysMatched x y -> staysMatched y z -> staysMatched x z.
Proof.
  intros [L1 H1] [L2 H2]. split; [congruence|].
  intros v p Hp H0. destruct (H1 v p Hp H0) as (q & Hq & Hq0). eauto.
Qed.

Lemma staysMatched_frame s s' : mate s' = mate s -> staysMatched s s'.
Proof.
  intros E. unfold staysMatched. rewrite E. apply (staysMatched_refl s).
Qed.

Lemma staysMatched_mate g s v x l :
  nthZ (endpoint g) (getOppositeEndpoint x) = Some v ->
  setZ (mate s) v x = Some l -> staysMatched s (set_mate s l).
Proof.
  intros Hx E. apply nthZ_Some in Hx. destruct Hx as [Hx _].
  apply (proj1 (opp_nonneg x)) in Hx.
  split; cbn [mate set_mate]; [eapply setZ_length; eauto|].
  intros u p Hp H0. destruct (Z.eq_dec v u) as [->|Hne].
  - exists x. split; [eapply nthZ_setZ_eq; eauto|exact Hx].
  - exists p. split; [|exact H0]. rewrite <- Hp. eapply nthZ_setZ_ne; eauto.
Qed.

(** X23.  The stage loop never unmatches a vertex: of two stores of a run
    of the loop, the later one has [mate[v] >= 0] wherever the earlier one
    has (the partner may change). *)
Theorem matched_vertices_stay_matched (es : list Edge) (mc : bool)
    (fuel : nat) (s : State) (i j : nat) (s1 s2 : State) (v p : Z) :
  let g := initializeGraphProperties es mc in
  (i <= j)%nat ->
  (s :: trace (stages g fuel) s) !! i = Some s1 ->
  (s :: trace (stages g fuel) s) !! j = Some s2 ->
  nthZ (mate s1) v = Some p -> 0 <= p ->
  exists q, nthZ (mate s2) v = Some q /\ 0 <= q.
Proof.
  intros g Hij H1 H2 Hp H0.
  assert (staysMatched s1 s2) as [_ H]; [|exact (H v p Hp H0)].
  eapply (wp_trace_from staysMatched (fun _ _ => anyValue tt)
            (stages g fuel) s staysMatched_refl staysMatched_trans); eauto.
  eapply wp_weaken; [|apply (respects_stages g fuel staysMatched)].
  - intros; exact I.
  - intros; apply staysMatched_frame; assumption.
  - intros; apply staysMatched_frame; reflexivity.
  - apply staysMatched_mate.
  - apply graph_endpoint.
  - intros; apply staysMatched_frame; reflexivity.
Qed.

Lemma matched_vertices_stay_matched_witness :
  let g := initializeGraphProperties sBlossomEdges false in
  let stores := initialState g :: trace (stages g 50) (initialState g) in
  (51 <= 183)%nat /\
  stores !! 51%nat = Some (storeAt sBlossomEdges 51) /\
  stores !! 183%nat = Some (storeAt sBlossomEdges 183) /\
  nthZ (mate (storeAt sBlossomEdges 51)) 3 = Some 4 /\ 0 <= 4 /\
  nthZ (mate (storeAt sBlossomEdges 183)) 3 = Some 7 /\
  exists q, nthZ (mate (storeAt sBlossomEdges 183)) 3 = Some q /\ 0 <= q.
Proof.
  intros g stores.
  assert (H2 : (51 <= 183)%nat) by lia.
  assert (H3 : stores !! 51%nat = Some (storeAt sBlossomEdges 51))
    by (vm_compute; reflexivity).
  assert (H4 : stores !! 183%nat = Some (storeAt sBlossomEdges 183))
    by (vm_compute; reflexivity).
  assert (H5 : nthZ (mate (storeAt sBlossomEdges 51)) 3 = Some 4)
    by (vm_compute; reflexivity).
  assert (H6 : 0 <= 4) by lia.
  do 5 (split; [assumption|]).
  split; [vm_compute; reflexivity|].
  exact (matched_vertices_stay_matched sBlossomEdges false 50 (initialState g)
           51 183 _ _ 3 4 H2 H3 H4 H5 H6).
Defined.
